(** * Fixed-window rate limiter: Count-Min Sketch, hot-key detector,
      hot-key batcher and the slot-grouping engine.

    Shallow embedding of the Go sources of the [redis] package
    (count_min_sketch.go, hot_key_detector.go, hot_key_batcher.go,
    fixed_cache_impl.go).  Unsigned machine integers are values of [Z]
    with the wrap-around written out; Go maps are [gmap]s; slices are
    lists indexed with stdpp's lookup, and an out-of-range index, which
    panics in Go, makes the embedded function return [None]. *)

From stdpp Require Import gmap strings list fin_maps.
From Stdlib Require Import ZArith Lia.

Local Open Scope Z_scope.

#[local] Set Warnings "-clear-no-such-hyp".

(** ** Machine integers *)

Definition MaxUint32 : Z := 4294967295.
Definition MaxUint64 : Z := 18446744073709551615.

(** Go's conversions [uint32(x)] and [uint64(x)], and the result of any
    arithmetic operation at that type. *)
Definition uint32 (z : Z) : Z := z mod 4294967296.
Definition uint64 (z : Z) : Z := z mod 18446744073709551616.

(** Go's [int] on a 64-bit platform: the result of an arithmetic
    operation at that type. *)
Definition int64 (z : Z) : Z :=
  (z + 9223372036854775808) mod 18446744073709551616 - 9223372036854775808.

Definition isUint32 (z : Z) : Prop := 0 <= z <= MaxUint32.
Definition isUint64 (z : Z) : Prop := 0 <= z <= MaxUint64.

(** Bytes of a Go string. *)
Definition bytesOf (s : string) : list Z :=
  map (fun a => Z.of_N (Ascii.N_of_ascii a)) (String.list_ascii_of_string s).

(** ** Count-Min Sketch (count_min_sketch.go) *)

Module CMS.

Record CountMinSketch := mkCMS {
  width : Z;
  depth : Z;
  counters : list (list Z);
  seeds : list Z
}.

Definition withCounters (cms : CountMinSketch) (cs : list (list Z)) : CountMinSketch :=
  {| width := width cms; depth := depth cms; counters := cs; seeds := seeds cms |}.

(** [if depth < 2 { depth = 2 }; if depth > 8 { depth = 8 }] *)
Definition clampDepth (depth : Z) : Z :=
  let depth := if depth <? 2 then 2 else depth in
  if depth >? 8 then 8 else depth.

(** [width := uint32(memoryBytes / (depth * 4)); if width < 256 { width = 256 }].
    Go's [/] on [int] truncates toward zero, hence [Z.quot]. *)
Definition sketchWidth (memoryBytes depth : Z) : Z :=
  let width := uint32 (Z.quot memoryBytes (depth * 4)) in
  if width <? 256 then 256 else width.

(** [seeds[i] = uint64(i)*0x9E3779B97F4A7C15 + 0x517CC1B727220A95] *)
Definition rowSeed (i : Z) : Z :=
  uint64 (uint64 i * 11400714819323198485 + 5871781006564002453).

Definition NewCountMinSketch (memoryBytes depth : Z) : CountMinSketch :=
  let depth := clampDepth depth in
  let width := sketchWidth memoryBytes depth in
  {| width := width;
     depth := uint32 depth;
     counters := replicate (Z.to_nat depth) (replicate (Z.to_nat width) 0);
     seeds := map (fun i => rowSeed (Z.of_nat i)) (seq 0 (Z.to_nat depth)) |}.

Section Sketch.

(** The 64-bit digest of the xxhash library ([xxhash.New], [Write],
    [Sum64]) applied to the bytes written; the library is not part of the
    repository. *)
Variable Sum64 : list Z -> Z.

(** [seedBytes := []byte{byte(seed), byte(seed >> 8), ..., byte(seed >> 56)}] *)
Definition seedBytes (seed : Z) : list Z :=
  map (fun s => Z.shiftr seed s mod 256) [0; 8; 16; 24; 32; 40; 48; 56].

(** [uint32(h.Sum64() % uint64(cms.width))] *)
Definition hash (cms : CountMinSketch) (key : string) (seed : Z) : Z :=
  uint32 (uint64 (Sum64 (seedBytes seed ++ bytesOf key)) mod uint64 (width cms)).

(** The body of the loop of [Increment], rows [i, i + fuel). *)
Fixpoint incrementLoop (fuel i : nat) (key : string) (delta : Z)
    (cms : CountMinSketch) (minCount : Z) : option (CountMinSketch * Z) :=
  match fuel with
  | O => Some (cms, minCount)
  | S fuel' =>
      seed ← seeds cms !! i;
      row ← counters cms !! i;
      let idx := Z.to_nat (hash cms key seed) in
      old ← row !! idx;
      let newVal := uint32 (old + delta) in
      let newVal := if newVal <? old then MaxUint32 else newVal in
      let cms' := withCounters cms (<[i := <[idx := newVal]> row]> (counters cms)) in
      let minCount := if newVal <? minCount then newVal else minCount in
      incrementLoop fuel' (S i) key delta cms' minCount
  end.

Definition Increment (cms : CountMinSketch) (key : string) (delta : Z)
    : option (CountMinSketch * Z) :=
  incrementLoop (Z.to_nat (depth cms)) 0 key delta cms MaxUint32.

Fixpoint estimateLoop (fuel i : nat) (key : string)
    (cms : CountMinSketch) (minCount : Z) : option Z :=
  match fuel with
  | O => Some minCount
  | S fuel' =>
      seed ← seeds cms !! i;
      row ← counters cms !! i;
      count ← row !! Z.to_nat (hash cms key seed);
      let minCount := if count <? minCount then count else minCount in
      estimateLoop fuel' (S i) key cms minCount
  end.

Definition Estimate (cms : CountMinSketch) (key : string) : option Z :=
  estimateLoop (Z.to_nat (depth cms)) 0 key cms MaxUint32.

(** The column of [key] in row [i], and the sequence of calls of a client. *)
Definition column (cms : CountMinSketch) (key : string) (i : nat) : option nat :=
  seed ← seeds cms !! i; Some (Z.to_nat (hash cms key seed)).

Fixpoint incrementAll (cms : CountMinSketch) (calls : list (string * Z))
    : option CountMinSketch :=
  match calls with
  | [] => Some cms
  | (key, delta) :: calls' =>
      '(cms', _) ← Increment cms key delta;
      incrementAll cms' calls'
  end.

(** [Reset]: every cell becomes zero. *)
Definition Reset (cms : CountMinSketch) : CountMinSketch :=
  withCounters cms (map (map (fun _ => 0)) (counters cms)).

End Sketch.

(** [Decay(factor)] for a factor strictly between 0 and 1 (any other
    factor leaves the sketch as it is): every cell [c] becomes
    [uint32(float64(c) * factor)]; [scale] stands for that floating-point
    computation. *)
Definition Decay (scale : Z -> Z) (cms : CountMinSketch) : CountMinSketch :=
  withCounters cms (map (map scale) (counters cms)).

(** The cell of row [i] and column [j]. *)
Definition cellAt (cms : CountMinSketch) (i j : nat) : option Z :=
  row ← counters cms !! i; row !! j.

(** The sketches the constructor can build, up to the cell values: the
    matrix has [depth] rows of [width] cells and one seed per row. *)
Definition shaped (cms : CountMinSketch) : Prop :=
  0 < width cms <= MaxUint32 /\
  0 < depth cms /\
  length (counters cms) = Z.to_nat (depth cms) /\
  length (seeds cms) = Z.to_nat (depth cms) /\
  Forall (fun row => length row = Z.to_nat (width cms)) (counters cms).

(** Every cell holds a [uint32]. *)
Definition bounded (cms : CountMinSketch) : Prop :=
  Forall (Forall isUint32) (counters cms).

(** The value [Increment] stores in a cell that held [old]. *)
Definition updatedCell (old delta : Z) : Z :=
  let newVal := uint32 (old + delta) in
  if newVal <? old then MaxUint32 else newVal.

(** The true count of [key]: the deltas of the calls made for it. *)
Definition trueCount (key : string) (calls : list (string * Z)) : Z :=
  foldr (fun c acc => if decide (c.1 = key) then c.2 + acc else acc) 0 calls.

(** [Width], [Depth] and [MemoryUsage]:
    [int(cms.width) * int(cms.depth) * 4]. *)
Definition Width (cms : CountMinSketch) : Z := width cms.

Definition Depth (cms : CountMinSketch) : Z := depth cms.

Definition MemoryUsage (cms : CountMinSketch) : Z :=
  int64 (int64 (width cms * depth cms) * 4).

(** The nested loops of [Decay] and [Reset],
    [for i < depth { for j < width { counters[i][j] = f(counters[i][j]) } }],
    with their index checks. *)
Fixpoint rowLoop (f : Z -> Z) (fuel j : nat) (row : list Z) : option (list Z) :=
  match fuel with
  | O => Some row
  | S fuel' => c ← row !! j; rowLoop f fuel' (S j) (<[j := f c]> row)
  end.

Fixpoint matrixLoop (f : Z -> Z) (w : nat) (fuel i : nat) (cs : list (list Z))
    : option (list (list Z)) :=
  match fuel with
  | O => Some cs
  | S fuel' =>
      row ← cs !! i;
      row' ← rowLoop f w 0 row;
      matrixLoop f w fuel' (S i) (<[i := row']> cs)
  end.

Definition forCells (f : Z -> Z) (cms : CountMinSketch) : option CountMinSketch :=
  withCounters cms
    <$> matrixLoop f (Z.to_nat (width cms)) (Z.to_nat (depth cms)) 0 (counters cms).

(** The calls a client can make on a sketch; [scale] is the cell map of
    the decay factor in use (the identity for a factor outside (0, 1),
    for which [Decay] returns at once). *)
Inductive sketchOp : Type :=
  | SIncrement (key : string) (delta : Z)
  | SDecay
  | SReset.

Definition applyOp (Sum64 : list Z -> Z) (scale : Z -> Z) (cms : CountMinSketch)
    (o : sketchOp) : option CountMinSketch :=
  match o with
  | SIncrement key delta => fst <$> Increment Sum64 cms key delta
  | SDecay => forCells scale cms
  | SReset => forCells (fun _ => 0) cms
  end.

Fixpoint applyOps (Sum64 : list Z -> Z) (scale : Z -> Z) (cms : CountMinSketch)
    (ops : list sketchOp) : option CountMinSketch :=
  match ops with
  | [] => Some cms
  | o :: ops' => cms ← applyOp Sum64 scale cms o; applyOps Sum64 scale cms ops'
  end.

End CMS.

(** ** Hot-key detector (hot_key_detector.go) *)

Module Detector.
Import CMS.

Record HotKeyDetector := mkDetector {
  cms : CountMinSketch;
  hotThreshold : Z;
  hotKeys : gset string;
  hotKeysList : list string;
  maxHotKeys : Z;
  decayInterval : Z;
  lastDecayTime : Z
}.

Record HotKeyDetectorConfig := mkDetectorConfig {
  SketchMemoryBytes : Z;
  SketchDepth : Z;
  HotThreshold : Z;
  MaxHotKeys : Z;
  DecayInterval : Z
}.

(** [now] is the reading of [time.Now()]. The decay factor of the
    configuration is a float; it enters the model as the cell map
    [scale] of [CMS.Decay]. *)
Definition NewHotKeyDetector (config : HotKeyDetectorConfig) (now : Z) : HotKeyDetector :=
  let maxKeys := if MaxHotKeys config <=? 0 then 10000 else MaxHotKeys config in
  let threshold := if HotThreshold config <=? 0 then 100 else HotThreshold config in
  {| cms := NewCountMinSketch (SketchMemoryBytes config) (SketchDepth config);
     hotThreshold := threshold;
     hotKeys := ∅;
     hotKeysList := [];
     maxHotKeys := maxKeys;
     decayInterval := DecayInterval config;
     lastDecayTime := now |}.

Definition withCms (d : HotKeyDetector) (c : CountMinSketch) : HotKeyDetector :=
  {| cms := c; hotThreshold := hotThreshold d; hotKeys := hotKeys d;
     hotKeysList := hotKeysList d; maxHotKeys := maxHotKeys d;
     decayInterval := decayInterval d; lastDecayTime := lastDecayTime d |}.

Definition withHot (d : HotKeyDetector) (hk : gset string) (l : list string) : HotKeyDetector :=
  {| cms := cms d; hotThreshold := hotThreshold d; hotKeys := hk;
     hotKeysList := l; maxHotKeys := maxHotKeys d;
     decayInterval := decayInterval d; lastDecayTime := lastDecayTime d |}.

Definition withLastDecayTime (d : HotKeyDetector) (t : Z) : HotKeyDetector :=
  {| cms := cms d; hotThreshold := hotThreshold d; hotKeys := hotKeys d;
     hotKeysList := hotKeysList d; maxHotKeys := maxHotKeys d;
     decayInterval := decayInterval d; lastDecayTime := t |}.

Definition isHot (d : HotKeyDetector) (key : string) : bool :=
  bool_decide (key ∈ hotKeys d).

(** The loop of [touchHotKey]: drop the first occurrence of [key]. *)
Fixpoint removeFirst (key : string) (l : list string) : list string :=
  match l with
  | [] => []
  | k :: l' => if decide (k = key) then l' else k :: removeFirst key l'
  end.

Definition touchHotKey (d : HotKeyDetector) (key : string) : HotKeyDetector :=
  withHot d (hotKeys d) (removeFirst key (hotKeysList d) ++ [key]).

(** [for len(d.hotKeysList) >= d.maxHotKeys { evictKey := d.hotKeysList[0]; ... }];
    indexing the empty list panics. *)
Fixpoint evictLoop (maxKeys : Z) (hk : gset string) (l : list string)
    : option (gset string * list string) :=
  match l with
  | [] => if Z.of_nat (length (@nil string)) >=? maxKeys then None else Some (hk, [])
  | evictKey :: l' =>
      if Z.of_nat (length l) >=? maxKeys
      then evictLoop maxKeys (hk ∖ {[evictKey]}) l'
      else Some (hk, l)
  end.

Definition promoteToHot (d : HotKeyDetector) (key : string) : option HotKeyDetector :=
  if bool_decide (key ∈ hotKeys d) then Some d
  else
    '(hk, l) ← evictLoop (maxHotKeys d) (hotKeys d) (hotKeysList d);
    Some (withHot d ({[key]} ∪ hk) (l ++ [key])).

Section Decaying.

Variable Sum64 : list Z -> Z.
Variable scale : Z -> Z.

Fixpoint cleanupLoop (c : CountMinSketch) (threshold : Z) (l : list string)
    (hk : gset string) (newList : list string) : option (gset string * list string) :=
  match l with
  | [] => Some (hk, newList)
  | key :: l' =>
      e ← Estimate Sum64 c key;
      if e >=? threshold
      then cleanupLoop c threshold l' hk (newList ++ [key])
      else cleanupLoop c threshold l' (hk ∖ {[key]}) newList
  end.

Definition cleanupColdKeys (d : HotKeyDetector) : option HotKeyDetector :=
  '(hk, l) ← cleanupLoop (cms d) (hotThreshold d) (hotKeysList d) (hotKeys d) [];
  Some (withHot d hk l).

(** [time.Since(d.lastDecayTime)] is [now - lastDecayTime d]. *)
Definition maybeDecay (d : HotKeyDetector) (now : Z) : option HotKeyDetector :=
  if now - lastDecayTime d >=? decayInterval d
  then
    let d := withLastDecayTime d now in
    let d := withCms d (Decay scale (cms d)) in
    cleanupColdKeys d
  else Some d.

Definition RecordAccessWithDelta (d : HotKeyDetector) (now : Z) (key : string) (delta : Z)
    : option (HotKeyDetector * bool) :=
  d ← maybeDecay d now;
  '(c, count) ← Increment Sum64 (cms d) key delta;
  let d := withCms d c in
  if isHot d key then Some (touchHotKey d key, true)
  else if count >=? hotThreshold d
  then d ← promoteToHot d key; Some (d, true)
  else Some (d, false).

Definition RecordAccess (d : HotKeyDetector) (now : Z) (key : string)
    : option (HotKeyDetector * bool) :=
  RecordAccessWithDelta d now key 1.

Definition GetHotKeyCount (d : HotKeyDetector) : nat := size (hotKeys d).

(** The operations that change a detector. Each of [touchHotKey],
    [promoteToHot] and [cleanupColdKeys] runs under the detector's lock,
    so an execution of concurrent [RecordAccess] calls is a sequence of
    them; the calls themselves are in the list as well. *)
Inductive op : Type :=
  | OpRecordAccess (now : Z) (key : string)
  | OpRecordAccessWithDelta (now : Z) (key : string) (delta : Z)
  | OpMaybeDecay (now : Z)
  | OpTouch (key : string)
  | OpPromote (key : string)
  | OpCleanup.

Definition step (d : HotKeyDetector) (o : op) : option HotKeyDetector :=
  match o with
  | OpRecordAccess now key => fst <$> RecordAccess d now key
  | OpRecordAccessWithDelta now key delta => fst <$> RecordAccessWithDelta d now key delta
  | OpMaybeDecay now => maybeDecay d now
  | OpTouch key => Some (touchHotKey d key)
  | OpPromote key => promoteToHot d key
  | OpCleanup => cleanupColdKeys d
  end.

Fixpoint run (d : HotKeyDetector) (ops : list op) : option HotKeyDetector :=
  match ops with
  | [] => Some d
  | o :: ops' => d ← step d o; run d ops'
  end.

(** The key an operation uses. [touchHotKey] and a promotion put their
    key at the end of the LRU list, "most recently used"; a promotion of
    a key that is hot already returns before it touches the list and
    uses nothing; a [RecordAccess] call uses the key it records. *)
Definition used (d : HotKeyDetector) (o : op) : option string :=
  match o with
  | OpRecordAccess _ key => Some key
  | OpRecordAccessWithDelta _ key _ => Some key
  | OpTouch key => Some key
  | OpPromote key => if isHot d key then None else Some key
  | OpMaybeDecay _ => None
  | OpCleanup => None
  end.

Definition stamp (i : nat) (stamps : gmap string nat) (o : option string)
    : gmap string nat :=
  match o with
  | Some key => <[key := i]> stamps
  | None => stamps
  end.

(** For each key, the position in [ops] of the last operation that used
    it; [i] is the position of the head of [ops] and [stamps] holds the
    positions known so far. *)
Fixpoint lastUsed (i : nat) (stamps : gmap string nat) (d : HotKeyDetector)
    (ops : list op) : gmap string nat :=
  match ops with
  | [] => stamps
  | o :: ops' =>
      match step d o with
      | Some d' => lastUsed (S i) (stamp i stamps (used d o)) d' ops'
      | None => stamp i stamps (used d o)
      end
  end.

(** [IsHot], [GetEstimate] and [Reset]; [now] is the reading of
    [time.Now()] in [Reset], whose call of [d.cms.Reset()] runs the
    sketch's loops. *)
Definition IsHot (d : HotKeyDetector) (key : string) : bool := isHot d key.

Definition GetEstimate (d : HotKeyDetector) (key : string) : option Z :=
  Estimate Sum64 (cms d) key.

Definition Reset (d : HotKeyDetector) (now : Z) : option HotKeyDetector :=
  c ← forCells (fun _ => 0) (cms d);
  Some {| cms := c; hotThreshold := hotThreshold d; hotKeys := ∅; hotKeysList := [];
          maxHotKeys := maxHotKeys d; decayInterval := decayInterval d;
          lastDecayTime := now |}.

(** The calls of the detector's interface that change it, as one
    goroutine makes them, one after the other. *)
Inductive call : Type :=
  | CallRecordAccess (now : Z) (key : string)
  | CallRecordAccessWithDelta (now : Z) (key : string) (delta : Z)
  | CallReset (now : Z).

Definition serve (d : HotKeyDetector) (c : call) : option HotKeyDetector :=
  match c with
  | CallRecordAccess now key => fst <$> RecordAccess d now key
  | CallRecordAccessWithDelta now key delta => fst <$> RecordAccessWithDelta d now key delta
  | CallReset now => Reset d now
  end.

Fixpoint serveAll (d : HotKeyDetector) (calls : list call) : option HotKeyDetector :=
  match calls with
  | [] => Some d
  | c :: calls' => d ← serve d c; serveAll d calls'
  end.

(** The test of [cleanupColdKeys]: the keys it keeps. *)
Definition staysHot (c : CountMinSketch) (threshold : Z) (key : string) : bool :=
  match Estimate Sum64 c key with
  | Some e => e >=? threshold
  | None => false
  end.

(** A sequence of [RecordAccessWithDelta] calls, each given as
    [(now, key, delta)]. *)
Fixpoint recordAll (d : HotKeyDetector) (accesses : list (Z * string * Z))
    : option HotKeyDetector :=
  match accesses with
  | [] => Some d
  | (now, key, delta) :: rest =>
      '(d, _) ← RecordAccessWithDelta d now key delta;
      recordAll d rest
  end.

End Decaying.

(** The invariant of the detector: the sketch keeps its shape, the
    capacity is positive, every hot key is on the LRU list, and the hot
    set is within the capacity. *)
Definition consistent (d : HotKeyDetector) : Prop :=
  shaped (cms d) /\
  0 < maxHotKeys d /\
  (forall key, key ∈ hotKeys d -> key ∈ hotKeysList d) /\
  Z.of_nat (size (hotKeys d)) <= maxHotKeys d.

(** The LRU list and the hot set hold the same keys, each once. *)
Definition synced (d : HotKeyDetector) : Prop :=
  NoDup (hotKeysList d) /\ (forall key, key ∈ hotKeysList d <-> key ∈ hotKeys d).

(** What the calls of one goroutine keep true: the shape of the sketch,
    a positive capacity, list and set in step, the list within capacity. *)
Definition orderly (d : HotKeyDetector) : Prop :=
  shaped (cms d) /\ 0 < maxHotKeys d /\ synced d /\
  Z.of_nat (length (hotKeysList d)) <= maxHotKeys d.

(** [k1] was last used before [k2]. *)
Definition older (stamps : gmap string nat) (k1 k2 : string) : Prop :=
  exists t1 t2, stamps !! k1 = Some t1 /\ stamps !! k2 = Some t2 /\ (t1 < t2)%nat.

(** Every entry of a hot key on the list is followed by an entry of
    each hot key used later. *)
Fixpoint ordered (hk : gset string) (stamps : gmap string nat) (l : list string) : Prop :=
  match l with
  | [] => True
  | x :: l' =>
      (x ∈ hk -> forall k2, k2 ∈ hk -> older stamps x k2 -> k2 ∈ l') /\
      ordered hk stamps l'
  end.

(** The positions of last use at position [i] of a run: they lie
    before [i], every hot key has one, no two keys share one, and the
    list is [ordered] by them. *)
Definition stamped (i : nat) (stamps : gmap string nat) (hk : gset string)
    (l : list string) : Prop :=
  (forall k t, stamps !! k = Some t -> (t < i)%nat) /\
  (forall k, k ∈ hk -> is_Some (stamps !! k)) /\
  (forall k1 k2 t, stamps !! k1 = Some t -> stamps !! k2 = Some t -> k1 = k2) /\
  ordered hk stamps l.

(** A [touchHotKey] on its own is the end of a [RecordAccess] call whose
    beginning, the read of [isHot], ran before other operations. *)
Definition detached (o : op) : bool :=
  match o with
  | OpTouch _ => true
  | _ => false
  end.

(** The key a call records, if it records one. *)
Definition recordedKey (c : call) : option string :=
  match c with
  | CallRecordAccess _ key => Some key
  | CallRecordAccessWithDelta _ key _ => Some key
  | CallReset _ => None
  end.

End Detector.

(** ** Store driver interface (driver.go) *)

Definition error : Type := string.

(** A queued command: the receiver the reply is written to (a pointer in
    Go, here the identity of the cell it points to), the command name,
    its key and its numeric arguments. *)
Record Action (R : Type) := mkAction {
  rcv : option R;
  cmd : string;
  key : string;
  args : list Z
}.
Arguments mkAction {R} _ _ _ _.
Arguments rcv {R} _.
Arguments cmd {R} _.
Arguments key {R} _.
Arguments args {R} _.

Definition Pipeline (R : Type) : Type := list (Action R).

(** Modelled from the spec: [Client.PipeAppend] lives in driver_impl.go,
    which is not among the sources; a pipeline is "an ordered sequence of
    store operations" and an operation is "appended" to it. *)
Definition PipeAppend {R : Type} (pipeline : Pipeline R) (rcv : option R)
    (cmd key : string) (args : list Z) : Pipeline R :=
  pipeline ++ [mkAction rcv cmd key args].

(** What goes over the wire for one action. *)
Definition Command : Type := string * string * list Z.

Definition wire {R : Type} (a : Action R) : Command := (cmd a, key a, args a).

(** The [Client] interface as far as the engine and the batcher use it.
    A value of [C] is the client together with the store behind it;
    [Exec] sends one pipeline and yields the new store and either an error
    or one reply per command, [None] being the nil reply. *)
Class Client (C : Type) := {
  GetSlot : C -> string -> Z;
  Exec : C -> list Command -> C * (error + list (option Z))
}.

(** Modelled from the spec: the driver behind [PipeDo] is not among the
    sources; "INCREMENT_BY(key, n) -> newValue", "GET(key) -> value | nil",
    and an increment's result is bound to the cell given when it was
    appended. Replies are written through the receivers, position by
    position; a nil reply leaves its receiver untouched. *)
Fixpoint writeBack {R : Type} (p : Pipeline R) (replies : list (option Z)) : list (R * Z) :=
  match p, replies with
  | a :: p', r :: replies' =>
      match rcv a, r with
      | Some x, Some v => (x, v) :: writeBack p' replies'
      | _, _ => writeBack p' replies'
      end
  | _, _ => []
  end.

Definition PipeDo {C : Type} `{Client C} {R : Type} (c : C) (p : Pipeline R)
    : C * (error + list (R * Z)) :=
  let '(c', r) := Exec c (map wire p) in
  (c', match r with
       | inl err => inl err
       | inr replies => inr (writeBack p replies)
       end).

(** A client that keeps, besides the client [inner] it passes every call
    to, the command sequences it was asked to execute, oldest first. *)
Record Traced (C : Type) := mkTraced {
  inner : C;
  executed : list (list Command)
}.
Arguments mkTraced {C} _ _.
Arguments inner {C} _.
Arguments executed {C} _.

#[global] Instance tracedClient {C : Type} `{Client C} : Client (Traced C) := {|
  GetSlot t key := GetSlot (inner t) key;
  Exec t cmds :=
    let '(c, r) := Exec (inner t) cmds in
    (mkTraced c (executed t ++ [cmds]), r)
|}.

(** ** Hot-key batcher (hot_key_batcher.go) *)

Module Batcher.

Record HotKeyBatcherResult := mkResult {
  Value : Z;
  Err : option error
}.

(** [resultChan] is the identity of the waiter's channel. *)
Record pendingWaiter := mkWaiter {
  hitsAddend : Z;
  resultChan : nat
}.

Record aggregatedIncrement := mkAgg {
  totalHits : Z;
  expirationSeconds : Z;
  waiters : list pendingWaiter
}.

(** [nextChan] numbers the channels made by [Submit]. *)
Record HotKeyBatcher := mkBatcher {
  flushWindow : Z;
  pending : gmap string aggregatedIncrement;
  nextChan : nat
}.

Definition NewHotKeyBatcher (flushWindow : Z) : HotKeyBatcher :=
  let flushWindow := if flushWindow <=? 0 then 300000 else flushWindow in
  {| flushWindow := flushWindow; pending := ∅; nextChan := 0 |}.

Definition Submit (b : HotKeyBatcher) (key : string) (hitsAddend : Z)
    (expirationSeconds : Z) : HotKeyBatcher * nat :=
  let resultChan := nextChan b in
  let waiter := {| hitsAddend := hitsAddend; resultChan := resultChan |} in
  let agg :=
    match pending b !! key with
    | Some agg => agg
    | None => {| totalHits := 0; expirationSeconds := expirationSeconds; waiters := [] |}
    end in
  let total := uint64 (totalHits agg + hitsAddend) in
  let expiration :=
    if expirationSeconds >? Batcher.expirationSeconds agg
    then expirationSeconds else Batcher.expirationSeconds agg in
  let agg := {| totalHits := total; expirationSeconds := expiration;
                waiters := waiters agg ++ [waiter] |} in
  ({| flushWindow := flushWindow b;
      pending := <[key := agg]> (pending b);
      nextChan := S resultChan |}, resultChan).

(** The reverse walk of [flush]: the results of [ws] and the running count
    left once every waiter of [ws] has been visited, last one first. *)
Fixpoint reverseWalk (ws : list pendingWaiter) (runningCount : Z) : list Z * Z :=
  match ws with
  | [] => ([], runningCount)
  | w :: ws' =>
      let '(rs, running) := reverseWalk ws' runningCount in
      (running :: rs, uint64 (running - hitsAddend w))
  end.

Definition waiterResults (finalCount : Z) (ws : list pendingWaiter) : list Z :=
  fst (reverseWalk ws finalCount).

(** One send and close per waiter. *)
Definition Delivery : Type := nat * HotKeyBatcherResult.

(** The two commands [flush] queues for one key: the increment, whose
    reply goes to the result cell of the key, and the expiry. *)
Definition keyActions (key : string) (agg : aggregatedIncrement) : Pipeline string :=
  [mkAction (Some key) "INCRBY" key [totalHits agg];
   mkAction None "EXPIRE" key [expirationSeconds agg]].

Definition buildPipeline (toFlush : list (string * aggregatedIncrement)) : Pipeline string :=
  foldl (fun pipeline '(key, agg) =>
           let pipeline := PipeAppend pipeline (Some key) "INCRBY" key [totalHits agg] in
           PipeAppend pipeline None "EXPIRE" key [expirationSeconds agg])
        [] toFlush.

(** The map [results]: one zero-initialised cell per key, then the
    replies written through the receivers. *)
Definition resultCells (toFlush : list (string * aggregatedIncrement))
    (writes : list (string * Z)) : gmap string Z :=
  foldl (fun m '(k, v) => <[k := v]> m)
        (list_to_map (map (fun '(k, _) => (k, 0)) toFlush)) writes.

Definition distribute (toFlush : list (string * aggregatedIncrement))
    (outcome : error + list (string * Z)) : list Delivery :=
  flat_map (fun '(key, agg) =>
    match outcome with
    | inl err => map (fun w => (resultChan w, {| Value := 0; Err := Some err |})) (waiters agg)
    | inr writes =>
        let finalCount := default 0 (resultCells toFlush writes !! key) in
        zip (map resultChan (waiters agg))
            (map (fun v => {| Value := v; Err := None |})
                 (waiterResults finalCount (waiters agg)))
    end) toFlush.

Definition flush {C : Type} `{Client C} (b : HotKeyBatcher) (c : C)
    : HotKeyBatcher * C * list Delivery :=
  if bool_decide (size (pending b) = 0%nat) then (b, c, [])
  else
    let toFlush := map_to_list (pending b) in
    let b := {| flushWindow := flushWindow b; pending := ∅; nextChan := nextChan b |} in
    let pipeline := buildPipeline toFlush in
    let '(c, outcome) := PipeDo c pipeline in
    (b, c, distribute toFlush outcome).

(** What a flush tick sends to the store: nothing, or the one pipeline
    made of a pending batch. *)
Definition flushedBatch (flushed : list (list Command)) : Prop :=
  flushed = [] \/
  exists b, size (pending b) <> 0%nat /\
            flushed = [map wire (buildPipeline (map_to_list (pending b)))].

Definition PendingCount (b : HotKeyBatcher) : nat := size (pending b).

(** A sequence of [Submit] calls between two flushes, each call given as
    [(key, hitsAddend, ttlSeconds)], with the channels handed back. *)
Fixpoint submitAll (b : HotKeyBatcher) (calls : list (string * Z * Z))
    : HotKeyBatcher * list nat :=
  match calls with
  | [] => (b, [])
  | (key, hits, ttl) :: rest =>
      let '(b, ch) := Submit b key hits ttl in
      let '(b, chs) := submitAll b rest in
      (b, ch :: chs)
  end.

(** The calls of a sequence made for [key], in order, each with the
    channel it was handed: [(hitsAddend, ttlSeconds, channel)]. *)
Definition callsFor (key : string) (calls : list (string * Z * Z)) (chans : list nat)
    : list (Z * Z * nat) :=
  omap (fun '((k, hits, ttl), ch) => if decide (k = key) then Some (hits, ttl, ch) else None)
       (zip calls chans).

(** The effect of one such call on the entry of its key. *)
Definition absorb (o : option aggregatedIncrement) (c : Z * Z * nat)
    : option aggregatedIncrement :=
  let '(hits, ttl, ch) := c in
  let agg := default (mkAgg 0 ttl []) o in
  Some (mkAgg (uint64 (totalHits agg + hits))
              (Z.max (expirationSeconds agg) ttl)
              (waiters agg ++ [mkWaiter hits ch])).

Definition sumZ (l : list Z) : Z := foldr Z.add 0 l.

Definition sumHits (ws : list pendingWaiter) : Z := sumZ (map hitsAddend ws).

(** [PendingWaiterCount]: [for _, agg := range b.pending { count += len(agg.waiters) }],
    and [FlushWindow]. *)
Definition PendingWaiterCount (b : HotKeyBatcher) : nat :=
  foldl (fun count '(_, agg) => (count + length (waiters agg))%nat) 0%nat
        (map_to_list (pending b)).

Definition FlushWindow (b : HotKeyBatcher) : Z := flushWindow b.

(** The channels of the waiters of the pending batch. *)
Definition pendingChans (b : HotKeyBatcher) : list nat :=
  flat_map (fun '(_, agg) => map resultChan (waiters agg)) (map_to_list (pending b)).

End Batcher.

(** ** Outcomes of a request *)

(** A call either returns, or [checkError] raises the store's error, or
    the Go runtime panics (index out of range, nil dereference). *)
Inductive result (A : Type) : Type :=
  | Ok (a : A)
  | RedisError (e : error)
  | Panic.
Arguments Ok {A} _.
Arguments RedisError {A} _.
Arguments Panic {A}.

Definition fromOption {A : Type} (o : option A) : result A :=
  match o with
  | Some a => Ok a
  | None => Panic
  end.

#[global] Instance result_ret : MRet result := fun _ a => Ok a.
#[global] Instance result_bind : MBind result := fun _ _ f m =>
  match m with
  | Ok a => f a
  | RedisError e => RedisError e
  | Panic => Panic
  end.

(** ** Fixed-window engine (fixed_cache_impl.go) *)

Module Engine.
Import Detector Batcher.

Record CacheKey := mkCacheKey {
  Key : string;
  PerSecond : bool
}.

(** [config.RateLimit], as far as the engine reads it. *)
Record RateLimit := mkRateLimit {
  Unit : Z;
  RequestsPerUnit : Z;
  ShadowMode : bool
}.

(** [limiter.NewRateLimitInfo(limit, before, after, 0, 0)] *)
Record LimitInfo := mkLimitInfo {
  limit : option RateLimit;
  limitBeforeIncrease : Z;
  limitAfterIncrease : Z;
  nearLimitThreshold : Z;
  overLimitThreshold : Z
}.

Definition NewRateLimitInfo (limit : option RateLimit) (before after near over : Z) : LimitInfo :=
  {| limit := limit; limitBeforeIncrease := before; limitAfterIncrease := after;
     nearLimitThreshold := near; overLimitThreshold := over |}.

Definition pipelineAppend (pipeline : Pipeline nat) (key : string) (hitsAddend : Z)
    (result : nat) (expirationSeconds : Z) : Pipeline nat :=
  let pipeline := PipeAppend pipeline (Some result) "INCRBY" key [hitsAddend] in
  PipeAppend pipeline None "EXPIRE" key [expirationSeconds].

Definition pipelineAppendtoGet (pipeline : Pipeline nat) (key : string) (result : nat)
    : Pipeline nat :=
  PipeAppend pipeline (Some result) "GET" key [].

(** Writing the replies of a pipeline into [results] or [currentCount]. *)
Definition applyWrites (arr : list Z) (writes : list (nat * Z)) : list Z :=
  foldl (fun a '(i, v) => <[i := v]> a) arr writes.

Definition isEmptyKey (ck : CacheKey) : bool := bool_decide (Key ck = "").

(** A slot map is well grouped for a client when every key of the
    pipeline stored under a slot hashes to that slot. *)
Definition singleSlot {C : Type} `{Client C} (c : C) (m : gmap Z (Pipeline nat)) : Prop :=
  forall slot p, m !! slot = Some p -> forall a, a ∈ p -> GetSlot c (key a) = slot.

(** A command sequence is not empty and names keys of one slot. *)
Definition oneSlot {C : Type} `{Client C} (c : C) (cmds : list Command) : Prop :=
  cmds <> [] /\ exists slot, forall cmd, cmd ∈ cmds -> GetSlot c cmd.1.2 = slot.

(** Every command of the sequence has one of the given names. *)
Definition named (names : list string) (cmds : list Command) : Prop :=
  forall cmd, cmd ∈ cmds -> cmd.1.1 ∈ names.

(** No action of the map writes its reply to cell [i]. *)
Definition noReceiver (i : nat) (m : gmap Z (Pipeline nat)) : Prop :=
  forall slot p, m !! slot = Some p -> forall a, a ∈ p -> rcv a <> Some i.

(** The INCRBY/EXPIRE pairs [pipelineAppend] makes of a list of
    increments [(key, hitsAddend, index, expirationSeconds)]. *)
Definition incrPairs (entries : list (string * Z * nat * Z)) : Pipeline nat :=
  flat_map (fun '(k, hits, i, e) =>
              [mkAction (Some i) "INCRBY" k [hits]; mkAction None "EXPIRE" k [e]])
           entries.

(** Every pipeline of the map is a non-empty run of such pairs. *)
Definition paired (m : gmap Z (Pipeline nat)) : Prop :=
  forall slot p, m !! slot = Some p -> exists entries, entries <> [] /\ p = incrPairs entries.

(** Every pipeline of the map is a non-empty run of GETs, each with a
    receiver. *)
Definition readsOnly (m : gmap Z (Pipeline nat)) : Prop :=
  forall slot p, m !! slot = Some p ->
    p <> [] /\
    forall a, a ∈ p -> cmd a = "GET" /\ args a = [] /\ exists i, rcv a = Some i.

(** The indices the replies of the pipelines of a map are written to. *)
Definition receivers (m : gmap Z (Pipeline nat)) : list nat :=
  flat_map (omap rcv) ((map_to_list m).*2).

(** The descriptors the increment loop does not skip, from index [i] on. *)
Fixpoint countedFrom (i : nat) (cacheKeys : list CacheKey) (overlimitIndexes : list bool)
    : list nat :=
  match cacheKeys with
  | [] => []
  | ck :: rest =>
      if isEmptyKey ck || default false (overlimitIndexes !! i)
      then countedFrom (S i) rest overlimitIndexes
      else i :: countedFrom (S i) rest overlimitIndexes
  end.

Section Impl.

Context {C : Type} `{Client C}.

(** The collaborators of [limiter.BaseRateLimiter] and [utils] that
    [DoLimit] calls; none of them is among the sources. *)
Variable IsOverLimitWithLocalCache : string -> bool.
Variable IsOverLimitThresholdReached : LimitInfo -> bool.
Variable UnitToDivider : Z -> Z.
Variable ExpirationJitterMaxSeconds : Z.
(** [JitterRand.Int63n(n)] as drawn for descriptor [i]. *)
Variable Int63n : nat -> Z -> Z.
Variable Status : Type.
Variable GetResponseDescriptorStatus : string -> LimitInfo -> bool -> Z -> Status.
(** The digest and the decay map of the hot-key detector. *)
Variable Sum64 : list Z -> Z.
Variable scale : Z -> Z.

Record fixedRateLimitCacheImpl := mkImpl {
  client : C;
  perSecondClient : option C;
  stopCacheKeyIncrementWhenOverlimit : bool;
  hotKeyDetector : option HotKeyDetector;
  hotKeyBatcher : option HotKeyBatcher;
  perSecondBatcher : option HotKeyBatcher
}.

Definition getHitsAddend (this : fixedRateLimitCacheImpl) (hitsAddend : Z)
    (isCacheKeyOverlimit isCacheKeyNearlimit isNearLimt : bool) : Z :=
  if negb (stopCacheKeyIncrementWhenOverlimit this) then hitsAddend
  else if isCacheKeyOverlimit then 0
  else if negb isCacheKeyNearlimit then hitsAddend
  else if isNearLimt then hitsAddend
  else 0.

(** [this.perSecondClient != nil && cacheKey.PerSecond] *)
Definition usesPerSecond (this : fixedRateLimitCacheImpl) (ck : CacheKey) : option C :=
  match perSecondClient this with
  | Some psc => if PerSecond ck then Some psc else None
  | None => None
  end.

(** *** Local over-limit cache *)

(** The arrays [isOverLimitWithLocalCache] and [overlimitIndexes], which
    the first loop fills alike; its test of [ShadowMode] only chooses the
    message that is logged. *)
Definition overLimitFlags (cacheKeys : list CacheKey) : list bool :=
  map (fun ck => if isEmptyKey ck then false else IsOverLimitWithLocalCache (Key ck))
      cacheKeys.

Definition anyTrue (flags : list bool) : bool := existsb id flags.

(** *** Pre-read *)

(** The slot maps [pipelinesToGet] and [perSecondPipelinesToGet]. *)
Definition GetMaps : Type := gmap Z (Pipeline nat) * gmap Z (Pipeline nat).

Definition appendGet (this : fixedRateLimitCacheImpl) (maps : GetMaps) (i : nat)
    (ck : CacheKey) : GetMaps :=
  let '(pipelinesToGet, perSecondPipelinesToGet) := maps in
  if isEmptyKey ck then maps
  else match usesPerSecond this ck with
       | Some psc =>
           let slot := GetSlot psc (Key ck) in
           let pipeline := default [] (perSecondPipelinesToGet !! slot) in
           let pipeline := pipelineAppendtoGet pipeline (Key ck) i in
           (pipelinesToGet, <[slot := pipeline]> perSecondPipelinesToGet)
       | None =>
           let slot := GetSlot (client this) (Key ck) in
           let pipeline := default [] (pipelinesToGet !! slot) in
           let pipeline := pipelineAppendtoGet pipeline (Key ck) i in
           (<[slot := pipeline]> pipelinesToGet, perSecondPipelinesToGet)
       end.

Fixpoint getLoop (this : fixedRateLimitCacheImpl) (i : nat) (cacheKeys : list CacheKey)
    (maps : GetMaps) : GetMaps :=
  match cacheKeys with
  | [] => maps
  | ck :: rest => getLoop this (S i) rest (appendGet this maps i ck)
  end.

(** [for _, pipeline := range m { if len(pipeline) > 0 { checkError(PipeDo(pipeline)) } }] *)
Fixpoint doEach (c : C) (ps : list (Pipeline nat)) (arr : list Z) : C * result (list Z) :=
  match ps with
  | [] => (c, Ok arr)
  | p :: ps' =>
      if bool_decide (length p = 0%nat) then doEach c ps' arr
      else
        let '(c', r) := PipeDo c p in
        match r with
        | inl err => (c', RedisError err)
        | inr writes => doEach c' ps' (applyWrites arr writes)
        end
  end.

Definition pipelinesOf (m : gmap Z (Pipeline nat)) : list (Pipeline nat) :=
  (map_to_list m).*2.

(** The near-limit classification loop. *)
Fixpoint nearLimitLoop (i : nat) (cacheKeys : list CacheKey)
    (limits : list (option RateLimit)) (hitsAddends currentCount : list Z)
    : result (list bool) :=
  match cacheKeys with
  | [] => Ok []
  | ck :: rest =>
      if isEmptyKey ck
      then flags ← nearLimitLoop (S i) rest limits hitsAddends currentCount;
           Ok (false :: flags)
      else
        limitBeforeIncrease ← fromOption (currentCount !! i);
        hits ← fromOption (hitsAddends !! i);
        lim ← fromOption (limits !! i);
        let limitAfterIncrease := uint64 (limitBeforeIncrease + hits) in
        let limitInfo := NewRateLimitInfo lim limitBeforeIncrease limitAfterIncrease 0 0 in
        flags ← nearLimitLoop (S i) rest limits hitsAddends currentCount;
        Ok (IsOverLimitThresholdReached limitInfo :: flags)
  end.

(** The pre-read of the stop-increment policy: [currentCount] is read
    through the slot-grouped GET pipelines, then every key is classified.
    Without the policy, or when the local cache flagged a key, nothing is
    read and no key is near its limit. *)
Definition preRead (this : fixedRateLimitCacheImpl) (cacheKeys : list CacheKey)
    (limits : list (option RateLimit)) (hitsAddends : list Z)
    (isCacheKeyOverlimit : bool) : fixedRateLimitCacheImpl * result (list bool) :=
  let n := length cacheKeys in
  if stopCacheKeyIncrementWhenOverlimit this && negb isCacheKeyOverlimit
  then
    let '(pipelinesToGet, perSecondPipelinesToGet) := getLoop this 0 cacheKeys (∅, ∅) in
    let currentCount := replicate n 0 in
    let '(c, r) := doEach (client this) (pipelinesOf pipelinesToGet) currentCount in
    let this := mkImpl c (perSecondClient this) (stopCacheKeyIncrementWhenOverlimit this)
                       (hotKeyDetector this) (hotKeyBatcher this) (perSecondBatcher this) in
    match r with
    | Ok currentCount =>
        match perSecondClient this with
        | Some psc =>
            let '(psc, r) := doEach psc (pipelinesOf perSecondPipelinesToGet) currentCount in
            let this := mkImpl c (Some psc) (stopCacheKeyIncrementWhenOverlimit this)
                               (hotKeyDetector this) (hotKeyBatcher this)
                               (perSecondBatcher this) in
            (this, currentCount ← r;
                   nearLimitLoop 0 cacheKeys limits hitsAddends currentCount)
        | None => (this, nearLimitLoop 0 cacheKeys limits hitsAddends currentCount)
        end
    | RedisError e => (this, RedisError e)
    | Panic => (this, Panic)
    end
  else (this, Ok (replicate n false)).

(** *** Increment phase *)

(** What the increment loop builds: the detector and the batchers it
    drives, the slot maps [pipelines] and [perSecondPipelines], and
    [hotKeyResultChans], which also remembers the batcher that owns each
    channel. *)
Record IncrState := mkIncr {
  detector : option HotKeyDetector;
  batcher : option HotKeyBatcher;
  psBatcher : option HotKeyBatcher;
  pipelines : gmap Z (Pipeline nat);
  perSecondPipelines : gmap Z (Pipeline nat);
  hotKeyResultChans : gmap nat (bool * nat)
}.

(** [this.hotKeyDetector != nil && batcher != nil && this.hotKeyDetector.RecordAccess(key)] *)
Definition tryHot (det : option HotKeyDetector) (bat : option HotKeyBatcher)
    (now : Z) (key : string) : result (option HotKeyDetector * bool) :=
  match det, bat with
  | Some d, Some _ =>
      '(d', hot) ← fromOption (RecordAccess Sum64 scale d now key);
      Ok (Some d', hot)
  | _, _ => Ok (det, false)
  end.

Definition incrementStep (this : fixedRateLimitCacheImpl) (clock : nat -> Z)
    (limits : list (option RateLimit)) (hitsAddends : list Z)
    (overlimitIndexes nearlimitIndexes : list bool)
    (isCacheKeyOverlimit isCacheKeyNearlimit : bool)
    (st : IncrState) (i : nat) (ck : CacheKey) : result IncrState :=
  skip ← (if isEmptyKey ck then Ok true else fromOption (overlimitIndexes !! i));
  if (skip : bool) then Ok st
  else
    lim ← fromOption (mjoin (limits !! i));
    let expirationSeconds :=
      UnitToDivider (Unit lim) +
      (if ExpirationJitterMaxSeconds >? 0 then Int63n i ExpirationJitterMaxSeconds else 0) in
    hits ← fromOption (hitsAddends !! i);
    near ← fromOption (nearlimitIndexes !! i);
    let hitsAddend := getHitsAddend this hits isCacheKeyOverlimit isCacheKeyNearlimit near in
    match usesPerSecond this ck with
    | Some psc =>
        '(det, hot) ← tryHot (detector st) (psBatcher st) (clock i) (Key ck);
        match hot, psBatcher st with
        | true, Some b =>
            let '(b, ch) := Submit b (Key ck) hitsAddend expirationSeconds in
            Ok (mkIncr det (batcher st) (Some b) (pipelines st) (perSecondPipelines st)
                       (<[i := (true, ch)]> (hotKeyResultChans st)))
        | _, _ =>
            let slot := GetSlot psc (Key ck) in
            let pipeline := default [] (perSecondPipelines st !! slot) in
            let pipeline := pipelineAppend pipeline (Key ck) hitsAddend i expirationSeconds in
            Ok (mkIncr det (batcher st) (psBatcher st) (pipelines st)
                       (<[slot := pipeline]> (perSecondPipelines st))
                       (hotKeyResultChans st))
        end
    | None =>
        '(det, hot) ← tryHot (detector st) (batcher st) (clock i) (Key ck);
        match hot, batcher st with
        | true, Some b =>
            let '(b, ch) := Submit b (Key ck) hitsAddend expirationSeconds in
            Ok (mkIncr det (Some b) (psBatcher st) (pipelines st) (perSecondPipelines st)
                       (<[i := (false, ch)]> (hotKeyResultChans st)))
        | _, _ =>
            let slot := GetSlot (client this) (Key ck) in
            let pipeline := default [] (pipelines st !! slot) in
            let pipeline := pipelineAppend pipeline (Key ck) hitsAddend i expirationSeconds in
            Ok (mkIncr det (batcher st) (psBatcher st)
                       (<[slot := pipeline]> (pipelines st)) (perSecondPipelines st)
                       (hotKeyResultChans st))
        end
    end.

Fixpoint incrementLoop (this : fixedRateLimitCacheImpl) (clock : nat -> Z)
    (limits : list (option RateLimit)) (hitsAddends : list Z)
    (overlimitIndexes nearlimitIndexes : list bool)
    (isCacheKeyOverlimit isCacheKeyNearlimit : bool)
    (i : nat) (cacheKeys : list CacheKey) (st : IncrState) : result IncrState :=
  match cacheKeys with
  | [] => Ok st
  | ck :: rest =>
      st ← incrementStep this clock limits hitsAddends overlimitIndexes nearlimitIndexes
             isCacheKeyOverlimit isCacheKeyNearlimit st i ck;
      incrementLoop this clock limits hitsAddends overlimitIndexes nearlimitIndexes
        isCacheKeyOverlimit isCacheKeyNearlimit (S i) rest st
  end.

(** The slot pipelines run as goroutines and the first error is kept;
    here they run one after the other, in the order of the map. *)
Fixpoint doAll (c : C) (ps : list (Pipeline nat)) (arr : list Z)
    (pipelineErr : option error) : C * list Z * option error :=
  match ps with
  | [] => (c, arr, pipelineErr)
  | p :: ps' =>
      if bool_decide (length p = 0%nat) then doAll c ps' arr pipelineErr
      else
        let '(c', r) := PipeDo c p in
        match r with
        | inl err =>
            doAll c' ps' arr (Some (match pipelineErr with Some e => e | None => err end))
        | inr writes => doAll c' ps' (applyWrites arr writes) pipelineErr
        end
  end.

(** *** Hot-key results *)

(** [<-resultChan]: the value sent on channel [ch]. *)
Fixpoint receive (ds : list Delivery) (ch : nat) : option HotKeyBatcherResult :=
  match ds with
  | [] => None
  | (ch', r) :: ds' => if bool_decide (ch' = ch) then Some r else receive ds' ch
  end.

(** A receive from a channel nothing was sent on never returns; the loop
    then yields [Panic], standing for a request that does not complete. *)
Fixpoint awaitLoop (chans : list (nat * (bool * nat))) (ds psDs : list Delivery)
    (results : list Z) : result (list Z) :=
  match chans with
  | [] => Ok results
  | (i, (ps, ch)) :: chans' =>
      batchResult ← fromOption (receive (if ps then psDs else ds) ch);
      match Err batchResult with
      | Some err => RedisError err
      | None => awaitLoop chans' ds psDs (<[i := Value batchResult]> results)
      end
  end.

(** *** Verdicts *)

(** The arguments of [GetResponseDescriptorStatus] for one descriptor. *)
Record StatusArgs := mkStatusArgs {
  argKey : string;
  argInfo : LimitInfo;
  argOverLimitWithLocalCache : bool;
  argHitsAddend : Z
}.

Fixpoint verdictLoop (i : nat) (cacheKeys : list CacheKey)
    (limits : list (option RateLimit)) (hitsAddends results : list Z)
    (isOverLimitWithLocalCache : list bool) : result (list StatusArgs) :=
  match cacheKeys with
  | [] => Ok []
  | ck :: rest =>
      limitAfterIncrease ← fromOption (results !! i);
      hits ← fromOption (hitsAddends !! i);
      let limitBeforeIncrease := uint64 (limitAfterIncrease - hits) in
      lim ← fromOption (limits !! i);
      let limitInfo := NewRateLimitInfo lim limitBeforeIncrease limitAfterIncrease 0 0 in
      over ← fromOption (isOverLimitWithLocalCache !! i);
      rest' ← verdictLoop (S i) rest limits hitsAddends results isOverLimitWithLocalCache;
      Ok (mkStatusArgs (Key ck) limitInfo over hits :: rest')
  end.

(** *** The request *)

(** One tick of the flush workers of the two batchers, which is what the
    receives of [DoLimit] wait for. *)
Definition flushTick (this : fixedRateLimitCacheImpl)
    : fixedRateLimitCacheImpl * list Delivery * list Delivery :=
  let '(b, c, ds) :=
    match hotKeyBatcher this with
    | Some b => let '(b, c, ds) := flush b (client this) in (Some b, c, ds)
    | None => (None, client this, [])
    end in
  let '(psb, psc, psDs) :=
    match perSecondBatcher this, perSecondClient this with
    | Some psb, Some psc => let '(psb, psc, ds) := flush psb psc in (Some psb, Some psc, ds)
    | psb, psc => (psb, psc, [])
    end in
  (mkImpl c psc (stopCacheKeyIncrementWhenOverlimit this) (hotKeyDetector this) b psb,
   ds, psDs).

(** [DoLimit] up to the calls of [GetResponseDescriptorStatus].
    [cacheKeys] is the result of [GenerateCacheKeys], one entry per
    descriptor; [clock i] is the reading of the clock when the detector is
    asked about descriptor [i]. When the request fails, the engine is
    returned as it was when the failing phase began. *)
Definition doLimitArgs (this : fixedRateLimitCacheImpl) (clock : nat -> Z)
    (cacheKeys : list CacheKey) (limits : list (option RateLimit))
    (hitsAddends : list Z) : fixedRateLimitCacheImpl * result (list StatusArgs) :=
  let n := length cacheKeys in
  let isOverLimitWithLocalCache := overLimitFlags cacheKeys in
  let overlimitIndexes := isOverLimitWithLocalCache in
  let isCacheKeyOverlimit := anyTrue overlimitIndexes in
  let '(this, near) := preRead this cacheKeys limits hitsAddends isCacheKeyOverlimit in
  match near with
  | Ok nearlimitIndexes =>
      let isCacheKeyNearlimit := anyTrue nearlimitIndexes in
      let st := mkIncr (hotKeyDetector this) (hotKeyBatcher this) (perSecondBatcher this)
                       ∅ ∅ ∅ in
      match incrementLoop this clock limits hitsAddends overlimitIndexes nearlimitIndexes
              isCacheKeyOverlimit isCacheKeyNearlimit 0 cacheKeys st with
      | Ok st =>
          let results := replicate n 0 in
          let '(c, results, pipelineErr) :=
            doAll (client this) (pipelinesOf (pipelines st)) results None in
          let '(psc, results, pipelineErr) :=
            match perSecondClient this with
            | Some psc =>
                let '(psc, results, pipelineErr) :=
                  doAll psc (pipelinesOf (perSecondPipelines st)) results pipelineErr in
                (Some psc, results, pipelineErr)
            | None => (None, results, pipelineErr)
            end in
          let this := mkImpl c psc (stopCacheKeyIncrementWhenOverlimit this)
                             (detector st) (batcher st) (psBatcher st) in
          match pipelineErr with
          | Some err => (this, RedisError err)
          | None =>
              let '(this, ds, psDs) := flushTick this in
              (this,
               results ← awaitLoop (map_to_list (hotKeyResultChans st)) ds psDs results;
               verdictLoop 0 cacheKeys limits hitsAddends results isOverLimitWithLocalCache)
          end
      | RedisError e => (this, RedisError e)
      | Panic => (this, Panic)
      end
  | RedisError e => (this, RedisError e)
  | Panic => (this, Panic)
  end.

Definition DoLimit (this : fixedRateLimitCacheImpl) (clock : nat -> Z)
    (cacheKeys : list CacheKey) (limits : list (option RateLimit))
    (hitsAddends : list Z) : fixedRateLimitCacheImpl * result (list Status) :=
  let '(this, r) := doLimitArgs this clock cacheKeys limits hitsAddends in
  (this,
   args ← r;
   Ok (map (fun a => GetResponseDescriptorStatus (argKey a) (argInfo a)
                       (argOverLimitWithLocalCache a) (argHitsAddend a)) args)).

(** The requests an engine answers one after the other, each given by
    its clock, its cache keys, its limits and its hits addends. *)
Definition Request : Type := (nat -> Z) * list CacheKey * list (option RateLimit) * list Z.

Fixpoint doLimits (this : fixedRateLimitCacheImpl) (requests : list Request)
    : fixedRateLimitCacheImpl * list (result (list Status)) :=
  match requests with
  | [] => (this, [])
  | (clock, cacheKeys, limits, hitsAddends) :: rest =>
      let '(this, r) := DoLimit this clock cacheKeys limits hitsAddends in
      let '(this, rs) := doLimits this rest in
      (this, r :: rs)
  end.

(** Every INCRBY of the map belongs to a descriptor of the request: it
    is received at the descriptor's index, names its cache key and adds
    what [getHitsAddend] gives for its hits addend. *)
Definition byPolicy (this : fixedRateLimitCacheImpl) (cacheKeys : list CacheKey)
    (hitsAddends : list Z) (nearlimitIndexes : list bool)
    (isCacheKeyOverlimit isCacheKeyNearlimit : bool) (m : gmap Z (Pipeline nat)) : Prop :=
  forall slot p a, m !! slot = Some p -> a ∈ p -> cmd a = "INCRBY" ->
    exists i ck h near,
      rcv a = Some i /\ cacheKeys !! i = Some ck /\ key a = Key ck /\
      hitsAddends !! i = Some h /\ nearlimitIndexes !! i = Some near /\
      args a = [getHitsAddend this h isCacheKeyOverlimit isCacheKeyNearlimit near].

End Impl.

(** The engine with each recording client replaced by the client it
    wraps. *)
Definition untraced {C : Type} (this : @fixedRateLimitCacheImpl (Traced C))
    : @fixedRateLimitCacheImpl C :=
  mkImpl (inner (client this)) (inner <$> perSecondClient this)
         (stopCacheKeyIncrementWhenOverlimit this) (hotKeyDetector this)
         (hotKeyBatcher this) (perSecondBatcher this).

(** [HotKeyConfig]. *)
Module HotKey.
Record Config := mkConfig {
  Enabled : bool;
  SketchMemoryBytes : Z;
  SketchDepth : Z;
  Threshold : Z;
  MaxHotKeys : Z;
  FlushWindow : Z;
  DecayInterval : Z
}.
End HotKey.

(** [NewFixedRateLimitCacheImpl] as far as the engine's own fields go;
    [now] is the reading of the clock when the detector is built. The
    decay factor it sets, 0.5, is the cell map [scale] of the detector's
    calls, and the flush goroutines [Start] launches are the flush ticks
    of [DoLimit]. *)
Definition NewFixedRateLimitCacheImpl {C : Type} (client : C) (perSecondClient : option C)
    (stopCacheKeyIncrementWhenOverlimit : bool) (hotKeyConfig : option HotKey.Config)
    (now : Z) : fixedRateLimitCacheImpl :=
  let impl := mkImpl client perSecondClient stopCacheKeyIncrementWhenOverlimit
                     None None None in
  match hotKeyConfig with
  | Some cfg =>
      if HotKey.Enabled cfg then
        let detectorConfig :=
          mkDetectorConfig (HotKey.SketchMemoryBytes cfg) (HotKey.SketchDepth cfg)
                           (HotKey.Threshold cfg) (HotKey.MaxHotKeys cfg)
                           (HotKey.DecayInterval cfg) in
        mkImpl client perSecondClient stopCacheKeyIncrementWhenOverlimit
               (Some (NewHotKeyDetector detectorConfig now))
               (Some (NewHotKeyBatcher (HotKey.FlushWindow cfg)))
               (match perSecondClient with
                | Some _ => Some (NewHotKeyBatcher (HotKey.FlushWindow cfg))
                | None => None
                end)
      else impl
  | None => impl
  end.

(** A request as [DoLimit] expects it: one hits addend and one limit per
    descriptor, and a limit for every descriptor that has a cache key. *)
Definition wellFormed (request : Request) : Prop :=
  let '(_, cacheKeys, limits, hitsAddends) := request in
  length hitsAddends = length cacheKeys /\
  length limits = length cacheKeys /\
  forall i ck, cacheKeys !! i = Some ck -> Key ck <> "" ->
    exists lim, limits !! i = Some (Some lim).

(** The descriptors a state of the increment loop serves: the receivers
    of its pipelines and the indices it holds a batcher channel for. *)
Definition served (st : IncrState) : list nat :=
  receivers (pipelines st) ++ receivers (perSecondPipelines st) ++
  (map_to_list (hotKeyResultChans st)).*1.

(** The state of the increment loop can be waited on: the detector, if
    there is one, is consistent, and every channel the loop holds is a
    channel of a waiter pending in the batcher that made it, the
    per-second batcher only when there is a per-second client. *)
Definition answerable (hasPerSecondClient : bool) (st : IncrState) : Prop :=
  (forall d, detector st = Some d -> consistent d) /\
  forall i ps ch, hotKeyResultChans st !! i = Some (ps, ch) ->
    if (ps : bool)
    then hasPerSecondClient = true /\
         exists b, psBatcher st = Some b /\ ch ∈ pendingChans b
    else exists b, batcher st = Some b /\ ch ∈ pendingChans b.

End Engine.

(** ** Concrete collaborators

    The digest of the xxhash library and an in-memory store with the
    cluster's slot function, used to run the engine on concrete requests. *)

(** XXH64 with seed 0, which is what [xxhash.New] followed by [Write]
    and [Sum64] computes. *)
Module XXH.
Definition prime1 : Z := 11400714785074694791.
Definition prime2 : Z := 14029467366897019727.
Definition prime3 : Z := 1609587929392839161.
Definition prime4 : Z := 9650029242287828579.
Definition prime5 : Z := 2870177450012600261.
Definition rol (x r : Z) : Z := uint64 (Z.lor (Z.shiftl x r) (Z.shiftr x (64 - r))).
Definition round (acc input : Z) : Z := uint64 (rol (uint64 (acc + input * prime2)) 31 * prime1).
Definition mergeRound (acc val : Z) : Z := uint64 (Z.lxor acc (round 0 val) * prime1 + prime4).
Definition le (bs : list Z) : Z := foldr (fun b acc => b + 256 * acc) 0 bs.
Fixpoint stripes (fuel : nat) (bs : list Z) (v : Z * Z * Z * Z) : Z * Z * Z * Z * list Z :=
  match fuel with
  | O => (v, bs)
  | S fuel' =>
      if (32 <=? length bs)%nat then
        let '(v1, v2, v3, v4) := v in
        stripes fuel' (drop 32 bs)
          (round v1 (le (take 8 bs)), round v2 (le (take 8 (drop 8 bs))),
           round v3 (le (take 8 (drop 16 bs))), round v4 (le (take 8 (drop 24 bs))))
      else (v, bs)
  end.
Fixpoint words (fuel : nat) (bs : list Z) (h : Z) : Z * list Z :=
  match fuel with
  | O => (h, bs)
  | S fuel' =>
      if (8 <=? length bs)%nat then
        let k := round 0 (le (take 8 bs)) in
        words fuel' (drop 8 bs) (uint64 (rol (Z.lxor h k) 27 * prime1 + prime4))
      else (h, bs)
  end.
Definition half (bs : list Z) (h : Z) : Z * list Z :=
  if (4 <=? length bs)%nat then
    (uint64 (rol (Z.lxor h (uint64 (le (take 4 bs) * prime1))) 23 * prime2 + prime3), drop 4 bs)
  else (h, bs).
Definition bytes (bs : list Z) (h : Z) : Z :=
  foldl (fun h b => uint64 (rol (Z.lxor h (uint64 (b * prime5))) 11 * prime1)) h bs.
Definition avalanche (h : Z) : Z :=
  let h := uint64 (Z.lxor h (Z.shiftr h 33) * prime2) in
  let h := uint64 (Z.lxor h (Z.shiftr h 29) * prime3) in
  Z.lxor h (Z.shiftr h 32).
Definition Sum64 (bs : list Z) : Z :=
  let n := length bs in
  let '(h, rest) :=
    if (32 <=? n)%nat then
      let '(v1, v2, v3, v4, rest) :=
        stripes n bs (uint64 (prime1 + prime2), prime2, 0, uint64 (0 - prime1)) in
      let h := uint64 (rol v1 1 + rol v2 7 + rol v3 12 + rol v4 18) in
      (mergeRound (mergeRound (mergeRound (mergeRound h v1) v2) v3) v4, rest)
    else (prime5, bs) in
  let h := uint64 (h + Z.of_nat n) in
  let '(h, rest) := words n rest h in
  let '(h, rest) := half rest h in
  avalanche (bytes rest h).
End XXH.

Module MemStore.

Record Store := mkStore {
  data : gmap string Z;
  ttl : gmap string Z;
  isCluster : bool;
  failure : option error
}.

(** CRC16 (XMODEM), the checksum of the cluster's key slots. *)
Definition crc16Step (crc : Z) : Z :=
  if Z.testbit crc 15
  then Z.land (Z.lxor (Z.shiftl crc 1) 4129) 65535
  else Z.land (Z.shiftl crc 1) 65535.

Definition crc16Byte (crc b : Z) : Z :=
  Nat.iter 8 crc16Step (Z.lxor crc (Z.shiftl b 8)).

Definition crc16 (bs : list Z) : Z := foldl crc16Byte 0 bs.

Fixpoint untilClose (bs : list Z) : option (list Z) :=
  match bs with
  | [] => None
  | b :: bs' => if b =? 125 then Some [] else cons b <$> untilClose bs'
  end.

(** The bytes between the first opening brace and the next closing one,
    when there are any. *)
Fixpoint hashTag (bs : list Z) : option (list Z) :=
  match bs with
  | [] => None
  | b :: bs' =>
      if b =? 123
      then match untilClose bs' with
           | Some (t :: ts) => Some (t :: ts)
           | _ => None
           end
      else hashTag bs'
  end.

Definition ClusterSlot (key : string) : Z :=
  let bs := bytesOf key in
  crc16 (default bs (hashTag bs)) mod 16384.

(** [GetSlot] of driver_impl.go as quoted in the cluster proposal:
    slot 0 for every key unless the client is a cluster client. *)
Definition slotOf (s : Store) (key : string) : Z :=
  if isCluster s then ClusterSlot key else 0.

Definition execOne (s : Store) (c : Command) : Store * option (option Z) :=
  let '(name, key, args) := c in
  if String.eqb name "INCRBY" then
    match args with
    | [n] =>
        let v := default 0 (data s !! key) + n in
        (mkStore (<[key := v]> (data s)) (ttl s) (isCluster s) (failure s), Some (Some v))
    | _ => (s, None)
    end
  else if String.eqb name "EXPIRE" then
    match args with
    | [t] => (mkStore (data s) (<[key := t]> (ttl s)) (isCluster s) (failure s), Some (Some 1))
    | _ => (s, None)
    end
  else if String.eqb name "GET" then (s, Some (data s !! key))
  else (s, None).

Fixpoint execAll (s : Store) (cs : list Command) : Store * option (list (option Z)) :=
  match cs with
  | [] => (s, Some [])
  | c :: cs' =>
      let '(s, r) := execOne s c in
      match r with
      | Some reply =>
          let '(s, rs) := execAll s cs' in
          (s, cons reply <$> rs)
      | None => (s, None)
      end
  end.

Definition exec (s : Store) (cs : list Command) : Store * (error + list (option Z)) :=
  match failure s with
  | Some err => (s, inl err)
  | None =>
      let '(s', r) := execAll s cs in
      (s', match r with
           | Some replies => inr replies
           | None => inl "ERR unknown command or wrong number of arguments"
           end)
  end.

#[global] Instance storeClient : Client Store := {|
  GetSlot := slotOf;
  Exec := exec
|}.

Definition empty (cluster : bool) : Store := mkStore ∅ ∅ cluster None.

End MemStore.

(** * Properties *)

(** ** Machine integers *)

Lemma uint32_range z : isUint32 (uint32 z).
Proof.
  unfold isUint32, uint32, MaxUint32.
  pose proof (Z.mod_pos_bound z 4294967296). lia.
Qed.

Lemma uint64_range z : isUint64 (uint64 z).
Proof.
  unfold isUint64, uint64, MaxUint64.
  pose proof (Z.mod_pos_bound z 18446744073709551616). lia.
Qed.

Lemma uint32_small z : isUint32 z -> uint32 z = z.
Proof. unfold isUint32, uint32, MaxUint32. intros. apply Z.mod_small. lia. Qed.

Lemma uint64_small z : isUint64 z -> uint64 z = z.
Proof. unfold isUint64, uint64, MaxUint64. intros. apply Z.mod_small. lia. Qed.


(** ** Count-Min Sketch: construction *)

Section Construction.
Import CMS.

Lemma clampDepth_range (d : Z) : 2 <= clampDepth d <= 8.
Proof.
  unfold clampDepth.
  destruct (d <? 2) eqn:E1; [ simpl; lia | ].
  destruct (d >? 8) eqn:E2; lia.
Qed.

Lemma clampDepth_spec (d : Z) : clampDepth d = Z.max 2 (Z.min d 8).
Proof.
  unfold clampDepth.
  destruct (d <? 2) eqn:E1; [ simpl; lia | ].
  destruct (d >? 8) eqn:E2; lia.
Qed.

Lemma sketchWidth_range (m d : Z) : 256 <= sketchWidth m d <= MaxUint32.
Proof.
  unfold sketchWidth.
  pose proof (uint32_range (Z.quot m (d * 4))) as Hr. unfold isUint32 in Hr.
  destruct (uint32 (Z.quot m (d * 4)) <? 256) eqn:E; unfold MaxUint32 in *; lia.
Qed.

(** Inside the budgets a [uint32] width can hold, the width is the
    maximum of 256 and the quotient. *)
Lemma sketchWidth_in_range (m d : Z) :
  0 <= Z.quot m (d * 4) <= MaxUint32 ->
  sketchWidth m d = Z.max 256 (Z.quot m (d * 4)).
Proof.
  intros Hq. unfold sketchWidth.
  rewrite uint32_small by exact Hq.
  destruct (Z.quot m (d * 4) <? 256) eqn:E; lia.
Qed.

Lemma NewCountMinSketch_depth (m d : Z) :
  depth (NewCountMinSketch m d) = clampDepth d.
Proof.
  unfold NewCountMinSketch; simpl.
  pose proof (clampDepth_range d).
  apply uint32_small. unfold isUint32, MaxUint32. lia.
Qed.

Lemma NewCountMinSketch_width (m d : Z) :
  width (NewCountMinSketch m d) = sketchWidth m (clampDepth d).
Proof. reflexivity. Qed.

Lemma NewCountMinSketch_shaped (m d : Z) : shaped (NewCountMinSketch m d).
Proof.
  pose proof (clampDepth_range d) as Hd.
  pose proof (sketchWidth_range m (clampDepth d)) as Hw.
  unfold shaped. rewrite NewCountMinSketch_depth, NewCountMinSketch_width.
  repeat split; try lia.
  - unfold NewCountMinSketch; simpl. by rewrite length_replicate.
  - unfold NewCountMinSketch; simpl. by rewrite length_map, length_seq.
  - unfold NewCountMinSketch; simpl. apply Forall_replicate.
    by rewrite length_replicate.
Qed.

Lemma NewCountMinSketch_bounded (m d : Z) : bounded (NewCountMinSketch m d).
Proof.
  unfold bounded, NewCountMinSketch; simpl.
  apply Forall_replicate, Forall_replicate.
  unfold isUint32, MaxUint32. lia.
Qed.

(** For a budget whose quotient is a [uint32], the constructor clamps the
    depth into [2, 8] first and the width is then the maximum of 256 and
    the truncated quotient of the budget by four times the clamped depth. *)
Lemma NewCountMinSketch_in_range (m d : Z) :
  0 <= Z.quot m (clampDepth d * 4) <= MaxUint32 ->
  depth (NewCountMinSketch m d) = Z.max 2 (Z.min d 8) /\
  width (NewCountMinSketch m d) = Z.max 256 (Z.quot m (clampDepth d * 4)).
Proof.
  intros Hq. split.
  - rewrite NewCountMinSketch_depth. apply clampDepth_spec.
  - rewrite NewCountMinSketch_width. by apply sketchWidth_in_range.
Qed.

(** C9 at a negative budget: the constructor is given -1000 bytes and
    depth 4; the quotient -62 is converted to [uint32] before it is compared
    with 256, so the width is 4294967234 and not the maximum of 256 and
    the quotient, which is 256. *)
Theorem NewCountMinSketch_negative_budget :
  depth (CMS.NewCountMinSketch (-1000) 4) = 4 /\
  width (CMS.NewCountMinSketch (-1000) 4) = 4294967234 /\
  Z.max 256 (Z.quot (-1000) (clampDepth 4 * 4)) = 256.
Proof. repeat split. Qed.

(** The same conversion wraps a budget of 32 GiB at depth 2 down to the
    minimum width. *)
Lemma NewCountMinSketch_huge_budget :
  width (CMS.NewCountMinSketch 34359738368 2) = 256 /\
  Z.max 256 (Z.quot 34359738368 (clampDepth 2 * 4)) = 4294967296.
Proof. repeat split. Qed.

End Construction.

(** ** Count-Min Sketch: increment and estimate *)

Section SketchProps.
Import CMS.

Variable Sum64 : list Z -> Z.

Lemma hash_lt (cms : CountMinSketch) (key : string) (seed : Z) :
  0 < width cms <= MaxUint32 ->
  0 <= hash Sum64 cms key seed < width cms.
Proof.
  intros Hw. unfold hash.
  rewrite (uint64_small (width cms))
    by (unfold isUint64, MaxUint64, MaxUint32 in *; lia).
  pose proof (Z.mod_pos_bound (uint64 (Sum64 (seedBytes seed ++ bytesOf key)))
                (width cms) ltac:(lia)) as Hm.
  rewrite uint32_small by (unfold isUint32; lia). exact Hm.
Qed.

(** The overflow test of [Increment] is exact: the stored value is the
    sum capped at the largest [uint32]. *)
Lemma updatedCell_saturates (old delta : Z) :
  isUint32 old -> isUint32 delta ->
  updatedCell old delta = Z.min (old + delta) MaxUint32.
Proof.
  unfold isUint32, updatedCell, uint32, MaxUint32. intros Ho Hd.
  destruct (Z_le_gt_dec (old + delta) 4294967295) as [Hle | Hgt].
  - rewrite Z.mod_small by lia.
    destruct (old + delta <? old) eqn:E; lia.
  - replace ((old + delta) mod 4294967296) with (old + delta - 4294967296).
    + destruct (old + delta - 4294967296 <? old) eqn:E; lia.
    + apply Z.mod_unique with (q := 1); lia.
Qed.

Lemma updatedCell_range (old delta : Z) : isUint32 (updatedCell old delta).
Proof.
  unfold updatedCell.
  destruct (uint32 (old + delta) <? old).
  - unfold isUint32, MaxUint32. lia.
  - apply uint32_range.
Qed.

Lemma cellAt_update (cms : CountMinSketch) (i idx : nat) (row : list Z) (v : Z) (r j : nat) :
  counters cms !! i = Some row ->
  (idx < length row)%nat ->
  cellAt (withCounters cms (<[i := <[idx := v]> row]> (counters cms))) r j =
  if decide (r = i /\ j = idx) then Some v else cellAt cms r j.
Proof.
  intros Hrow Hidx. unfold cellAt; simpl.
  pose proof (lookup_lt_Some _ _ _ Hrow) as Hi.
  destruct (decide (r = i)) as [-> | Hne].
  - rewrite list_lookup_insert_eq by done. simpl. rewrite Hrow. simpl.
    destruct (decide (j = idx)) as [-> | Hj].
    + rewrite list_lookup_insert_eq by done.
      by rewrite decide_True.
    + rewrite list_lookup_insert_ne by done.
      rewrite decide_False; [done | intros [? ?]; congruence].
  - rewrite list_lookup_insert_ne by done.
    rewrite decide_False; [done | intros [? ?]; congruence].
Qed.

Lemma shaped_update (cms : CountMinSketch) (i idx : nat) (row : list Z) (v : Z) :
  shaped cms ->
  counters cms !! i = Some row ->
  shaped (withCounters cms (<[i := <[idx := v]> row]> (counters cms))).
Proof.
  intros (Hw & Hd & Hc & Hs & Hrows) Hrow.
  unfold shaped; simpl. repeat split; try lia.
  - by rewrite length_insert.
  - apply Forall_insert; [done |].
    rewrite length_insert.
    by eapply (Forall_lookup_1 _ _ _ _ Hrows).
Qed.

Lemma bounded_update (cms : CountMinSketch) (i idx : nat) (row : list Z) (v : Z) :
  bounded cms ->
  counters cms !! i = Some row ->
  isUint32 v ->
  bounded (withCounters cms (<[i := <[idx := v]> row]> (counters cms))).
Proof.
  intros Hb Hrow Hv. unfold bounded in *; simpl.
  apply Forall_insert; [done |].
  apply Forall_insert; [| done].
  by eapply (Forall_lookup_1 _ _ _ _ Hb).
Qed.

(** A shaped sketch has a seed, a row and a cell for every row index
    below its depth. *)
Lemma shaped_row (cms : CountMinSketch) (key : string) (i : nat) :
  shaped cms ->
  (i < Z.to_nat (depth cms))%nat ->
  exists seed row old,
    seeds cms !! i = Some seed /\
    counters cms !! i = Some row /\
    row !! Z.to_nat (hash Sum64 cms key seed) = Some old /\
    (Z.to_nat (hash Sum64 cms key seed) < length row)%nat.
Proof.
  intros (Hw & Hd & Hc & Hs & Hrows) Hi.
  destruct (lookup_lt_is_Some_2 (seeds cms) i ltac:(lia)) as [seed Hseed].
  destruct (lookup_lt_is_Some_2 (counters cms) i ltac:(lia)) as [row Hrow].
  pose proof (Forall_lookup_1 _ _ _ _ Hrows Hrow) as Hlen. simpl in Hlen.
  pose proof (hash_lt cms key seed Hw) as Hh.
  assert (Z.to_nat (hash Sum64 cms key seed) < length row)%nat as Hlt by lia.
  destruct (lookup_lt_is_Some_2 row _ Hlt) as [old Hold].
  by exists seed, row, old.
Qed.

(** What the loop of [Increment] does from row [i] on: it never panics on
    a shaped sketch, it rewrites exactly the cell of [key] in each of the
    rows it visits, and it returns the minimum of [minCount] and the
    values it stored. *)
Lemma incrementLoop_spec (key : string) (delta : Z) (fuel : nat) :
  forall (i : nat) (cms : CountMinSketch) (minCount : Z),
  shaped cms ->
  (i + fuel = Z.to_nat (depth cms))%nat ->
  exists cms' est,
    incrementLoop Sum64 fuel i key delta cms minCount = Some (cms', est) /\
    width cms' = width cms /\ depth cms' = depth cms /\ seeds cms' = seeds cms /\
    shaped cms' /\
    (forall r j,
        cellAt cms' r j =
        if decide ((i <= r)%nat /\ column Sum64 cms key r = Some j)
        then (fun old => updatedCell old delta) <$> cellAt cms r j
        else cellAt cms r j) /\
    est <= minCount /\
    (forall r j old, (i <= r)%nat -> column Sum64 cms key r = Some j ->
        cellAt cms r j = Some old -> est <= updatedCell old delta) /\
    (est = minCount \/
     exists r j old, (i <= r)%nat /\ column Sum64 cms key r = Some j /\
        cellAt cms r j = Some old /\ est = updatedCell old delta).
Proof.
  induction fuel as [| fuel IH]; intros i cms minCount Hsh Hi.
  - exists cms, minCount. simpl. split_and!; try done; try lia.
    + intros r j. destruct (decide _) as [[Hr Hc] |]; [| done].
      unfold column in Hc.
      rewrite lookup_ge_None_2 in Hc; [done |].
      destruct Hsh as (_ & _ & _ & Hs & _). lia.
    + intros r j old Hr Hc. unfold column in Hc.
      rewrite lookup_ge_None_2 in Hc; [done |].
      destruct Hsh as (_ & _ & _ & Hs & _). lia.
  - destruct (shaped_row cms key i Hsh ltac:(lia))
      as (seed & row & old & Hseed & Hrow & Hold & Hlt).
    simpl. rewrite Hseed, Hrow. simpl. rewrite Hold. simpl.
    set (idx := Z.to_nat (hash Sum64 cms key seed)) in *.
    fold (updatedCell old delta).
    set (newVal := updatedCell old delta).
    set (cms1 := withCounters cms (<[i := <[idx := newVal]> row]> (counters cms))).
    set (min1 := if newVal <? minCount then newVal else minCount).
    assert (shaped cms1) as Hsh1 by by apply shaped_update.
    destruct (IH (S i) cms1 min1 Hsh1 ltac:(simpl; lia))
      as (cms' & est & Hrun & Hw & Hd & Hs & Hsh' & Hcells & Hle & Hall & Hex).
    assert (forall r, column Sum64 cms1 key r = column Sum64 cms key r) as Hcol by done.
    assert (column Sum64 cms key i = Some idx) as Hci
      by (unfold column; rewrite Hseed; done).
    assert (cellAt cms i idx = Some old) as Hcell0
      by (unfold cellAt; rewrite Hrow; done).
    exists cms', est. split; [exact Hrun |].
    split_and!; try done.
    + intros r j. rewrite Hcells, Hcol.
      unfold cms1. rewrite !cellAt_update by done.
      destruct (decide (r = i)) as [-> | Hne].
      * rewrite decide_False by lia.
        rewrite Hci.
        destruct (decide (j = idx)) as [-> | Hj].
        -- rewrite decide_True by done. rewrite decide_True by done.
           by rewrite Hcell0.
        -- rewrite decide_False by (intros [? ?]; congruence).
           rewrite decide_False by (intros [? ?]; congruence). done.
      * rewrite (decide_False (P := r = i /\ j = idx)) by (intros [? ?]; congruence).
        destruct (decide ((S i <= r)%nat /\ column Sum64 cms key r = Some j))
          as [[Hr Hc] | Hn].
        -- rewrite decide_True by (split; [lia | done]). done.
        -- rewrite decide_False; [done |].
           intros [Hr Hc]. apply Hn. split; [lia | done].
    + subst min1. destruct (newVal <? minCount) eqn:E; lia.
    + intros r j old' Hr Hc Hcell.
      destruct (decide (r = i)) as [-> | Hne].
      * rewrite Hci in Hc. injection Hc as <-.
        rewrite Hcell0 in Hcell. injection Hcell as <-.
        subst min1. fold newVal. destruct (newVal <? minCount) eqn:E; lia.
      * apply (Hall r j old'); [lia | by rewrite Hcol |].
        unfold cms1. rewrite cellAt_update by done.
        rewrite decide_False by (intros [? ?]; congruence). done.
    + destruct Hex as [-> | (r & j & old' & Hr & Hc & Hcell & ->)].
      * subst min1. destruct (newVal <? minCount) eqn:E; [| by left].
        right. exists i, idx, old. done.
      * right. exists r, j, old'. repeat split; try done; try lia.
        revert Hcell. unfold cms1. rewrite cellAt_update by done.
        rewrite decide_False by (intros [? ?]; lia). done.
Qed.

Lemma column_Some (cms : CountMinSketch) (key : string) (r : nat) :
  shaped cms ->
  (r < Z.to_nat (depth cms))%nat ->
  exists j old, column Sum64 cms key r = Some j /\ cellAt cms r j = Some old.
Proof.
  intros Hsh Hr.
  destruct (shaped_row cms key r Hsh Hr) as (seed & row & old & Hseed & Hrow & Hold & _).
  exists (Z.to_nat (hash Sum64 cms key seed)), old.
  unfold column, cellAt. rewrite Hseed, Hrow. done.
Qed.

Lemma column_preserved (cms cms' : CountMinSketch) (key : string) (r : nat) :
  width cms' = width cms -> seeds cms' = seeds cms ->
  column Sum64 cms' key r = column Sum64 cms key r.
Proof. intros Hw Hs. unfold column, hash. by rewrite Hw, Hs. Qed.

(** [Increment] on a shaped sketch: it returns, it rewrites the cell of
    [key] in every row and nothing else, and the value it returns is the
    least of the values it stored. *)
Lemma Increment_spec (cms : CountMinSketch) (key : string) (delta : Z) :
  shaped cms ->
  exists cms' est,
    Increment Sum64 cms key delta = Some (cms', est) /\
    width cms' = width cms /\ depth cms' = depth cms /\ seeds cms' = seeds cms /\
    shaped cms' /\
    (forall r j,
        cellAt cms' r j =
        if decide (column Sum64 cms key r = Some j)
        then (fun old => updatedCell old delta) <$> cellAt cms r j
        else cellAt cms r j) /\
    (forall r j old, column Sum64 cms key r = Some j ->
        cellAt cms r j = Some old -> est <= updatedCell old delta) /\
    (exists r j old, column Sum64 cms key r = Some j /\
        cellAt cms r j = Some old /\ est = updatedCell old delta).
Proof.
  intros Hsh. unfold Increment.
  destruct (incrementLoop_spec key delta (Z.to_nat (depth cms)) 0 cms MaxUint32 Hsh
              ltac:(lia))
    as (cms' & est & Hrun & Hw & Hd & Hs & Hsh' & Hcells & Hle & Hall & Hex).
  exists cms', est. split_and!; try done.
  - intros r j. rewrite Hcells.
    destruct (decide (column Sum64 cms key r = Some j)) as [Hc | Hc].
    + rewrite decide_True by (split; [lia | done]). done.
    + rewrite decide_False; [done | intros [_ ?]; done].
  - intros r j old Hc Hcell. apply (Hall r j old); [lia | done | done].
  - destruct Hex as [-> | (r & j & old & _ & Hc & Hcell & ->)].
    + pose proof Hsh as (_ & Hdepth & _).
      destruct (column_Some cms key 0 Hsh ltac:(lia)) as (j & old & Hc & Hcell).
      exists 0%nat, j, old. split_and!; try done.
      pose proof (Hall 0%nat j old ltac:(lia) Hc Hcell).
      pose proof (updatedCell_range old delta) as Hr. unfold isUint32 in Hr. lia.
    + by exists r, j, old.
Qed.

Lemma estimateLoop_spec (key : string) (cms : CountMinSketch) (fuel : nat) :
  forall (i : nat) (minCount : Z),
  shaped cms ->
  (i + fuel = Z.to_nat (depth cms))%nat ->
  exists e,
    estimateLoop Sum64 fuel i key cms minCount = Some e /\
    e <= minCount /\
    (forall r j v, (i <= r)%nat -> column Sum64 cms key r = Some j ->
        cellAt cms r j = Some v -> e <= v) /\
    (e = minCount \/
     exists r j v, column Sum64 cms key r = Some j /\ cellAt cms r j = Some v /\ e = v).
Proof.
  induction fuel as [| fuel IH]; intros i minCount Hsh Hi.
  - exists minCount. simpl. split_and!; try done; try lia.
    intros r j v Hr Hc. unfold column in Hc.
    rewrite lookup_ge_None_2 in Hc; [done |].
    destruct Hsh as (_ & _ & _ & Hs & _). lia.
  - destruct (shaped_row cms key i Hsh ltac:(lia))
      as (seed & row & count & Hseed & Hrow & Hcount & Hlt).
    simpl. rewrite Hseed, Hrow. simpl. rewrite Hcount. simpl.
    set (idx := Z.to_nat (hash Sum64 cms key seed)) in *.
    set (min1 := if count <? minCount then count else minCount).
    destruct (IH (S i) min1 Hsh ltac:(simpl; lia)) as (e & Hrun & Hle & Hall & Hex).
    assert (column Sum64 cms key i = Some idx) as Hci
      by (unfold column; rewrite Hseed; done).
    assert (cellAt cms i idx = Some count) as Hcell0
      by (unfold cellAt; rewrite Hrow; done).
    exists e. split_and!; try done.
    + subst min1. destruct (count <? minCount) eqn:E; lia.
    + intros r j v Hr Hc Hcell.
      destruct (decide (r = i)) as [-> | Hne].
      * rewrite Hci in Hc. injection Hc as <-.
        rewrite Hcell0 in Hcell. injection Hcell as <-.
        subst min1. destruct (count <? minCount) eqn:E; lia.
      * apply (Hall r j v); [lia | done | done].
    + destruct Hex as [-> | Hex]; [| by right].
      subst min1. destruct (count <? minCount) eqn:E; [| by left].
      right. by exists i, idx, count.
Qed.

(** [Estimate] on a shaped sketch is the least cell of [key]. *)
Lemma Estimate_spec (cms : CountMinSketch) (key : string) :
  shaped cms ->
  exists e,
    Estimate Sum64 cms key = Some e /\
    (forall r j v, column Sum64 cms key r = Some j -> cellAt cms r j = Some v -> e <= v) /\
    (e = MaxUint32 \/
     exists r j v, column Sum64 cms key r = Some j /\ cellAt cms r j = Some v /\ e = v) /\
    e <= MaxUint32.
Proof.
  intros Hsh. unfold Estimate.
  destruct (estimateLoop_spec key cms (Z.to_nat (depth cms)) 0 MaxUint32 Hsh ltac:(lia))
    as (e & Hrun & Hle & Hall & Hex).
  exists e. split_and!; try done.
  intros r j v Hc Hcell. apply (Hall r j v); [lia | done | done].
Qed.

(** The value [Increment] returns is the estimate of the key afterwards. *)
Lemma Increment_returns_estimate (cms cms' : CountMinSketch) (key : string) (delta est : Z) :
  shaped cms ->
  Increment Sum64 cms key delta = Some (cms', est) ->
  Estimate Sum64 cms' key = Some est.
Proof.
  intros Hsh Hinc.
  destruct (Increment_spec cms key delta Hsh)
    as (cms2 & est2 & Hrun & Hw & Hd & Hs & Hsh' & Hcells & Hall & Hex).
  rewrite Hinc in Hrun. injection Hrun as <- <-.
  destruct (Estimate_spec cms' key Hsh') as (e & He & Hlow & Hatt & Hmax).
  rewrite He. f_equal.
  assert (forall r j old, column Sum64 cms key r = Some j -> cellAt cms r j = Some old ->
            cellAt cms' r j = Some (updatedCell old delta)) as Hnew.
  { intros r j old Hc Hcell. rewrite Hcells, decide_True by done. by rewrite Hcell. }
  destruct Hex as (r & j & old & Hc & Hcell & Hest).
  assert (e <= est) as H1.
  { rewrite Hest. apply (Hlow r j); [| by apply Hnew].
    by rewrite (column_preserved cms cms'). }
  assert (est <= e) as H2.
  { destruct Hatt as [-> | (r' & j' & v & Hc' & Hcell' & ->)].
    - pose proof (updatedCell_range old delta) as Hr. unfold isUint32 in Hr. lia.
    - rewrite (column_preserved cms cms') in Hc' by done.
      rewrite Hcells, decide_True in Hcell' by done.
      destruct (cellAt cms r' j') as [old' |] eqn:Hold; [| done].
      simpl in Hcell'. injection Hcell' as <-.
      by apply (Hall r' j'). }
  lia.
Qed.

Lemma bounded_cell (cms : CountMinSketch) (r j : nat) (v : Z) :
  bounded cms -> cellAt cms r j = Some v -> isUint32 v.
Proof.
  unfold bounded, cellAt. intros Hb Hcell.
  destruct (counters cms !! r) as [row |] eqn:Hrow; [| done].
  simpl in Hcell.
  pose proof (Forall_lookup_1 _ _ _ _ Hb Hrow) as Hrowb. simpl in Hrowb.
  exact (Forall_lookup_1 _ _ _ _ Hrowb Hcell).
Qed.

Lemma cells_bounded (cms : CountMinSketch) :
  (forall r j v, cellAt cms r j = Some v -> isUint32 v) -> bounded cms.
Proof.
  intros Hall. unfold bounded.
  apply Forall_lookup_2. intros r row Hrow.
  apply Forall_lookup_2. intros j v Hv.
  apply (Hall r j). unfold cellAt. rewrite Hrow. done.
Qed.

Lemma Increment_bounded (cms cms' : CountMinSketch) (key : string) (delta est : Z) :
  shaped cms -> bounded cms ->
  Increment Sum64 cms key delta = Some (cms', est) ->
  bounded cms'.
Proof.
  intros Hsh Hb Hinc.
  destruct (Increment_spec cms key delta Hsh)
    as (cms2 & est2 & Hrun & _ & _ & _ & _ & Hcells & _).
  rewrite Hinc in Hrun. injection Hrun as <- <-.
  apply cells_bounded. intros r j v. rewrite Hcells.
  destruct (decide _).
  - destruct (cellAt cms r j) as [old |]; [| done].
    simpl. intros [= <-]. apply updatedCell_range.
  - by apply bounded_cell.
Qed.

(** C8. [Increment] saturates instead of wrapping: on a sketch with
    [depth] rows of [width] cells holding [uint32] values, the call
    returns; the cell selected for [key] in each of the [depth] rows
    becomes the minimum of its old value plus [delta] and 2^32 - 1; no
    other cell changes; and the value returned is the minimum of the
    selected cells after the update, which is the new estimate of [key]. *)
Theorem Increment_saturates (cms : CountMinSketch) (key : string) (delta : Z) :
  shaped cms -> bounded cms -> isUint32 delta ->
  exists cms' est,
    Increment Sum64 cms key delta = Some (cms', est) /\
    (forall r, (r < Z.to_nat (depth cms))%nat ->
       exists j old,
         column Sum64 cms key r = Some j /\
         cellAt cms r j = Some old /\
         cellAt cms' r j = Some (Z.min (old + delta) MaxUint32)) /\
    (forall r j, column Sum64 cms key r <> Some j -> cellAt cms' r j = cellAt cms r j) /\
    (forall r j v, column Sum64 cms key r = Some j -> cellAt cms' r j = Some v -> est <= v) /\
    (exists r j, column Sum64 cms key r = Some j /\ cellAt cms' r j = Some est) /\
    Estimate Sum64 cms' key = Some est.
Proof.
  intros Hsh Hb Hdelta.
  destruct (Increment_spec cms key delta Hsh)
    as (cms' & est & Hrun & Hw & Hd & Hs & Hsh' & Hcells & Hall & Hex).
  exists cms', est. split_and!; try done.
  - intros r Hr.
    destruct (column_Some cms key r Hsh Hr) as (j & old & Hc & Hcell).
    exists j, old. split_and!; try done.
    rewrite Hcells, decide_True, Hcell by done. simpl.
    rewrite updatedCell_saturates; [done | | done].
    by eapply bounded_cell.
  - intros r j Hne. rewrite Hcells, decide_False by done. done.
  - intros r j v Hc. rewrite Hcells, decide_True by done.
    destruct (cellAt cms r j) as [old |] eqn:Hold; [| done].
    simpl. intros [= <-]. by apply (Hall r j).
  - destruct Hex as (r & j & old & Hc & Hcell & ->).
    exists r, j. split; [done |].
    rewrite Hcells, decide_True, Hcell by done. done.
  - exact (Increment_returns_estimate _ _ _ _ _ Hsh Hrun).
Qed.

Lemma trueCount_app (key : string) (a b : list (string * Z)) :
  trueCount key (a ++ b) = trueCount key a + trueCount key b.
Proof.
  induction a as [| c a IH]; simpl; [lia |].
  destruct (decide (c.1 = key)); lia.
Qed.

(** The lower bound every cell of a key keeps while the sketch is only
    incremented: the true count, capped at the largest [uint32]. *)
Lemma Increment_keeps_bound (cms cms' : CountMinSketch) (calls : list (string * Z))
    (k : string) (d est : Z) :
  shaped cms -> bounded cms -> isUint32 d ->
  (forall key r j v, column Sum64 cms key r = Some j -> cellAt cms r j = Some v ->
     Z.min (trueCount key calls) MaxUint32 <= v) ->
  Increment Sum64 cms k d = Some (cms', est) ->
  forall key r j v, column Sum64 cms' key r = Some j -> cellAt cms' r j = Some v ->
    Z.min (trueCount key (calls ++ [(k, d)])) MaxUint32 <= v.
Proof.
  intros Hsh Hb Hd Hinv Hinc key r j v Hc Hcell.
  destruct (Increment_spec cms k d Hsh)
    as (cms2 & est2 & Hrun & Hw & Hdep & Hs & Hsh' & Hcells & _).
  rewrite Hinc in Hrun. injection Hrun as <- <-.
  rewrite (column_preserved cms cms') in Hc by done.
  rewrite trueCount_app. simpl.
  rewrite Hcells in Hcell.
  destruct (decide (column Sum64 cms k r = Some j)) as [Hk | Hk].
  - destruct (cellAt cms r j) as [old |] eqn:Hold; [| done].
    simpl in Hcell. injection Hcell as <-.
    pose proof (bounded_cell cms r j old Hb Hold) as Hob.
    rewrite updatedCell_saturates by done.
    pose proof (Hinv key r j old Hc Hold) as Hlow.
    unfold isUint32 in *.
    destruct (decide (k = key)); lia.
  - pose proof (Hinv key r j v Hc Hcell) as Hlow.
    destruct (decide (k = key)) as [-> | Hne]; [done |].
    lia.
Qed.

Lemma incrementAll_bound (calls : list (string * Z)) :
  forall (cms : CountMinSketch) (prior : list (string * Z)),
  shaped cms -> bounded cms ->
  Forall (fun c => isUint32 c.2) calls ->
  (forall key r j v, column Sum64 cms key r = Some j -> cellAt cms r j = Some v ->
     Z.min (trueCount key prior) MaxUint32 <= v) ->
  exists cms',
    incrementAll Sum64 cms calls = Some cms' /\ shaped cms' /\ bounded cms' /\
    (forall key r j v, column Sum64 cms' key r = Some j -> cellAt cms' r j = Some v ->
       Z.min (trueCount key (prior ++ calls)) MaxUint32 <= v).
Proof.
  induction calls as [| [k d] calls IH]; intros cms prior Hsh Hb Hds Hinv.
  - exists cms. rewrite app_nil_r. done.
  - apply Forall_cons in Hds as [Hd Hds]. simpl in Hd.
    destruct (Increment_spec cms k d Hsh)
      as (cms1 & est & Hrun & _ & _ & _ & Hsh1 & _).
    simpl. rewrite Hrun. simpl.
    destruct (IH cms1 (prior ++ [(k, d)]) Hsh1
                (Increment_bounded _ _ _ _ _ Hsh Hb Hrun) Hds
                (Increment_keeps_bound _ _ _ _ _ _ Hsh Hb Hd Hinv Hrun))
      as (cms' & Hall & Hsh' & Hb' & Hinv').
    exists cms'. rewrite <- app_assoc in Hinv'. done.
Qed.

(** C3, as the code has it. Starting from a freshly constructed sketch
    and after any sequence of [Increment] calls (no [Decay], no [Reset]),
    every call returns and the estimate of a key is at least its true
    count capped at 2^32 - 1: the sketch never under-counts until the
    counters of the key saturate. The value returned by a further
    [Increment] is the minimum over the [depth] cells it has just
    updated. *)
Theorem Estimate_lower_bound (m d : Z) (calls : list (string * Z)) (key : string) :
  Forall (fun c => isUint32 c.2) calls ->
  exists cms' e,
    incrementAll Sum64 (NewCountMinSketch m d) calls = Some cms' /\
    Estimate Sum64 cms' key = Some e /\
    Z.min (trueCount key calls) MaxUint32 <= e /\
    (forall k delta,
       exists cms'' est,
         Increment Sum64 cms' k delta = Some (cms'', est) /\
         (forall r j v, column Sum64 cms' k r = Some j ->
            cellAt cms'' r j = Some v -> est <= v) /\
         (exists r j, column Sum64 cms' k r = Some j /\ cellAt cms'' r j = Some est)).
Proof.
  intros Hds.
  destruct (incrementAll_bound calls (NewCountMinSketch m d) []
              (NewCountMinSketch_shaped m d) (NewCountMinSketch_bounded m d) Hds)
    as (cms' & Hrun & Hsh & Hb & Hinv).
  { intros k r j v _ Hcell. simpl.
    pose proof (bounded_cell _ _ _ _ (NewCountMinSketch_bounded m d) Hcell) as Hv.
    unfold isUint32, MaxUint32 in *. lia. }
  simpl in Hinv.
  destruct (Estimate_spec cms' key Hsh) as (e & He & Hlow & Hatt & Hmax).
  exists cms', e. split_and!; try done.
  - destruct Hatt as [-> | (r & j & v & Hc & Hcell & ->)]; [lia |].
    by apply (Hinv key r j).
  - intros k delta.
    destruct (Increment_spec cms' k delta Hsh)
      as (cms'' & est & Hinc & _ & _ & _ & _ & Hcells & Hall & Hex).
    exists cms'', est. split_and!; try done.
    + intros r j v Hc. rewrite Hcells, decide_True by done.
      destruct (cellAt cms' r j) as [old |] eqn:Hold; [| done].
      simpl. intros [= <-]. by apply (Hall r j).
    + destruct Hex as (r & j & old & Hc & Hcell & ->).
      exists r, j. split; [done |].
      rewrite Hcells, decide_True, Hcell by done. done.
Qed.

End SketchProps.

(** ** Count-Min Sketch: concrete runs *)

(** The digest agrees with the published XXH64 values. *)
Example Sum64_empty : XXH.Sum64 (bytesOf "") = 0xef46db3751d8e999.
Proof. vm_compute. reflexivity. Qed.

Example Sum64_a : XXH.Sum64 (bytesOf "a") = 0xd24ec4f1a98c6e5b.
Proof. vm_compute. reflexivity. Qed.

Example Sum64_long :
  XXH.Sum64 (bytesOf "Call me Ishmael. Some years ago--never mind how long precisely-")
  = 0x02a2e85470d6fd96.
Proof. vm_compute. reflexivity. Qed.

Lemma Increment_saturates_witness :
  CMS.shaped (CMS.NewCountMinSketch 1024 2) /\
  CMS.bounded (CMS.NewCountMinSketch 1024 2) /\
  isUint32 5 /\
  exists cms' est,
    CMS.Increment XXH.Sum64 (CMS.NewCountMinSketch 1024 2) "k" 5 = Some (cms', est) /\
    CMS.Estimate XXH.Sum64 cms' "k" = Some est.
Proof.
  assert (isUint32 5) as H5 by (unfold isUint32, MaxUint32; lia).
  split; [apply NewCountMinSketch_shaped |].
  split; [apply NewCountMinSketch_bounded |].
  split; [exact H5 |].
  destruct (Increment_saturates XXH.Sum64 (CMS.NewCountMinSketch 1024 2) "k" 5
              (NewCountMinSketch_shaped 1024 2) (NewCountMinSketch_bounded 1024 2) H5)
    as (cms' & est & Hinc & _ & _ & _ & _ & Hest).
  exists cms', est. split; [exact Hinc | exact Hest].
Defined.

Lemma Estimate_lower_bound_witness :
  Forall (fun c : string * Z => isUint32 c.2) [("a", 3); ("b", 4); ("a", 2)] /\
  exists cms' e,
    CMS.incrementAll XXH.Sum64 (CMS.NewCountMinSketch 1024 2)
      [("a", 3); ("b", 4); ("a", 2)] = Some cms' /\
    CMS.Estimate XXH.Sum64 cms' "a" = Some e /\
    5 <= e.
Proof.
  assert (Forall (fun c : string * Z => isUint32 c.2) [("a", 3); ("b", 4); ("a", 2)]) as Hds.
  { repeat constructor; unfold MaxUint32; simpl; lia. }
  split; [exact Hds |].
  destruct (Estimate_lower_bound XXH.Sum64 1024 2 [("a", 3); ("b", 4); ("a", 2)] "a" Hds)
    as (cms' & e & Hrun & He & Hlow & _).
  exists cms', e. split; [exact Hrun |]. split; [exact He |].
  exact Hlow.
Defined.

(** C3 as stated fails once a counter saturates: two calls for one key
    with the largest [uint32] delta leave the estimate at 2^32 - 1, below
    the true count 2^33 - 2. *)
Lemma Estimate_undercounts_when_saturated :
  exists cms' e,
    CMS.incrementAll XXH.Sum64 (CMS.NewCountMinSketch 1024 2)
      [("k", 4294967295); ("k", 4294967295)] = Some cms' /\
    CMS.Estimate XXH.Sum64 cms' "k" = Some e /\
    e < CMS.trueCount "k" [("k", 4294967295); ("k", 4294967295)].
Proof.
  eexists _, _. split; [vm_compute; reflexivity |].
  split; [vm_compute; reflexivity |].
  vm_compute. reflexivity.
Qed.

(** ** Hot-key batcher: pending entries *)

Section Pending.
Import Batcher.

(** What one [Submit] does to the entry of its key. *)
Lemma Submit_lookup (b : HotKeyBatcher) (k key : string) (hits ttl : Z) :
  pending (Submit b k hits ttl).1 !! key =
  if decide (k = key)
  then absorb (pending b !! key) (hits, ttl, nextChan b)
  else pending b !! key.
Proof.
  unfold Submit, absorb; simpl.
  destruct (decide (k = key)) as [-> | Hne].
  - rewrite lookup_insert_eq. f_equal.
    destruct (pending b !! key) as [agg |]; simpl.
    + f_equal. destruct (ttl >? expirationSeconds agg) eqn:E; lia.
    + f_equal. destruct (ttl >? ttl) eqn:E; lia.
  - by rewrite lookup_insert_ne.
Qed.

Lemma Submit_chan (b : HotKeyBatcher) (k : string) (hits ttl : Z) :
  (Submit b k hits ttl).2 = nextChan b /\
  nextChan (Submit b k hits ttl).1 = S (nextChan b).
Proof. done. Qed.

(** The entry of [key] after a sequence of calls, from the entry before
    it and the calls made for [key]. *)
Lemma submitAll_lookup (calls : list (string * Z * Z)) :
  forall (b : HotKeyBatcher) (key : string),
  pending (submitAll b calls).1 !! key =
  foldl absorb (pending b !! key) (callsFor key calls (submitAll b calls).2).
Proof.
  induction calls as [| [[k hits] ttl] calls IH]; intros b key; [done |].
  cbn [submitAll].
  pose proof (Submit_lookup b k key hits ttl) as Hl.
  pose proof (Submit_chan b k hits ttl) as [Hch _].
  destruct (Submit b k hits ttl) as [b1 ch] eqn:Hsub.
  pose proof (IH b1 key) as IH1.
  destruct (submitAll b1 calls) as [b2 chs] eqn:Hall.
  cbn [fst snd] in *. subst ch.
  rewrite IH1, Hl. unfold callsFor. cbn [zip zip_with].
  destruct (decide (k = key)) as [-> | Hne]; simpl.
  - by rewrite decide_True.
  - by rewrite decide_False.
Qed.

Lemma sumZ_app (a b : list Z) : sumZ (a ++ b) = sumZ a + sumZ b.
Proof. induction a as [| x a IH]; simpl; lia. Qed.

Lemma uint64_add_l (a b : Z) : uint64 (uint64 a + b) = uint64 (a + b).
Proof. unfold uint64. apply Zplus_mod_idemp_l. Qed.

Lemma uint64_sub_l (a b : Z) : uint64 (uint64 a - b) = uint64 (a - b).
Proof. unfold uint64. apply Zminus_mod_idemp_l. Qed.

Lemma fold_absorb (mine : list (Z * Z * nat)) :
  forall (agg : aggregatedIncrement) (c : Z * Z * nat),
  foldl absorb (Some agg) (c :: mine) =
  Some (mkAgg (uint64 (totalHits agg + sumZ (map (fun c => c.1.1) (c :: mine))))
              (foldl Z.max (expirationSeconds agg) (map (fun c => c.1.2) (c :: mine)))
              (waiters agg ++ map (fun c => mkWaiter c.1.1 c.2) (c :: mine))).
Proof.
  induction mine as [| c' mine IH]; intros agg [[hits ttl] ch].
  - simpl. by rewrite Z.add_0_r.
  - change (foldl absorb (Some agg) ((hits, ttl, ch) :: c' :: mine))
      with (foldl absorb (absorb (Some agg) (hits, ttl, ch)) (c' :: mine)).
    unfold absorb at 2. cbn [default].
    rewrite IH. cbn [totalHits expirationSeconds waiters].
    f_equal. f_equal.
    + rewrite uint64_add_l. f_equal. simpl. lia.
    + by rewrite <- app_assoc.
Qed.

Lemma foldl_max_ge (l : list Z) : forall a, a <= foldl Z.max a l /\ Forall (fun x => x <= foldl Z.max a l) l.
Proof.
  induction l as [| x l IH]; intros a; simpl; [split; [lia | constructor] |].
  destruct (IH (Z.max a x)) as [H1 H2].
  split; [lia |]. constructor; [lia | done].
Qed.

Lemma foldl_max_in (l : list Z) : forall a, foldl Z.max a l = a \/ foldl Z.max a l ∈ l.
Proof.
  induction l as [| x l IH]; intros a; simpl; [by left |].
  destruct (IH (Z.max a x)) as [H | H].
  - rewrite H. destruct (Z.max_spec a x) as [[_ ->] | [_ ->]].
    + right. left.
    + by left.
  - right. by right.
Qed.

Lemma fold_absorb_None (mine : list (Z * Z * nat)) (c : Z * Z * nat) :
  foldl absorb None (c :: mine) =
  Some (mkAgg (uint64 (sumZ (map (fun c => c.1.1) (c :: mine))))
              (foldl Z.max c.1.2 (map (fun c => c.1.2) mine))
              (map (fun c => mkWaiter c.1.1 c.2) (c :: mine))).
Proof.
  destruct c as [[hits ttl] ch].
  change (foldl absorb None ((hits, ttl, ch) :: mine))
    with (foldl absorb (absorb None (hits, ttl, ch)) mine).
  unfold absorb at 2. cbn [default totalHits expirationSeconds waiters].
  destruct mine as [| c' mine].
  - simpl. rewrite Z.max_id, Z.add_0_r. done.
  - rewrite fold_absorb. cbn [totalHits expirationSeconds waiters].
    rewrite uint64_add_l, Z.max_id. done.
Qed.

Lemma sumHits_map (mine : list (Z * Z * nat)) :
  sumHits (map (fun c => mkWaiter c.1.1 c.2) mine) = sumZ (map (fun c => c.1.1) mine).
Proof.
  unfold sumHits. rewrite map_map. done.
Qed.

(** C7. After any sequence of [Submit] calls on a batcher whose pending
    map is empty (as it is right after a flush), a key has a pending entry
    exactly when a call was made for it, and then: [totalHits] is the
    [uint64] sum of the [hitsAddend] of its waiters (the plain sum when
    that sum fits 64 bits); the waiters are the calls made for the key, in
    submit order, each with the channel handed to its caller; and the
    recorded expiration is the maximum [ttlSeconds] of those calls. *)
Theorem Submit_pending_entry (fw : Z) (n : nat) (calls : list (string * Z * Z))
    (key : string) :
  let b := mkBatcher fw ∅ n in
  let b' := (submitAll b calls).1 in
  let mine := callsFor key calls (submitAll b calls).2 in
  match pending b' !! key with
  | None => mine = []
  | Some agg =>
      mine <> [] /\
      totalHits agg = uint64 (sumHits (waiters agg)) /\
      (isUint64 (sumHits (waiters agg)) -> totalHits agg = sumHits (waiters agg)) /\
      waiters agg = map (fun c => mkWaiter c.1.1 c.2) mine /\
      Forall (fun c => c.1.2 <= expirationSeconds agg) mine /\
      expirationSeconds agg ∈ map (fun c => c.1.2) mine
  end.
Proof.
  intros b b' mine. subst b'. rewrite submitAll_lookup. fold mine.
  change (pending b !! key) with ((∅ : gmap string aggregatedIncrement) !! key).
  rewrite lookup_empty.
  destruct mine as [| c rest] eqn:Hmine; [done |].
  rewrite fold_absorb_None. cbn [totalHits expirationSeconds waiters].
  rewrite sumHits_map.
  split_and!; try done.
  - intros Hfit. by apply uint64_small.
  - destruct (foldl_max_ge (map (fun c => c.1.2) rest) c.1.2) as [H1 H2].
    constructor; [done |].
    rewrite Forall_map in H2. exact H2.
  - destruct (foldl_max_in (map (fun c => c.1.2) rest) c.1.2) as [-> | Hin].
    + simpl. left.
    + simpl. by right.
Qed.

End Pending.

(** ** Hot-key batcher: flush *)

Section Flush.
Import Batcher.

Context {C : Type} `{Client C}.

Lemma sumHits_cons (w : pendingWaiter) (ws : list pendingWaiter) :
  sumHits (w :: ws) = hitsAddend w + sumHits ws.
Proof. done. Qed.

Lemma sumHits_app (a b : list pendingWaiter) : sumHits (a ++ b) = sumHits a + sumHits b.
Proof. unfold sumHits. by rewrite map_app, sumZ_app. Qed.

Lemma sumHits_nonneg (ws : list pendingWaiter) :
  Forall (fun w => 0 <= hitsAddend w) ws -> 0 <= sumHits ws.
Proof.
  induction 1 as [| w ws Hw _ IH]; [done |].
  rewrite sumHits_cons. lia.
Qed.

(** The reverse walk hands waiter [i] the final count less the addends of
    the waiters behind it, in [uint64] arithmetic. *)
Lemma reverseWalk_spec (ws : list pendingWaiter) (running : Z) :
  isUint64 running ->
  (reverseWalk ws running).2 = uint64 (running - sumHits ws) /\
  forall i w, ws !! i = Some w ->
    (reverseWalk ws running).1 !! i = Some (uint64 (running - sumHits (drop (S i) ws))).
Proof.
  intros Hr. induction ws as [| w ws [IH1 IH2]].
  - simpl. split; [| done].
    unfold sumHits; simpl. rewrite Z.sub_0_r. by rewrite uint64_small.
  - simpl. destruct (reverseWalk ws running) as [rs r'] eqn:Hw. simpl in *.
    split.
    + rewrite IH1, uint64_sub_l, sumHits_cons. f_equal. lia.
    + intros [| i] w' Hi; simpl.
      * by rewrite drop_0, IH1.
      * by apply (IH2 i w').
Qed.

Lemma waiterResults_lookup (finalCount : Z) (ws : list pendingWaiter) (i : nat)
    (w : pendingWaiter) :
  isUint64 finalCount ->
  ws !! i = Some w ->
  waiterResults finalCount ws !! i = Some (uint64 (finalCount - sumHits (drop (S i) ws))).
Proof.
  intros Hf Hi. unfold waiterResults.
  exact (proj2 (reverseWalk_spec ws finalCount Hf) i w Hi).
Qed.

Lemma pending_nonempty (b : HotKeyBatcher) (key : string) (agg : aggregatedIncrement) :
  pending b !! key = Some agg ->
  bool_decide (size (pending b) = 0%nat) = false.
Proof.
  intros Hl. apply bool_decide_eq_false. intros Hs.
  apply map_size_empty_inv in Hs. rewrite Hs in Hl. by rewrite lookup_empty in Hl.
Qed.

Lemma elem_of_flat_map {A B : Type} (f : A -> list B) (l : list A) (y : B) :
  y ∈ flat_map f l <-> exists x, x ∈ l /\ y ∈ f x.
Proof.
  rewrite list_elem_of_In, in_flat_map.
  split; intros (x & Hx & Hy); exists x; by rewrite ?list_elem_of_In in *.
Qed.

(** The pipeline of a flush holds, key after key of the batch, the
    increment and the expiry of the key. *)
Lemma buildPipeline_flat (l : list (string * aggregatedIncrement)) :
  buildPipeline l = flat_map (fun '(key, agg) => keyActions key agg) l.
Proof.
  unfold buildPipeline.
  assert (forall acc : Pipeline string,
            foldl (fun pipeline '(key, agg) =>
                     PipeAppend (PipeAppend pipeline (Some key) "INCRBY" key [totalHits agg])
                                None "EXPIRE" key [expirationSeconds agg]) acc l
            = acc ++ flat_map (fun '(key, agg) => keyActions key agg) l) as Hgen.
  { induction l as [| [k a] l IH]; intros acc; cbn [foldl flat_map].
    - by rewrite app_nil_r.
    - rewrite IH. unfold PipeAppend, keyActions. by rewrite <- !app_assoc. }
  exact (Hgen []).
Qed.

Lemma buildPipeline_lookup (l : list (string * aggregatedIncrement)) :
  forall pos key agg,
  l !! pos = Some (key, agg) ->
  buildPipeline l !! (2 * pos)%nat = Some (mkAction (Some key) "INCRBY" key [totalHits agg]).
Proof.
  rewrite buildPipeline_flat.
  induction l as [| [k a] l IH]; intros pos key agg Hpos; [done |].
  destruct pos as [| pos].
  - injection Hpos as -> ->. done.
  - replace (2 * S pos)%nat with (S (S (2 * pos))) by lia.
    cbn [flat_map keyActions app lookup list_lookup].
    exact (IH pos key agg Hpos).
Qed.

(** The writes of a flush: the key at position [pos] of the batch is
    written the reply to command [2 * pos], unless that reply is nil or
    missing. *)
Lemma writeBack_flush (l : list (string * aggregatedIncrement)) :
  forall (replies : list (option Z)) (k : string) (v : Z),
  (k, v) ∈ writeBack (flat_map (fun '(key, agg) => keyActions key agg) l) replies <->
  exists pos agg, l !! pos = Some (k, agg) /\ replies !! (2 * pos)%nat = Some (Some v).
Proof.
  induction l as [| [k0 a0] l IH]; intros replies k v.
  - cbn [flat_map writeBack]. split.
    + intros Hin. by apply elem_of_nil in Hin.
    + intros (pos & agg & Hpos & _). done.
  - cbn [flat_map keyActions app].
    destruct replies as [| r0 [| r1 replies]].
    + cbn [writeBack]. split.
      * intros Hin. by apply elem_of_nil in Hin.
      * intros (pos & agg & _ & Hr). done.
    + cbn [writeBack rcv]. split.
      * intros Hin. destruct r0 as [v0 |]; [| by apply elem_of_nil in Hin].
        apply list_elem_of_singleton in Hin. injection Hin as -> ->.
        exists 0%nat, a0. done.
      * intros (pos & agg & Hpos & Hr).
        destruct pos as [| pos].
        -- injection Hpos as -> ->. cbn in Hr. injection Hr as ->. left.
        -- replace (2 * S pos)%nat with (S (S (2 * pos))) in Hr by lia. done.
    + cbn [writeBack rcv].
      assert ((k, v) ∈ writeBack (flat_map (fun '(key, agg) => keyActions key agg) l) replies
              <-> exists pos agg, l !! pos = Some (k, agg) /\
                                  (r0 :: r1 :: replies) !! (2 * S pos)%nat = Some (Some v))
        as Hrest.
      { rewrite IH. split; intros (pos & agg & Hpos & Hr); exists pos, agg; (split; [done |]).
        - replace (2 * S pos)%nat with (S (S (2 * pos))) by lia. exact Hr.
        - replace (2 * S pos)%nat with (S (S (2 * pos))) in Hr by lia. exact Hr. }
      split.
      * intros Hin.
        assert ((k, v) = (k0, v) /\ r0 = Some v \/
                (k, v) ∈ writeBack (flat_map (fun '(key, agg) => keyActions key agg) l) replies)
          as [[Heq Hr0] | Hin'].
        { destruct r0 as [v0 |]; [| by right].
          apply elem_of_cons in Hin as [Heq | Hin]; [| by right].
          injection Heq as -> ->. by left. }
        -- injection Heq as ->. exists 0%nat, a0. by rewrite Hr0.
        -- apply Hrest in Hin' as (pos & agg & Hpos & Hr). by exists (S pos), agg.
      * intros (pos & agg & Hpos & Hr).
        destruct pos as [| pos].
        -- injection Hpos as -> ->. cbn in Hr. injection Hr as ->. left.
        -- assert ((k, v) ∈ writeBack (flat_map (fun '(key, agg) => keyActions key agg) l)
                                      replies) as Hin
             by (apply Hrest; by exists pos, agg).
           destruct r0; [by right | done].
Qed.

Lemma foldl_insert_other (writes : list (string * Z)) (key : string) :
  forall m : gmap string Z,
  (forall v, (key, v) ∉ writes) ->
  foldl (fun m '(k, v) => <[k := v]> m) m writes !! key = m !! key.
Proof.
  induction writes as [| [k v] writes IH]; intros m Hnot; [done |].
  cbn [foldl]. rewrite IH.
  - apply lookup_insert_ne. intros ->. apply (Hnot v). left.
  - intros v' Hin. apply (Hnot v'). by right.
Qed.

Lemma foldl_insert_written (writes : list (string * Z)) (key : string) (v : Z) :
  forall m : gmap string Z,
  (key, v) ∈ writes ->
  (forall v', (key, v') ∈ writes -> v' = v) ->
  foldl (fun m '(k, v) => <[k := v]> m) m writes !! key = Some v.
Proof.
  induction writes as [| [k v0] writes IH]; intros m Hin Huniq.
  - by apply elem_of_nil in Hin.
  - cbn [foldl].
    destruct (decide ((key, v) ∈ writes)) as [Hlater | Hnot].
    + apply IH; [done |]. intros v' Hv'. apply Huniq. by right.
    + apply elem_of_cons in Hin as [Heq | Hin]; [| done].
      injection Heq as <- <-.
      rewrite foldl_insert_other; [by rewrite lookup_insert_eq |].
      intros v' Hv'.
      assert (v' = v) as -> by (apply Huniq; by right). done.
Qed.

(** The result cell of a key after the pipeline: the reply to the
    increment of the key, or the zero it was initialised with when that
    reply is nil or missing. *)
Lemma resultCells_reply (l : list (string * aggregatedIncrement))
    (replies : list (option Z)) (pos : nat) (key : string) (agg : aggregatedIncrement) :
  NoDup l.*1 ->
  l !! pos = Some (key, agg) ->
  default 0 (resultCells l (writeBack (buildPipeline l) replies) !! key)
  = match replies !! (2 * pos)%nat with
    | Some (Some v) => v
    | _ => 0
    end.
Proof.
  intros Hnd Hpos. rewrite buildPipeline_flat. unfold resultCells.
  assert (forall p a, l !! p = Some (key, a) -> p = pos) as Hsame.
  { intros p a Hp.
    apply (NoDup_lookup l.*1 p pos key); [done | |].
    - by rewrite list_lookup_fmap, Hp.
    - by rewrite list_lookup_fmap, Hpos. }
  destruct (replies !! (2 * pos)%nat) as [[v |] |] eqn:Hr.
  - rewrite (foldl_insert_written _ key v); [done | |].
    + apply writeBack_flush. by exists pos, agg.
    + intros v' Hv'. apply writeBack_flush in Hv' as (p & a & Hp & Hrp).
      rewrite (Hsame p a Hp) in Hrp. congruence.
  - rewrite foldl_insert_other.
    + destruct (list_to_map _ !! key) as [x |] eqn:Hx; [| done].
      apply elem_of_list_to_map_2 in Hx.
      change (map ?f l) with (f <$> l) in Hx.
      apply list_elem_of_fmap in Hx as ([k a] & Heq & _). by injection Heq as _ ->.
    + intros v' Hv'. apply writeBack_flush in Hv' as (p & a & Hp & Hrp).
      rewrite (Hsame p a Hp) in Hrp. congruence.
  - rewrite foldl_insert_other.
    + destruct (list_to_map _ !! key) as [x |] eqn:Hx; [| done].
      apply elem_of_list_to_map_2 in Hx.
      change (map ?f l) with (f <$> l) in Hx.
      apply list_elem_of_fmap in Hx as ([k a] & Heq & _). by injection Heq as _ ->.
    + intros v' Hv'. apply writeBack_flush in Hv' as (p & a & Hp & Hrp).
      rewrite (Hsame p a Hp) in Hrp. congruence.
Qed.

(** C1. When the pipeline of a flush succeeds, the increment of a
    pending key is command [2 * pos] of that pipeline, [pos] being the
    place of the key in the batch, and [finalCount] is the reply to it
    (zero when the reply is nil), read from the result cell of the key.
    Waiter [i] of the key is sent, without error, [finalCount] less the
    sum of the addends of the waiters submitted after it, in [uint64]
    arithmetic; when [finalCount] is the sum of a previous value [v >= 0]
    and all the addends, this is [v] plus the addends of the waiters up
    to and including [i]. *)
Theorem flush_per_waiter_counts (b : HotKeyBatcher) (c c' : C)
    (replies : list (option Z)) (key : string) (agg : aggregatedIncrement)
    (i : nat) (w : pendingWaiter) :
  pending b !! key = Some agg ->
  waiters agg !! i = Some w ->
  Exec c (map wire (buildPipeline (map_to_list (pending b)))) = (c', inr replies) ->
  exists pos finalCount,
    map_to_list (pending b) !! pos = Some (key, agg) /\
    buildPipeline (map_to_list (pending b)) !! (2 * pos)%nat
      = Some (mkAction (Some key) "INCRBY" key [totalHits agg]) /\
    finalCount = match replies !! (2 * pos)%nat with
                 | Some (Some v) => v
                 | _ => 0
                 end /\
    finalCount
      = default 0 (resultCells (map_to_list (pending b))
                     (writeBack (buildPipeline (map_to_list (pending b))) replies) !! key) /\
    (isUint64 finalCount ->
     (resultChan w,
      mkResult (uint64 (finalCount - sumHits (drop (S i) (waiters agg)))) None)
       ∈ (flush b c).2 /\
     forall v,
       0 <= v ->
       Forall (fun w => 0 <= hitsAddend w) (waiters agg) ->
       finalCount = v + sumHits (waiters agg) ->
       (resultChan w, mkResult (v + sumHits (take (S i) (waiters agg))) None)
         ∈ (flush b c).2).
Proof.
  intros Hkey Hi Hexec.
  assert ((key, agg) ∈ map_to_list (pending b)) as Hin0 by (by apply elem_of_map_to_list).
  apply list_elem_of_lookup in Hin0 as [pos Hpos].
  pose proof (resultCells_reply (map_to_list (pending b)) replies pos key agg
                (NoDup_fst_map_to_list (pending b)) Hpos) as Hcell.
  set (finalCount := default 0 (resultCells (map_to_list (pending b))
                        (writeBack (buildPipeline (map_to_list (pending b))) replies) !! key))
    in *.
  exists pos, finalCount.
  split; [exact Hpos |]. split; [by apply (buildPipeline_lookup _ pos key agg) |].
  split; [exact Hcell |]. split; [reflexivity |].
  intros Hfinal.
  assert ((resultChan w,
           mkResult (uint64 (finalCount - sumHits (drop (S i) (waiters agg)))) None)
            ∈ (flush b c).2) as Hin.
  { unfold flush. rewrite (pending_nonempty b key agg Hkey).
    unfold PipeDo. rewrite Hexec. cbn [snd].
    unfold distribute. apply elem_of_flat_map.
    exists (key, agg). split; [by apply elem_of_map_to_list |].
    fold finalCount.
    apply list_elem_of_lookup. exists i.
    apply lookup_zip_Some. split.
    - change (map resultChan (waiters agg)) with (resultChan <$> waiters agg).
      by rewrite list_lookup_fmap, Hi.
    - change (map (fun v => mkResult v None) (waiterResults finalCount (waiters agg)))
        with ((fun v => mkResult v None) <$> waiterResults finalCount (waiters agg)).
      by rewrite list_lookup_fmap, (waiterResults_lookup finalCount _ i w Hfinal Hi). }
  split; [exact Hin |].
  intros v Hv Hpos' Hsum.
  replace (v + sumHits (take (S i) (waiters agg)))
    with (uint64 (finalCount - sumHits (drop (S i) (waiters agg)))); [exact Hin |].
  pose proof (sumHits_app (take (S i) (waiters agg)) (drop (S i) (waiters agg))) as Happ.
  rewrite take_drop in Happ.
  assert (0 <= sumHits (take (S i) (waiters agg))) as H1.
  { apply sumHits_nonneg. by apply Forall_take. }
  assert (0 <= sumHits (drop (S i) (waiters agg))) as H2.
  { apply sumHits_nonneg. by apply Forall_drop. }
  replace (finalCount - sumHits (drop (S i) (waiters agg)))
    with (v + sumHits (take (S i) (waiters agg))) by lia.
  apply uint64_small. unfold isUint64 in *. lia.
Qed.

(** C6. When the pipeline of a flush fails, every waiter of every key
    of the batch is sent that error, every message sent carries that
    error and no value, the pipeline has been executed once (the store is
    the one that execution left), and the batch is dropped from the
    pending map rather than queued again. *)
Theorem flush_error_reaches_all_waiters (b : HotKeyBatcher) (c c' : C) (err : error) :
  size (pending b) <> 0%nat ->
  PipeDo c (buildPipeline (map_to_list (pending b))) = (c', inl err) ->
  exists ds,
    flush b c = (mkBatcher (flushWindow b) ∅ (nextChan b), c', ds) /\
    (forall key agg w,
        pending b !! key = Some agg -> w ∈ waiters agg ->
        (resultChan w, mkResult 0 (Some err)) ∈ ds) /\
    (forall d, d ∈ ds -> d.2 = mkResult 0 (Some err)).
Proof.
  intros Hne Hdo.
  unfold flush. rewrite bool_decide_eq_false_2 by done.
  rewrite Hdo.
  eexists. split; [reflexivity |].
  unfold distribute. split.
  - intros key agg w Hkey Hw.
    apply elem_of_flat_map. exists (key, agg).
    split; [by apply elem_of_map_to_list |].
    change (map ?f (waiters agg)) with (f <$> waiters agg).
    apply list_elem_of_fmap. by exists w.
  - intros d Hd.
    apply elem_of_flat_map in Hd as ([key agg] & _ & Hd).
    change (map ?f (waiters agg)) with (f <$> waiters agg) in Hd.
    apply list_elem_of_fmap in Hd as (w & -> & _). done.
Qed.

End Flush.

(** ** Hot-key batcher: concrete runs *)

(** The example of the flush protocol: counter at 50, waiters with
    addends 2, 3 and 1. *)
Lemma flush_per_waiter_counts_witness :
  let b := (Batcher.submitAll (Batcher.NewHotKeyBatcher 0)
              [("K", 2, 60); ("K", 3, 60); ("K", 1, 60)]).1 in
  let c := MemStore.mkStore {["K" := 50]} ∅ false None in
  (0%nat, Batcher.mkResult 52 None) ∈ (Batcher.flush b c).2 /\
  (1%nat, Batcher.mkResult 55 None) ∈ (Batcher.flush b c).2 /\
  (2%nat, Batcher.mkResult 56 None) ∈ (Batcher.flush b c).2.
Proof.
  intros b c.
  pose (agg := Batcher.mkAgg 6 60
                 [Batcher.mkWaiter 2 0; Batcher.mkWaiter 3 1; Batcher.mkWaiter 1 2]).
  pose (c' := MemStore.mkStore {["K" := 56]} {["K" := 60]} false None).
  assert (Batcher.pending b !! "K" = Some agg) as Hkey by (vm_compute; reflexivity).
  assert (Exec c (map wire (Batcher.buildPipeline (map_to_list (Batcher.pending b))))
          = (c', inr [Some 56; Some 1])) as Hdo by (vm_compute; reflexivity).
  assert (forall i w,
            Batcher.waiters agg !! i = Some w ->
            (Batcher.resultChan w,
             Batcher.mkResult
               (uint64 (56 - Batcher.sumHits (drop (S i) (Batcher.waiters agg)))) None)
              ∈ (Batcher.flush b c).2) as Hall.
  { intros i w Hi.
    destruct (flush_per_waiter_counts b c c' _ "K" agg i w Hkey Hi Hdo)
      as (pos & finalCount & Hpos & _ & Hfinal & _ & Hsend).
    assert (pos = 0%nat) as ->.
    { destruct pos as [| pos]; [reflexivity |].
      vm_compute in Hpos. discriminate Hpos. }
    assert (finalCount = 56) as -> by exact Hfinal.
    apply Hsend. vm_compute. split; discriminate. }
  split; [exact (Hall 0%nat (Batcher.mkWaiter 2 0) eq_refl) |].
  split; [exact (Hall 1%nat (Batcher.mkWaiter 3 1) eq_refl) |].
  exact (Hall 2%nat (Batcher.mkWaiter 1 2) eq_refl).
Defined.

(** C1 as stated fails when the addends of one key pass 2^64. After
    [Submit("K", 2^64 - 1, 60)] and [Submit("K", 2, 60)] the flush sends
    [INCRBY K 1] to a store that holds no "K", so [v = 0] and
    [finalCount = 1]. Waiter 0 is sent 2^64 - 1, not
    [finalCount - 2 = -1]; waiter 1 is sent 1, not
    [v + (2^64 - 1) + 2 = 2^64 + 1]. *)
Lemma flush_counts_wrap :
  let b := (Batcher.submitAll (Batcher.NewHotKeyBatcher 0)
              [("K", 18446744073709551615, 60); ("K", 2, 60)]).1 in
  let c := MemStore.empty false in
  let ws := [Batcher.mkWaiter 18446744073709551615 0; Batcher.mkWaiter 2 1] in
  let v := 0 in
  let finalCount := 1 in
  Batcher.waiters <$> (Batcher.pending b !! "K") = Some ws /\
  MemStore.data c !! "K" = None /\
  (Exec c (map wire (Batcher.buildPipeline (map_to_list (Batcher.pending b))))).2
    = inr [Some finalCount; Some 1] /\
  (Batcher.flush b c).2
    = [(0%nat, Batcher.mkResult 18446744073709551615 None);
       (1%nat, Batcher.mkResult 1 None)] /\
  finalCount - Batcher.sumHits (drop 1 ws) <> 18446744073709551615 /\
  v + Batcher.sumHits (take 2 ws) <> 1.
Proof.
  intros b c ws v finalCount.
  split; [vm_compute; reflexivity |].
  split; [vm_compute; reflexivity |].
  split; [vm_compute; reflexivity |].
  split; [vm_compute; reflexivity |].
  split; vm_compute; discriminate.
Qed.

Lemma Submit_pending_entry_witness :
  exists agg,
    Batcher.pending
      (Batcher.submitAll (Batcher.mkBatcher 300000 ∅ 0)
         [("K", 2, 60); ("J", 5, 1); ("K", 3, 61)]).1 !! "K" = Some agg /\
    Batcher.totalHits agg = 5 /\
    Batcher.expirationSeconds agg = 61 /\
    Batcher.waiters agg = [Batcher.mkWaiter 2 0; Batcher.mkWaiter 3 2].
Proof.
  pose proof (Submit_pending_entry 300000 0
                [("K", 2, 60); ("J", 5, 1); ("K", 3, 61)] "K") as Hentry.
  cbv zeta in Hentry.
  destruct (Batcher.pending _ !! "K") as [agg |] eqn:Hagg.
  - destruct Hentry as (_ & _ & Hfit & Hws & Hle & Hin).
    exists agg. split; [reflexivity |].
    assert (Batcher.waiters agg = [Batcher.mkWaiter 2 0; Batcher.mkWaiter 3 2]) as Hw
      by exact Hws.
    split; [| split; [| exact Hw]].
    + rewrite Hfit; rewrite Hw; [reflexivity |].
      vm_compute. split; discriminate.
    + apply Forall_cons in Hle as [_ Hle]. apply Forall_cons in Hle as [Hle _].
      apply list_elem_of_In in Hin. simpl in Hin, Hle. lia.
  - discriminate Hentry.
Defined.

(** C7 as stated fails when the addends of one key pass 2^64: after
    [Submit("K", 2^64 - 1, 60)] and [Submit("K", 2, 60)] the waiters of "K"
    hold the addends 2^64 - 1 and 2, whose sum is 2^64 + 1, and the entry
    records [totalHits = 1]. *)
Lemma Submit_totalHits_wraps :
  exists agg,
    Batcher.pending
      (Batcher.submitAll (Batcher.NewHotKeyBatcher 0)
         [("K", 18446744073709551615, 60); ("K", 2, 60)]).1 !! "K" = Some agg /\
    Batcher.waiters agg
      = [Batcher.mkWaiter 18446744073709551615 0; Batcher.mkWaiter 2 1] /\
    Batcher.sumHits (Batcher.waiters agg) = 18446744073709551617 /\
    Batcher.totalHits agg = 1 /\
    Batcher.totalHits agg <> Batcher.sumHits (Batcher.waiters agg).
Proof.
  eexists. split; [vm_compute; reflexivity |].
  cbn [Batcher.waiters Batcher.totalHits].
  split; [reflexivity |]. split; [reflexivity |]. split; [reflexivity |].
  discriminate.
Qed.

Lemma flush_error_reaches_all_waiters_witness :
  let b := (Batcher.submitAll (Batcher.NewHotKeyBatcher 0)
              [("K", 2, 60); ("J", 5, 1); ("K", 3, 61)]).1 in
  let c := MemStore.mkStore ∅ ∅ true (Some "connection refused") in
  exists ds,
    Batcher.flush b c = (Batcher.mkBatcher 300000 ∅ 3, c, ds) /\
    (0%nat, Batcher.mkResult 0 (Some "connection refused")) ∈ ds /\
    (1%nat, Batcher.mkResult 0 (Some "connection refused")) ∈ ds /\
    (2%nat, Batcher.mkResult 0 (Some "connection refused")) ∈ ds /\
    length ds = 3%nat.
Proof.
  intros b c.
  assert (size (Batcher.pending b) <> 0%nat) as Hne by (vm_compute; discriminate).
  assert (PipeDo c (Batcher.buildPipeline (map_to_list (Batcher.pending b)))
          = (c, inl "connection refused")) as Hdo by (vm_compute; reflexivity).
  destruct (flush_error_reaches_all_waiters b c c "connection refused" Hne Hdo)
    as (ds & Hflush & Hall & _).
  exists ds. split; [exact Hflush |].
  assert (Batcher.pending b !! "K"
          = Some (Batcher.mkAgg 5 61 [Batcher.mkWaiter 2 0; Batcher.mkWaiter 3 2]))
    as HK by (vm_compute; reflexivity).
  assert (Batcher.pending b !! "J" = Some (Batcher.mkAgg 5 1 [Batcher.mkWaiter 5 1]))
    as HJ by (vm_compute; reflexivity).
  split; [exact (Hall "K" _ (Batcher.mkWaiter 2 0) HK ltac:(left)) |].
  split; [exact (Hall "J" _ (Batcher.mkWaiter 5 1) HJ ltac:(left)) |].
  split; [exact (Hall "K" _ (Batcher.mkWaiter 3 2) HK ltac:(right; left)) |].
  assert (ds = (Batcher.flush b c).2) as -> by (rewrite Hflush; reflexivity).
  vm_compute. reflexivity.
Defined.

(** ** Hot-key detector *)

Section DetectorProps.
Import CMS Detector.

Variable Sum64 : list Z -> Z.
Variable scale : Z -> Z.

Lemma size_le_length (l : list string) :
  forall X : gset string, (forall x, x ∈ X -> x ∈ l) -> (size X <= length l)%nat.
Proof.
  induction l as [| a l IH]; intros X HX.
  - assert (X = ∅) as -> by (apply set_eq; intros x; split; [intros Hx | set_solver];
                             specialize (HX x Hx); by apply elem_of_nil in HX).
    by rewrite size_empty.
  - assert (size (X ∖ {[a]}) <= length l)%nat as Hrest.
    { apply IH. intros x Hx.
      apply elem_of_difference in Hx as [Hx Hne].
      specialize (HX x Hx). apply elem_of_cons in HX as [-> | HX]; [| done].
      set_solver. }
    assert (size X <= size ({[a]} ∪ X ∖ {[a]}))%nat as H1.
    { apply subseteq_size. intros x Hx.
      destruct (decide (x = a)) as [-> | Hne]; set_solver. }
    rewrite size_union_alt, size_singleton in H1.
    assert (size (X ∖ {[a]} ∖ {[a]}) <= size (X ∖ {[a]}))%nat as H2
      by (apply subseteq_size; set_solver).
    simpl. lia.
Qed.

Lemma Decay_shaped (c : CountMinSketch) : shaped c -> shaped (Decay scale c).
Proof.
  intros (Hw & Hd & Hc & Hs & Hrows). unfold shaped, Decay; simpl.
  split_and!; try done; try lia.
  - by rewrite length_map.
  - change (map (map scale) (counters c)) with (map scale <$> counters c).
    apply Forall_fmap. eapply Forall_impl; [exact Hrows |].
    intros row Hrow. simpl. by rewrite length_map.
Qed.

Lemma elem_of_removeFirst (key x : string) (l : list string) :
  x ∈ l -> x <> key -> x ∈ removeFirst key l.
Proof.
  induction l as [| k l IH]; intros Hx Hne; [done |].
  simpl. apply elem_of_cons in Hx as [-> | Hx].
  - rewrite decide_False by done. left.
  - destruct (decide (k = key)); [done |]. right. by apply IH.
Qed.

Lemma touchHotKey_consistent (d : HotKeyDetector) (key : string) :
  consistent d -> consistent (touchHotKey d key).
Proof.
  intros (Hsh & Hmax & Hsub & Hsize). unfold consistent, touchHotKey; simpl.
  split_and!; try done.
  intros x Hx. apply elem_of_app.
  destruct (decide (x = key)) as [-> | Hne].
  - right. left.
  - left. apply elem_of_removeFirst; [by apply Hsub | done].
Qed.

(** The eviction loop stops with room for one more key; it only drops
    keys from the front of the list, and from the set with them. *)
Lemma evictLoop_spec (maxKeys : Z) (l : list string) :
  forall hk : gset string,
  0 < maxKeys ->
  exists n,
    evictLoop maxKeys hk l = Some (hk ∖ list_to_set (take n l), drop n l) /\
    Z.of_nat (length (drop n l)) < maxKeys /\
    (n = 0%nat \/ maxKeys <= Z.of_nat (length l)).
Proof.
  induction l as [| k l IH]; intros hk Hmax.
  - exists 0%nat. cbn [evictLoop take drop length list_to_set foldr].
    change (Z.of_nat 0) with 0.
    destruct (0 >=? maxKeys) eqn:E; [lia |].
    replace (hk ∖ (∅ : gset string)) with hk by set_solver.
    split_and!; [done | lia | by left].
  - cbn [evictLoop].
    destruct (Z.of_nat (length (k :: l)) >=? maxKeys) eqn:E.
    + destruct (IH (hk ∖ {[k]}) Hmax) as (n & Hrun & Hlen & _).
      exists (S n). rewrite Hrun. cbn [take drop list_to_set foldr].
      replace (hk ∖ ({[k]} ∪ list_to_set (take n l)))
        with (hk ∖ {[k]} ∖ list_to_set (take n l)) by set_solver.
      split_and!; [done | done | right; lia].
    + exists 0%nat. cbn [take drop list_to_set foldr].
      replace (hk ∖ (∅ : gset string)) with hk by set_solver.
      split_and!; [done | lia | by left].
Qed.

Lemma promoteToHot_consistent (d : HotKeyDetector) (key : string) :
  consistent d ->
  exists d', promoteToHot d key = Some d' /\ consistent d' /\ key ∈ hotKeys d' /\
             cms d' = cms d /\ maxHotKeys d' = maxHotKeys d /\
             hotThreshold d' = hotThreshold d.
Proof.
  intros (Hsh & Hmax & Hsub & Hsize). unfold promoteToHot.
  destruct (bool_decide (key ∈ hotKeys d)) eqn:Hin.
  - apply bool_decide_eq_true in Hin. exists d. by split_and!.
  - destruct (evictLoop_spec (maxHotKeys d) (hotKeysList d) (hotKeys d) Hmax)
      as (n & Hrun & Hlen & _).
    rewrite Hrun. simpl. eexists. split; [reflexivity |].
    split_and!; try done; [| set_solver].
    unfold consistent; simpl. split_and!; try done.
    + intros x Hx. apply elem_of_app.
      apply elem_of_union in Hx as [Hx | Hx]; [right; set_solver |].
      left. apply elem_of_difference in Hx as [Hx Hnot].
      specialize (Hsub x Hx).
      rewrite <- (take_drop n (hotKeysList d)) in Hsub.
      apply elem_of_app in Hsub as [Ht | Hd]; [| done].
      exfalso. apply Hnot. by apply elem_of_list_to_set.
    + assert (size (hotKeys d ∖ list_to_set (take n (hotKeysList d)))
              <= length (drop n (hotKeysList d)))%nat as Hle.
      { apply size_le_length. intros x Hx.
        apply elem_of_difference in Hx as [Hx Hnot].
        specialize (Hsub x Hx).
        rewrite <- (take_drop n (hotKeysList d)) in Hsub.
        apply elem_of_app in Hsub as [Ht | Hd]; [| done].
        exfalso. apply Hnot. by apply elem_of_list_to_set. }
      rewrite size_union_alt, size_singleton.
      assert (size ((hotKeys d ∖ list_to_set (take n (hotKeysList d))) ∖ {[key]})
              <= size (hotKeys d ∖ list_to_set (take n (hotKeysList d))))%nat
        by (apply subseteq_size; set_solver).
      lia.
Qed.

(** The cleanup loop keeps on the list the keys whose estimate is at
    least the threshold and drops the others from the list and from the
    hot set. *)
Lemma cleanupLoop_spec (c : CountMinSketch) (threshold : Z) (l : list string) :
  shaped c ->
  forall (hk : gset string) (newList : list string),
  exists hk' l',
    cleanupLoop Sum64 c threshold l hk newList = Some (hk', l') /\
    (forall key, key ∈ hk' <->
       key ∈ hk /\ ~ (key ∈ l /\ exists e, Estimate Sum64 c key = Some e /\ e < threshold)) /\
    (forall key, key ∈ l' <->
       key ∈ newList \/
       (key ∈ l /\ exists e, Estimate Sum64 c key = Some e /\ threshold <= e)).
Proof.
  intros Hsh. induction l as [| k l IH]; intros hk newList.
  - exists hk, newList. simpl. split_and!; [done | |].
    + intros key. split; [| tauto]. intros Hk. split; [done |].
      intros [Hin _]. by apply elem_of_nil in Hin.
    + intros key. split; [tauto |]. intros [Hk | [Hin _]]; [done |].
      by apply elem_of_nil in Hin.
  - destruct (Estimate_spec Sum64 c k Hsh) as (e & He & _).
    cbn [cleanupLoop]. rewrite He. cbn [mbind option_bind].
    destruct (e >=? threshold) eqn:E.
    + destruct (IH hk (newList ++ [k])) as (hk' & l' & Hrun & Hhk & Hl).
      exists hk', l'. split; [done |]. split.
      * intros key. rewrite Hhk. split.
        -- intros [Hk Hn]. split; [done |].
           intros [Hin (e' & He' & Hlt)].
           apply elem_of_cons in Hin as [-> | Hin].
           ++ rewrite He in He'. injection He' as <-. lia.
           ++ apply Hn. split; [done |]. by exists e'.
        -- intros [Hk Hn]. split; [done |].
           intros [Hin Hex]. apply Hn. split; [by right | done].
      * intros key. rewrite Hl, elem_of_app, (elem_of_cons l). split.
        -- intros [[Hk | Hk] | [Hin Hex]].
           ++ by left.
           ++ apply list_elem_of_singleton in Hk as ->.
              right. split; [by left |]. exists e. split; [done | lia].
           ++ right. split; [by right | done].
        -- intros [Hk | [[-> | Hin] Hex]].
           ++ left. by left.
           ++ left. right. by apply list_elem_of_singleton.
           ++ right. done.
    + destruct (IH (hk ∖ {[k]}) newList) as (hk' & l' & Hrun & Hhk & Hl).
      exists hk', l'. split; [done |]. split.
      * intros key. rewrite Hhk, elem_of_difference, elem_of_singleton. split.
        -- intros [[Hk Hne] Hn]. split; [done |].
           intros [Hin Hex]. apply elem_of_cons in Hin as [-> | Hin]; [done |].
           apply Hn. done.
        -- intros [Hk Hn]. split; [split; [done |] |].
           ++ intros ->. apply Hn. split; [by left |]. exists e. split; [done | lia].
           ++ intros [Hin Hex]. apply Hn. split; [by right | done].
      * intros key. rewrite Hl, elem_of_cons. split.
        -- intros [Hk | [Hin Hex]]; [by left |].
           right. split; [by right | done].
        -- intros [Hk | [[-> | Hin] (e' & He' & Hge)]].
           ++ by left.
           ++ rewrite He in He'. injection He' as <-. lia.
           ++ right. split; [done |]. by exists e'.
Qed.

Lemma cleanupColdKeys_spec (d : HotKeyDetector) :
  consistent d ->
  exists d',
    cleanupColdKeys Sum64 d = Some d' /\ consistent d' /\
    cms d' = cms d /\ maxHotKeys d' = maxHotKeys d /\ hotThreshold d' = hotThreshold d /\
    (forall key, key ∈ hotKeys d' <->
       key ∈ hotKeys d /\
       exists e, Estimate Sum64 (cms d) key = Some e /\ hotThreshold d <= e) /\
    (forall key, key ∈ hotKeysList d' <->
       key ∈ hotKeysList d /\
       exists e, Estimate Sum64 (cms d) key = Some e /\ hotThreshold d <= e).
Proof.
  intros (Hsh & Hmax & Hsub & Hsize). unfold cleanupColdKeys.
  destruct (cleanupLoop_spec (cms d) (hotThreshold d) (hotKeysList d) Hsh (hotKeys d) [])
    as (hk' & l' & Hrun & Hhk & Hl).
  rewrite Hrun. cbn [mbind option_bind].
  eexists. split; [reflexivity |].
  assert (forall key, key ∈ hk' <->
            key ∈ hotKeys d /\
            exists e, Estimate Sum64 (cms d) key = Some e /\ hotThreshold d <= e) as Hhk2.
  { intros key. rewrite Hhk. split.
    - intros [Hk Hn]. split; [done |].
      destruct (Estimate_spec Sum64 (cms d) key Hsh) as (e & He & _).
      exists e. split; [done |].
      destruct (Z_lt_le_dec e (hotThreshold d)) as [Hlt | Hge]; [| done].
      exfalso. apply Hn. split; [by apply Hsub |]. by exists e.
    - intros [Hk (e & He & Hge)]. split; [done |].
      intros [_ (e' & He' & Hlt)]. rewrite He in He'. injection He' as <-. lia. }
  assert (forall key, key ∈ l' <->
            key ∈ hotKeysList d /\
            exists e, Estimate Sum64 (cms d) key = Some e /\ hotThreshold d <= e) as Hl2.
  { intros key. rewrite Hl. split; [| tauto].
    intros [Hk | Hk]; [by apply elem_of_nil in Hk | done]. }
  split_and!; try done.
  unfold consistent; simpl. split_and!; try done.
  - intros key Hk. apply Hl2. apply Hhk2 in Hk as [Hk Hex].
    split; [by apply Hsub | done].
  - assert (size hk' <= size (hotKeys d))%nat.
    { apply subseteq_size. intros key Hk. by apply Hhk2 in Hk as [Hk _]. }
    lia.
Qed.

Lemma maybeDecay_consistent (d : HotKeyDetector) (now : Z) :
  consistent d ->
  exists d', maybeDecay Sum64 scale d now = Some d' /\ consistent d' /\
             maxHotKeys d' = maxHotKeys d /\ hotThreshold d' = hotThreshold d.
Proof.
  intros Hc. unfold maybeDecay.
  destruct (now - lastDecayTime d >=? decayInterval d); [| by exists d].
  set (d1 := withCms (withLastDecayTime d now)
                     (Decay scale (cms (withLastDecayTime d now)))).
  assert (consistent d1) as Hc1.
  { destruct Hc as (Hsh & Hmax & Hsub & Hsize).
    unfold consistent, d1; simpl. split_and!; try done. by apply Decay_shaped. }
  destruct (cleanupColdKeys_spec d1 Hc1) as (d' & Hrun & Hc' & _ & Hm & Ht & _).
  exists d'. done.
Qed.

Lemma RecordAccessWithDelta_consistent (d : HotKeyDetector) (now : Z) (key : string)
    (delta : Z) :
  consistent d ->
  exists d' hot,
    RecordAccessWithDelta Sum64 scale d now key delta = Some (d', hot) /\
    consistent d' /\ maxHotKeys d' = maxHotKeys d /\ hotThreshold d' = hotThreshold d /\
    hot = bool_decide (key ∈ hotKeys d').
Proof.
  intros Hc. unfold RecordAccessWithDelta.
  destruct (maybeDecay_consistent d now Hc) as (d1 & Hdecay & Hc1 & Hm1 & Ht1).
  rewrite Hdecay. cbn [mbind option_bind].
  pose proof Hc1 as (Hsh1 & Hmax1 & Hsub1 & Hsize1).
  destruct (Increment_spec Sum64 (cms d1) key delta Hsh1)
    as (c & count & Hinc & _ & _ & _ & Hshc & _).
  rewrite Hinc. cbn [mbind option_bind].
  set (d2 := withCms d1 c).
  assert (consistent d2) as Hc2 by (unfold consistent, d2; simpl; done).
  unfold isHot.
  destruct (bool_decide (key ∈ hotKeys d2)) eqn:Hhot.
  - exists (touchHotKey d2 key), true. split; [done |].
    split; [by apply touchHotKey_consistent |].
    split_and!; try done.
  - destruct (count >=? hotThreshold d2) eqn:E.
    + destruct (promoteToHot_consistent d2 key Hc2)
        as (d' & Hp & Hc' & Hin & _ & Hm & Ht).
      rewrite Hp. cbn [mbind option_bind]. exists d', true. split; [done |].
      split_and!; try done; try (unfold d2 in *; simpl in *; congruence).
      symmetry. by apply bool_decide_eq_true.
    + exists d2, false. split_and!; try done.
Qed.

Lemma step_consistent (d : HotKeyDetector) (o : op) :
  consistent d ->
  exists d', step Sum64 scale d o = Some d' /\ consistent d' /\
             maxHotKeys d' = maxHotKeys d /\ hotThreshold d' = hotThreshold d.
Proof.
  intros Hc. destruct o as [now key | now key delta | now | key | key |]; simpl.
  - destruct (RecordAccessWithDelta_consistent d now key 1 Hc)
      as (d' & hot & Hrun & Hc' & Hm & Ht & _).
    unfold RecordAccess. rewrite Hrun. by exists d'.
  - destruct (RecordAccessWithDelta_consistent d now key delta Hc)
      as (d' & hot & Hrun & Hc' & Hm & Ht & _).
    rewrite Hrun. by exists d'.
  - by apply maybeDecay_consistent.
  - exists (touchHotKey d key). split_and!; try done. by apply touchHotKey_consistent.
  - destruct (promoteToHot_consistent d key Hc) as (d' & Hp & Hc' & _ & _ & Hm & Ht).
    by exists d'.
  - destruct (cleanupColdKeys_spec d Hc) as (d' & Hrun & Hc' & _ & Hm & Ht & _).
    by exists d'.
Qed.

Lemma run_consistent (ops : list op) :
  forall d, consistent d ->
  exists d', run Sum64 scale d ops = Some d' /\ consistent d' /\
             maxHotKeys d' = maxHotKeys d /\ hotThreshold d' = hotThreshold d.
Proof.
  induction ops as [| o ops IH]; intros d Hc; [by exists d |].
  destruct (step_consistent d o Hc) as (d1 & Hstep & Hc1 & Hm1 & Ht1).
  destruct (IH d1 Hc1) as (d' & Hrun & Hc' & Hm & Ht).
  exists d'. cbn [run]. rewrite Hstep. cbn [mbind option_bind].
  split_and!; try done; congruence.
Qed.

Lemma NewHotKeyDetector_consistent (config : HotKeyDetectorConfig) (now : Z) :
  consistent (NewHotKeyDetector config now).
Proof.
  unfold consistent, NewHotKeyDetector.
  cbn [cms maxHotKeys hotKeys hotKeysList]. split_and!.
  - apply NewCountMinSketch_shaped.
  - destruct (MaxHotKeys config <=? 0) eqn:E; lia.
  - intros key Hk. by apply elem_of_empty in Hk.
  - rewrite size_empty.
    destruct (MaxHotKeys config <=? 0) eqn:E; lia.
Qed.

Lemma evictLoop_room (maxKeys : Z) (hk : gset string) (l : list string) :
  Z.of_nat (length l) < maxKeys -> evictLoop maxKeys hk l = Some (hk, l).
Proof.
  intros Hlt. destruct l as [| k l]; cbn [evictLoop].
  - destruct (Z.of_nat (length (@nil string)) >=? maxKeys) eqn:E; [lia | done].
  - destruct (Z.of_nat (length (k :: l)) >=? maxKeys) eqn:E; [lia | done].
Qed.

End DetectorProps.

(** ** Fixed-window engine *)

Section EngineProps.
Import Detector Batcher Engine.

Context {C : Type} `{Client C}.

(** C2. The effective hits of a descriptor: [hitsAddend] when the
    stop-increment policy is off; with the policy on, 0 when a key is over
    limit in the local cache, [hitsAddend] when no key is over limit and
    none is near limit, and otherwise [hitsAddend] for a key that is near
    its limit and 0 for the others. *)
Theorem getHitsAddend_table (c : C) (psc : option C) (det : option HotKeyDetector)
    (b psb : option HotKeyBatcher) (hitsAddend : Z)
    (isCacheKeyOverlimit isCacheKeyNearlimit isNearLimit : bool) :
  getHitsAddend (mkImpl c psc false det b psb) hitsAddend
    isCacheKeyOverlimit isCacheKeyNearlimit isNearLimit = hitsAddend /\
  getHitsAddend (mkImpl c psc true det b psb) hitsAddend
    true isCacheKeyNearlimit isNearLimit = 0 /\
  getHitsAddend (mkImpl c psc true det b psb) hitsAddend
    false false isNearLimit = hitsAddend /\
  getHitsAddend (mkImpl c psc true det b psb) hitsAddend
    false true isNearLimit = (if isNearLimit then hitsAddend else 0).
Proof. by destruct isNearLimit. Qed.

Lemma singleSlot_empty (c : C) : singleSlot c ∅.
Proof. intros slot p Hp. by rewrite lookup_empty in Hp. Qed.

Lemma singleSlot_append (c : C) (m : gmap Z (Pipeline nat)) (slot : Z)
    (acts : Pipeline nat) :
  singleSlot c m ->
  (forall a, a ∈ acts -> GetSlot c (key a) = slot) ->
  singleSlot c (<[slot := default [] (m !! slot) ++ acts]> m).
Proof.
  intros Hm Hacts slot' p Hp a Ha.
  destruct (decide (slot = slot')) as [<- | Hne].
  - rewrite lookup_insert_eq in Hp. injection Hp as <-.
    apply elem_of_app in Ha as [Ha | Ha]; [| by apply Hacts].
    destruct (m !! slot) as [p0 |] eqn:Hp0; simpl in Ha.
    + by apply (Hm slot p0).
    + by apply elem_of_nil in Ha.
  - rewrite lookup_insert_ne in Hp by done. by apply (Hm slot' p).
Qed.

Lemma pipelineAppendtoGet_app (p : Pipeline nat) (k : string) (i : nat) :
  pipelineAppendtoGet p k i = p ++ [mkAction (Some i) "GET" k []].
Proof. done. Qed.

Lemma pipelineAppend_app (p : Pipeline nat) (k : string) (hits : Z) (i : nat) (e : Z) :
  pipelineAppend p k hits i e =
  p ++ [mkAction (Some i) "INCRBY" k [hits]; mkAction None "EXPIRE" k [e]].
Proof. unfold pipelineAppend, PipeAppend. by rewrite <- app_assoc. Qed.

Lemma usesPerSecond_Some (this : fixedRateLimitCacheImpl) (ck : CacheKey) (psc : C) :
  usesPerSecond this ck = Some psc -> perSecondClient this = Some psc.
Proof.
  unfold usesPerSecond. destruct (perSecondClient this); [| done].
  by destruct (PerSecond ck).
Qed.

(** The grouping invariant of the two slot maps of a phase is kept by
    every append. *)
Lemma appendGet_grouped (this : fixedRateLimitCacheImpl) (maps : GetMaps) (i : nat)
    (ck : CacheKey) :
  singleSlot (client this) maps.1 ->
  match perSecondClient this with
  | Some psc => singleSlot psc maps.2
  | None => maps.2 = ∅
  end ->
  singleSlot (client this) (appendGet this maps i ck).1 /\
  match perSecondClient this with
  | Some psc => singleSlot psc (appendGet this maps i ck).2
  | None => (appendGet this maps i ck).2 = ∅
  end.
Proof.
  destruct maps as [g psg]. simpl. intros Hg Hps. unfold appendGet.
  destruct (isEmptyKey ck); [done |].
  destruct (usesPerSecond this ck) as [psc |] eqn:Huse.
  - apply usesPerSecond_Some in Huse. rewrite Huse in *. simpl.
    split; [done |]. rewrite pipelineAppendtoGet_app.
    apply singleSlot_append; [done |].
    intros a Ha. by apply list_elem_of_singleton in Ha as ->.
  - simpl. split; [| done]. rewrite pipelineAppendtoGet_app.
    apply singleSlot_append; [done |].
    intros a Ha. by apply list_elem_of_singleton in Ha as ->.
Qed.

Lemma getLoop_grouped (this : fixedRateLimitCacheImpl) (cacheKeys : list CacheKey) :
  forall (i : nat) (maps : GetMaps),
  singleSlot (client this) maps.1 ->
  match perSecondClient this with
  | Some psc => singleSlot psc maps.2
  | None => maps.2 = ∅
  end ->
  singleSlot (client this) (getLoop this i cacheKeys maps).1 /\
  match perSecondClient this with
  | Some psc => singleSlot psc (getLoop this i cacheKeys maps).2
  | None => (getLoop this i cacheKeys maps).2 = ∅
  end.
Proof.
  induction cacheKeys as [| ck rest IH]; intros i maps Hg Hps; [done |].
  simpl. destruct (appendGet_grouped this maps i ck Hg Hps) as [Hg' Hps'].
  by apply IH.
Qed.

Variable UnitToDivider : Z -> Z.
Variable ExpirationJitterMaxSeconds : Z.
Variable Int63n : nat -> Z -> Z.
Variable Sum64 : list Z -> Z.
Variable scale : Z -> Z.

(** What one iteration of the increment loop does to the state: nothing
    for a descriptor with an empty key or one flagged by the local cache;
    otherwise either one [Submit] recorded under the descriptor's index, or
    one INCRBY/EXPIRE pair, received at that index, appended to the
    pipeline of the key's slot for the client that owns the key. *)
Lemma incrementStep_shape (this : fixedRateLimitCacheImpl) (clock : nat -> Z)
    (limits : list (option RateLimit)) (hitsAddends : list Z)
    (overlimitIndexes nearlimitIndexes : list bool) (isOver isNear : bool)
    (st st' : IncrState) (i : nat) (ck : CacheKey) :
  incrementStep UnitToDivider ExpirationJitterMaxSeconds Int63n Sum64 scale
    this clock limits hitsAddends overlimitIndexes nearlimitIndexes isOver isNear
    st i ck = Ok st' ->
  (st' = st /\ (isEmptyKey ck = true \/ overlimitIndexes !! i = Some true)) \/
  (isEmptyKey ck = false /\ overlimitIndexes !! i = Some false /\
   pipelines st' = pipelines st /\ perSecondPipelines st' = perSecondPipelines st /\
   exists ps ch, hotKeyResultChans st' = <[i := (ps, ch)]> (hotKeyResultChans st)) \/
  (isEmptyKey ck = false /\ overlimitIndexes !! i = Some false /\
   hotKeyResultChans st' = hotKeyResultChans st /\
   exists hits e,
     let acts := [mkAction (Some i) "INCRBY" (Key ck) [hits];
                  mkAction None "EXPIRE" (Key ck) [e]] in
     match usesPerSecond this ck with
     | Some psc =>
         pipelines st' = pipelines st /\
         perSecondPipelines st' =
         <[GetSlot psc (Key ck) :=
             default [] (perSecondPipelines st !! GetSlot psc (Key ck)) ++ acts]>
           (perSecondPipelines st)
     | None =>
         perSecondPipelines st' = perSecondPipelines st /\
         pipelines st' =
         <[GetSlot (client this) (Key ck) :=
             default [] (pipelines st !! GetSlot (client this) (Key ck)) ++ acts]>
           (pipelines st)
     end).
Proof.
  unfold incrementStep. intros Hstep.
  destruct (isEmptyKey ck) eqn:Hempty; simpl in Hstep.
  { left. injection Hstep as <-. split; [done | by left]. }
  destruct (overlimitIndexes !! i) as [[|] |] eqn:Hover; simpl in Hstep; [| | done].
  { left. injection Hstep as <-. split; [done | by right]. }
  right.
  destruct (mjoin (limits !! i)) as [lim |]; simpl in Hstep; [| done].
  destruct (hitsAddends !! i) as [hits |]; simpl in Hstep; [| done].
  destruct (nearlimitIndexes !! i) as [near |]; simpl in Hstep; [| done].
  destruct (usesPerSecond this ck) as [psc |] eqn:Huse.
  - destruct (tryHot Sum64 scale (detector st) (psBatcher st) (clock i) (Key ck))
      as [[det hot] | |]; simpl in Hstep; [| done | done].
    destruct hot, (psBatcher st) as [b |].
    + left. injection Hstep as <-.
      simpl. split_and!; try done. by eexists _, _.
    + right. injection Hstep as <-. simpl. split_and!; try done.
      eexists _, _. rewrite pipelineAppend_app. done.
    + right. injection Hstep as <-. simpl. split_and!; try done.
      eexists _, _. rewrite pipelineAppend_app. done.
    + right. injection Hstep as <-. simpl. split_and!; try done.
      eexists _, _. rewrite pipelineAppend_app. done.
  - destruct (tryHot Sum64 scale (detector st) (batcher st) (clock i) (Key ck))
      as [[det hot] | |]; simpl in Hstep; [| done | done].
    destruct hot, (batcher st) as [b |].
    + left. injection Hstep as <-.
      simpl. split_and!; try done. by eexists _, _.
    + right. injection Hstep as <-. simpl. split_and!; try done.
      eexists _, _. rewrite pipelineAppend_app. done.
    + right. injection Hstep as <-. simpl. split_and!; try done.
      eexists _, _. rewrite pipelineAppend_app. done.
    + right. injection Hstep as <-. simpl. split_and!; try done.
      eexists _, _. rewrite pipelineAppend_app. done.
Qed.

Lemma incrementLoop_grouped (this : fixedRateLimitCacheImpl) (clock : nat -> Z)
    (limits : list (option RateLimit)) (hitsAddends : list Z)
    (overlimitIndexes nearlimitIndexes : list bool) (isOver isNear : bool)
    (cacheKeys : list CacheKey) :
  forall (i : nat) (st st' : IncrState),
  incrementLoop UnitToDivider ExpirationJitterMaxSeconds Int63n Sum64 scale
    this clock limits hitsAddends overlimitIndexes nearlimitIndexes isOver isNear
    i cacheKeys st = Ok st' ->
  singleSlot (client this) (pipelines st) ->
  match perSecondClient this with
  | Some psc => singleSlot psc (perSecondPipelines st)
  | None => perSecondPipelines st = ∅
  end ->
  singleSlot (client this) (pipelines st') /\
  match perSecondClient this with
  | Some psc => singleSlot psc (perSecondPipelines st')
  | None => perSecondPipelines st' = ∅
  end.
Proof.
  induction cacheKeys as [| ck rest IH]; intros i st st' Hloop Hp Hps.
  - simpl in Hloop. by injection Hloop as <-.
  - cbn [incrementLoop] in Hloop.
    destruct (incrementStep _ _ _ _ _ this clock limits hitsAddends overlimitIndexes
                nearlimitIndexes isOver isNear st i ck) as [st1 | |] eqn:Hstep;
      simpl in Hloop; [| done | done].
    apply (IH (S i) st1 st' Hloop).
    + destruct (incrementStep_shape _ _ _ _ _ _ _ _ _ _ _ _ Hstep)
        as [[-> _] | [(_ & _ & -> & _) | (_ & _ & _ & hits & e & Hcase)]];
        [done | done |].
      cbv zeta in Hcase.
      destruct (usesPerSecond this ck) as [psc |]; destruct Hcase as [Ha Hb].
      * by rewrite Ha.
      * rewrite Hb. apply singleSlot_append; [done |].
        intros a Ha'. apply elem_of_cons in Ha' as [-> | Ha']; [done |].
        by apply list_elem_of_singleton in Ha' as ->.
    + destruct (incrementStep_shape _ _ _ _ _ _ _ _ _ _ _ _ Hstep)
        as [[-> _] | [(_ & _ & _ & -> & _) | (_ & _ & _ & hits & e & Hcase)]];
        [done | done |].
      cbv zeta in Hcase.
      destruct (usesPerSecond this ck) as [psc |] eqn:Huse; destruct Hcase as [Ha Hb].
      * apply usesPerSecond_Some in Huse. rewrite Huse in *.
        rewrite Hb. apply singleSlot_append; [done |].
        intros a Ha'. apply elem_of_cons in Ha' as [-> | Ha']; [done |].
        by apply list_elem_of_singleton in Ha' as ->.
      * by rewrite Ha.
Qed.

Lemma pipelinesOf_lookup (m : gmap Z (Pipeline nat)) (p : Pipeline nat) :
  p ∈ pipelinesOf m -> exists slot, m !! slot = Some p.
Proof.
  unfold pipelinesOf. intros Hp.
  apply list_elem_of_fmap in Hp as ([slot p'] & -> & Hin).
  exists slot. by apply elem_of_map_to_list.
Qed.

(** The slot maps [DoLimit] builds hold, under each slot, keys of that
    slot only: the pre-read maps and the increment maps, for the main
    client and for the per-second client. The per-second maps are empty
    without a per-second client. *)
Lemma slot_maps_grouped (this : fixedRateLimitCacheImpl) (clock : nat -> Z)
    (cacheKeys : list CacheKey) (limits : list (option RateLimit)) (hitsAddends : list Z)
    (overlimitIndexes nearlimitIndexes : list bool) (isOver isNear : bool) :
  let grouped (m psm : gmap Z (Pipeline nat)) :=
    singleSlot (client this) m /\
    (forall p, p ∈ pipelinesOf m ->
       exists slot, forall a, a ∈ p -> GetSlot (client this) (key a) = slot) /\
    match perSecondClient this with
    | Some psc =>
        singleSlot psc psm /\
        (forall p, p ∈ pipelinesOf psm ->
           exists slot, forall a, a ∈ p -> GetSlot psc (key a) = slot)
    | None => psm = ∅
    end in
  grouped (getLoop this 0 cacheKeys (∅, ∅)).1 (getLoop this 0 cacheKeys (∅, ∅)).2 /\
  forall st,
    incrementLoop UnitToDivider ExpirationJitterMaxSeconds Int63n Sum64 scale
      this clock limits hitsAddends overlimitIndexes nearlimitIndexes isOver isNear
      0 cacheKeys
      (mkIncr (hotKeyDetector this) (hotKeyBatcher this) (perSecondBatcher this) ∅ ∅ ∅)
    = Ok st ->
    grouped (pipelines st) (perSecondPipelines st).
Proof.
  intros grouped.
  assert (forall m psm,
            singleSlot (client this) m ->
            match perSecondClient this with
            | Some psc => singleSlot psc psm
            | None => psm = ∅
            end -> grouped m psm) as Hgrouped.
  { intros m psm Hm Hps. unfold grouped. split; [done |]. split.
    - intros p Hp. apply pipelinesOf_lookup in Hp as [slot Hp].
      exists slot. by apply (Hm slot p).
    - destruct (perSecondClient this) as [psc |]; [| done].
      split; [done |].
      intros p Hp. apply pipelinesOf_lookup in Hp as [slot Hp].
      exists slot. by apply (Hps slot p). }
  assert (match perSecondClient this with
          | Some psc => singleSlot psc ∅
          | None => (∅ : gmap Z (Pipeline nat)) = ∅
          end) as Hempty.
  { destruct (perSecondClient this); [apply singleSlot_empty | done]. }
  split.
  - destruct (getLoop_grouped this cacheKeys 0 (∅, ∅) (singleSlot_empty _) Hempty).
    by apply Hgrouped.
  - intros st Hloop.
    destruct (incrementLoop_grouped _ _ _ _ _ _ _ _ _ _ _ _ Hloop
                (singleSlot_empty _) Hempty).
    by apply Hgrouped.
Qed.

Variable IsOverLimitWithLocalCache : string -> bool.
Variable IsOverLimitThresholdReached : LimitInfo -> bool.

Lemma noReceiver_empty (i : nat) : noReceiver i ∅.
Proof. intros slot p Hp. by rewrite lookup_empty in Hp. Qed.

Lemma noReceiver_append (i : nat) (m : gmap Z (Pipeline nat)) (slot : Z)
    (acts : Pipeline nat) :
  noReceiver i m ->
  (forall a, a ∈ acts -> rcv a <> Some i) ->
  noReceiver i (<[slot := default [] (m !! slot) ++ acts]> m).
Proof.
  intros Hm Hacts slot' p Hp a Ha.
  destruct (decide (slot = slot')) as [<- | Hne].
  - rewrite lookup_insert_eq in Hp. injection Hp as <-.
    apply elem_of_app in Ha as [Ha | Ha]; [| by apply Hacts].
    destruct (m !! slot) as [p0 |] eqn:Hp0; simpl in Ha.
    + by apply (Hm slot p0).
    + by apply elem_of_nil in Ha.
  - rewrite lookup_insert_ne in Hp by done. by apply (Hm slot' p).
Qed.

(** The increment loop leaves no trace of a descriptor it skips: no
    action receives at its index and no channel is recorded for it. *)
Lemma incrementLoop_skips (this : fixedRateLimitCacheImpl) (clock : nat -> Z)
    (limits : list (option RateLimit)) (hitsAddends : list Z)
    (overlimitIndexes nearlimitIndexes : list bool) (isOver isNear : bool)
    (i : nat) (cacheKeys : list CacheKey) :
  forall (j : nat) (st st' : IncrState),
  incrementLoop UnitToDivider ExpirationJitterMaxSeconds Int63n Sum64 scale
    this clock limits hitsAddends overlimitIndexes nearlimitIndexes isOver isNear
    j cacheKeys st = Ok st' ->
  ((j <= i)%nat -> forall ck, cacheKeys !! (i - j)%nat = Some ck ->
     isEmptyKey ck = true \/ overlimitIndexes !! i = Some true) ->
  noReceiver i (pipelines st) /\ noReceiver i (perSecondPipelines st) /\
  hotKeyResultChans st !! i = None ->
  noReceiver i (pipelines st') /\ noReceiver i (perSecondPipelines st') /\
  hotKeyResultChans st' !! i = None.
Proof.
  induction cacheKeys as [| ck rest IH]; intros j st st' Hloop Hskip Hinv.
  - simpl in Hloop. by injection Hloop as <-.
  - cbn [incrementLoop] in Hloop.
    destruct (incrementStep _ _ _ _ _ this clock limits hitsAddends overlimitIndexes
                nearlimitIndexes isOver isNear st j ck) as [st1 | |] eqn:Hstep;
      simpl in Hloop; [| done | done].
    apply (IH (S j) st1 st' Hloop).
    + intros Hle ck' Hck'. apply (Hskip ltac:(lia) ck').
      replace (i - j)%nat with (S (i - S j)) by lia. done.
    + destruct Hinv as (Hp & Hps & Hch).
      assert (forall hits e a,
                j <> i ->
                a ∈ [mkAction (Some j) "INCRBY" (Key ck) [hits];
                     mkAction None "EXPIRE" (Key ck) [e]] ->
                rcv a <> Some i) as Hacts.
      { intros hits e a Hne Ha.
        apply elem_of_cons in Ha as [-> | Ha]; [simpl; congruence |].
        by apply list_elem_of_singleton in Ha as ->. }
      destruct (incrementStep_shape _ _ _ _ _ _ _ _ _ _ _ _ Hstep)
        as [[-> _] | [(He & Ho & -> & -> & ps & ch & ->)
                     | (He & Ho & -> & hits & e & Hcase)]];
        [done | |].
      * assert (j <> i) as Hne.
        { intros ->. destruct (Hskip ltac:(lia) ck) as [Hk | Hk].
          - by rewrite Nat.sub_diag.
          - congruence.
          - congruence. }
        split_and!; try done. by rewrite lookup_insert_ne.
      * assert (j <> i) as Hne.
        { intros ->. destruct (Hskip ltac:(lia) ck) as [Hk | Hk].
          - by rewrite Nat.sub_diag.
          - congruence.
          - congruence. }
        cbv zeta in Hcase.
        destruct (usesPerSecond this ck) as [psc |]; destruct Hcase as [-> ->].
        -- split_and!; try done. apply noReceiver_append; [done |].
           intros a. by apply Hacts.
        -- split_and!; try done. apply noReceiver_append; [done |].
           intros a. by apply Hacts.
Qed.

Lemma applyWrites_untouched (i : nat) (writes : list (nat * Z)) :
  forall arr : list Z,
  (forall w, w ∈ writes -> w.1 <> i) ->
  applyWrites arr writes !! i = arr !! i.
Proof.
  unfold applyWrites.
  induction writes as [| [x v] writes IH]; intros arr Hw; [done |].
  simpl. rewrite IH by (intros w Hin; apply Hw; by right).
  apply list_lookup_insert_ne.
  specialize (Hw (x, v) ltac:(left)). done.
Qed.

Lemma writeBack_receivers (p : Pipeline nat) :
  forall (replies : list (option Z)) (w : nat * Z),
  w ∈ writeBack p replies -> exists a, a ∈ p /\ rcv a = Some w.1.
Proof.
  induction p as [| a p IH]; intros replies w Hw; [by apply elem_of_nil in Hw |].
  destruct replies as [| r replies]; [by apply elem_of_nil in Hw |].
  simpl in Hw.
  destruct (rcv a) as [x |] eqn:Hrcv.
  - destruct r as [v |].
    + apply elem_of_cons in Hw as [-> | Hw].
      * exists a. split; [left | done].
      * destruct (IH replies w Hw) as (a' & Ha' & Hr). exists a'. split; [by right | done].
    + destruct (IH replies w Hw) as (a' & Ha' & Hr). exists a'. split; [by right | done].
  - destruct (IH replies w Hw) as (a' & Ha' & Hr). exists a'. split; [by right | done].
Qed.

Lemma PipeDo_untouched (c c' : C) (p : Pipeline nat) (writes : list (nat * Z))
    (i : nat) (arr : list Z) :
  PipeDo c p = (c', inr writes) ->
  (forall a, a ∈ p -> rcv a <> Some i) ->
  applyWrites arr writes !! i = arr !! i.
Proof.
  unfold PipeDo. destruct (Exec c (map wire p)) as [c1 [err | replies]]; [done |].
  intros [= <- <-] Hp. apply applyWrites_untouched.
  intros w Hw Heq. destruct (writeBack_receivers p replies w Hw) as (a & Ha & Hr).
  apply (Hp a Ha). congruence.
Qed.

Lemma doAll_untouched (i : nat) (ps : list (Pipeline nat)) :
  forall (c : C) (arr : list Z) (pipelineErr : option error),
  (forall p, p ∈ ps -> forall a, a ∈ p -> rcv a <> Some i) ->
  (doAll c ps arr pipelineErr).1.2 !! i = arr !! i.
Proof.
  induction ps as [| p ps IH]; intros c arr pipelineErr Hps; [done |].
  cbn [doAll].
  assert (forall p', p' ∈ ps -> forall a, a ∈ p' -> rcv a <> Some i) as Hrest
    by (intros p' Hp'; apply Hps; by right).
  destruct (bool_decide (length p = 0%nat)); [by apply IH |].
  destruct (PipeDo c p) as [c' [err | writes]] eqn:Hdo.
  - by apply IH.
  - rewrite IH by done.
    apply (PipeDo_untouched c c' p writes i arr Hdo).
    apply Hps. left.
Qed.

Lemma awaitLoop_untouched (i : nat) (ds psDs : list Delivery)
    (chans : list (nat * (bool * nat))) :
  forall results results' : list Z,
  awaitLoop chans ds psDs results = Ok results' ->
  (forall e, e ∈ chans -> e.1 <> i) ->
  results' !! i = results !! i.
Proof.
  induction chans as [| [j [ps ch]] chans IH]; intros results results' Hloop Hne.
  - simpl in Hloop. by injection Hloop as <-.
  - cbn [awaitLoop] in Hloop.
    destruct (receive (if ps then psDs else ds) ch) as [r |]; simpl in Hloop; [| done].
    destruct (Err r); [done |].
    rewrite (IH _ _ Hloop) by (intros e He; apply Hne; by right).
    apply list_lookup_insert_ne.
    specialize (Hne (j, (ps, ch)) ltac:(left)). done.
Qed.

Lemma verdictLoop_lookup (cacheKeys : list CacheKey) (limits : list (option RateLimit))
    (hitsAddends results : list Z) (flags : list bool) :
  forall (j : nat) (args : list StatusArgs) (k : nat) (ck : CacheKey),
  verdictLoop j cacheKeys limits hitsAddends results flags = Ok args ->
  cacheKeys !! k = Some ck ->
  exists a after hits,
    args !! k = Some a /\
    results !! (j + k)%nat = Some after /\
    hitsAddends !! (j + k)%nat = Some hits /\
    limitAfterIncrease (argInfo a) = after /\
    limitBeforeIncrease (argInfo a) = uint64 (after - hits) /\
    argHitsAddend a = hits /\
    argKey a = Key ck.
Proof.
  induction cacheKeys as [| ck0 rest IH]; intros j args k ck Hloop Hk; [done |].
  cbn [verdictLoop] in Hloop.
  destruct (results !! j) as [after |] eqn:Hafter; simpl in Hloop; [| done].
  destruct (hitsAddends !! j) as [hits |] eqn:Hhits; simpl in Hloop; [| done].
  destruct (limits !! j) as [lim |]; simpl in Hloop; [| done].
  destruct (flags !! j) as [over |]; simpl in Hloop; [| done].
  destruct (verdictLoop (S j) rest limits hitsAddends results flags)
    as [args' | |] eqn:Hrest; simpl in Hloop; [| done | done].
  injection Hloop as <-.
  destruct k as [| k].
  - injection Hk as <-. exists (mkStatusArgs (Key ck0)
                                  (NewRateLimitInfo lim (uint64 (after - hits)) after 0 0)
                                  over hits), after, hits.
    rewrite Nat.add_0_r. by split_and!.
  - destruct (IH (S j) args' k ck Hrest Hk) as (a & after' & hits' & Ha & Hr & Hh & Hrest').
    exists a, after', hits'. replace (j + S k)%nat with (S j + k)%nat by lia.
    destruct Hrest' as (? & ? & ? & ?). by split_and!.
Qed.

Lemma overLimitFlags_lookup (cacheKeys : list CacheKey) (i : nat) (ck : CacheKey) :
  cacheKeys !! i = Some ck ->
  overLimitFlags IsOverLimitWithLocalCache cacheKeys !! i =
  Some (if isEmptyKey ck then false else IsOverLimitWithLocalCache (Key ck)).
Proof.
  intros Hi. unfold overLimitFlags.
  change (map ?f cacheKeys) with (f <$> cacheKeys).
  by rewrite list_lookup_fmap, Hi.
Qed.

(** C10. A descriptor that the increment phase skips, because its key is
    empty or because the local cache flagged it, keeps [results[i] = 0];
    in the verdict phase its [limitAfterIncrease] is 0 and, for a positive
    [hitsAddends[i]], its [limitBeforeIncrease] is [0 - hitsAddends[i]]
    wrapped modulo 2^64, that is 2^64 - hitsAddends[i]. *)
Theorem skipped_descriptor_wraps (this this' : fixedRateLimitCacheImpl) (clock : nat -> Z)
    (cacheKeys : list CacheKey) (limits : list (option RateLimit))
    (hitsAddends : list Z) (args : list StatusArgs)
    (i : nat) (ck : CacheKey) (h : Z) :
  doLimitArgs IsOverLimitWithLocalCache IsOverLimitThresholdReached UnitToDivider
    ExpirationJitterMaxSeconds Int63n Sum64 scale
    this clock cacheKeys limits hitsAddends = (this', Ok args) ->
  cacheKeys !! i = Some ck ->
  Key ck = "" \/ IsOverLimitWithLocalCache (Key ck) = true ->
  hitsAddends !! i = Some h ->
  0 < h <= MaxUint64 ->
  exists a,
    args !! i = Some a /\
    argHitsAddend a = h /\
    limitAfterIncrease (argInfo a) = 0 /\
    limitBeforeIncrease (argInfo a) = 18446744073709551616 - h.
Proof.
  intros Hdo Hck Hskip Hh Hpos.
  unfold doLimitArgs in Hdo.
  destruct (preRead _ this cacheKeys limits hitsAddends _) as [this1 [near | e |]];
    [| done | done].
  set (flags := overLimitFlags IsOverLimitWithLocalCache cacheKeys) in *.
  destruct (incrementLoop _ _ _ _ _ this1 clock limits hitsAddends flags near _ _ 0
              cacheKeys _) as [st | e |] eqn:Hloop; [| done | done].
  (* the skipped descriptor leaves no receiver and no channel *)
  assert (noReceiver i (pipelines st) /\ noReceiver i (perSecondPipelines st) /\
          hotKeyResultChans st !! i = None) as (Hp & Hps & Hch).
  { apply (incrementLoop_skips _ _ _ _ _ _ _ _ _ _ _ _ _ Hloop).
    - intros _ ck'. rewrite Nat.sub_0_r, Hck. intros [= <-].
      unfold flags. rewrite (overLimitFlags_lookup _ _ _ Hck).
      unfold isEmptyKey. destruct Hskip as [Hk | Hk].
      + left. by apply bool_decide_eq_true.
      + destruct (bool_decide (Key ck = "")); [by left | right; by rewrite Hk].
    - simpl. split_and!; [apply noReceiver_empty | apply noReceiver_empty |].
      apply lookup_empty. }
  assert (forall p, p ∈ pipelinesOf (pipelines st) ->
            forall a, a ∈ p -> rcv a <> Some i) as Hp'.
  { intros p Hin. apply pipelinesOf_lookup in Hin as [slot Hin]. by apply (Hp slot). }
  assert (forall p, p ∈ pipelinesOf (perSecondPipelines st) ->
            forall a, a ∈ p -> rcv a <> Some i) as Hps'.
  { intros p Hin. apply pipelinesOf_lookup in Hin as [slot Hin]. by apply (Hps slot). }
  pose proof (doAll_untouched i (pipelinesOf (pipelines st)) (client this1)
                (replicate (length cacheKeys) 0) None Hp') as H1.
  destruct (doAll (client this1) (pipelinesOf (pipelines st))
              (replicate (length cacheKeys) 0) None) as [[c results1] err1].
  simpl in H1.
  assert (exists results2 this2,
            results2 !! i = Some 0 /\
            (let '(this, ds, psDs) := flushTick this2 in
             (this,
              results ← awaitLoop (map_to_list (hotKeyResultChans st)) ds psDs results2;
              verdictLoop 0 cacheKeys limits hitsAddends results flags))
            = (this', Ok args)) as (results2 & this2 & Hr2 & Hrest).
  { assert (replicate (length cacheKeys) 0 !! i = Some 0) as H0.
    { apply lookup_replicate_2. by apply lookup_lt_Some in Hck. }
    destruct (perSecondClient this1) as [psc |].
    - pose proof (doAll_untouched i (pipelinesOf (perSecondPipelines st)) psc
                    results1 err1 Hps') as H2.
      destruct (doAll psc (pipelinesOf (perSecondPipelines st)) results1 err1)
        as [[psc' results2] err2].
      simpl in H2. destruct err2; [done |].
      eexists results2, _. split; [congruence | exact Hdo].
    - destruct err1; [done |].
      eexists results1, _. split; [congruence | exact Hdo]. }
  destruct (flushTick this2) as [[this3 ds] psDs].
  injection Hrest as _ Hrest.
  destruct (awaitLoop (map_to_list (hotKeyResultChans st)) ds psDs results2)
    as [results3 | |] eqn:Hawait; simpl in Hrest; [| done | done].
  assert (results3 !! i = Some 0) as Hr3.
  { rewrite (awaitLoop_untouched i ds psDs _ _ _ Hawait); [done |].
    intros [j v] Hin Heq. simpl in Heq. subst j.
    apply elem_of_map_to_list in Hin. congruence. }
  destruct (verdictLoop_lookup _ _ _ _ _ 0 args i ck Hrest Hck)
    as (a & after & hits & Ha & Hafter & Hhits & Hla & Hlb & Hah & _).
  simpl in Hafter, Hhits.
  rewrite Hr3 in Hafter. injection Hafter as <-.
  rewrite Hh in Hhits. injection Hhits as <-.
  exists a. split_and!; try done.
  rewrite Hlb. unfold uint64, MaxUint64 in *.
  symmetry. apply Z.mod_unique with (q := -1); lia.
Qed.

End EngineProps.

(** ** Fixed-window engine: concrete requests *)

(** Three descriptors on a cluster store: one unmatched (empty key), one
    ordinary, one flagged by the local cache. *)
Lemma skipped_descriptor_wraps_witness :
  let this := Engine.mkImpl (MemStore.empty true) None false None None None in
  let overLimit := fun k : string => String.eqb k "dom_blocked_0" in
  let cacheKeys := [Engine.mkCacheKey "" false; Engine.mkCacheKey "dom_k_v_0" false;
                    Engine.mkCacheKey "dom_blocked_0" false] in
  let lim := Some (Engine.mkRateLimit 2 10 false) in
  exists this' args a,
    Engine.doLimitArgs overLimit (fun _ => false) (fun _ => 60) 0 (fun _ _ => 0)
      XXH.Sum64 (fun c => c / 2) this (fun _ => 0) cacheKeys [None; lim; lim] [1; 1; 3]
    = (this', Ok args) /\
    args !! 2%nat = Some a /\
    Engine.limitAfterIncrease (Engine.argInfo a) = 0 /\
    Engine.limitBeforeIncrease (Engine.argInfo a) = 18446744073709551613.
Proof.
  intros this overLimit cacheKeys lim.
  destruct (Engine.doLimitArgs overLimit (fun _ => false) (fun _ => 60) 0 (fun _ _ => 0)
              XXH.Sum64 (fun c => c / 2) this (fun _ => 0) cacheKeys [None; lim; lim] [1; 1; 3])
    as [this' r] eqn:Hdo.
  pose proof (f_equal snd Hdo) as Hr. cbn [snd] in Hr.
  vm_compute in Hr. subst r.
  assert (0 < 3 <= MaxUint64) as Hpos by (unfold MaxUint64; lia).
  destruct (skipped_descriptor_wraps _ _ _ _ _ _ _ _ _ _ _ _ _ _ 2%nat
              (Engine.mkCacheKey "dom_blocked_0" false) 3
              Hdo eq_refl (or_intror eq_refl) eq_refl Hpos)
    as (a & Ha & _ & Hafter & Hbefore).
  eexists this', _, a. split; [reflexivity |].
  split; [exact Ha |]. split; [exact Hafter | exact Hbefore].
Defined.

(** A request on a hot key goes through the batcher: with threshold 1
    the first access makes the key hot, the flush increments the counter
    from 7 to 9, and the descriptor sees 9 after and 7 before. *)
Example DoLimit_hot_key :
  let store := MemStore.mkStore {["dom_k_v_0" := 7]} ∅ true None in
  let det := Detector.NewHotKeyDetector (Detector.mkDetectorConfig 0 2 1 10 10000000000) 0 in
  let this := Engine.mkImpl store None false (Some det)
                (Some (Batcher.NewHotKeyBatcher 0)) None in
  (fun r => match r with
            | Ok args => Ok (map (fun a => (Engine.limitBeforeIncrease (Engine.argInfo a),
                                            Engine.limitAfterIncrease (Engine.argInfo a)))
                                 args)
            | RedisError e => RedisError e
            | Panic => Panic
            end)
    (Engine.doLimitArgs (fun _ => false) (fun _ => false) (fun _ => 60) 0 (fun _ _ => 0)
       XXH.Sum64 (fun c => c / 2) this (fun _ => 0) [Engine.mkCacheKey "dom_k_v_0" false]
       [Some (Engine.mkRateLimit 2 10 false)] [2]).2
  = Ok [(7, 9)].
Proof. vm_compute. reflexivity. Qed.

(** The pipeline of a batcher flush is built outside [DoLimit] and is not
    grouped by slot: with two pending hot keys it holds the keys of both
    slots. *)
Example flush_pipeline_spans_slots :
  let b := (Batcher.submitAll (Batcher.NewHotKeyBatcher 0)
              [("foo", 1, 60); ("bar", 1, 60)]).1 in
  map (fun a => (cmd a, key a, MemStore.ClusterSlot (key a)))
      (Batcher.buildPipeline (map_to_list (Batcher.pending b)))
  = [("INCRBY", "foo", 12182); ("EXPIRE", "foo", 12182);
     ("INCRBY", "bar", 5061); ("EXPIRE", "bar", 5061)].
Proof. vm_compute. reflexivity. Qed.

(** The stop-increment policy on three descriptors at 10, 95 and 30 of
    100, with the threshold test standing at 95: only the second key is
    near its limit, so it is incremented by its addend and the two others
    by 0. *)
Example DoLimit_stop_increment :
  let store := MemStore.mkStore {["A" := 10; "B" := 95; "C" := 30]} ∅ true None in
  let this := Engine.mkImpl store None true None None None in
  let lim := Some (Engine.mkRateLimit 2 100 false) in
  let run :=
    Engine.doLimitArgs (fun _ => false)
      (fun info => Engine.limitAfterIncrease info >? 95)
      (fun _ => 60) 0 (fun _ _ => 0) XXH.Sum64 (fun c => c / 2) this (fun _ => 0)
      [Engine.mkCacheKey "A" false; Engine.mkCacheKey "B" false;
       Engine.mkCacheKey "C" false]
      [lim; lim; lim] [1; 1; 1] in
  (fun r => match r with
            | Ok args => Ok (map (fun a => Engine.limitAfterIncrease (Engine.argInfo a)) args)
            | RedisError e => RedisError e
            | Panic => Panic
            end) run.2 = Ok [10; 96; 30] /\
  map (fun k => MemStore.data (Engine.client run.1) !! k) ["A"; "B"; "C"]
  = [Some 10; Some 96; Some 30].
Proof. split; vm_compute; reflexivity. Qed.

(** * Further properties *)

(** ** Count-Min Sketch: the loops of decay and reset *)

Section SketchLoops.
Import CMS.

Lemma rowLoop_spec (f : Z -> Z) (fuel : nat) :
  forall (j : nat) (row : list Z),
  (j + fuel = length row)%nat ->
  exists row',
    rowLoop f fuel j row = Some row' /\
    length row' = length row /\
    forall k, row' !! k = if decide (j <= k)%nat then f <$> row !! k else row !! k.
Proof.
  induction fuel as [| fuel IH]; intros j row Hlen.
  - exists row. split_and!; try done.
    intros k. destruct (decide (j <= k)%nat); [| done].
    rewrite lookup_ge_None_2 by lia. done.
  - destruct (lookup_lt_is_Some_2 row j ltac:(lia)) as [c Hc].
    cbn [rowLoop]. rewrite Hc. cbn [mbind option_bind].
    destruct (IH (S j) (<[j := f c]> row) ltac:(rewrite length_insert; lia))
      as (row' & Hrun & Hlen' & Hcells).
    exists row'. rewrite length_insert in Hlen'. split_and!; try done.
    intros k. rewrite Hcells.
    destruct (decide (k = j)) as [-> | Hne].
    + rewrite decide_False by lia. rewrite decide_True by lia.
      rewrite list_lookup_insert_eq by lia. by rewrite Hc.
    + rewrite list_lookup_insert_ne by done.
      destruct (decide (S j <= k)%nat), (decide (j <= k)%nat); try done; lia.
Qed.

Lemma rowLoop_map (f : Z -> Z) (row : list Z) :
  rowLoop f (length row) 0 row = Some (map f row).
Proof.
  destruct (rowLoop_spec f (length row) 0 row ltac:(lia)) as (row' & Hrun & Hlen & Hcells).
  rewrite Hrun. f_equal. apply list_eq. intros k.
  rewrite Hcells, decide_True by lia.
  change (map f row) with (f <$> row). by rewrite list_lookup_fmap.
Qed.

Lemma matrixLoop_spec (f : Z -> Z) (w : nat) (fuel : nat) :
  forall (i : nat) (cs : list (list Z)),
  (i + fuel = length cs)%nat ->
  Forall (fun row => length row = w) cs ->
  exists cs',
    matrixLoop f w fuel i cs = Some cs' /\
    length cs' = length cs /\
    forall r, cs' !! r = if decide (i <= r)%nat then map f <$> cs !! r else cs !! r.
Proof.
  induction fuel as [| fuel IH]; intros i cs Hlen Hrows.
  - exists cs. split_and!; try done.
    intros r. destruct (decide (i <= r)%nat); [| done].
    rewrite lookup_ge_None_2 by lia. done.
  - destruct (lookup_lt_is_Some_2 cs i ltac:(lia)) as [row Hrow].
    pose proof (Forall_lookup_1 _ _ _ _ Hrows Hrow) as Hw. simpl in Hw.
    cbn [matrixLoop]. rewrite Hrow. cbn [mbind option_bind].
    rewrite <- Hw, rowLoop_map. cbn [mbind option_bind]. rewrite Hw.
    destruct (IH (S i) (<[i := map f row]> cs))
      as (cs' & Hrun & Hlen' & Hcells).
    { rewrite length_insert. lia. }
    { apply Forall_insert; [done |]. by rewrite length_map. }
    exists cs'. rewrite length_insert in Hlen'. split_and!; try done.
    intros r. rewrite Hcells.
    destruct (decide (r = i)) as [-> | Hne].
    + rewrite decide_False by lia. rewrite decide_True by lia.
      rewrite list_lookup_insert_eq by lia. by rewrite Hrow.
    + rewrite list_lookup_insert_ne by done.
      destruct (decide (S i <= r)%nat), (decide (i <= r)%nat); try done; lia.
Qed.

(** On a sketch of the constructor's shape the loops stay in range and
    rewrite every cell. *)
Lemma forCells_shaped (f : Z -> Z) (cms : CountMinSketch) :
  shaped cms ->
  forCells f cms = Some (withCounters cms (map (map f) (counters cms))).
Proof.
  intros (Hw & Hd & Hc & Hs & Hrows). unfold forCells.
  destruct (matrixLoop_spec f (Z.to_nat (width cms)) (Z.to_nat (depth cms)) 0
              (counters cms) ltac:(lia) Hrows) as (cs' & Hrun & Hlen & Hcells).
  rewrite Hrun. simpl. f_equal. f_equal. apply list_eq. intros r.
  rewrite Hcells, decide_True by lia.
  change (map (map f) (counters cms)) with (map f <$> counters cms).
  by rewrite list_lookup_fmap.
Qed.

Lemma map_shaped (f : Z -> Z) (cms : CountMinSketch) :
  shaped cms -> shaped (withCounters cms (map (map f) (counters cms))).
Proof.
  intros (Hw & Hd & Hc & Hs & Hrows). unfold shaped; simpl.
  split_and!; try done; try lia.
  - by rewrite length_map.
  - change (map (map f) (counters cms)) with (map f <$> counters cms).
    apply Forall_fmap. eapply Forall_impl; [exact Hrows |].
    intros row Hrow. simpl. by rewrite length_map.
Qed.

End SketchLoops.

(** ** Count-Min Sketch: sequences of calls, estimates, memory *)

Section SketchMore.
Import CMS.

Variable Sum64 : list Z -> Z.
Variable scale : Z -> Z.

Lemma applyOp_shaped (cms : CountMinSketch) (o : sketchOp) :
  shaped cms ->
  exists cms',
    applyOp Sum64 scale cms o = Some cms' /\ shaped cms' /\
    width cms' = width cms /\ depth cms' = depth cms /\ seeds cms' = seeds cms.
Proof.
  intros Hsh. destruct o as [key delta | |]; cbn [applyOp].
  - destruct (Increment_spec Sum64 cms key delta Hsh)
      as (cms' & est & Hrun & Hw & Hd & Hs & Hsh' & _).
    exists cms'. rewrite Hrun. done.
  - rewrite forCells_shaped by done. eexists. split; [done |].
    split; [by apply map_shaped | done].
  - rewrite forCells_shaped by done. eexists. split; [done |].
    split; [by apply map_shaped | done].
Qed.

Lemma applyOps_shaped (ops : list sketchOp) :
  forall cms, shaped cms ->
  exists cms',
    applyOps Sum64 scale cms ops = Some cms' /\ shaped cms' /\
    width cms' = width cms /\ depth cms' = depth cms /\ seeds cms' = seeds cms.
Proof.
  induction ops as [| o ops IH]; intros cms Hsh; [by exists cms |].
  destruct (applyOp_shaped cms o Hsh) as (cms1 & Hop & Hsh1 & Hw1 & Hd1 & Hs1).
  destruct (IH cms1 Hsh1) as (cms' & Hrun & Hsh' & Hw & Hd & Hs).
  exists cms'. cbn [applyOps]. rewrite Hop. cbn [mbind option_bind].
  split_and!; try done; congruence.
Qed.

Lemma applyOps_app (ops1 ops2 : list sketchOp) :
  forall cms,
  applyOps Sum64 scale cms (ops1 ++ ops2) =
  cms' ← applyOps Sum64 scale cms ops1; applyOps Sum64 scale cms' ops2.
Proof.
  induction ops1 as [| o ops1 IH]; intros cms; [done |].
  simpl. destruct (applyOp Sum64 scale cms o) as [cms1 |]; [| done].
  simpl. apply IH.
Qed.

(** Index safety. On a sketch built by the constructor, whatever the
    budget and depth asked for, no sequence of [Increment], [Decay] and
    [Reset] calls indexes out of range, the width, depth and seeds never
    change, and [Estimate] answers for every key. *)
Theorem sketch_calls_stay_in_range (m d : Z) (ops : list sketchOp) (key : string) :
  exists cms' e,
    applyOps Sum64 scale (NewCountMinSketch m d) ops = Some cms' /\
    Width cms' = Width (NewCountMinSketch m d) /\
    Depth cms' = Depth (NewCountMinSketch m d) /\
    seeds cms' = seeds (NewCountMinSketch m d) /\
    Estimate Sum64 cms' key = Some e.
Proof.
  destruct (applyOps_shaped ops _ (NewCountMinSketch_shaped m d))
    as (cms' & Hrun & Hsh & Hw & Hd & Hs).
  destruct (Estimate_spec Sum64 cms' key Hsh) as (e & He & _).
  by exists cms', e.
Qed.

Lemma NewCountMinSketch_cells (m d : Z) (r j : nat) (v : Z) :
  cellAt (NewCountMinSketch m d) r j = Some v -> v = 0.
Proof.
  unfold cellAt, NewCountMinSketch; simpl. intros Hcell.
  destruct (replicate _ _ !! r) as [row |] eqn:Hrow; [| done].
  apply lookup_replicate in Hrow as [-> _]. simpl in Hcell.
  by apply lookup_replicate in Hcell as [-> _].
Qed.

Lemma Estimate_new (m d : Z) (key : string) :
  Estimate Sum64 (NewCountMinSketch m d) key = Some 0.
Proof.
  pose proof (NewCountMinSketch_shaped m d) as Hsh.
  destruct (Estimate_spec Sum64 _ key Hsh) as (e & He & Hlow & Hatt & Hmax).
  rewrite He. f_equal.
  destruct (column_Some Sum64 _ key 0 Hsh) as (j & v & Hc & Hcell).
  { destruct Hsh as (_ & Hd & _). lia. }
  pose proof (NewCountMinSketch_cells _ _ _ _ _ Hcell) as ->.
  pose proof (Hlow 0%nat j 0 Hc Hcell).
  destruct Hatt as [-> | (r' & j' & v' & _ & Hcell' & ->)].
  - unfold MaxUint32 in *. lia.
  - by apply NewCountMinSketch_cells in Hcell'.
Qed.

Lemma zero_matrix (cs : list (list Z)) (n w : nat) :
  length cs = n ->
  Forall (fun row => length row = w) cs ->
  map (map (fun _ : Z => 0)) cs = replicate n (replicate w 0).
Proof.
  intros <- Hrows. induction Hrows as [| row cs Hrow _ IH]; [done |].
  simpl. f_equal; [| done].
  subst w. clear. induction row as [| x row IH]; [done |]. simpl. by f_equal.
Qed.

Lemma zeroed_is_new (c : CountMinSketch) (m d : Z) :
  shaped c ->
  width c = width (NewCountMinSketch m d) ->
  depth c = depth (NewCountMinSketch m d) ->
  seeds c = seeds (NewCountMinSketch m d) ->
  withCounters c (map (map (fun _ => 0)) (counters c)) = NewCountMinSketch m d.
Proof.
  intros (_ & _ & Hc & _ & Hrows) Hw Hd Hs.
  rewrite (zero_matrix _ _ _ Hc Hrows).
  unfold withCounters. rewrite Hw, Hd, Hs.
  rewrite NewCountMinSketch_depth.
  unfold NewCountMinSketch. cbn [width depth seeds counters]. f_equal.
  pose proof (clampDepth_range d). symmetry. apply uint32_small.
  unfold isUint32, MaxUint32. lia.
Qed.

(** Reset round trip. After any sequence of calls on a constructed
    sketch, [Reset] gives back the sketch exactly as the constructor built
    it, and on that sketch every key is estimated at 0. *)
Theorem Reset_restores_new_sketch (m d : Z) (ops : list sketchOp) (key : string) :
  applyOps Sum64 scale (NewCountMinSketch m d) (ops ++ [SReset])
  = Some (NewCountMinSketch m d) /\
  Estimate Sum64 (NewCountMinSketch m d) key = Some 0.
Proof.
  split; [| apply Estimate_new].
  rewrite applyOps_app.
  destruct (applyOps_shaped ops _ (NewCountMinSketch_shaped m d))
    as (cms' & Hrun & Hsh & Hw & Hd & Hs).
  rewrite Hrun. cbn [mbind option_bind applyOps applyOp].
  rewrite forCells_shaped by done. cbn [mbind option_bind]. f_equal.
  destruct Hsh as (_ & _ & Hc & _ & Hrows).
  rewrite (zero_matrix _ _ _ Hc Hrows).
  unfold withCounters. rewrite Hw, Hd, Hs.
  rewrite NewCountMinSketch_depth.
  unfold NewCountMinSketch. cbn [width depth seeds counters]. f_equal.
  pose proof (clampDepth_range d). symmetry. apply uint32_small.
  unfold isUint32, MaxUint32. lia.
Qed.

(** The estimate of any key after an [Increment]: it does not decrease
    and it grows by at most [delta], saturating at the largest [uint32]. *)
Lemma Estimate_after_Increment (cms cms' : CountMinSketch) (k k' : string)
    (delta est e : Z) :
  shaped cms -> bounded cms -> isUint32 delta ->
  Increment Sum64 cms k delta = Some (cms', est) ->
  Estimate Sum64 cms k' = Some e ->
  exists e',
    Estimate Sum64 cms' k' = Some e' /\
    e <= e' <= Z.min (e + delta) MaxUint32.
Proof.
  intros Hsh Hb Hdelta Hinc He.
  destruct (Increment_spec Sum64 cms k delta Hsh)
    as (cms2 & est2 & Hrun & Hw & Hd & Hs & Hsh' & Hcells & _).
  rewrite Hinc in Hrun. injection Hrun as <- <-.
  destruct (Estimate_spec Sum64 cms k' Hsh) as (e0 & He0 & Hlow & Hatt & Hmax).
  rewrite He in He0. injection He0 as <-.
  destruct (Estimate_spec Sum64 cms' k' Hsh') as (e' & He' & Hlow' & Hatt' & Hmax').
  exists e'. split; [done |].
  assert (forall r j v', column Sum64 cms k' r = Some j -> cellAt cms' r j = Some v' ->
            exists old, cellAt cms r j = Some old /\ isUint32 old /\
                        old <= v' <= Z.min (old + delta) MaxUint32) as Hstep.
  { intros r j v' Hc. rewrite Hcells.
    destruct (decide (column Sum64 cms k r = Some j)).
    - destruct (cellAt cms r j) as [old |] eqn:Hold; [| done].
      simpl. intros [= <-]. exists old.
      pose proof (bounded_cell cms r j old Hb Hold) as Hob.
      rewrite updatedCell_saturates by done.
      unfold isUint32 in *. split_and!; try done; lia.
    - intros Hold. exists v'.
      pose proof (bounded_cell cms r j v' Hb Hold) as Hob.
      unfold isUint32 in *. split_and!; try done; lia. }
  assert (forall r j old, column Sum64 cms k' r = Some j -> cellAt cms r j = Some old ->
            exists v', cellAt cms' r j = Some v' /\ v' <= Z.min (old + delta) MaxUint32)
    as Hup.
  { intros r j old Hc Hold. rewrite Hcells.
    pose proof (bounded_cell cms r j old Hb Hold) as Hob.
    destruct (decide (column Sum64 cms k r = Some j)).
    - rewrite Hold. simpl. eexists. split; [done |].
      rewrite updatedCell_saturates by done. lia.
    - exists old. split; [done |]. unfold isUint32 in *. lia. }
  split.
  - destruct Hatt' as [-> | (r & j & v' & Hc & Hcell & ->)]; [done |].
    rewrite (column_preserved Sum64 cms cms') in Hc by done.
    destruct (Hstep r j v' Hc Hcell) as (old & Hold & _ & Hle & _).
    pose proof (Hlow r j old Hc Hold). lia.
  - apply Z.min_glb; [| done].
    destruct Hatt as [-> | (r & j & old & Hc & Hold & ->)].
    + unfold isUint32 in Hdelta. lia.
    + destruct (Hup r j old Hc Hold) as (v' & Hcell' & Hv').
      pose proof (Hlow' r j v'
                    ltac:(by rewrite (column_preserved Sum64 cms cms')) Hcell').
      lia.
Qed.

(** Other keys. An [Increment] of one key never lowers the estimate of
    another key and raises it by at most [delta]. *)
Theorem Increment_bounds_other_estimates (cms : CountMinSketch) (k k' : string)
    (delta e : Z) :
  shaped cms -> bounded cms -> isUint32 delta ->
  Estimate Sum64 cms k' = Some e ->
  exists cms' est e',
    Increment Sum64 cms k delta = Some (cms', est) /\
    Estimate Sum64 cms' k' = Some e' /\
    e <= e' <= Z.min (e + delta) MaxUint32.
Proof.
  intros Hsh Hb Hdelta He.
  destruct (Increment_spec Sum64 cms k delta Hsh) as (cms' & est & Hinc & _).
  destruct (Estimate_after_Increment cms cms' k k' delta est e Hsh Hb Hdelta Hinc He)
    as (e' & He' & Hrange).
  by exists cms', est, e'.
Qed.

(** The incremented key. [Increment(key, delta)] returns the previous
    estimate of the key plus [delta], capped at 2^32 - 1, and that is the
    estimate of the key afterwards. *)
Theorem Increment_adds_to_estimate (cms : CountMinSketch) (key : string) (delta e : Z) :
  shaped cms -> bounded cms -> isUint32 delta ->
  Estimate Sum64 cms key = Some e ->
  exists cms',
    Increment Sum64 cms key delta = Some (cms', Z.min (e + delta) MaxUint32) /\
    Estimate Sum64 cms' key = Some (Z.min (e + delta) MaxUint32).
Proof.
  intros Hsh Hb Hdelta He.
  destruct (Increment_spec Sum64 cms key delta Hsh)
    as (cms' & est & Hinc & Hw & Hd & Hs & Hsh' & Hcells & Hall & Hex).
  destruct (Estimate_after_Increment cms cms' key key delta est e Hsh Hb Hdelta Hinc He)
    as (e' & He' & Hle & Hge).
  pose proof (Increment_returns_estimate Sum64 cms cms' key delta est Hsh Hinc) as Hest.
  rewrite Hest in He'. injection He' as <-.
  destruct (Estimate_spec Sum64 cms key Hsh) as (e0 & He0 & Hlow & _).
  rewrite He in He0. injection He0 as <-.
  assert (Z.min (e + delta) MaxUint32 <= est) as Hlb.
  { destruct Hex as (r & j & old & Hc & Hold & ->).
    pose proof (bounded_cell cms r j old Hb Hold) as Hob.
    rewrite updatedCell_saturates by done.
    pose proof (Hlow r j old Hc Hold). lia. }
  replace (Z.min (e + delta) MaxUint32) with est by lia.
  by exists cms'.
Qed.

(** Decay. For a cell map that is monotone on [uint32] values and stays
    within them, as multiplying by a factor and truncating is, the [Decay]
    loop stays in range and the estimate of every key afterwards is the
    cell map applied to its estimate before. *)
Theorem Decay_scales_estimates (cms : CountMinSketch) (key : string) (e : Z) :
  shaped cms -> bounded cms ->
  (forall x y, 0 <= x <= y -> y <= MaxUint32 -> scale x <= scale y) ->
  (forall x, isUint32 x -> isUint32 (scale x)) ->
  Estimate Sum64 cms key = Some e ->
  applyOp Sum64 scale cms SDecay = Some (Decay scale cms) /\
  bounded (Decay scale cms) /\
  Estimate Sum64 (Decay scale cms) key = Some (scale e).
Proof.
  intros Hsh Hb Hmono Hrange He.
  split; [cbn [applyOp]; by rewrite forCells_shaped |].
  assert (forall r j, cellAt (Decay scale cms) r j = scale <$> cellAt cms r j) as Hcells.
  { intros r j. unfold cellAt, Decay; simpl.
    change (map (map scale) (counters cms)) with (map scale <$> counters cms).
    rewrite list_lookup_fmap.
    destruct (counters cms !! r) as [row |]; [| done]. simpl.
    change (map scale row) with (scale <$> row). by rewrite list_lookup_fmap. }
  split.
  { apply cells_bounded. intros r j v. rewrite Hcells.
    destruct (cellAt cms r j) as [old |] eqn:Hold; [| done].
    simpl. intros [= <-]. apply Hrange. by eapply bounded_cell. }
  pose proof (map_shaped scale cms Hsh) as Hsh'.
  change (withCounters cms (map (map scale) (counters cms))) with (Decay scale cms) in Hsh'.
  destruct (Estimate_spec Sum64 cms key Hsh) as (e0 & He0 & Hlow & Hatt & Hmax).
  rewrite He in He0. injection He0 as <-.
  destruct (Estimate_spec Sum64 (Decay scale cms) key Hsh')
    as (e' & He' & Hlow' & Hatt' & Hmax').
  rewrite He'. f_equal.
  assert (forall r, column Sum64 (Decay scale cms) key r = column Sum64 cms key r) as Hcol
    by done.
  (* the estimate before is the value of a cell of the key *)
  assert (exists r j, column Sum64 cms key r = Some j /\ cellAt cms r j = Some e
                      /\ isUint32 e) as (r0 & j0 & Hc0 & Hcell0 & He0).
  { destruct Hatt as [-> | (r & j & v & Hc & Hcell & ->)].
    - destruct (column_Some Sum64 cms key 0 Hsh) as (j & v & Hc & Hcell).
      { destruct Hsh as (_ & Hd & _). lia. }
      pose proof (Hlow 0%nat j v Hc Hcell).
      pose proof (bounded_cell cms _ _ _ Hb Hcell) as Hv. unfold isUint32 in Hv.
      assert (v = MaxUint32) as -> by lia. by exists 0%nat, j.
    - exists r, j. split_and!; try done. by eapply bounded_cell. }
  assert (e' <= scale e) as H1.
  { apply (Hlow' r0 j0); [by rewrite Hcol |]. by rewrite Hcells, Hcell0. }
  assert (scale e <= e') as H2.
  { destruct Hatt' as [-> | (r & j & v & Hc & Hcell & ->)].
    - pose proof (Hrange e He0) as Hr. unfold isUint32 in Hr. lia.
    - rewrite Hcol in Hc. rewrite Hcells in Hcell.
      destruct (cellAt cms r j) as [old |] eqn:Hold; [| done].
      simpl in Hcell. injection Hcell as <-.
      pose proof (bounded_cell cms _ _ _ Hb Hold) as Hob.
      pose proof (Hlow r j old Hc Hold).
      unfold isUint32 in *. apply Hmono; lia. }
  lia.
Qed.

End SketchMore.

(** The memory budget. For a budget of at least 1 KiB per row whose
    width fits a [uint32], [MemoryUsage] of the constructed sketch is four
    bytes per counter, never more than the budget asked for and less than
    one column short of it. *)
Theorem MemoryUsage_within_budget (m d : Z) :
  1024 * CMS.clampDepth d <= m ->
  Z.quot m (CMS.clampDepth d * 4) <= MaxUint32 ->
  CMS.MemoryUsage (CMS.NewCountMinSketch m d)
  = 4 * CMS.Width (CMS.NewCountMinSketch m d) * CMS.Depth (CMS.NewCountMinSketch m d) /\
  m - 4 * CMS.Depth (CMS.NewCountMinSketch m d) < CMS.MemoryUsage (CMS.NewCountMinSketch m d) <= m.
Proof.
  intros Hmin Hfit. pose proof (clampDepth_range d) as HD.
  unfold CMS.MemoryUsage, CMS.Width, CMS.Depth.
  rewrite NewCountMinSketch_depth, NewCountMinSketch_width.
  assert (0 <= m) as Hm by lia.
  assert (Z.quot m (CMS.clampDepth d * 4) = m / (CMS.clampDepth d * 4)) as Hq
    by (apply Z.quot_div_nonneg; lia).
  assert (256 <= m / (CMS.clampDepth d * 4)) as Hlow
    by (apply Z.div_le_lower_bound; lia).
  rewrite sketchWidth_in_range by (rewrite Hq in *; lia).
  rewrite Hq in *. rewrite Z.max_r by lia.
  set (D := CMS.clampDepth d) in *. set (q := m / (D * 4)) in *.
  pose proof (Z.div_mod m (D * 4) ltac:(lia)) as Hdm.
  pose proof (Z.mod_pos_bound m (D * 4) ltac:(lia)) as Hr.
  fold q in Hdm.
  assert (int64 (q * D) = q * D) as ->.
  { unfold int64. rewrite Z.mod_small; [lia |]. unfold MaxUint32 in *. nia. }
  assert (int64 (q * D * 4) = q * D * 4) as ->.
  { unfold int64. rewrite Z.mod_small; [lia |]. unfold MaxUint32 in *. nia. }
  split; [lia |]. nia.
Qed.

(** ** Hot-key detector: one goroutine's calls *)

Section DetectorMore.
Import CMS Detector.

Variable Sum64 : list Z -> Z.
Variable scale : Z -> Z.

Lemma removeFirst_length (key : string) (l : list string) :
  key ∈ l -> S (length (removeFirst key l)) = length l.
Proof.
  induction l as [| k l IH]; intros Hin; [by apply elem_of_nil in Hin |].
  simpl. destruct (decide (k = key)) as [-> | Hne]; [done |].
  apply elem_of_cons in Hin as [-> | Hin]; [done |].
  simpl. by rewrite IH.
Qed.

Lemma elem_of_removeFirst_NoDup (key x : string) (l : list string) :
  NoDup l -> x ∈ removeFirst key l <-> x ∈ l /\ x <> key.
Proof.
  induction l as [| k l IH]; intros Hnd.
  - simpl. split; [intros H; by apply elem_of_nil in H | intros [H _]; done].
  - apply NoDup_cons in Hnd as [Hk Hnd]. simpl.
    destruct (decide (k = key)) as [-> | Hne].
    + rewrite elem_of_cons. split.
      * intros Hx. split; [by right | intros ->; done].
      * intros [[-> | Hx] Hne]; done.
    + rewrite !elem_of_cons, (IH Hnd). split.
      * intros [-> | [Hx Hxk]]; [split; [by left | done] | split; [by right | done]].
      * intros [[-> | Hx] Hxk]; [by left | right; done].
Qed.

Lemma NoDup_removeFirst (key : string) (l : list string) :
  NoDup l -> NoDup (removeFirst key l).
Proof.
  induction l as [| k l IH]; intros Hnd; [done |].
  apply NoDup_cons in Hnd as [Hk Hnd]. simpl.
  destruct (decide (k = key)); [done |].
  apply NoDup_cons. split; [| by apply IH].
  rewrite elem_of_removeFirst_NoDup by done. tauto.
Qed.

Lemma synced_size (d : HotKeyDetector) :
  synced d -> size (hotKeys d) = length (hotKeysList d).
Proof.
  intros [Hnd Hiff].
  assert (hotKeys d = list_to_set (hotKeysList d)) as ->.
  { apply set_eq. intros x. rewrite elem_of_list_to_set. by rewrite Hiff. }
  by apply size_list_to_set.
Qed.

Lemma touchHotKey_synced (d : HotKeyDetector) (key : string) :
  synced d -> key ∈ hotKeys d ->
  synced (touchHotKey d key) /\
  length (hotKeysList (touchHotKey d key)) = length (hotKeysList d).
Proof.
  intros [Hnd Hiff] Hin. unfold synced, touchHotKey; cbn [hotKeys hotKeysList withHot].
  split_and!.
  - apply NoDup_app. split_and!.
    + by apply NoDup_removeFirst.
    + intros x Hx. rewrite elem_of_removeFirst_NoDup in Hx by done.
      rewrite list_elem_of_singleton. tauto.
    + apply NoDup_singleton.
  - intros x. rewrite elem_of_app, elem_of_removeFirst_NoDup, list_elem_of_singleton by done.
    rewrite <- Hiff. destruct (decide (x = key)) as [-> | Hne]; [| tauto].
    split; [intros _; by apply Hiff | by right].
  - rewrite length_app. simpl.
    pose proof (removeFirst_length key (hotKeysList d) ltac:(by apply Hiff)). lia.
Qed.

Lemma promoteToHot_synced (d : HotKeyDetector) (key : string) :
  synced d -> 0 < maxHotKeys d -> key ∉ hotKeys d ->
  exists n,
    promoteToHot d key =
      Some (withHot d ({[key]} ∪ hotKeys d ∖ list_to_set (take n (hotKeysList d)))
                    (drop n (hotKeysList d) ++ [key])) /\
    synced (withHot d ({[key]} ∪ hotKeys d ∖ list_to_set (take n (hotKeysList d)))
                    (drop n (hotKeysList d) ++ [key])) /\
    Z.of_nat (length (drop n (hotKeysList d))) < maxHotKeys d /\
    (n = 0%nat \/ maxHotKeys d <= Z.of_nat (length (hotKeysList d))).
Proof.
  intros [Hnd Hiff] Hmax Hcold. unfold promoteToHot.
  rewrite bool_decide_eq_false_2 by done.
  destruct (evictLoop_spec scale (maxHotKeys d) (hotKeysList d) (hotKeys d) Hmax)
    as (n & Hrun & Hlen & Hn).
  exists n. rewrite Hrun. cbn [mbind option_bind]. split_and!; try done.
  unfold synced; cbn [hotKeys hotKeysList withHot].
  pose proof Hnd as Hnd'. rewrite <- (take_drop n (hotKeysList d)) in Hnd'.
  apply NoDup_app in Hnd' as (Hndt & Hdisj & Hndd).
  assert (forall x, x ∈ drop n (hotKeysList d) -> x ∈ hotKeysList d) as Hsub.
  { intros x Hx. rewrite <- (take_drop n (hotKeysList d)). apply elem_of_app. by right. }
  split.
  - apply NoDup_app. split_and!; [done | | apply NoDup_singleton].
    intros x Hx. rewrite list_elem_of_singleton. intros ->.
    apply Hcold, Hiff. by apply Hsub.
  - intros x. rewrite elem_of_app, list_elem_of_singleton, elem_of_union,
      elem_of_singleton, elem_of_difference, elem_of_list_to_set.
    split.
    + intros [Hx | ->]; [right | by left].
      split; [by apply Hiff, Hsub |]. intros Ht. by apply (Hdisj x).
    + intros [-> | [Hx Hnt]]; [by right | left].
      apply Hiff in Hx. rewrite <- (take_drop n (hotKeysList d)) in Hx.
      apply elem_of_app in Hx as [Hx | Hx]; done.
Qed.

Lemma cleanupLoop_filter (c : CountMinSketch) (threshold : Z) (l : list string) :
  shaped c ->
  forall (hk : gset string) (newList : list string),
  cleanupLoop Sum64 c threshold l hk newList =
  Some (hk ∖ list_to_set (filter (fun k => staysHot Sum64 c threshold k = false) l),
        newList ++ filter (fun k => staysHot Sum64 c threshold k = true) l).
Proof.
  intros Hsh. induction l as [| k l IH]; intros hk newList.
  - simpl. rewrite app_nil_r. do 2 f_equal. set_solver.
  - destruct (Estimate_spec Sum64 c k Hsh) as (e & He & _).
    cbn [cleanupLoop]. rewrite He. cbn [mbind option_bind].
    assert (staysHot Sum64 c threshold k = (e >=? threshold)) as Hk
      by (unfold staysHot; by rewrite He).
    rewrite !filter_cons.
    destruct (e >=? threshold) eqn:E.
    + rewrite IH. rewrite decide_False by (by rewrite Hk).
      rewrite decide_True by done.
      by rewrite <- app_assoc.
    + rewrite IH. rewrite decide_True by done.
      rewrite decide_False by (by rewrite Hk).
      f_equal. f_equal. rewrite list_to_set_cons. set_solver.
Qed.

Lemma cleanupColdKeys_synced (d : HotKeyDetector) :
  shaped (cms d) -> synced d ->
  exists d',
    cleanupColdKeys Sum64 d = Some d' /\ synced d' /\
    cms d' = cms d /\ maxHotKeys d' = maxHotKeys d /\ hotThreshold d' = hotThreshold d /\
    decayInterval d' = decayInterval d /\ lastDecayTime d' = lastDecayTime d /\
    hotKeysList d' = filter (fun k => staysHot Sum64 (cms d) (hotThreshold d) k = true)
                            (hotKeysList d).
Proof.
  intros Hsh [Hnd Hiff]. unfold cleanupColdKeys.
  rewrite cleanupLoop_filter by done. cbn [mbind option_bind].
  eexists. split; [reflexivity |]. split_and!; try done.
  unfold synced; cbn [hotKeys hotKeysList withHot]. split.
  - by apply NoDup_filter.
  - intros x. cbn [app].
    rewrite elem_of_difference, elem_of_list_to_set, !list_elem_of_filter.
    rewrite <- Hiff.
    destruct (staysHot Sum64 (cms d) (hotThreshold d) x); intuition congruence.
Qed.

Lemma length_filter_le {A : Type} (P : A -> Prop) `{forall x, Decision (P x)} (l : list A) :
  (length (filter P l) <= length l)%nat.
Proof.
  induction l as [| x l IH]; [done |].
  rewrite filter_cons. destruct (decide (P x)); simpl; lia.
Qed.

Lemma orderly_consistent (d : HotKeyDetector) : orderly d -> consistent d.
Proof.
  intros (Hsh & Hmax & Hsync & Hlen). unfold consistent. split_and!; try done.
  - intros key Hk. by apply Hsync.
  - rewrite (synced_size d Hsync). done.
Qed.

Lemma maybeDecay_orderly (d : HotKeyDetector) (now : Z) :
  orderly d ->
  exists d',
    maybeDecay Sum64 scale d now = Some d' /\ orderly d' /\
    maxHotKeys d' = maxHotKeys d /\ hotThreshold d' = hotThreshold d /\
    decayInterval d' = decayInterval d /\
    width (cms d') = width (cms d) /\ depth (cms d') = depth (cms d) /\
    seeds (cms d') = seeds (cms d) /\
    (forall key, key ∈ hotKeys d' -> key ∈ hotKeys d).
Proof.
  intros (Hsh & Hmax & Hsync & Hlen). unfold maybeDecay.
  destruct (now - lastDecayTime d >=? decayInterval d).
  - set (d1 := withCms (withLastDecayTime d now)
                       (Decay scale (cms (withLastDecayTime d now)))).
    destruct (cleanupColdKeys_synced d1) as (d' & Hrun & Hs' & Hc & Hm & Ht & Hi & _ & Hl).
    { unfold d1; cbn [cms withCms]. by apply Decay_shaped. }
    { exact Hsync. }
    exists d'. split; [done |].
    split_and!; try done; try (rewrite Hc; done).
    + unfold orderly. rewrite Hc, Hm. split_and!; try done.
      * unfold d1; cbn [cms withCms]. by apply Decay_shaped.
      * rewrite Hl. cbn [hotKeysList d1 withCms withLastDecayTime].
        pose proof (length_filter_le
                      (fun k => staysHot Sum64 (cms d1) (hotThreshold d1) k = true)
                      (hotKeysList d)).
        change (maxHotKeys d1) with (maxHotKeys d). lia.
    + intros key Hk. apply Hs' in Hk. rewrite Hl in Hk.
      apply list_elem_of_filter in Hk as [_ Hk]. by apply Hsync in Hk.
  - exists d. by split_and!.
Qed.

Lemma NewHotKeyDetector_orderly (config : HotKeyDetectorConfig) (now : Z) :
  orderly (NewHotKeyDetector config now).
Proof.
  unfold orderly, synced, NewHotKeyDetector.
  cbn [cms maxHotKeys hotKeys hotKeysList length]. split_and!.
  - apply NewCountMinSketch_shaped.
  - destruct (MaxHotKeys config <=? 0) eqn:E; lia.
  - apply NoDup_nil_2.
  - intros key. split; intros Hk; [by apply elem_of_nil in Hk | by apply elem_of_empty in Hk].
  - destruct (MaxHotKeys config <=? 0) eqn:E; lia.
Qed.

(** Within capacity the eviction loop drops the head of a full list and
    nothing of a list with room. *)
Lemma evictLoop_within (maxKeys : Z) (hk : gset string) (l : list string) :
  0 < maxKeys -> Z.of_nat (length l) <= maxKeys ->
  evictLoop maxKeys hk l =
  Some (if Z.of_nat (length l) <? maxKeys then (hk, l)
        else (hk ∖ list_to_set (take 1 l), drop 1 l)).
Proof.
  intros Hmax Hlen. destruct (Z.of_nat (length l) <? maxKeys) eqn:E.
  - apply evictLoop_room. lia.
  - apply Z.ltb_ge in E.
    destruct l as [| k l]; [cbn [length] in *; lia |].
    cbn [evictLoop].
    replace (Z.of_nat (length (k :: l)) >=? maxKeys) with true
      by (symmetry; apply Z.geb_le; lia).
    rewrite evictLoop_room by (cbn [length] in Hlen; lia).
    cbn [take drop list_to_set]. do 2 f_equal. set_solver.
Qed.

(** The setup of a detector, which no call changes. *)
Lemma RecordAccessWithDelta_orderly (d : HotKeyDetector) (now : Z) (key : string)
    (delta : Z) :
  orderly d ->
  exists d' hot,
    RecordAccessWithDelta Sum64 scale d now key delta = Some (d', hot) /\
    orderly d' /\
    (maxHotKeys d' = maxHotKeys d /\ hotThreshold d' = hotThreshold d /\
     decayInterval d' = decayInterval d /\
     width (cms d') = width (cms d) /\ depth (cms d') = depth (cms d) /\
     seeds (cms d') = seeds (cms d)) /\
    hot = IsHot d' key /\
    (hot = true -> last (hotKeysList d') = Some key) /\
    (forall k, k ∈ hotKeys d' -> k = key \/ k ∈ hotKeys d).
Proof.
  intros Ho. unfold RecordAccessWithDelta.
  destruct (maybeDecay_orderly d now Ho)
    as (d1 & Hdecay & Ho1 & Hm1 & Ht1 & Hi1 & Hw1 & Hd1 & Hs1 & Hsub1).
  rewrite Hdecay. cbn [mbind option_bind].
  pose proof Ho1 as (Hsh1 & Hmax1 & Hsync1 & Hlen1).
  destruct (Increment_spec Sum64 (cms d1) key delta Hsh1)
    as (c & count & Hinc & Hwc & Hdc & Hsc & Hshc & _).
  rewrite Hinc. cbn [mbind option_bind].
  set (d2 := withCms d1 c).
  assert (orderly d2) as Ho2 by (unfold orderly, d2; cbn [cms withCms]; done).
  unfold isHot, IsHot.
  destruct (bool_decide (key ∈ hotKeys d2)) eqn:Hhot.
  - apply bool_decide_eq_true in Hhot.
    destruct (touchHotKey_synced d2 key Hsync1 Hhot) as [Hs Hl].
    exists (touchHotKey d2 key), true. split; [done |].
    split_and!; try done; try (cbn; congruence).
    + unfold orderly. split_and!; try done.
      rewrite Hl. done.
    + symmetry. by apply bool_decide_eq_true.
    + intros _. cbn. by rewrite last_snoc.
    + intros k Hk. right. by apply Hsub1.
  - apply bool_decide_eq_false in Hhot.
    destruct (count >=? hotThreshold d2) eqn:E.
    + destruct (promoteToHot_synced d2 key Hsync1 Hmax1 Hhot)
        as (n & Hp & Hs' & Hlen' & _).
      rewrite Hp. cbn [mbind option_bind].
      eexists _, true. split; [reflexivity |].
      split_and!; try done; try (cbn; congruence).
      * unfold orderly. split_and!; try done.
        cbn [hotKeysList withHot maxHotKeys]. rewrite length_app. simpl.
        change (maxHotKeys d2) with (maxHotKeys d1) in Hlen'.
        change (hotKeysList d2) with (hotKeysList d1) in Hlen'. lia.
      * symmetry. apply bool_decide_eq_true. cbn. set_solver.
      * intros _. cbn. by rewrite last_snoc.
      * intros k Hk. cbn in Hk.
        apply elem_of_union in Hk as [Hk | Hk]; [left; set_solver |].
        right. apply Hsub1. set_solver.
    + exists d2, false. split_and!; try done; try (cbn; congruence).
      * symmetry. by apply bool_decide_eq_false.
      * intros k Hk. right. by apply Hsub1.
Qed.

Lemma Reset_orderly (d : HotKeyDetector) (now : Z) :
  orderly d ->
  Detector.Reset d now =
  Some {| cms := withCounters (cms d) (map (map (fun _ => 0)) (counters (cms d)));
          hotThreshold := hotThreshold d; hotKeys := ∅; hotKeysList := [];
          maxHotKeys := maxHotKeys d; decayInterval := decayInterval d;
          lastDecayTime := now |}.
Proof.
  intros (Hsh & _). unfold Detector.Reset.
  by rewrite forCells_shaped.
Qed.

Lemma serve_orderly (d : HotKeyDetector) (c : call) :
  orderly d ->
  exists d',
    serve Sum64 scale d c = Some d' /\ orderly d' /\
    (maxHotKeys d' = maxHotKeys d /\ hotThreshold d' = hotThreshold d /\
     decayInterval d' = decayInterval d /\
     width (cms d') = width (cms d) /\ depth (cms d') = depth (cms d) /\
     seeds (cms d') = seeds (cms d)) /\
    (forall k, k ∈ hotKeys d' -> recordedKey c = Some k \/ k ∈ hotKeys d).
Proof.
  intros Ho. destruct c as [now key | now key delta | now]; cbn [serve recordedKey].
  - destruct (RecordAccessWithDelta_orderly d now key 1 Ho)
      as (d' & hot & Hrun & Ho' & Hset & _ & _ & Hsub).
    unfold RecordAccess. rewrite Hrun. exists d'.
    split; [done |]. split; [done |]. split; [done |].
    intros k Hk. destruct (Hsub k Hk) as [-> | ?]; [by left | by right].
  - destruct (RecordAccessWithDelta_orderly d now key delta Ho)
      as (d' & hot & Hrun & Ho' & Hset & _ & _ & Hsub).
    rewrite Hrun. exists d'.
    split; [done |]. split; [done |]. split; [done |].
    intros k Hk. destruct (Hsub k Hk) as [-> | ?]; [by left | by right].
  - rewrite Reset_orderly by done. eexists. split; [reflexivity |].
    destruct Ho as (Hsh & Hmax & _ & _).
    split; [| split; [done |]].
    + unfold orderly, synced. cbn [cms hotKeys hotKeysList maxHotKeys length].
      split_and!; try done.
      * by apply map_shaped.
      * apply NoDup_nil_2.
      * intros key. split; intros Hk; [by apply elem_of_nil in Hk | by apply elem_of_empty in Hk].
      * lia.
    + intros k Hk. cbn in Hk. by apply elem_of_empty in Hk.
Qed.

Lemma serveAll_orderly (calls : list call) :
  forall d, orderly d ->
  exists d',
    serveAll Sum64 scale d calls = Some d' /\ orderly d' /\
    (maxHotKeys d' = maxHotKeys d /\ hotThreshold d' = hotThreshold d /\
     decayInterval d' = decayInterval d /\
     width (cms d') = width (cms d) /\ depth (cms d') = depth (cms d) /\
     seeds (cms d') = seeds (cms d)) /\
    (forall k, k ∈ hotKeys d' -> Some k ∈ map recordedKey calls \/ k ∈ hotKeys d).
Proof.
  induction calls as [| c calls IH]; intros d Ho.
  - exists d. split_and!; try done. intros k Hk. by right.
  - destruct (serve_orderly d c Ho) as (d1 & Hstep & Ho1 & Hset1 & Hsub1).
    destruct (IH d1 Ho1) as (d' & Hrun & Ho' & Hset & Hsub).
    exists d'. cbn [serveAll]. rewrite Hstep. cbn [mbind option_bind].
    split_and!; try done; try (destruct Hset as (? & ? & ? & ? & ? & ?);
                               destruct Hset1 as (? & ? & ? & ? & ? & ?); congruence).
    intros k Hk. cbn [map]. rewrite elem_of_cons.
    destruct (Hsub k Hk) as [Hin | Hin]; [left; by right |].
    destruct (Hsub1 k Hin) as [<- | Hd]; [left; by left | by right].
Qed.

(** One goroutine. From a new detector, any sequence of [RecordAccess],
    [RecordAccessWithDelta] and [Reset] calls made one after the other
    runs without a panic and leaves the LRU list and the hot set in step:
    the list has no duplicates, it holds exactly the keys [IsHot] reports,
    so [GetHotKeyCount] is its length, and it is within the capacity. *)
Theorem sequential_calls_keep_list_and_set_in_step (config : HotKeyDetectorConfig)
    (now0 : Z) (calls : list call) :
  exists d,
    serveAll Sum64 scale (NewHotKeyDetector config now0) calls = Some d /\
    NoDup (hotKeysList d) /\
    (forall key, key ∈ hotKeysList d <-> IsHot d key = true) /\
    GetHotKeyCount d = length (hotKeysList d) /\
    Z.of_nat (length (hotKeysList d)) <= maxHotKeys d.
Proof.
  destruct (serveAll_orderly calls _ (NewHotKeyDetector_orderly config now0))
    as (d & Hrun & (Hsh & Hmax & Hsync & Hlen) & _).
  exists d. split_and!; try done.
  - by destruct Hsync.
  - intros key. unfold IsHot, isHot. rewrite bool_decide_eq_true. by apply Hsync.
  - by apply synced_size.
Qed.

(** The answer of an access. In any state one goroutine's calls reach,
    [RecordAccessWithDelta] returns, its answer is what [IsHot] reports
    for the key right afterwards, and a key answered hot is the most
    recently used one, at the end of the LRU list. *)
Theorem RecordAccess_answer_is_hot_status (config : HotKeyDetectorConfig) (now0 : Z)
    (calls : list call) (now : Z) (key : string) (delta : Z) :
  exists d d' hot,
    serveAll Sum64 scale (NewHotKeyDetector config now0) calls = Some d /\
    RecordAccessWithDelta Sum64 scale d now key delta = Some (d', hot) /\
    IsHot d' key = hot /\
    (hot = true -> last (hotKeysList d') = Some key).
Proof.
  destruct (serveAll_orderly calls _ (NewHotKeyDetector_orderly config now0))
    as (d & Hrun & Ho & _).
  destruct (RecordAccessWithDelta_orderly d now key delta Ho)
    as (d' & hot & Hrec & _ & _ & Hhot & Hlast & _).
  exists d, d', hot. by split_and!.
Qed.

(** A key that was never recorded is never hot: after any calls of one
    goroutine on a new detector, every key [IsHot] reports was the key of
    one of the recording calls. *)
Theorem unrecorded_key_is_never_hot (config : HotKeyDetectorConfig) (now0 : Z)
    (calls : list call) :
  exists d,
    serveAll Sum64 scale (NewHotKeyDetector config now0) calls = Some d /\
    forall key, IsHot d key = true -> Some key ∈ map recordedKey calls.
Proof.
  destruct (serveAll_orderly calls _ (NewHotKeyDetector_orderly config now0))
    as (d & Hrun & _ & _ & Hsub).
  exists d. split; [done |]. intros key Hk.
  apply bool_decide_eq_true in Hk.
  destruct (Hsub key Hk) as [Hin | Hin]; [done |].
  cbn in Hin. by apply elem_of_empty in Hin.
Qed.

(** Reset round trip. After any calls of one goroutine, [Reset] brings
    the detector back to the state the constructor builds for the same
    configuration at the time of the reset: no key is hot, the count is
    zero and every estimate is zero. *)
Theorem Reset_restores_new_detector (config : HotKeyDetectorConfig) (now0 : Z)
    (calls : list call) (now : Z) (key : string) :
  exists d,
    serveAll Sum64 scale (NewHotKeyDetector config now0) calls = Some d /\
    Detector.Reset d now = Some (NewHotKeyDetector config now) /\
    IsHot (NewHotKeyDetector config now) key = false /\
    GetHotKeyCount (NewHotKeyDetector config now) = 0%nat /\
    GetEstimate Sum64 (NewHotKeyDetector config now) key = Some 0.
Proof.
  destruct (serveAll_orderly calls _ (NewHotKeyDetector_orderly config now0))
    as (d & Hrun & Ho & (Hm & Ht & Hi & Hw & Hd & Hs) & _).
  exists d. split; [done |]. split_and!.
  - rewrite Reset_orderly by done.
    destruct Ho as (Hsh & _).
    cbn [cms maxHotKeys hotThreshold decayInterval NewHotKeyDetector] in Hm, Ht, Hi, Hw, Hd, Hs.
    rewrite (zeroed_is_new (cms d) (SketchMemoryBytes config) (SketchDepth config))
      by done.
    rewrite Hm, Ht, Hi. done.
  - unfold IsHot, isHot. apply bool_decide_eq_false. cbn. set_solver.
  - unfold GetHotKeyCount. cbn [hotKeys NewHotKeyDetector]. apply size_empty.
  - unfold GetEstimate. cbn [cms NewHotKeyDetector]. apply Estimate_new.
Qed.

Lemma maybeDecay_not_due (d : HotKeyDetector) (now : Z) :
  now - lastDecayTime d < decayInterval d -> maybeDecay Sum64 scale d now = Some d.
Proof.
  intros Hlt. unfold maybeDecay.
  destruct (now - lastDecayTime d >=? decayInterval d) eqn:E; [| done].
  apply Z.geb_le in E. lia.
Qed.

(** An access when no decay is due, within capacity. *)
Lemma RecordAccessWithDelta_not_due (d : HotKeyDetector) (now : Z) (key : string)
    (delta : Z) :
  orderly d -> now - lastDecayTime d < decayInterval d ->
  exists c count,
    Increment Sum64 (cms d) key delta = Some (c, count) /\
    RecordAccessWithDelta Sum64 scale d now key delta =
    Some (if bool_decide (key ∈ hotKeys d) then (touchHotKey (withCms d c) key, true)
          else if count >=? hotThreshold d
          then (if Z.of_nat (length (hotKeysList d)) <? maxHotKeys d
                then withHot (withCms d c) ({[key]} ∪ hotKeys d) (hotKeysList d ++ [key])
                else withHot (withCms d c)
                       ({[key]} ∪ hotKeys d ∖ list_to_set (take 1 (hotKeysList d)))
                       (drop 1 (hotKeysList d) ++ [key]), true)
          else (withCms d c, false)).
Proof.
  intros (Hsh & Hmax & Hsync & Hlen) Hlt. unfold RecordAccessWithDelta.
  rewrite maybeDecay_not_due by done. cbn [mbind option_bind].
  destruct (Increment_spec Sum64 (cms d) key delta Hsh) as (c & count & Hinc & _).
  exists c, count. split; [done |]. rewrite Hinc. cbn [mbind option_bind].
  unfold isHot. cbn [hotKeys withCms hotThreshold].
  destruct (bool_decide (key ∈ hotKeys d)) eqn:Hhot; [done |].
  destruct (count >=? hotThreshold d); [| done].
  unfold promoteToHot. cbn [hotKeys withCms hotKeysList maxHotKeys].
  rewrite Hhot. rewrite evictLoop_within by done.
  by destruct (Z.of_nat (length (hotKeysList d)) <? maxHotKeys d).
Qed.

(** LRU protection. With room for at least two hot keys, a key that an
    access has just reported hot is still hot after the next access,
    whatever key that one records, as long as no decay is due: the
    eviction takes the head of the list and the key is at its end. *)
Theorem recent_hot_key_survives_next_access (config : HotKeyDetectorConfig) (now0 : Z)
    (calls : list call) (now : Z) (key : string) (delta : Z)
    (now2 : Z) (key2 : string) (delta2 : Z) :
  2 <= maxHotKeys (NewHotKeyDetector config now0) ->
  exists d d' hot,
    serveAll Sum64 scale (NewHotKeyDetector config now0) calls = Some d /\
    RecordAccessWithDelta Sum64 scale d now key delta = Some (d', hot) /\
    (hot = true -> now2 - lastDecayTime d' < decayInterval d' ->
     exists d'' hot2,
       RecordAccessWithDelta Sum64 scale d' now2 key2 delta2 = Some (d'', hot2) /\
       IsHot d'' key = true).
Proof.
  intros Hcap.
  destruct (serveAll_orderly calls _ (NewHotKeyDetector_orderly config now0))
    as (d & Hrun & Ho & (Hm & _) & _).
  destruct (RecordAccessWithDelta_orderly d now key delta Ho)
    as (d' & hot & Hrec & Ho' & (Hm' & _) & Hhot & Hlast & _).
  exists d, d', hot. split_and!; try done.
  intros -> Hdue. specialize (Hlast eq_refl).
  symmetry in Hhot. apply bool_decide_eq_true in Hhot.
  destruct (RecordAccessWithDelta_not_due d' now2 key2 delta2 Ho' Hdue)
    as (c & count & _ & Hrec2).
  rewrite Hrec2.
  match goal with |- context [Some ?r] => set (res := r) end.
  exists res.1, res.2. split; [by destruct res |].
  unfold IsHot, isHot. apply bool_decide_eq_true. unfold res.
  destruct Ho' as (_ & _ & [Hnd Hiff] & Hlen).
  destruct (bool_decide (key2 ∈ hotKeys d')); [done |].
  destruct (count >=? hotThreshold d'); [| done].
  destruct (Z.of_nat (length (hotKeysList d')) <? maxHotKeys d') eqn:E.
  - cbn. set_solver.
  - apply Z.ltb_ge in E. cbn [fst hotKeys withHot].
    apply elem_of_union. right. apply elem_of_difference. split; [done |].
    destruct (hotKeysList d') as [| k0 [| k1 l]] eqn:Hl.
    + done.
    + cbn [length] in E. lia.
    + cbn [take list_to_set]. intros Hk.
      assert (key = k0) as -> by set_solver.
      apply NoDup_cons in Hnd as [Hnot _]. apply Hnot.
      change (last (k0 :: k1 :: l)) with (last (k1 :: l)) in Hlast.
      by apply last_Some_elem_of.
Qed.

Lemma recordAll_keeps_bound (accesses : list (Z * string * Z)) :
  forall (d : HotKeyDetector) (prior : list (string * Z)),
  orderly d -> bounded (cms d) ->
  Forall (fun a => a.1.1 - lastDecayTime d < decayInterval d /\ isUint32 a.2) accesses ->
  (forall key r j v, column Sum64 (cms d) key r = Some j ->
     cellAt (cms d) r j = Some v -> Z.min (trueCount key prior) MaxUint32 <= v) ->
  exists d',
    recordAll Sum64 scale d accesses = Some d' /\
    orderly d' /\ bounded (cms d') /\
    lastDecayTime d' = lastDecayTime d /\ decayInterval d' = decayInterval d /\
    hotThreshold d' = hotThreshold d /\
    (forall key r j v, column Sum64 (cms d') key r = Some j ->
       cellAt (cms d') r j = Some v ->
       Z.min (trueCount key (prior ++ map (fun a => (a.1.2, a.2)) accesses)) MaxUint32 <= v).
Proof.
  induction accesses as [| [[now key] delta] accesses IH]; intros d prior Ho Hb Hall Hinv.
  - exists d. cbn [map]. rewrite app_nil_r. by split_and!.
  - apply Forall_cons in Hall as [[Hdue Hdelta] Hall]. cbn [fst snd] in Hdue, Hdelta.
    destruct (RecordAccessWithDelta_not_due d now key delta Ho Hdue)
      as (c & count & Hinc & Hrec).
    destruct (RecordAccessWithDelta_orderly d now key delta Ho)
      as (d1 & hot & Hrec1 & Ho1 & (_ & Ht1 & Hi1 & _) & _).
    assert (cms d1 = c /\ lastDecayTime d1 = lastDecayTime d) as [Hc1 Hl1].
    { rewrite Hrec in Hrec1. injection Hrec1 as Hd1.
      destruct (bool_decide (key ∈ hotKeys d)); [by injection Hd1 as <- _ |].
      destruct (count >=? hotThreshold d); [| by injection Hd1 as <- _].
      destruct (Z.of_nat (length (hotKeysList d)) <? maxHotKeys d);
        by injection Hd1 as <- _. }
    pose proof Ho as (Hsh & _).
    destruct (IH d1 (prior ++ [(key, delta)]) Ho1) as (d' & Hrun & Ho' & Hb' & Hl' & Hi' & Ht' & Hinv').
    { rewrite Hc1. exact (Increment_bounded Sum64 _ _ _ _ _ Hsh Hb Hinc). }
    { rewrite Hl1, Hi1. exact Hall. }
    { rewrite Hc1.
      exact (Increment_keeps_bound Sum64 _ _ _ _ _ _ Hsh Hb Hdelta Hinv Hinc). }
    exists d'. cbn [recordAll]. rewrite Hrec1. cbn [mbind option_bind].
    split_and!; try done; try congruence.
    cbn [map fst snd]. rewrite <- app_assoc in Hinv'. exact Hinv'.
Qed.

(** No false negatives. While no decay is due, the access with which the
    hits recorded for a key reach the hot threshold (or the largest
    [uint32], where the counters saturate) is answered hot, whatever other
    keys were recorded in between and whatever they collide with. *)
Theorem heavy_hitter_is_reported_hot (config : HotKeyDetectorConfig) (now0 : Z)
    (accesses : list (Z * string * Z)) (now : Z) (key : string) (delta : Z) :
  Forall (fun a => a.1.1 - now0 < DecayInterval config /\ isUint32 a.2) accesses ->
  now - now0 < DecayInterval config ->
  isUint32 delta ->
  hotThreshold (NewHotKeyDetector config now0) <=
    Z.min (trueCount key (map (fun a => (a.1.2, a.2)) accesses) + delta) MaxUint32 ->
  exists d d',
    recordAll Sum64 scale (NewHotKeyDetector config now0) accesses = Some d /\
    RecordAccessWithDelta Sum64 scale d now key delta = Some (d', true) /\
    IsHot d' key = true.
Proof.
  intros Hall Hdue Hdelta Hheavy.
  destruct (recordAll_keeps_bound accesses (NewHotKeyDetector config now0) []
              (NewHotKeyDetector_orderly config now0)
              (NewCountMinSketch_bounded _ _) Hall)
    as (d & Hrun & Ho & Hb & Hl & Hi & Ht & Hinv).
  { intros k r j v _ Hcell. cbn [trueCount foldr].
    pose proof (bounded_cell _ _ _ _ (NewCountMinSketch_bounded _ _) Hcell) as Hv.
    unfold isUint32, MaxUint32 in *. lia. }
  cbn [app] in Hinv. cbn [lastDecayTime decayInterval NewHotKeyDetector] in Hl, Hi.
  destruct (RecordAccessWithDelta_orderly d now key delta Ho)
    as (d' & hot & Hrec & _ & _ & Hhot & _).
  destruct (RecordAccessWithDelta_not_due d now key delta Ho ltac:(lia))
    as (c & count & Hinc & Hrec').
  pose proof Ho as (Hsh & _).
  assert (hotThreshold d <= count) as Hcount.
  { pose proof (Increment_keeps_bound Sum64 _ _ _ _ _ _ Hsh Hb Hdelta Hinv Hinc) as Hinv'.
    pose proof (Increment_returns_estimate Sum64 _ _ _ _ _ Hsh Hinc) as Hest.
    destruct (Increment_spec Sum64 (cms d) key delta Hsh)
      as (c2 & count2 & Hinc2 & _ & _ & _ & Hshc & _).
    rewrite Hinc in Hinc2. injection Hinc2 as <- <-.
    destruct (Estimate_spec Sum64 c key Hshc) as (e & He & _ & Hatt & _).
    rewrite Hest in He. injection He as <-.
    rewrite Ht.
    assert (Z.min (trueCount key (map (fun a => (a.1.2, a.2)) accesses ++ [(key, delta)]))
                  MaxUint32 <= count) as Hle.
    { destruct Hatt as [-> | (r & j & v & Hc & Hcell & ->)]; [lia |].
      by apply (Hinv' key r j). }
    rewrite trueCount_app in Hle. cbn [trueCount foldr fst snd] in Hle.
    rewrite decide_True in Hle by done. lia. }
  exists d, d'. split; [done |].
  assert (hot = true) as ->.
  { rewrite Hrec' in Hrec. injection Hrec as Hh.
    destruct (bool_decide (key ∈ hotKeys d)); [by injection Hh as _ <- |].
    replace (count >=? hotThreshold d) with true in Hh
      by (symmetry; apply Z.geb_le; lia).
    by injection Hh as _ <-. }
  by split.
Qed.

(** Decay. In any state one goroutine's calls reach, [maybeDecay] does
    nothing while the interval has not elapsed; once it has, it stamps the
    time, decays the sketch, and keeps on the LRU list exactly the keys
    whose decayed estimate is still at least the threshold, in the order
    they had; the hot set follows the list. *)
Theorem due_decay_keeps_survivors_in_order (config : HotKeyDetectorConfig) (now0 : Z)
    (calls : list call) (now : Z) :
  exists d,
    serveAll Sum64 scale (NewHotKeyDetector config now0) calls = Some d /\
    (now - lastDecayTime d < decayInterval d -> maybeDecay Sum64 scale d now = Some d) /\
    (decayInterval d <= now - lastDecayTime d ->
     exists d',
       maybeDecay Sum64 scale d now = Some d' /\
       lastDecayTime d' = now /\
       cms d' = Decay scale (cms d) /\
       hotKeysList d' =
         filter (fun k => staysHot Sum64 (Decay scale (cms d)) (hotThreshold d) k = true)
                (hotKeysList d) /\
       forall key, IsHot d' key = true <-> key ∈ hotKeysList d').
Proof.
  destruct (serveAll_orderly calls _ (NewHotKeyDetector_orderly config now0))
    as (d & Hrun & (Hsh & Hmax & Hsync & Hlen) & _).
  exists d. split; [done |]. split; [apply maybeDecay_not_due |].
  intros Hdue. unfold maybeDecay.
  replace (now - lastDecayTime d >=? decayInterval d) with true
    by (symmetry; apply Z.geb_le; lia).
  set (d1 := withCms (withLastDecayTime d now)
                     (Decay scale (cms (withLastDecayTime d now)))).
  destruct (cleanupColdKeys_synced d1) as (d' & Hclean & Hs' & Hc & _ & _ & _ & Ht & Hl).
  { unfold d1; cbn [cms withCms]. by apply Decay_shaped. }
  { exact Hsync. }
  exists d'. split_and!; try done.
  intros key. unfold IsHot, isHot. rewrite bool_decide_eq_true.
  symmetry. apply Hs'.
Qed.

End DetectorMore.

(** ** Hot-key detector: least recently used *)

Section DetectorRecency.
Import CMS Detector.

Variable Sum64 : list Z -> Z.
Variable scale : Z -> Z.

Lemma ordered_subset (hk hk' : gset string) (m : gmap string nat) (l : list string) :
  (forall k, k ∈ hk' -> k ∈ hk) -> ordered hk m l -> ordered hk' m l.
Proof.
  intros Hsub. induction l as [| x l IH]; [done |].
  intros [Hx Hl]. split; [| by apply IH].
  intros Hx' k2 Hk2 Hold. apply Hx; auto.
Qed.

Lemma ordered_drop (hk : gset string) (m : gmap string nat) (l : list string) :
  forall n, ordered hk m l -> ordered hk m (drop n l).
Proof.
  induction l as [| x l IH]; intros [| n] Ho; try done.
  destruct Ho as [_ Hl]. cbn [drop]. by apply IH.
Qed.

Lemma ordered_elem (hk : gset string) (m : gmap string nat) (l : list string)
    (x k2 : string) :
  ordered hk m l -> x ∈ l -> x ∈ hk -> k2 ∈ hk -> older m x k2 -> k2 ∈ l.
Proof.
  induction l as [| y l IH]; intros Ho Hx Hxh Hk2 Hold; [by apply elem_of_nil in Hx |].
  destruct Ho as [Hy Hl]. right.
  apply elem_of_cons in Hx as [-> | Hx]; [by apply Hy | by apply IH].
Qed.

Lemma ordered_removeFirst (hk : gset string) (m : gmap string nat) (key : string)
    (l : list string) :
  key ∉ hk -> ordered hk m l -> ordered hk m (removeFirst key l).
Proof.
  intros Hkey. induction l as [| y l IH]; [done |].
  intros [Hy Hl]. cbn [removeFirst].
  destruct (decide (y = key)); [done |].
  split; [| by apply IH].
  intros Hyin k2 Hk2 Hold. apply elem_of_removeFirst; [by apply Hy |].
  intros ->. done.
Qed.

Lemma ordered_filter (hk hk' : gset string) (m : gmap string nat)
    (P : string -> Prop) `{forall x, Decision (P x)} (l : list string) :
  (forall k, k ∈ hk' -> k ∈ hk) ->
  (forall k, k ∈ hk' -> k ∈ l -> P k) ->
  ordered hk m l -> ordered hk' m (filter P l).
Proof.
  intros Hsub. induction l as [| y l IH]; intros HP Ho; [done |].
  destruct Ho as [Hy Hl]. rewrite filter_cons.
  assert (ordered hk' m (filter P l)) as Hrest.
  { apply IH; [| done]. intros k Hk Hin. apply HP; [done | by right]. }
  destruct (decide (P y)); [| done].
  split; [| done].
  intros Hy' k2 Hk2 Hold. apply list_elem_of_filter.
  assert (k2 ∈ l) as Hin by (apply Hy; auto).
  split; [| done]. apply HP; [done | by right].
Qed.

Lemma ordered_restamp (hk : gset string) (m m' : gmap string nat) (l : list string) :
  (forall k1 k2, k1 ∈ hk -> k2 ∈ hk -> older m' k1 k2 -> older m k1 k2) ->
  ordered hk m l -> ordered hk m' l.
Proof.
  intros Hm. induction l as [| x l IH]; [done |].
  intros [Hx Hl]. split; [| by apply IH].
  intros Hx' k2 Hk2 Hold. apply Hx; auto.
Qed.

Lemma older_insert_ne (m : gmap string nat) (k : string) (i : nat) (k1 k2 : string) :
  k1 <> k -> k2 <> k -> older (<[k := i]> m) k1 k2 -> older m k1 k2.
Proof.
  intros H1 H2 (t1 & t2 & Ht1 & Ht2 & Hlt).
  rewrite lookup_insert_ne in Ht1 by done.
  rewrite lookup_insert_ne in Ht2 by done.
  by exists t1, t2.
Qed.

(** The key stamped last is older than none. *)
Lemma newest_not_older (m : gmap string nat) (k : string) (i : nat) (k2 : string) :
  (forall k' t, m !! k' = Some t -> (t < i)%nat) ->
  ~ older (<[k := i]> m) k k2.
Proof.
  intros Hlt (t1 & t2 & H1 & H2 & Hlt').
  rewrite lookup_insert_eq in H1. injection H1 as <-.
  destruct (decide (k2 = k)) as [-> | Hne].
  - rewrite lookup_insert_eq in H2. injection H2 as <-. lia.
  - rewrite lookup_insert_ne in H2 by done. apply Hlt in H2. lia.
Qed.

Lemma ordered_snoc (hk0 hk' : gset string) (m : gmap string nat) (l0 : list string)
    (k : string) (i : nat) :
  (forall k' t, m !! k' = Some t -> (t < i)%nat) ->
  (forall x, x ∈ hk' -> x = k \/ x ∈ hk0) ->
  ordered hk0 m l0 -> ordered hk' (<[k := i]> m) (l0 ++ [k]).
Proof.
  intros Hlt Hsub.
  induction l0 as [| x l0 IH]; intros Ho.
  - cbn [app ordered]. split; [| done].
    intros _ k2 _ Hold. by apply newest_not_older in Hold.
  - destruct Ho as [Hx Hl]. cbn [app ordered]. split; [| by apply IH].
    intros Hx' k2 Hk2 Hold. apply elem_of_app.
    destruct (decide (k2 = k)) as [-> | Hne2]; [right; by apply list_elem_of_singleton |].
    left.
    destruct (decide (x = k)) as [-> | Hne]; [by apply newest_not_older in Hold |].
    apply Hx.
    + by destruct (Hsub x Hx').
    + by destruct (Hsub k2 Hk2).
    + by apply (older_insert_ne m k i).
Qed.

Lemma stamps_insert (m : gmap string nat) (k : string) (i : nat) :
  (forall k' t, m !! k' = Some t -> (t < i)%nat) ->
  (forall k1 k2 t, m !! k1 = Some t -> m !! k2 = Some t -> k1 = k2) ->
  (forall k' t, <[k := i]> m !! k' = Some t -> (t < S i)%nat) /\
  (forall k1 k2 t, <[k := i]> m !! k1 = Some t -> <[k := i]> m !! k2 = Some t -> k1 = k2).
Proof.
  intros Hlt Hinj. split.
  - intros k' t Ht. destruct (decide (k' = k)) as [-> | Hne].
    + rewrite lookup_insert_eq in Ht. injection Ht as <-. lia.
    + rewrite lookup_insert_ne in Ht by done. apply Hlt in Ht. lia.
  - intros k1 k2 t H1 H2.
    destruct (decide (k1 = k)) as [-> | Hne1]; destruct (decide (k2 = k)) as [-> | Hne2];
      try done.
    + rewrite lookup_insert_eq in H1. injection H1 as <-.
      rewrite lookup_insert_ne in H2 by done. apply Hlt in H2. lia.
    + rewrite lookup_insert_eq in H2. injection H2 as <-.
      rewrite lookup_insert_ne in H1 by done. apply Hlt in H1. lia.
    + rewrite lookup_insert_ne in H1 by done.
      rewrite lookup_insert_ne in H2 by done. by apply (Hinj k1 k2 t).
Qed.

Lemma stamped_next (i : nat) (m : gmap string nat) (hk : gset string) (l : list string) :
  stamped i m hk l -> stamped (S i) m hk l.
Proof.
  intros (Hlt & Hall & Hinj & Ho). split_and!; try done.
  intros k t Ht. apply Hlt in Ht. lia.
Qed.

(** A key that is not hot is used: nothing moves. *)
Lemma stamped_idle (i : nat) (m : gmap string nat) (hk : gset string) (l : list string)
    (k : string) :
  stamped i m hk l -> k ∉ hk -> stamped (S i) (<[k := i]> m) hk l.
Proof.
  intros (Hlt & Hall & Hinj & Ho) Hk.
  destruct (stamps_insert m k i Hlt Hinj) as [Hlt' Hinj'].
  split_and!; try done.
  - intros k' Hk'. rewrite lookup_insert_ne; [by apply Hall |]. intros ->. done.
  - apply (ordered_restamp hk m); [| done].
    intros k1 k2 H1 H2. apply older_insert_ne; intros ->; done.
Qed.

(** [touchHotKey]. *)
Lemma stamped_touch (i : nat) (m : gmap string nat) (hk : gset string) (l : list string)
    (k : string) :
  stamped i m hk l -> stamped (S i) (<[k := i]> m) hk (removeFirst k l ++ [k]).
Proof.
  intros (Hlt & Hall & Hinj & Ho).
  destruct (stamps_insert m k i Hlt Hinj) as [Hlt' Hinj'].
  split_and!; try done.
  - intros k' Hk'. destruct (decide (k' = k)) as [-> | Hne].
    + rewrite lookup_insert_eq. by eexists.
    + rewrite lookup_insert_ne by done. by apply Hall.
  - apply (ordered_snoc (hk ∖ {[k]})); [done | |].
    + intros x Hx. destruct (decide (x = k)); [by left | right; set_solver].
    + apply ordered_removeFirst; [set_solver |].
      apply (ordered_subset hk); [set_solver | done].
Qed.

(** The promotion of a key that is not hot, [n] keys evicted. *)
Lemma stamped_promote (i : nat) (m : gmap string nat) (hk : gset string) (l : list string)
    (k : string) (n : nat) :
  stamped i m hk l ->
  stamped (S i) (<[k := i]> m) ({[k]} ∪ hk ∖ list_to_set (take n l)) (drop n l ++ [k]).
Proof.
  intros (Hlt & Hall & Hinj & Ho).
  destruct (stamps_insert m k i Hlt Hinj) as [Hlt' Hinj'].
  split_and!; try done.
  - intros k' Hk'. destruct (decide (k' = k)) as [-> | Hne].
    + rewrite lookup_insert_eq. by eexists.
    + rewrite lookup_insert_ne by done. apply Hall. set_solver.
  - apply (ordered_snoc (hk ∖ list_to_set (take n l))); [done | |].
    + intros x Hx. apply elem_of_union in Hx as [Hx | Hx]; [left; set_solver | by right].
    + apply ordered_drop. apply (ordered_subset hk); [set_solver | done].
Qed.

(** [cleanupColdKeys]. *)
Lemma stamped_filter (i : nat) (m : gmap string nat) (hk : gset string) (l : list string)
    (f : string -> bool) :
  stamped i m hk l ->
  stamped i m (hk ∖ list_to_set (filter (fun k => f k = false) l))
          (filter (fun k => f k = true) l).
Proof.
  intros (Hlt & Hall & Hinj & Ho). split_and!; try done.
  - intros k Hk. apply Hall. set_solver.
  - apply (ordered_filter hk); [set_solver | | done].
    intros k Hk Hin. apply elem_of_difference in Hk as [_ Hnot].
    destruct (f k) eqn:E; [done |]. exfalso. apply Hnot.
    apply elem_of_list_to_set, list_elem_of_filter. done.
Qed.

(** The eviction loop drops as many keys from the head of the list as
    it takes to make room for one more, whatever the length of the list. *)
Lemma evictLoop_count (maxKeys : Z) (l : list string) :
  forall hk : gset string,
  0 < maxKeys ->
  evictLoop maxKeys hk l =
  Some (hk ∖ list_to_set (take (Z.to_nat (Z.of_nat (length l) - maxKeys + 1)) l),
        drop (Z.to_nat (Z.of_nat (length l) - maxKeys + 1)) l).
Proof.
  induction l as [| k l IH]; intros hk Hmax.
  - cbn [evictLoop length]. change (Z.of_nat 0) with 0.
    destruct (0 >=? maxKeys) eqn:E; [lia |].
    replace (Z.to_nat (0 - maxKeys + 1)) with 0%nat by lia.
    cbn [take drop list_to_set]. do 2 f_equal. set_solver.
  - cbn [evictLoop].
    assert (Z.of_nat (length (k :: l)) = Z.of_nat (length l) + 1) as Hlen
      by (cbn [length]; lia).
    destruct (Z.of_nat (length (k :: l)) >=? maxKeys) eqn:E.
    + apply Z.geb_le in E. rewrite IH by done.
      replace (Z.to_nat (Z.of_nat (length (k :: l)) - maxKeys + 1))
        with (S (Z.to_nat (Z.of_nat (length l) - maxKeys + 1))) by lia.
      cbn [take drop list_to_set]. do 2 f_equal. set_solver.
    + assert (Z.of_nat (length (k :: l)) < maxKeys) as Hlt
        by (destruct (Z.geb_spec (Z.of_nat (length (k :: l))) maxKeys); [done | lia]).
      replace (Z.to_nat (Z.of_nat (length (k :: l)) - maxKeys + 1)) with 0%nat by lia.
      cbn [take drop list_to_set]. do 2 f_equal. set_solver.
Qed.

Lemma promoteToHot_count (d : HotKeyDetector) (key : string) :
  0 < maxHotKeys d -> key ∉ hotKeys d ->
  promoteToHot d key =
  Some (withHot d
          ({[key]} ∪ hotKeys d ∖ list_to_set
             (take (Z.to_nat (Z.of_nat (length (hotKeysList d)) - maxHotKeys d + 1))
                   (hotKeysList d)))
          (drop (Z.to_nat (Z.of_nat (length (hotKeysList d)) - maxHotKeys d + 1))
                (hotKeysList d) ++ [key])).
Proof.
  intros Hmax Hcold. unfold promoteToHot.
  rewrite bool_decide_eq_false_2 by done.
  by rewrite evictLoop_count.
Qed.

Lemma promoteToHot_stamped (d : HotKeyDetector) (key : string) (i : nat)
    (m : gmap string nat) :
  consistent d -> stamped i m (hotKeys d) (hotKeysList d) -> key ∉ hotKeys d ->
  exists d',
    promoteToHot d key = Some d' /\ consistent d' /\
    maxHotKeys d' = maxHotKeys d /\ hotThreshold d' = hotThreshold d /\
    stamped (S i) (<[key := i]> m) (hotKeys d') (hotKeysList d').
Proof.
  intros Hc Hs Hcold.
  destruct (promoteToHot_consistent scale d key Hc) as (d' & Hp & Hc' & _ & _ & Hm & Ht).
  exists d'. split_and!; try done.
  rewrite promoteToHot_count in Hp by (by destruct Hc as (_ & ? & _)).
  injection Hp as <-. cbn [hotKeys hotKeysList withHot].
  by apply stamped_promote.
Qed.

Lemma cleanupColdKeys_stamped (d : HotKeyDetector) (i : nat) (m : gmap string nat) :
  consistent d -> stamped i m (hotKeys d) (hotKeysList d) ->
  exists d',
    cleanupColdKeys Sum64 d = Some d' /\ consistent d' /\
    maxHotKeys d' = maxHotKeys d /\ hotThreshold d' = hotThreshold d /\
    stamped i m (hotKeys d') (hotKeysList d').
Proof.
  intros Hc Hs.
  destruct (cleanupColdKeys_spec Sum64 scale d Hc) as (d' & Hrun & Hc' & _ & Hm & Ht & _).
  exists d'. split_and!; try done.
  unfold cleanupColdKeys in Hrun.
  rewrite (cleanupLoop_filter Sum64 scale) in Hrun by (by destruct Hc as (? & _)).
  cbn [mbind option_bind] in Hrun. injection Hrun as <-.
  cbn [hotKeys hotKeysList withHot app].
  by apply (stamped_filter i m (hotKeys d) (hotKeysList d)
              (staysHot Sum64 (cms d) (hotThreshold d))).
Qed.

Lemma maybeDecay_stamped (d : HotKeyDetector) (now : Z) (i : nat) (m : gmap string nat) :
  consistent d -> stamped i m (hotKeys d) (hotKeysList d) ->
  exists d',
    maybeDecay Sum64 scale d now = Some d' /\ consistent d' /\
    maxHotKeys d' = maxHotKeys d /\ hotThreshold d' = hotThreshold d /\
    stamped i m (hotKeys d') (hotKeysList d').
Proof.
  intros Hc Hs. unfold maybeDecay.
  destruct (now - lastDecayTime d >=? decayInterval d); [| by exists d].
  set (d1 := withCms (withLastDecayTime d now)
                     (Decay scale (cms (withLastDecayTime d now)))).
  assert (consistent d1) as Hc1.
  { destruct Hc as (Hsh & Hmax & Hsub & Hsize).
    unfold consistent, d1; cbn [cms hotKeys hotKeysList maxHotKeys withCms withLastDecayTime].
    split_and!; try done. by apply Decay_shaped. }
  exact (cleanupColdKeys_stamped d1 i m Hc1 Hs).
Qed.

Lemma RecordAccessWithDelta_stamped (d : HotKeyDetector) (now : Z) (key : string)
    (delta : Z) (i : nat) (m : gmap string nat) :
  consistent d -> stamped i m (hotKeys d) (hotKeysList d) ->
  exists d' hot,
    RecordAccessWithDelta Sum64 scale d now key delta = Some (d', hot) /\
    consistent d' /\ maxHotKeys d' = maxHotKeys d /\ hotThreshold d' = hotThreshold d /\
    stamped (S i) (<[key := i]> m) (hotKeys d') (hotKeysList d').
Proof.
  intros Hc Hs. unfold RecordAccessWithDelta.
  destruct (maybeDecay_stamped d now i m Hc Hs) as (d1 & Hdecay & Hc1 & Hm1 & Ht1 & Hs1).
  rewrite Hdecay. cbn [mbind option_bind].
  pose proof Hc1 as (Hsh1 & Hmax1 & Hsub1 & Hsize1).
  destruct (Increment_spec Sum64 (cms d1) key delta Hsh1)
    as (c & count & Hinc & _ & _ & _ & Hshc & _).
  rewrite Hinc. cbn [mbind option_bind].
  set (d2 := withCms d1 c).
  assert (consistent d2) as Hc2 by (unfold consistent, d2; simpl; done).
  assert (stamped i m (hotKeys d2) (hotKeysList d2)) as Hs2 by exact Hs1.
  unfold isHot.
  destruct (bool_decide (key ∈ hotKeys d2)) eqn:Hhot.
  - exists (touchHotKey d2 key), true. split; [done |].
    split; [by apply touchHotKey_consistent |].
    split_and!; try done; try (cbn; congruence).
    cbn [hotKeys hotKeysList touchHotKey withHot]. by apply stamped_touch.
  - apply bool_decide_eq_false in Hhot.
    destruct (count >=? hotThreshold d2) eqn:E.
    + destruct (promoteToHot_stamped d2 key i m Hc2 Hs2 Hhot)
        as (d' & Hp & Hc' & Hm & Ht & Hs').
      rewrite Hp. cbn [mbind option_bind]. exists d', true.
      split_and!; try done; unfold d2 in *; simpl in *; congruence.
    + exists d2, false. split_and!; try done.
      by apply stamped_idle.
Qed.

Lemma step_stamped (d : HotKeyDetector) (o : op) (i : nat) (m : gmap string nat) :
  consistent d -> stamped i m (hotKeys d) (hotKeysList d) ->
  exists d',
    step Sum64 scale d o = Some d' /\ consistent d' /\
    maxHotKeys d' = maxHotKeys d /\ hotThreshold d' = hotThreshold d /\
    stamped (S i) (stamp i m (used d o)) (hotKeys d') (hotKeysList d').
Proof.
  intros Hc Hs.
  destruct o as [now key | now key delta | now | key | key |]; cbn [step used stamp].
  - destruct (RecordAccessWithDelta_stamped d now key 1 i m Hc Hs)
      as (d' & hot & Hrun & Hc' & Hm & Ht & Hs').
    unfold RecordAccess. rewrite Hrun. by exists d'.
  - destruct (RecordAccessWithDelta_stamped d now key delta i m Hc Hs)
      as (d' & hot & Hrun & Hc' & Hm & Ht & Hs').
    rewrite Hrun. by exists d'.
  - destruct (maybeDecay_stamped d now i m Hc Hs) as (d' & Hrun & Hc' & Hm & Ht & Hs').
    exists d'. split_and!; try done. by apply stamped_next.
  - exists (touchHotKey d key). split_and!; try done.
    + by apply touchHotKey_consistent.
    + cbn [hotKeys hotKeysList touchHotKey withHot]. by apply stamped_touch.
  - unfold isHot. destruct (bool_decide (key ∈ hotKeys d)) eqn:Hhot.
    + exists d. unfold promoteToHot. rewrite Hhot.
      split_and!; try done. by apply stamped_next.
    + apply bool_decide_eq_false in Hhot.
      destruct (promoteToHot_stamped d key i m Hc Hs Hhot)
        as (d' & Hp & Hc' & Hm & Ht & Hs').
      by exists d'.
  - destruct (cleanupColdKeys_stamped d i m Hc Hs) as (d' & Hrun & Hc' & Hm & Ht & Hs').
    exists d'. split_and!; try done. by apply stamped_next.
Qed.

Lemma run_stamped (ops : list op) :
  forall (d : HotKeyDetector) (i : nat) (m : gmap string nat),
  consistent d -> stamped i m (hotKeys d) (hotKeysList d) ->
  exists d',
    run Sum64 scale d ops = Some d' /\ consistent d' /\
    maxHotKeys d' = maxHotKeys d /\ hotThreshold d' = hotThreshold d /\
    stamped (i + length ops) (lastUsed Sum64 scale i m d ops)
            (hotKeys d') (hotKeysList d').
Proof.
  induction ops as [| o ops IH]; intros d i m Hc Hs.
  - exists d. cbn [run lastUsed length]. rewrite Nat.add_0_r. by split_and!.
  - destruct (step_stamped d o i m Hc Hs) as (d1 & Hstep & Hc1 & Hm1 & Ht1 & Hs1).
    destruct (IH d1 (S i) _ Hc1 Hs1) as (d' & Hrun & Hc' & Hm & Ht & Hs').
    exists d'. cbn [run lastUsed length]. rewrite Hstep. cbn [mbind option_bind].
    replace (i + S (length ops))%nat with (S i + length ops)%nat by lia.
    split_and!; try done; congruence.
Qed.

Lemma NewHotKeyDetector_stamped (config : HotKeyDetectorConfig) (now : Z) :
  stamped 0 ∅ (hotKeys (NewHotKeyDetector config now))
          (hotKeysList (NewHotKeyDetector config now)).
Proof.
  unfold stamped, NewHotKeyDetector. cbn [hotKeys hotKeysList ordered].
  split_and!; done.
Qed.

Lemma oldest_in_list (m : gmap string nat) (l : list string) :
  l <> [] -> (forall k, k ∈ l -> is_Some (m !! k)) ->
  exists x tx,
    x ∈ l /\ m !! x = Some tx /\
    forall k tk, k ∈ l -> m !! k = Some tk -> (tx <= tk)%nat.
Proof.
  induction l as [| a l IH]; [done |]. intros _ Hall.
  destruct (Hall a) as [ta Hta]; [left |].
  destruct l as [| b l'].
  - exists a, ta. split; [left |]. split; [done |].
    intros k tk Hk Htk. apply list_elem_of_singleton in Hk as ->.
    rewrite Hta in Htk. injection Htk as <-. lia.
  - destruct IH as (x & tx & Hx & Htx & Hmin); [done | intros k Hk; apply Hall; by right |].
    destruct (le_lt_dec ta tx) as [Hle | Hgt].
    + exists a, ta. split; [left |]. split; [done |].
      intros k tk Hk Htk. apply elem_of_cons in Hk as [-> | Hk].
      * rewrite Hta in Htk. injection Htk as <-. lia.
      * specialize (Hmin k tk Hk Htk). lia.
    + exists x, tx. split; [by right |]. split; [done |].
      intros k tk Hk Htk. apply elem_of_cons in Hk as [-> | Hk].
      * rewrite Hta in Htk. injection Htk as <-. lia.
      * by apply (Hmin k).
Qed.

(** A hot set that is not empty has a least recently used key. *)
Lemma oldest_exists (i : nat) (m : gmap string nat) (hk : gset string) (l : list string) :
  stamped i m hk l -> hk <> ∅ ->
  exists oldest,
    oldest ∈ hk /\ forall k, k ∈ hk -> k <> oldest -> older m oldest k.
Proof.
  intros (_ & Hall & Hinj & _) Hne.
  destruct (oldest_in_list m (elements hk)) as (x & tx & Hx & Htx & Hmin).
  - intros Hnil. apply Hne. apply leibniz_equiv. by apply elements_empty_inv.
  - intros k Hk. apply Hall. by apply elem_of_elements.
  - exists x. split; [by apply elem_of_elements |].
    intros k Hk Hkx. destruct (Hall k Hk) as [tk Htk].
    exists tx, tk. split; [done |]. split; [done |].
    assert (tx <= tk)%nat as Hle by (apply (Hmin k); [by apply elem_of_elements | done]).
    destruct (decide (tx = tk)) as [-> | Hneq]; [| lia].
    exfalso. apply Hkx. by apply (Hinj k x tk).
Qed.

(** At capacity a promotion takes the least recently used key out of the
    hot set, whatever else the list holds. *)
Lemma oldest_is_evicted (d : HotKeyDetector) (key oldest : string) (i : nat)
    (m : gmap string nat) :
  consistent d -> stamped i m (hotKeys d) (hotKeysList d) ->
  key ∉ hotKeys d -> Z.of_nat (size (hotKeys d)) = maxHotKeys d ->
  oldest ∈ hotKeys d ->
  (forall k, k ∈ hotKeys d -> k <> oldest -> older m oldest k) ->
  exists d', promoteToHot d key = Some d' /\ (oldest ∉ hotKeys d') /\ key ∈ hotKeys d'.
Proof.
  intros (Hsh & Hmax & Hsub & Hsize) (_ & _ & _ & Ho) Hcold Hfull Hold Hmin.
  rewrite promoteToHot_count by done. eexists. split; [reflexivity |].
  cbn [hotKeys withHot].
  set (n := Z.to_nat (Z.of_nat (length (hotKeysList d)) - maxHotKeys d + 1)).
  split; [| set_solver].
  assert (oldest ∈ take n (hotKeysList d)) as Hin.
  { destruct (decide (oldest ∈ take n (hotKeysList d))) as [| Hnot]; [done |]. exfalso.
    assert (oldest ∈ drop n (hotKeysList d)) as Hd.
    { pose proof (Hsub oldest Hold) as Hl.
      rewrite <- (take_drop n (hotKeysList d)) in Hl.
      by apply elem_of_app in Hl as [|]. }
    assert (forall k, k ∈ hotKeys d -> k ∈ drop n (hotKeysList d)) as Hall.
    { intros k Hk. destruct (decide (k = oldest)) as [-> | Hne]; [done |].
      apply (ordered_elem (hotKeys d) m (drop n (hotKeysList d)) oldest k); try done.
      - by apply ordered_drop.
      - by apply Hmin. }
    pose proof (size_le_length (drop n (hotKeysList d)) (hotKeys d) Hall) as Hle.
    pose proof (size_le_length (hotKeysList d) (hotKeys d) Hsub) as Hle2.
    rewrite length_drop in Hle. subst n. lia. }
  intros Hx. apply elem_of_union in Hx as [Hx | Hx].
  - apply elem_of_singleton in Hx. subst. done.
  - apply elem_of_difference in Hx as [_ Hn]. apply Hn. by apply elem_of_list_to_set.
Qed.

(** When list and set hold the same keys, each once, the list is in
    the order of last use. *)
Lemma ordered_sorted (hk : gset string) (m : gmap string nat) (l : list string) :
  (forall k, k ∈ hk -> is_Some (m !! k)) ->
  (forall k1 k2 t, m !! k1 = Some t -> m !! k2 = Some t -> k1 = k2) ->
  NoDup l -> (forall k, k ∈ l -> k ∈ hk) -> ordered hk m l ->
  forall i j ki kj,
    l !! i = Some ki -> l !! j = Some kj -> (i < j)%nat -> older m ki kj.
Proof.
  intros Hall Hinj.
  induction l as [| x l IH]; intros Hnd Hin Ho i j ki kj Hi Hj Hlt; [done |].
  apply NoDup_cons in Hnd as [Hx Hnd]. destruct Ho as [Hxo Hl].
  destruct j as [| j]; [lia |]. cbn in Hj.
  destruct i as [| i].
  - cbn in Hi. injection Hi as <-.
    assert (kj ∈ l) as Hkj by (by eapply list_elem_of_lookup_2).
    assert (x ∈ hk) as Hxh by (apply Hin; left).
    assert (kj ∈ hk) as Hkh by (apply Hin; by right).
    destruct (Hall x Hxh) as [tx Htx]. destruct (Hall kj Hkh) as [tj Htj].
    destruct (lt_eq_lt_dec tx tj) as [[Hlt' | Heq] | Hgt].
    + by exists tx, tj.
    + subst tj. assert (x = kj) as -> by (by apply (Hinj x kj tx)). done.
    + exfalso. apply Hx.
      apply (ordered_elem hk m l kj x); try done. by exists tj, tx.
  - cbn in Hi. apply (IH Hnd) with (i := i) (j := j); try done; [| lia].
    intros k Hk. apply Hin. by right.
Qed.

(** Operations that are whole calls, decays, promotions and cleanups
    keep the list and the set in step and the list within capacity. *)
Lemma step_orderly (d : HotKeyDetector) (o : op) :
  detached o = false -> orderly d ->
  exists d', step Sum64 scale d o = Some d' /\ orderly d'.
Proof.
  intros Hdet Ho.
  destruct o as [now key | now key delta | now | key | key |]; cbn [step]; try done.
  - destruct (RecordAccessWithDelta_orderly Sum64 scale d now key 1 Ho)
      as (d' & hot & Hrun & Ho' & _).
    unfold RecordAccess. rewrite Hrun. by exists d'.
  - destruct (RecordAccessWithDelta_orderly Sum64 scale d now key delta Ho)
      as (d' & hot & Hrun & Ho' & _).
    rewrite Hrun. by exists d'.
  - destruct (maybeDecay_orderly Sum64 scale d now Ho) as (d' & Hrun & Ho' & _).
    by exists d'.
  - destruct (decide (key ∈ hotKeys d)) as [Hhot | Hcold].
    + exists d. unfold promoteToHot. by rewrite bool_decide_eq_true_2.
    + destruct Ho as (Hsh & Hmax & Hsync & Hlen).
      destruct (promoteToHot_synced scale d key Hsync Hmax Hcold)
        as (n & Hp & Hs' & Hlen' & _).
      rewrite Hp. eexists. split; [reflexivity |].
      unfold orderly. cbn [cms hotKeysList maxHotKeys withHot].
      split_and!; try done.
      rewrite length_app. cbn [length]. lia.
  - destruct Ho as (Hsh & Hmax & Hsync & Hlen).
    destruct (cleanupColdKeys_synced Sum64 scale d Hsh Hsync)
      as (d' & Hrun & Hs' & Hc & Hm & _ & _ & _ & Hl).
    exists d'. split; [done |]. unfold orderly. rewrite Hc, Hm, Hl.
    split_and!; try done.
    pose proof (length_filter_le
                  (fun k => staysHot Sum64 (cms d) (hotThreshold d) k = true)
                  (hotKeysList d)).
    lia.
Qed.

Lemma run_orderly (ops : list op) :
  forall d,
  Forall (fun o => detached o = false) ops -> orderly d ->
  exists d', run Sum64 scale d ops = Some d' /\ orderly d'.
Proof.
  induction ops as [| o ops IH]; intros d Hops Ho; [by exists d |].
  apply Forall_cons in Hops as [Hdet Hops].
  destruct (step_orderly d o Hdet Ho) as (d1 & Hstep & Ho1).
  destruct (IH d1 Hops Ho1) as (d' & Hrun & Ho').
  exists d'. cbn [run]. rewrite Hstep. done.
Qed.

(** C4. From a new detector and after any sequence of [RecordAccess]
    calls, decays, touches, promotions and cleanups, no operation has
    panicked and the hot set holds at most [maxHotKeys] keys. In the
    state reached: an access to a key that is not hot and whose count
    reaches the threshold inserts it; an access whose count stays below
    leaves it out; a promotion evicts from the head of the LRU list as
    many keys as it takes to make room, one key when the list holds
    exactly [maxHotKeys] entries; when the hot set is at capacity the
    hot key whose last use is the oldest is among the evicted; and the
    cleanup of a due decay keeps exactly the hot keys whose decayed
    estimate is still at least the threshold. When no [touchHotKey] ran
    detached from its call, the list holds exactly the hot keys, each
    once, in the order of their last use, so that a promotion below
    capacity evicts nothing and a promotion at capacity evicts exactly
    the least recently used hot key, the head of the list. *)
Theorem hot_set_within_capacity (config : HotKeyDetectorConfig) (now0 : Z)
    (ops : list op) :
  let stamps := lastUsed Sum64 scale 0 ∅ (NewHotKeyDetector config now0) ops in
  exists d,
    run Sum64 scale (NewHotKeyDetector config now0) ops = Some d /\
    Z.of_nat (size (hotKeys d)) <= maxHotKeys d /\
    maxHotKeys d = (if MaxHotKeys config <=? 0 then 10000 else MaxHotKeys config) /\
    (forall now key d1 c count,
        maybeDecay Sum64 scale d now = Some d1 ->
        Increment Sum64 (cms d1) key 1 = Some (c, count) ->
        key ∉ hotKeys d1 ->
        hotThreshold d <= count ->
        exists d',
          RecordAccess Sum64 scale d now key = Some (d', true) /\
          key ∈ hotKeys d' /\
          Z.of_nat (size (hotKeys d')) <= maxHotKeys d') /\
    (forall now key d1 c count,
        maybeDecay Sum64 scale d now = Some d1 ->
        Increment Sum64 (cms d1) key 1 = Some (c, count) ->
        key ∉ hotKeys d1 ->
        count < hotThreshold d ->
        RecordAccess Sum64 scale d now key = Some (withCms d1 c, false)) /\
    (forall key,
        key ∉ hotKeys d ->
        promoteToHot d key =
        Some (withHot d
                ({[key]} ∪ hotKeys d ∖ list_to_set
                   (take (Z.to_nat (Z.of_nat (length (hotKeysList d)) - maxHotKeys d + 1))
                         (hotKeysList d)))
                (drop (Z.to_nat (Z.of_nat (length (hotKeysList d)) - maxHotKeys d + 1))
                      (hotKeysList d) ++ [key]))) /\
    (forall key oldest rest,
        key ∉ hotKeys d ->
        hotKeysList d = oldest :: rest ->
        Z.of_nat (length (hotKeysList d)) = maxHotKeys d ->
        promoteToHot d key =
        Some (withHot d ({[key]} ∪ hotKeys d ∖ {[oldest]}) (rest ++ [key]))) /\
    (forall key,
        key ∉ hotKeys d ->
        Z.of_nat (size (hotKeys d)) = maxHotKeys d ->
        exists oldest d',
          oldest ∈ hotKeys d /\
          (forall k, k ∈ hotKeys d -> k <> oldest -> older stamps oldest k) /\
          promoteToHot d key = Some d' /\
          (oldest ∉ hotKeys d') /\ key ∈ hotKeys d') /\
    (Forall (fun o => detached o = false) ops ->
     NoDup (hotKeysList d) /\
     (forall key, key ∈ hotKeysList d <-> key ∈ hotKeys d) /\
     (forall i j ki kj,
         hotKeysList d !! i = Some ki -> hotKeysList d !! j = Some kj -> (i < j)%nat ->
         older stamps ki kj) /\
     (forall key,
         key ∉ hotKeys d ->
         Z.of_nat (size (hotKeys d)) < maxHotKeys d ->
         promoteToHot d key =
         Some (withHot d ({[key]} ∪ hotKeys d) (hotKeysList d ++ [key]))) /\
     (forall key,
         key ∉ hotKeys d ->
         Z.of_nat (size (hotKeys d)) = maxHotKeys d ->
         exists oldest rest,
           hotKeysList d = oldest :: rest /\
           oldest ∈ hotKeys d /\
           (forall k, k ∈ hotKeys d -> k <> oldest -> older stamps oldest k) /\
           promoteToHot d key =
           Some (withHot d ({[key]} ∪ hotKeys d ∖ {[oldest]}) (rest ++ [key])))) /\
    (forall now,
        decayInterval d <= now - lastDecayTime d ->
        exists d',
          maybeDecay Sum64 scale d now = Some d' /\
          forall key,
            key ∈ hotKeys d' <->
            key ∈ hotKeys d /\
            exists e, Estimate Sum64 (Decay scale (cms d)) key = Some e /\
                      hotThreshold d <= e).
Proof.
  intros stamps.
  destruct (run_stamped ops (NewHotKeyDetector config now0) 0 ∅
              (NewHotKeyDetector_consistent config now0)
              (NewHotKeyDetector_stamped config now0))
    as (d & Hrun & Hc & Hm & Ht & Hs).
  fold stamps in Hs.
  exists d. pose proof Hc as (Hsh & Hmax & Hsub & Hsize).
  split; [exact Hrun |]. split; [exact Hsize |]. split; [exact Hm |].
  split; [| split; [| split; [| split; [| split; [| split]]]]].
  - intros now key d1 c count Hdecay Hinc Hcold Hcount.
    destruct (maybeDecay_consistent Sum64 scale d now Hc)
      as (d1' & Hdecay' & Hc1 & Hm1 & Ht1).
    rewrite Hdecay in Hdecay'. injection Hdecay' as <-.
    pose proof Hc1 as (Hsh1 & Hmax1 & Hsub1 & Hsize1).
    destruct (Increment_spec Sum64 (cms d1) key 1 Hsh1)
      as (c' & count' & Hinc' & _ & _ & _ & Hshc & _).
    rewrite Hinc in Hinc'. injection Hinc' as <- <-.
    assert (consistent (withCms d1 c)) as Hc2 by (unfold consistent; simpl; done).
    destruct (promoteToHot_consistent scale (withCms d1 c) key Hc2)
      as (d' & Hp & Hc' & Hin & _ & _ & _).
    exists d'. unfold RecordAccess, RecordAccessWithDelta.
    rewrite Hdecay. cbn [mbind option_bind]. rewrite Hinc. cbn [mbind option_bind].
    unfold isHot. rewrite bool_decide_eq_false_2 by done.
    replace (count >=? hotThreshold (withCms d1 c)) with true
      by (symmetry; apply Z.geb_le; simpl; lia).
    rewrite Hp. cbn [mbind option_bind].
    split_and!; [done | done |]. by destruct Hc' as (_ & _ & _ & ?).
  - intros now key d1 c count Hdecay Hinc Hcold Hcount.
    destruct (maybeDecay_consistent Sum64 scale d now Hc)
      as (d1' & Hdecay' & Hc1 & Hm1 & Ht1).
    rewrite Hdecay in Hdecay'. injection Hdecay' as <-.
    unfold RecordAccess, RecordAccessWithDelta.
    rewrite Hdecay. cbn [mbind option_bind]. rewrite Hinc. cbn [mbind option_bind].
    unfold isHot. rewrite bool_decide_eq_false_2 by done.
    destruct (count >=? hotThreshold (withCms d1 c)) eqn:E; [| done].
    apply Z.geb_le in E. simpl in E. lia.
  - intros key Hcold. by apply promoteToHot_count.
  - intros key oldest rest Hcold Hlist Hfull.
    rewrite promoteToHot_count by done.
    replace (Z.to_nat (Z.of_nat (length (hotKeysList d)) - maxHotKeys d + 1))
      with 1%nat by lia.
    rewrite Hlist. cbn [take drop list_to_set]. do 3 f_equal. set_solver.
  - intros key Hcold Hfull.
    destruct (oldest_exists _ stamps (hotKeys d) (hotKeysList d) Hs)
      as (oldest & Hold & Hmin).
    { intros Hempty. rewrite Hempty, size_empty in Hfull. lia. }
    destruct (oldest_is_evicted d key oldest _ stamps Hc Hs Hcold Hfull Hold Hmin)
      as (d' & Hp & Hout & Hin).
    by exists oldest, d'.
  - intros Hops.
    destruct (run_orderly ops (NewHotKeyDetector config now0) Hops
                (NewHotKeyDetector_orderly config now0)) as (d' & Hrun' & Ho).
    rewrite Hrun in Hrun'. injection Hrun' as <-.
    destruct Ho as (_ & _ & [Hnd Hiff] & Hlen).
    pose proof (synced_size d (conj Hnd Hiff)) as Hsz.
    destruct Hs as (Hlt & Hall & Hinj & Ho).
    assert (forall i j ki kj,
              hotKeysList d !! i = Some ki -> hotKeysList d !! j = Some kj ->
              (i < j)%nat -> older stamps ki kj) as Hsorted.
    { apply (ordered_sorted (hotKeys d)); try done. intros k Hk. by apply Hiff. }
    split; [exact Hnd |]. split; [exact Hiff |]. split; [exact Hsorted |]. split.
    + intros key Hcold Hroom.
      rewrite promoteToHot_count by done.
      replace (Z.to_nat (Z.of_nat (length (hotKeysList d)) - maxHotKeys d + 1))
        with 0%nat by lia.
      cbn [take drop list_to_set]. do 3 f_equal. set_solver.
    + intros key Hcold Hfull.
      destruct (hotKeysList d) as [| oldest rest] eqn:Hlist; [cbn [length] in Hsz; lia |].
      exists oldest, rest. split; [done |].
      assert (oldest ∈ hotKeys d) as Hold by (apply Hiff; left).
      split; [exact Hold |]. split.
      * intros k Hk Hne. apply Hiff in Hk.
        apply elem_of_cons in Hk as [-> | Hk]; [done |].
        apply list_elem_of_lookup in Hk as [j Hj].
        apply (Hsorted 0%nat (S j) oldest k); [reflexivity | exact Hj | lia].
      * rewrite promoteToHot_count by done. rewrite Hlist.
        replace (Z.to_nat (Z.of_nat (length (oldest :: rest)) - maxHotKeys d + 1))
          with 1%nat by lia.
        cbn [take drop list_to_set]. do 3 f_equal. set_solver.
  - intros now Hdue. unfold maybeDecay.
    replace (now - lastDecayTime d >=? decayInterval d) with true
      by (symmetry; apply Z.geb_le; lia).
    set (d1 := withCms (withLastDecayTime d now)
                       (Decay scale (cms (withLastDecayTime d now)))).
    assert (consistent d1) as Hc1.
    { unfold consistent, d1; simpl. split_and!; try done. by apply Decay_shaped. }
    destruct (cleanupColdKeys_spec Sum64 scale d1 Hc1)
      as (d' & Hclean & _ & _ & _ & _ & Hkeys & _).
    exists d'. split; [done |]. exact Hkeys.
Qed.

End DetectorRecency.

(** ** Hot-key detector: concrete runs *)

(** Capacity 2 and threshold 1. After accesses to "a", "b" and "a" again
    the list is "b", "a": "b" is the least recently used, and the
    promotion of "c" evicts it and nothing else. When a touch of "k" runs
    after "k" was evicted the list grows to three entries, and the
    promotion of "y" evicts two keys to make room. *)
Lemma hot_set_within_capacity_witness :
  let config := Detector.mkDetectorConfig 0 2 1 2 10000000000 in
  let d0 := Detector.NewHotKeyDetector config 0 in
  let ops := [Detector.OpRecordAccess 0 "a"; Detector.OpRecordAccess 1 "b";
              Detector.OpRecordAccess 2 "a"] in
  let overlapping := [Detector.OpRecordAccess 0 "k"; Detector.OpRecordAccess 1 "a";
                      Detector.OpRecordAccess 2 "b"; Detector.OpTouch "k"] in
  (exists d d',
     Detector.run XXH.Sum64 (fun c => c / 2) d0 ops = Some d /\
     Detector.hotKeysList d = ["b"; "a"] /\
     Z.of_nat (size (Detector.hotKeys d)) <= 2 /\
     Detector.older (Detector.lastUsed XXH.Sum64 (fun c => c / 2) 0 ∅ d0 ops) "b" "a" /\
     Detector.promoteToHot d "c" = Some d' /\
     Detector.hotKeysList d' = ["a"; "c"] /\
     "b" ∉ Detector.hotKeys d') /\
  (exists d,
     Detector.run XXH.Sum64 (fun c => c / 2) d0 overlapping = Some d /\
     Detector.hotKeysList d = ["a"; "b"; "k"] /\
     Z.of_nat (size (Detector.hotKeys d)) <= 2 /\
     Detector.hotKeysList <$> Detector.promoteToHot d "y" = Some ["k"; "y"]).
Proof.
  intros config d0 ops overlapping. split.
  - destruct (hot_set_within_capacity XXH.Sum64 (fun c => c / 2) config 0 ops)
      as (d & Hrun & Hsize & Hmax & _ & _ & _ & _ & _ & Hseq & _).
    fold d0 in Hrun, Hseq.
    assert (Detector.hotKeysList <$> Detector.run XXH.Sum64 (fun c => c / 2) d0 ops
            = Some ["b"; "a"]) as Hl by (vm_compute; reflexivity).
    assert (size <$> (Detector.hotKeys <$> Detector.run XXH.Sum64 (fun c => c / 2) d0 ops)
            = Some 2%nat) as Hsz by (vm_compute; reflexivity).
    rewrite Hrun in Hl, Hsz. injection Hl as Hl. injection Hsz as Hsz.
    change (Detector.maxHotKeys d = 2) in Hmax.
    destruct Hseq as (_ & Hiff & Hsorted & _ & Hfull).
    { repeat (apply Forall_cons_2; [reflexivity |]). apply Forall_nil_2. }
    assert ("c" ∉ Detector.hotKeys d) as Hcold.
    { intros Hin. apply Hiff in Hin. rewrite Hl in Hin.
      apply elem_of_cons in Hin as [Hin | Hin]; [discriminate Hin |].
      apply elem_of_cons in Hin as [Hin | Hin]; [discriminate Hin |].
      by apply elem_of_nil in Hin. }
    destruct (Hfull "c" Hcold) as (oldest & rest & Hlist & Hold & _ & Hp).
    { rewrite Hsz, Hmax. reflexivity. }
    rewrite Hl in Hlist. injection Hlist as <- <-.
    eexists d, _. split; [exact Hrun |]. split; [exact Hl |].
    split; [rewrite Hmax in Hsize; exact Hsize |].
    split; [apply (Hsorted 0%nat 1%nat); [by rewrite Hl | by rewrite Hl | lia] |].
    split; [exact Hp |]. split; [reflexivity |].
    cbn [Detector.hotKeys Detector.withHot].
    intros Hin. apply elem_of_union in Hin as [Hin | Hin].
    + apply elem_of_singleton in Hin. discriminate Hin.
    + apply elem_of_difference in Hin as [_ Hin]. apply Hin. by apply elem_of_singleton.
  - destruct (hot_set_within_capacity XXH.Sum64 (fun c => c / 2) config 0 overlapping)
      as (d & Hrun & Hsize & Hmax & _ & _ & Hcount & _).
    fold d0 in Hrun.
    assert (Detector.hotKeysList
              <$> Detector.run XXH.Sum64 (fun c => c / 2) d0 overlapping
            = Some ["a"; "b"; "k"]) as Hl by (vm_compute; reflexivity).
    assert ((fun d => Detector.isHot d "y")
              <$> Detector.run XXH.Sum64 (fun c => c / 2) d0 overlapping
            = Some false) as Hy by (vm_compute; reflexivity).
    rewrite Hrun in Hl, Hy. injection Hl as Hl.
    injection Hy as Hy. apply bool_decide_eq_false in Hy.
    change (Detector.maxHotKeys d = 2) in Hmax.
    exists d. split; [exact Hrun |]. split; [exact Hl |].
    split; [rewrite Hmax in Hsize; exact Hsize |].
    rewrite (Hcount "y" Hy), Hl, Hmax. reflexivity.
Defined.

(** ** Hot-key batcher: every waiter is answered once *)

Section BatcherMore.
Import Batcher.

Context {C : Type} `{Client C}.

Lemma waiterResults_length (finalCount : Z) (ws : list pendingWaiter) :
  length (waiterResults finalCount ws) = length ws.
Proof.
  unfold waiterResults. induction ws as [| w ws IH]; [done |].
  simpl. destruct (reverseWalk ws finalCount) as [rs r]. simpl in *. by rewrite IH.
Qed.

Lemma distribute_chans (toFlush : list (string * aggregatedIncrement))
    (outcome : error + list (string * Z)) :
  (distribute toFlush outcome).*1
  = flat_map (fun '(_, agg) => map resultChan (waiters agg)) toFlush.
Proof.
  unfold distribute.
  generalize (resultCells toFlush) as cells. intros cells.
  induction toFlush as [| [key agg] rest IH]; [done |].
  cbn [flat_map]. rewrite fmap_app, IH. f_equal.
  destruct outcome as [err | writes].
  - change (map ?f ?l) with (f <$> l). rewrite <- list_fmap_compose.
    by apply list_fmap_ext.
  - apply fst_zip. rewrite !length_map, waiterResults_length. done.
Qed.

Lemma flush_chans (b : HotKeyBatcher) (c : C) :
  (flush b c).2.*1 = pendingChans b /\
  pending (flush b c).1.1 = ∅ /\
  nextChan (flush b c).1.1 = nextChan b /\
  flushWindow (flush b c).1.1 = flushWindow b.
Proof.
  unfold flush, pendingChans.
  destruct (bool_decide (size (pending b) = 0%nat)) eqn:E.
  - apply bool_decide_eq_true in E. apply map_size_empty_inv in E.
    rewrite E, map_to_list_empty. done.
  - destruct (PipeDo c (buildPipeline (map_to_list (pending b)))) as [c' outcome].
    cbn [fst snd pending nextChan flushWindow]. split; [| done].
    apply distribute_chans.
Qed.

Lemma Submit_pendingChans (b : HotKeyBatcher) (key : string) (hits ttl : Z) :
  pendingChans (Submit b key hits ttl).1 ≡ₚ pendingChans b ++ [(Submit b key hits ttl).2].
Proof.
  unfold pendingChans, Submit. cbn [fst snd pending].
  set (f := fun '((_, agg) : string * aggregatedIncrement) => map resultChan (waiters agg)).
  destruct (pending b !! key) as [agg |] eqn:Hl.
  - rewrite <- insert_delete_eq.
    etrans; [apply Permutation_flat_map, map_to_list_insert, lookup_delete_eq |].
    etrans; [| apply Permutation_app_tail, Permutation_flat_map,
                 (map_to_list_delete (pending b) key agg Hl)].
    cbn [flat_map f waiters]. rewrite map_app. cbn [map resultChan].
    rewrite <- !app_assoc. apply Permutation_app_head.
    apply Permutation_app_comm.
  - etrans; [apply Permutation_flat_map, map_to_list_insert, Hl |].
    cbn [flat_map f waiters app map resultChan].
    apply Permutation_cons_append.
Qed.

Lemma submitAll_pendingChans (calls : list (string * Z * Z)) :
  forall b : HotKeyBatcher,
  pendingChans (submitAll b calls).1 ≡ₚ pendingChans b ++ (submitAll b calls).2 /\
  (submitAll b calls).2 = seq (nextChan b) (length calls) /\
  nextChan (submitAll b calls).1 = (nextChan b + length calls)%nat /\
  flushWindow (submitAll b calls).1 = flushWindow b /\
  dom (pending (submitAll b calls).1)
  = dom (pending b) ∪ list_to_set (map (fun c => c.1.1) calls).
Proof.
  induction calls as [| [[k hits] ttl] calls IH]; intros b.
  - cbn [submitAll fst snd length seq map list_to_set]. rewrite app_nil_r.
    split_and!; try done; try lia; set_solver.
  - cbn [submitAll].
    pose proof (Submit_pendingChans b k hits ttl) as Hp.
    pose proof (Submit_chan b k hits ttl) as [Hch Hnext].
    assert (dom (pending (Submit b k hits ttl).1) = {[k]} ∪ dom (pending b)) as Hdom
      by (unfold Submit; cbn [fst pending]; apply dom_insert_L).
    assert (flushWindow (Submit b k hits ttl).1 = flushWindow b) as Hfw by done.
    destruct (Submit b k hits ttl) as [b1 ch].
    destruct (IH b1) as (IHp & IHs & IHn & IHf & IHd).
    destruct (submitAll b1 calls) as [b2 chs].
    cbn [fst snd] in *. subst ch.
    split_and!.
    + rewrite IHp, Hp. rewrite <- app_assoc. done.
    + cbn [length seq]. rewrite IHs, Hnext. done.
    + rewrite IHn, Hnext. cbn [length]. lia.
    + congruence.
    + rewrite IHd, Hdom. cbn [map list_to_set fst]. set_solver.
Qed.

Lemma PendingWaiterCount_chans (b : HotKeyBatcher) :
  PendingWaiterCount b = length (pendingChans b).
Proof.
  unfold PendingWaiterCount, pendingChans.
  generalize (map_to_list (pending b)) as l. intros l.
  assert (forall n,
            foldl (fun count '(_, agg) => (count + length (waiters agg))%nat) n l
            = (n + length (flat_map (fun '(_, agg) => map resultChan (waiters agg)) l))%nat)
    as Hgen.
  { induction l as [| [k agg] l IH]; intros n; cbn [foldl flat_map]; [simpl; lia |].
    rewrite IH, length_app, length_map. lia. }
  by rewrite Hgen.
Qed.

(** Every waiter is answered exactly once. After any [Submit] calls on a
    batcher with nothing pending, the next flush, whether its pipeline
    succeeds or fails, sends on the channels handed to the callers, each
    of them once and on no other channel; it leaves nothing pending. *)
Theorem flush_answers_every_waiter_once (b : HotKeyBatcher) (c : C)
    (calls : list (string * Z * Z)) :
  pending b = ∅ ->
  let b1 := (submitAll b calls).1 in
  let chs := (submitAll b calls).2 in
  (flush b1 c).2.*1 ≡ₚ chs /\
  NoDup chs /\
  length (flush b1 c).2 = length calls /\
  PendingCount (flush b1 c).1.1 = 0%nat.
Proof.
  intros Hempty b1 chs.
  destruct (flush_chans b1 c) as (Hch & Hpend & _ & _).
  destruct (submitAll_pendingChans calls b) as (Hperm & Hseq & _).
  fold b1 chs in Hperm, Hseq.
  assert (pendingChans b = []) as Hnil
    by (unfold pendingChans; by rewrite Hempty, map_to_list_empty).
  rewrite Hnil in Hperm. cbn [app] in Hperm.
  split_and!.
  - by rewrite Hch.
  - rewrite Hseq. apply NoDup_seq.
  - transitivity (length ((flush b1 c).2.*1)); [by rewrite length_fmap |].
    rewrite Hch, Hperm, Hseq. apply length_seq.
  - unfold PendingCount. rewrite Hpend. apply map_size_empty.
Qed.

(** The counters of the pending batch. After any [Submit] calls on a
    batcher with nothing pending, [PendingWaiterCount] is the number of
    calls, [PendingCount] is the number of distinct keys among them, and
    the flush window is the one the batcher was built with. *)
Theorem pending_counts_after_submits (b : HotKeyBatcher) (calls : list (string * Z * Z)) :
  pending b = ∅ ->
  let b1 := (submitAll b calls).1 in
  PendingWaiterCount b1 = length calls /\
  PendingCount b1 = size (list_to_set (map (fun c => c.1.1) calls) : gset string) /\
  (PendingCount b1 <= PendingWaiterCount b1)%nat /\
  FlushWindow b1 = FlushWindow b.
Proof.
  intros Hempty b1.
  destruct (submitAll_pendingChans calls b) as (Hperm & Hseq & _ & Hfw & Hdom).
  fold b1 in Hperm, Hseq, Hfw, Hdom.
  assert (pendingChans b = []) as Hnil
    by (unfold pendingChans; by rewrite Hempty, map_to_list_empty).
  rewrite Hnil in Hperm. cbn [app] in Hperm.
  assert (PendingWaiterCount b1 = length calls) as Hw
    by (rewrite PendingWaiterCount_chans, Hperm, Hseq; apply length_seq).
  assert (PendingCount b1 = size (list_to_set (map (fun c => c.1.1) calls) : gset string))
    as Hk.
  { unfold PendingCount. rewrite <- size_dom, Hdom, Hempty, dom_empty_L.
    f_equal. set_solver. }
  split_and!; try done.
  rewrite Hk, Hw.
  rewrite <- (length_map (fun c : string * Z * Z => c.1.1) calls).
  apply size_le_length. intros x Hx. by apply elem_of_list_to_set in Hx.
Qed.

(** A flush with nothing pending is silent: it sends nothing to the
    store and nothing to any waiter; and since a flush always empties the
    pending map, so is a second flush right after any flush. *)
Theorem flush_with_nothing_pending_is_silent (b : HotKeyBatcher) (c : C) :
  (PendingCount b = 0%nat -> flush b c = (b, c, [])) /\
  PendingCount (flush b c).1.1 = 0%nat /\
  PendingWaiterCount (flush b c).1.1 = 0%nat /\
  FlushWindow (flush b c).1.1 = FlushWindow b /\
  flush (flush b c).1.1 (flush b c).1.2 = ((flush b c).1.1, (flush b c).1.2, []).
Proof.
  assert (forall (b0 : HotKeyBatcher) (c0 : C),
            PendingCount b0 = 0%nat -> flush b0 c0 = (b0, c0, [])) as Hsilent.
  { intros b0 c0 Hz. unfold flush. unfold PendingCount in Hz.
    by rewrite bool_decide_eq_true_2. }
  destruct (flush_chans b c) as (_ & Hpend & _ & Hfw).
  assert (PendingCount (flush b c).1.1 = 0%nat) as Hz
    by (unfold PendingCount; rewrite Hpend; apply map_size_empty).
  split_and!; try done.
  - by apply Hsilent.
  - unfold PendingWaiterCount. by rewrite Hpend, map_to_list_empty.
  - by apply Hsilent.
Qed.

End BatcherMore.

(** ** Fixed-window engine: what the pipelines hold *)

Section EngineMore.
Import Detector Batcher Engine.

Context {C : Type} `{Client C}.

Variable UnitToDivider : Z -> Z.
Variable ExpirationJitterMaxSeconds : Z.
Variable Int63n : nat -> Z -> Z.
Variable Sum64 : list Z -> Z.
Variable scale : Z -> Z.

Lemma incrPairs_snoc (entries : list (string * Z * nat * Z)) (k : string) (hits : Z)
    (i : nat) (e : Z) :
  incrPairs (entries ++ [(k, hits, i, e)])
  = incrPairs entries ++ [mkAction (Some i) "INCRBY" k [hits]; mkAction None "EXPIRE" k [e]].
Proof. unfold incrPairs. by rewrite flat_map_app. Qed.

Lemma paired_empty : paired ∅.
Proof. intros slot p Hp. by rewrite lookup_empty in Hp. Qed.

Lemma paired_append (m : gmap Z (Pipeline nat)) (slot : Z) (k : string) (hits : Z)
    (i : nat) (e : Z) :
  paired m ->
  paired (<[slot := default [] (m !! slot) ++
                    [mkAction (Some i) "INCRBY" k [hits]; mkAction None "EXPIRE" k [e]]]> m).
Proof.
  intros Hm slot' p Hp.
  destruct (decide (slot = slot')) as [<- | Hne].
  - rewrite lookup_insert_eq in Hp. injection Hp as <-.
    destruct (m !! slot) as [p0 |] eqn:Hp0; cbn [default].
    + destruct (Hm slot p0 Hp0) as (entries & Hne & ->).
      exists (entries ++ [(k, hits, i, e)]). split; [| by rewrite incrPairs_snoc].
      intros Hnil. by apply app_eq_nil in Hnil as [_ ?].
    + exists [(k, hits, i, e)]. split; [done |]. simpl. done.
  - rewrite lookup_insert_ne in Hp by done. by apply (Hm slot' p).
Qed.

Lemma readsOnly_empty : readsOnly ∅.
Proof. intros slot p Hp. by rewrite lookup_empty in Hp. Qed.

Lemma readsOnly_append (m : gmap Z (Pipeline nat)) (slot : Z) (k : string) (i : nat) :
  readsOnly m ->
  readsOnly (<[slot := pipelineAppendtoGet (default [] (m !! slot)) k i]> m).
Proof.
  intros Hm slot' p Hp.
  destruct (decide (slot = slot')) as [<- | Hne].
  - rewrite lookup_insert_eq in Hp. injection Hp as <-.
    unfold pipelineAppendtoGet, PipeAppend. split.
    + intros Hnil. by apply app_eq_nil in Hnil as [_ ?].
    + intros a Ha. apply elem_of_app in Ha as [Ha | Ha].
      * destruct (m !! slot) as [p0 |] eqn:Hp0; cbn [default] in Ha.
        -- by apply (Hm slot p0 Hp0).
        -- by apply elem_of_nil in Ha.
      * apply list_elem_of_singleton in Ha as ->. cbn. split_and!; try done. by exists i.
  - rewrite lookup_insert_ne in Hp by done. by apply (Hm slot' p).
Qed.

Lemma getLoop_readsOnly (this : fixedRateLimitCacheImpl) (cacheKeys : list CacheKey) :
  forall (i : nat) (maps : GetMaps),
  readsOnly maps.1 -> readsOnly maps.2 ->
  readsOnly (getLoop this i cacheKeys maps).1 /\
  readsOnly (getLoop this i cacheKeys maps).2.
Proof.
  induction cacheKeys as [| ck rest IH]; intros i maps H1 H2; [done |].
  cbn [getLoop]. apply IH.
  - destruct maps as [g psg]. unfold appendGet. cbn [fst snd] in *.
    destruct (isEmptyKey ck); [done |].
    destruct (usesPerSecond this ck); [done |].
    by apply readsOnly_append.
  - destruct maps as [g psg]. unfold appendGet. cbn [fst snd] in *.
    destruct (isEmptyKey ck); [done |].
    destruct (usesPerSecond this ck); [| done].
    by apply readsOnly_append.
Qed.

Lemma incrementLoop_paired (this : fixedRateLimitCacheImpl) (clock : nat -> Z)
    (limits : list (option RateLimit)) (hitsAddends : list Z)
    (overlimitIndexes nearlimitIndexes : list bool) (isOver isNear : bool)
    (cacheKeys : list CacheKey) :
  forall (i : nat) (st st' : IncrState),
  incrementLoop UnitToDivider ExpirationJitterMaxSeconds Int63n Sum64 scale
    this clock limits hitsAddends overlimitIndexes nearlimitIndexes isOver isNear
    i cacheKeys st = Ok st' ->
  paired (pipelines st) -> paired (perSecondPipelines st) ->
  paired (pipelines st') /\ paired (perSecondPipelines st').
Proof.
  induction cacheKeys as [| ck rest IH]; intros i st st' Hloop Hp Hps.
  - simpl in Hloop. by injection Hloop as <-.
  - cbn [incrementLoop] in Hloop.
    destruct (incrementStep _ _ _ _ _ this clock limits hitsAddends overlimitIndexes
                nearlimitIndexes isOver isNear st i ck) as [st1 | |] eqn:Hstep;
      simpl in Hloop; [| done | done].
    destruct (incrementStep_shape _ _ _ _ _ _ _ _ _ _ _ _ _ _ _ _ _ Hstep)
      as [[-> _] | [(_ & _ & Ha & Hb & _) | (_ & _ & _ & hits & e & Hcase)]].
    + by apply (IH (S i) st st' Hloop).
    + apply (IH (S i) st1 st' Hloop); by rewrite ?Ha, ?Hb.
    + cbv zeta in Hcase.
      destruct (usesPerSecond this ck) as [psc |]; destruct Hcase as [Ha Hb];
        apply (IH (S i) st1 st' Hloop); rewrite ?Ha, ?Hb; try done;
        by apply paired_append.
Qed.

(** No increment without its expiry. Every pipeline the increment phase
    of [DoLimit] builds, for either client, is a non-empty run of pairs:
    an INCRBY of a key, received at a descriptor's index, directly
    followed by the EXPIRE of the same key. Every pipeline of the pre-read
    is a non-empty run of GETs. So no map holds an empty pipeline. *)
Theorem DoLimit_increments_come_with_expiry (this : fixedRateLimitCacheImpl)
    (clock : nat -> Z) (cacheKeys : list CacheKey) (limits : list (option RateLimit))
    (hitsAddends : list Z) (overlimitIndexes nearlimitIndexes : list bool)
    (isOver isNear : bool) :
  readsOnly (getLoop this 0 cacheKeys (∅, ∅)).1 /\
  readsOnly (getLoop this 0 cacheKeys (∅, ∅)).2 /\
  forall st,
    incrementLoop UnitToDivider ExpirationJitterMaxSeconds Int63n Sum64 scale
      this clock limits hitsAddends overlimitIndexes nearlimitIndexes isOver isNear
      0 cacheKeys
      (mkIncr (hotKeyDetector this) (hotKeyBatcher this) (perSecondBatcher this) ∅ ∅ ∅)
    = Ok st ->
    paired (pipelines st) /\ paired (perSecondPipelines st).
Proof.
  destruct (getLoop_readsOnly this cacheKeys 0 (∅, ∅) readsOnly_empty readsOnly_empty)
    as [H1 H2].
  split_and!; try done.
  intros st Hloop.
  exact (incrementLoop_paired _ _ _ _ _ _ _ _ _ _ _ _ Hloop paired_empty paired_empty).
Qed.

Lemma receivers_append (m : gmap Z (Pipeline nat)) (slot : Z) (acts : Pipeline nat) :
  receivers (<[slot := default [] (m !! slot) ++ acts]> m) ≡ₚ receivers m ++ omap rcv acts.
Proof.
  unfold receivers.
  set (g := fun sp : Z * Pipeline nat => omap rcv sp.2).
  assert (forall l : list (Z * Pipeline nat), flat_map (omap rcv) (l.*2) = flat_map g l)
    as Hg by (induction l as [| sp l IH]; [done |]; cbn; by rewrite IH).
  rewrite !Hg.
  destruct (m !! slot) as [p0 |] eqn:Hp0; cbn [default from_option id].
  - rewrite <- insert_delete_eq.
    etrans; [apply Permutation_flat_map, map_to_list_insert, lookup_delete_eq |].
    etrans; [| apply Permutation_app_tail, Permutation_flat_map,
                 (map_to_list_delete m slot p0 Hp0)].
    unfold g. cbn [flat_map snd]. rewrite omap_app.
    rewrite <- !app_assoc. apply Permutation_app_head.
    apply Permutation_app_comm.
  - etrans; [apply Permutation_flat_map, map_to_list_insert, Hp0 |].
    unfold g. cbn [flat_map snd app]. apply Permutation_app_comm.
Qed.

Lemma chans_insert (chans : gmap nat (bool * nat)) (i : nat) (v : bool * nat) :
  chans !! i = None ->
  (map_to_list (<[i := v]> chans)).*1 ≡ₚ (map_to_list chans).*1 ++ [i].
Proof.
  intros Hi. rewrite map_to_list_insert by done. cbn [fmap list_fmap fst].
  apply Permutation_cons_append.
Qed.

Lemma incrementLoop_served (this : fixedRateLimitCacheImpl) (clock : nat -> Z)
    (limits : list (option RateLimit)) (hitsAddends : list Z)
    (overlimitIndexes nearlimitIndexes : list bool) (isOver isNear : bool)
    (cacheKeys : list CacheKey) :
  forall (j : nat) (st st' : IncrState),
  incrementLoop UnitToDivider ExpirationJitterMaxSeconds Int63n Sum64 scale
    this clock limits hitsAddends overlimitIndexes nearlimitIndexes isOver isNear
    j cacheKeys st = Ok st' ->
  (forall k, is_Some (hotKeyResultChans st !! k) -> (k < j)%nat) ->
  served st' ≡ₚ served st ++ countedFrom j cacheKeys overlimitIndexes.
Proof.
  induction cacheKeys as [| ck rest IH]; intros j st st' Hloop Hlt.
  - simpl in Hloop. injection Hloop as <-. cbn [countedFrom]. by rewrite app_nil_r.
  - cbn [incrementLoop] in Hloop.
    destruct (incrementStep _ _ _ _ _ this clock limits hitsAddends overlimitIndexes
                nearlimitIndexes isOver isNear st j ck) as [st1 | |] eqn:Hstep;
      simpl in Hloop; [| done | done].
    cbn [countedFrom].
    destruct (incrementStep_shape _ _ _ _ _ _ _ _ _ _ _ _ _ _ _ _ _ Hstep)
      as [[-> Hskip] | [(He & Ho & Ha & Hb & ps & ch & Hc)
                       | (He & Ho & Hc & hits & e & Hcase)]].
    + rewrite (IH (S j) st st' Hloop) by (intros k Hk; specialize (Hlt k Hk); lia).
      destruct Hskip as [-> | ->]; [done |]. cbn [default]. by rewrite orb_true_r.
    + rewrite (IH (S j) st1 st' Hloop).
      * rewrite He, Ho. cbn [default from_option id orb]. unfold served.
        rewrite Ha, Hb, Hc.
        rewrite chans_insert.
        -- rewrite <- !app_assoc. done.
        -- destruct (hotKeyResultChans st !! j) eqn:E; [| done].
           specialize (Hlt j ltac:(done)). lia.
      * intros k Hk. rewrite Hc in Hk.
        destruct (decide (k = j)) as [-> | Hne]; [lia |].
        rewrite lookup_insert_ne in Hk by done. specialize (Hlt k Hk). lia.
    + rewrite (IH (S j) st1 st' Hloop)
        by (intros k Hk; rewrite Hc in Hk; specialize (Hlt k Hk); lia).
      rewrite He, Ho. cbn [default from_option id orb]. unfold served. rewrite Hc.
      cbv zeta in Hcase.
      destruct (usesPerSecond this ck) as [psc |]; destruct Hcase as [-> ->];
        rewrite receivers_append; cbn [omap list_omap rcv]; rewrite <- !app_assoc.
      * apply Permutation_app_head. apply Permutation_app_head.
        cbn [app]. apply Permutation_middle.
      * apply Permutation_app_head. cbn [app].
        rewrite <- !Permutation_middle. done.
Qed.

Lemma elem_of_countedFrom (cacheKeys : list CacheKey) (flags : list bool) :
  forall (j i : nat),
  i ∈ countedFrom j cacheKeys flags <->
  (j <= i)%nat /\
  exists ck, cacheKeys !! (i - j)%nat = Some ck /\ isEmptyKey ck = false /\
             flags !! i <> Some true.
Proof.
  induction cacheKeys as [| ck rest IH]; intros j i.
  - cbn [countedFrom]. split; [intros Hi; by apply elem_of_nil in Hi |].
    intros (_ & ck & Hck & _). done.
  - cbn [countedFrom].
    assert (i ∈ countedFrom (S j) rest flags <->
            (j < i)%nat /\
            exists ck', (ck :: rest) !! (i - j)%nat = Some ck' /\ isEmptyKey ck' = false /\
                        flags !! i <> Some true) as IH'.
    { rewrite IH. split.
      - intros (Hle & ck' & Hck & Hrest). split; [lia |]. exists ck'.
        replace (i - j)%nat with (S (i - S j)) by lia. done.
      - intros (Hlt & ck' & Hck & Hrest). split; [lia |]. exists ck'.
        replace (i - j)%nat with (S (i - S j)) in Hck by lia. done. }
    destruct (isEmptyKey ck || default false (flags !! j)) eqn:E.
    + rewrite IH'. split.
      * intros (Hlt & Hex). split; [lia | done].
      * intros (Hle & ck' & Hck & Hne & Hfl). split; [| by exists ck'].
        destruct (decide (i = j)) as [-> | ?]; [| lia]. exfalso.
        rewrite Nat.sub_diag in Hck. injection Hck as <-.
        rewrite Hne in E. cbn [orb] in E.
        destruct (flags !! j) as [[|] |]; done.
    + apply orb_false_iff in E as [E1 E2].
      rewrite elem_of_cons, IH'. split.
      * intros [-> | (Hlt & Hex)]; [| split; [lia | done]].
        split; [lia |]. exists ck. rewrite Nat.sub_diag. split_and!; try done.
        intros Hf. by rewrite Hf in E2.
      * intros (Hle & Hex).
        destruct (decide (i = j)) as [-> | ?]; [by left | right]. split; [lia | done].
Qed.

Lemma NoDup_countedFrom (cacheKeys : list CacheKey) (flags : list bool) :
  forall j, NoDup (countedFrom j cacheKeys flags).
Proof.
  induction cacheKeys as [| ck rest IH]; intros j; cbn [countedFrom]; [apply NoDup_nil_2 |].
  destruct (isEmptyKey ck || default false (flags !! j)); [apply IH |].
  apply NoDup_cons. split; [| apply IH].
  rewrite elem_of_countedFrom. intros [Hle _]. lia.
Qed.

(** Each counted descriptor once. When the increment phase of [DoLimit]
    completes, the indices its pipelines receive at, together with the
    indices it holds a batcher channel for, are the descriptors that are
    not skipped, each of them exactly once: a descriptor with a key and no
    local over-limit flag is counted through one INCRBY or one [Submit],
    never both and never twice, and a skipped one not at all. *)
Theorem DoLimit_serves_each_counted_descriptor_once (this : fixedRateLimitCacheImpl)
    (clock : nat -> Z) (cacheKeys : list CacheKey) (limits : list (option RateLimit))
    (hitsAddends : list Z) (overlimitIndexes nearlimitIndexes : list bool)
    (isOver isNear : bool) (st : IncrState) :
  incrementLoop UnitToDivider ExpirationJitterMaxSeconds Int63n Sum64 scale
    this clock limits hitsAddends overlimitIndexes nearlimitIndexes isOver isNear
    0 cacheKeys
    (mkIncr (hotKeyDetector this) (hotKeyBatcher this) (perSecondBatcher this) ∅ ∅ ∅)
  = Ok st ->
  served st ≡ₚ countedFrom 0 cacheKeys overlimitIndexes /\
  NoDup (served st) /\
  forall i, i ∈ served st <->
    exists ck, cacheKeys !! i = Some ck /\ Key ck <> "" /\
               overlimitIndexes !! i <> Some true.
Proof.
  intros Hloop.
  pose proof (incrementLoop_served _ _ _ _ _ _ _ _ _ _ _ _ Hloop) as Hperm.
  cbn [hotKeyResultChans] in Hperm.
  specialize (Hperm ltac:(intros k Hk; rewrite lookup_empty in Hk; by destruct Hk)).
  assert (served (mkIncr (hotKeyDetector this) (hotKeyBatcher this)
                         (perSecondBatcher this) ∅ ∅ ∅) = []) as Hnil.
  { unfold served, receivers. cbn [pipelines perSecondPipelines hotKeyResultChans].
    by rewrite !map_to_list_empty. }
  rewrite Hnil in Hperm. cbn [app] in Hperm.
  split_and!; [done | |].
  - rewrite Hperm. apply NoDup_countedFrom.
  - intros i. rewrite Hperm, elem_of_countedFrom, Nat.sub_0_r.
    split.
    + intros (_ & ck & Hck & He & Hf). exists ck. split_and!; try done.
      unfold isEmptyKey in He. by apply bool_decide_eq_false in He.
    + intros (ck & Hck & He & Hf). split; [lia |]. exists ck. split_and!; try done.
      unfold isEmptyKey. by apply bool_decide_eq_false.
Qed.

Lemma incrementLoop_unbatched (this : fixedRateLimitCacheImpl) (clock : nat -> Z)
    (limits : list (option RateLimit)) (hitsAddends : list Z)
    (overlimitIndexes nearlimitIndexes : list bool) (isOver isNear : bool)
    (cacheKeys : list CacheKey) :
  forall (j : nat) (st st' : IncrState),
  incrementLoop UnitToDivider ExpirationJitterMaxSeconds Int63n Sum64 scale
    this clock limits hitsAddends overlimitIndexes nearlimitIndexes isOver isNear
    j cacheKeys st = Ok st' ->
  detector st = None \/ batcher st = None /\ psBatcher st = None ->
  hotKeyResultChans st' = hotKeyResultChans st /\
  detector st' = detector st /\ batcher st' = batcher st /\ psBatcher st' = psBatcher st.
Proof.
  induction cacheKeys as [| ck rest IH]; intros j st st' Hloop Hoff.
  - simpl in Hloop. by injection Hloop as <-.
  - cbn [incrementLoop] in Hloop.
    destruct (incrementStep _ _ _ _ _ this clock limits hitsAddends overlimitIndexes
                nearlimitIndexes isOver isNear st j ck) as [st1 | |] eqn:Hstep;
      cbn [mbind result_bind] in Hloop; [| done | done].
    assert (hotKeyResultChans st1 = hotKeyResultChans st /\
            detector st1 = detector st /\ batcher st1 = batcher st /\
            psBatcher st1 = psBatcher st) as (H1 & H2 & H3 & H4).
    { unfold incrementStep in Hstep.
      destruct (isEmptyKey ck); cbn -[Submit getHitsAddend] in Hstep;
        [by injection Hstep as <- |].
      destruct (overlimitIndexes !! j) as [[|] |]; cbn -[Submit getHitsAddend] in Hstep;
        [by injection Hstep as <- | | done].
      destruct (mjoin (limits !! j)) as [lim |]; cbn -[Submit getHitsAddend] in Hstep;
        [| done].
      destruct (hitsAddends !! j) as [h |]; cbn -[Submit getHitsAddend] in Hstep;
        [| done].
      destruct (nearlimitIndexes !! j) as [near |]; cbn -[Submit getHitsAddend] in Hstep;
        [| done].
      unfold tryHot in Hstep.
      destruct (usesPerSecond this ck) as [psc |];
        destruct Hoff as [Hd | [Hb Hpsb]]; rewrite ?Hd, ?Hb, ?Hpsb in Hstep;
        try (destruct (detector st) as [d0 |]);
        cbn -[Submit getHitsAddend] in Hstep;
        try (destruct (psBatcher st) as [b0 |]); try (destruct (batcher st) as [b1 |]);
        cbn -[Submit getHitsAddend] in Hstep;
        injection Hstep as <-; cbn; by rewrite ?Hd, ?Hb, ?Hpsb. }
    destruct (IH (S j) st1 st' Hloop) as (H1' & H2' & H3' & H4').
    { rewrite H2, H3, H4. exact Hoff. }
    split_and!; congruence.
Qed.

(** Without hot-key detection nothing is batched. With no detector, or
    with no batcher, the increment phase of [DoLimit] submits nothing and
    waits for nothing: it holds no channel, leaves the detector and the
    batchers as they were (the detector is not even asked), and every
    counted descriptor is served by an INCRBY of a slot pipeline. *)
Theorem DoLimit_without_detector_batches_nothing (this : fixedRateLimitCacheImpl)
    (clock : nat -> Z) (cacheKeys : list CacheKey) (limits : list (option RateLimit))
    (hitsAddends : list Z) (overlimitIndexes nearlimitIndexes : list bool)
    (isOver isNear : bool) (st : IncrState) :
  hotKeyDetector this = None \/
  hotKeyBatcher this = None /\ perSecondBatcher this = None ->
  incrementLoop UnitToDivider ExpirationJitterMaxSeconds Int63n Sum64 scale
    this clock limits hitsAddends overlimitIndexes nearlimitIndexes isOver isNear
    0 cacheKeys
    (mkIncr (hotKeyDetector this) (hotKeyBatcher this) (perSecondBatcher this) ∅ ∅ ∅)
  = Ok st ->
  hotKeyResultChans st = ∅ /\
  detector st = hotKeyDetector this /\
  batcher st = hotKeyBatcher this /\
  psBatcher st = perSecondBatcher this /\
  receivers (pipelines st) ++ receivers (perSecondPipelines st)
    ≡ₚ countedFrom 0 cacheKeys overlimitIndexes.
Proof.
  intros Hoff Hloop.
  destruct (incrementLoop_unbatched _ _ _ _ _ _ _ _ _ _ _ _ Hloop Hoff)
    as (Hch & Hd & Hb & Hpsb).
  cbn [hotKeyResultChans detector batcher psBatcher] in Hch, Hd, Hb, Hpsb.
  split_and!; try done.
  pose proof (incrementLoop_served _ _ _ _ _ _ _ _ _ _ _ _ Hloop) as Hperm.
  cbn [hotKeyResultChans] in Hperm.
  specialize (Hperm ltac:(intros k Hk; rewrite lookup_empty in Hk; by destruct Hk)).
  unfold served in Hperm at 1. rewrite Hch, map_to_list_empty in Hperm.
  cbn [fmap list_fmap] in Hperm. rewrite app_nil_r in Hperm.
  rewrite Hperm. unfold served, receivers.
  cbn [pipelines perSecondPipelines hotKeyResultChans].
  by rewrite !map_to_list_empty.
Qed.

Lemma byPolicy_empty (this : @fixedRateLimitCacheImpl C) (cacheKeys : list CacheKey)
    (hitsAddends : list Z) (nearlimitIndexes : list bool) (isOver isNear : bool) :
  byPolicy this cacheKeys hitsAddends nearlimitIndexes isOver isNear ∅.
Proof. intros slot p a Hp. by rewrite lookup_empty in Hp. Qed.

Lemma byPolicy_append (this : @fixedRateLimitCacheImpl C) (cacheKeys : list CacheKey)
    (hitsAddends : list Z) (nearlimitIndexes : list bool) (isOver isNear : bool)
    (m : gmap Z (Pipeline nat)) (slot : Z) (i : nat) (ck : CacheKey) (h e : Z)
    (near : bool) :
  byPolicy this cacheKeys hitsAddends nearlimitIndexes isOver isNear m ->
  cacheKeys !! i = Some ck -> hitsAddends !! i = Some h ->
  nearlimitIndexes !! i = Some near ->
  byPolicy this cacheKeys hitsAddends nearlimitIndexes isOver isNear
    (<[slot := pipelineAppend (default [] (m !! slot)) (Key ck)
                 (getHitsAddend this h isOver isNear near) i e]> m).
Proof.
  intros Hm Hck Hh Hn slot' p a Hp Ha Hcmd.
  destruct (decide (slot = slot')) as [<- | Hne].
  - rewrite lookup_insert_eq in Hp. injection Hp as <-.
    rewrite pipelineAppend_app in Ha.
    apply elem_of_app in Ha as [Ha | Ha].
    + destruct (m !! slot) as [p0 |] eqn:Hp0; cbn [default from_option id] in Ha.
      * by apply (Hm slot p0).
      * by apply elem_of_nil in Ha.
    + apply elem_of_cons in Ha as [-> | Ha].
      * exists i, ck, h, near. by split_and!.
      * apply list_elem_of_singleton in Ha as ->. done.
  - rewrite lookup_insert_ne in Hp by done. by apply (Hm slot' p).
Qed.

Lemma incrementLoop_byPolicy (this : fixedRateLimitCacheImpl) (clock : nat -> Z)
    (limits : list (option RateLimit)) (hitsAddends : list Z)
    (overlimitIndexes nearlimitIndexes : list bool) (isOver isNear : bool)
    (allKeys cacheKeys : list CacheKey) :
  forall (j : nat) (st st' : IncrState),
  incrementLoop UnitToDivider ExpirationJitterMaxSeconds Int63n Sum64 scale
    this clock limits hitsAddends overlimitIndexes nearlimitIndexes isOver isNear
    j cacheKeys st = Ok st' ->
  (forall k ck, cacheKeys !! k = Some ck -> allKeys !! (j + k)%nat = Some ck) ->
  byPolicy this allKeys hitsAddends nearlimitIndexes isOver isNear (pipelines st) ->
  byPolicy this allKeys hitsAddends nearlimitIndexes isOver isNear (perSecondPipelines st) ->
  byPolicy this allKeys hitsAddends nearlimitIndexes isOver isNear (pipelines st') /\
  byPolicy this allKeys hitsAddends nearlimitIndexes isOver isNear (perSecondPipelines st').
Proof.
  induction cacheKeys as [| ck rest IH]; intros j st st' Hloop Hall Hp Hps.
  - simpl in Hloop. by injection Hloop as <-.
  - cbn [incrementLoop] in Hloop.
    destruct (incrementStep _ _ _ _ _ this clock limits hitsAddends overlimitIndexes
                nearlimitIndexes isOver isNear st j ck) as [st1 | |] eqn:Hstep;
      cbn [mbind result_bind] in Hloop; [| done | done].
    assert (allKeys !! j = Some ck) as Hck
      by (rewrite <- (Nat.add_0_r j); by apply Hall).
    assert (forall k ck', rest !! k = Some ck' -> allKeys !! (S j + k)%nat = Some ck')
      as Hall'.
    { intros k ck' Hk. replace (S j + k)%nat with (j + S k)%nat by lia. by apply Hall. }
    apply (IH (S j) st1 st' Hloop Hall').
    + unfold incrementStep in Hstep.
      destruct (isEmptyKey ck); cbn -[Submit getHitsAddend] in Hstep;
        [by injection Hstep as <- |].
      destruct (overlimitIndexes !! j) as [[|] |]; cbn -[Submit getHitsAddend] in Hstep;
        [by injection Hstep as <- | | done].
      destruct (mjoin (limits !! j)) as [lim |]; cbn -[Submit getHitsAddend] in Hstep;
        [| done].
      destruct (hitsAddends !! j) as [h |] eqn:Hh; cbn -[Submit getHitsAddend] in Hstep;
        [| done].
      destruct (nearlimitIndexes !! j) as [near |] eqn:Hn;
        cbn -[Submit getHitsAddend] in Hstep; [| done].
      destruct (usesPerSecond this ck) as [psc |].
      * destruct (tryHot Sum64 scale (detector st) (psBatcher st) (clock j) (Key ck))
          as [[det hot] | |]; cbn -[Submit getHitsAddend] in Hstep; [| done | done].
        destruct hot, (psBatcher st) as [b |];
          try (destruct (Submit b _ _ _) as [b' ch]); by injection Hstep as <-.
      * destruct (tryHot Sum64 scale (detector st) (batcher st) (clock j) (Key ck))
          as [[det hot] | |]; cbn -[Submit getHitsAddend] in Hstep; [| done | done].
        destruct hot, (batcher st) as [b |];
          try (destruct (Submit b _ _ _) as [b' ch]); injection Hstep as <-;
          cbn [pipelines]; try done; by apply byPolicy_append.
    + unfold incrementStep in Hstep.
      destruct (isEmptyKey ck); cbn -[Submit getHitsAddend] in Hstep;
        [by injection Hstep as <- |].
      destruct (overlimitIndexes !! j) as [[|] |]; cbn -[Submit getHitsAddend] in Hstep;
        [by injection Hstep as <- | | done].
      destruct (mjoin (limits !! j)) as [lim |]; cbn -[Submit getHitsAddend] in Hstep;
        [| done].
      destruct (hitsAddends !! j) as [h |] eqn:Hh; cbn -[Submit getHitsAddend] in Hstep;
        [| done].
      destruct (nearlimitIndexes !! j) as [near |] eqn:Hn;
        cbn -[Submit getHitsAddend] in Hstep; [| done].
      destruct (usesPerSecond this ck) as [psc |].
      * destruct (tryHot Sum64 scale (detector st) (psBatcher st) (clock j) (Key ck))
          as [[det hot] | |]; cbn -[Submit getHitsAddend] in Hstep; [| done | done].
        destruct hot, (psBatcher st) as [b |];
          try (destruct (Submit b _ _ _) as [b' ch]); injection Hstep as <-;
          cbn [perSecondPipelines]; try done; by apply byPolicy_append.
      * destruct (tryHot Sum64 scale (detector st) (batcher st) (clock j) (Key ck))
          as [[det hot] | |]; cbn -[Submit getHitsAddend] in Hstep; [| done | done].
        destruct hot, (batcher st) as [b |];
          try (destruct (Submit b _ _ _) as [b' ch]); by injection Hstep as <-.
Qed.

(** What is added. Every INCRBY the increment phase of [DoLimit] puts in
    a pipeline, for either client, belongs to a descriptor of the request:
    it is received at the descriptor's index, names its cache key, and
    adds the addend the stop-increment policy gives for it. So without the
    policy it adds the descriptor's hits addend, and with the policy, once
    the local cache has flagged a key of the request, it adds 0: the
    counter is not moved, but its INCRBY and EXPIRE are still sent. *)
Theorem DoLimit_increments_by_policy_addend (this : fixedRateLimitCacheImpl)
    (clock : nat -> Z) (cacheKeys : list CacheKey) (limits : list (option RateLimit))
    (hitsAddends : list Z) (overlimitIndexes nearlimitIndexes : list bool)
    (isOver isNear : bool) (st : IncrState) :
  incrementLoop UnitToDivider ExpirationJitterMaxSeconds Int63n Sum64 scale
    this clock limits hitsAddends overlimitIndexes nearlimitIndexes isOver isNear
    0 cacheKeys
    (mkIncr (hotKeyDetector this) (hotKeyBatcher this) (perSecondBatcher this) ∅ ∅ ∅)
  = Ok st ->
  byPolicy this cacheKeys hitsAddends nearlimitIndexes isOver isNear (pipelines st) /\
  byPolicy this cacheKeys hitsAddends nearlimitIndexes isOver isNear
    (perSecondPipelines st) /\
  forall m slot p a,
    m = pipelines st \/ m = perSecondPipelines st ->
    m !! slot = Some p -> a ∈ p -> cmd a = "INCRBY" ->
    exists i h,
      rcv a = Some i /\ hitsAddends !! i = Some h /\
      (stopCacheKeyIncrementWhenOverlimit this = false -> args a = [h]) /\
      (stopCacheKeyIncrementWhenOverlimit this = true -> isOver = true -> args a = [0]).
Proof.
  intros Hloop.
  destruct (incrementLoop_byPolicy this clock limits hitsAddends overlimitIndexes
              nearlimitIndexes isOver isNear cacheKeys cacheKeys 0 _ st Hloop
              ltac:(done)
              (byPolicy_empty _ _ _ _ _ _) (byPolicy_empty _ _ _ _ _ _)) as [Hp Hps].
  split_and!; try done.
  intros m slot p a Hm Hslot Ha Hcmd.
  assert (byPolicy this cacheKeys hitsAddends nearlimitIndexes isOver isNear m) as Hby
    by (destruct Hm as [-> | ->]; done).
  destruct (Hby slot p a Hslot Ha Hcmd) as (i & ck & h & near & Hr & _ & _ & Hh & _ & Hargs).
  exists i, h. split_and!; try done.
  - intros Hstop. rewrite Hargs. unfold getHitsAddend. by rewrite Hstop.
  - intros Hstop ->. rewrite Hargs. unfold getHitsAddend. by rewrite Hstop.
Qed.

Variable IsOverLimitWithLocalCache : string -> bool.
Variable IsOverLimitThresholdReached : LimitInfo -> bool.
Variable Status : Type.
Variable GetResponseDescriptorStatus : string -> LimitInfo -> bool -> Z -> Status.

Lemma applyWrites_length (writes : list (nat * Z)) :
  forall arr : list Z, length (applyWrites arr writes) = length arr.
Proof.
  unfold applyWrites. induction writes as [| [x v] writes IH]; intros arr; [done |].
  simpl. rewrite IH. apply length_insert.
Qed.

Lemma doEach_ok (ps : list (Pipeline nat)) :
  forall (c : C) (arr : list Z),
  match (doEach c ps arr).2 with
  | Ok arr' => length arr' = length arr
  | RedisError _ => True
  | Panic => False
  end.
Proof.
  induction ps as [| p ps IH]; intros c arr; cbn [doEach]; [done |].
  destruct (bool_decide (length p = 0%nat)); [apply IH |].
  destruct (PipeDo c p) as [c' [err | writes]]; [done |].
  specialize (IH c' (applyWrites arr writes)).
  destruct (doEach c' ps (applyWrites arr writes)) as [c2 [arr' | e |]]; cbn [snd] in *;
    try done.
  by rewrite applyWrites_length in IH.
Qed.

Lemma nearLimitLoop_ok (cacheKeys : list CacheKey) (limits : list (option RateLimit))
    (hitsAddends currentCount : list Z) :
  forall i : nat,
  (i + length cacheKeys <= length currentCount)%nat ->
  (i + length cacheKeys <= length hitsAddends)%nat ->
  (i + length cacheKeys <= length limits)%nat ->
  exists flags,
    nearLimitLoop IsOverLimitThresholdReached i cacheKeys limits hitsAddends currentCount
    = Ok flags /\
    length flags = length cacheKeys.
Proof.
  induction cacheKeys as [| ck rest IH]; intros i Hc Hh Hl; [by exists [] |].
  cbn [length] in Hc, Hh, Hl.
  destruct (IH (S i) ltac:(lia) ltac:(lia) ltac:(lia)) as (flags & Hrun & Hlen).
  cbn [nearLimitLoop]. destruct (isEmptyKey ck).
  - rewrite Hrun. eexists. split; [reflexivity |]. simpl. by rewrite Hlen.
  - destruct (lookup_lt_is_Some_2 currentCount i ltac:(lia)) as [v ->].
    destruct (lookup_lt_is_Some_2 hitsAddends i ltac:(lia)) as [h ->].
    destruct (lookup_lt_is_Some_2 limits i ltac:(lia)) as [lim ->].
    cbn. rewrite Hrun. eexists. split; [reflexivity |]. simpl. by rewrite Hlen.
Qed.

Lemma preRead_ok (this : fixedRateLimitCacheImpl) (cacheKeys : list CacheKey)
    (limits : list (option RateLimit)) (hitsAddends : list Z) (isOver : bool) :
  length hitsAddends = length cacheKeys ->
  length limits = length cacheKeys ->
  let r := preRead IsOverLimitThresholdReached this cacheKeys limits hitsAddends isOver in
  hotKeyDetector r.1 = hotKeyDetector this /\
  hotKeyBatcher r.1 = hotKeyBatcher this /\
  perSecondBatcher r.1 = perSecondBatcher this /\
  stopCacheKeyIncrementWhenOverlimit r.1 = stopCacheKeyIncrementWhenOverlimit this /\
  (is_Some (perSecondClient r.1) <-> is_Some (perSecondClient this)) /\
  match r.2 with
  | Ok near => length near = length cacheKeys
  | RedisError _ => True
  | Panic => False
  end.
Proof.
  intros Hh Hl. unfold preRead.
  destruct (stopCacheKeyIncrementWhenOverlimit this && negb isOver).
  - destruct (getLoop this 0 cacheKeys (∅, ∅)) as [g psg].
    pose proof (doEach_ok (pipelinesOf g) (client this)
                  (replicate (length cacheKeys) 0)) as H1.
    destruct (doEach (client this) (pipelinesOf g) (replicate (length cacheKeys) 0))
      as [c [current | e |]]; cbn [snd] in H1; cbn [perSecondClient]; [| done | done].
    rewrite length_replicate in H1.
    destruct (perSecondClient this) as [psc |] eqn:Hpsc.
    + pose proof (doEach_ok (pipelinesOf psg) psc current) as H2.
      destruct (doEach psc (pipelinesOf psg) current) as [psc' [current' | e |]];
        cbn [snd fst] in *; try done.
      split_and!; try done. cbn.
      destruct (nearLimitLoop_ok cacheKeys limits hitsAddends current' 0
                  ltac:(lia) ltac:(lia) ltac:(lia)) as (flags & -> & Hlen).
      done.
    + cbn [fst snd]. split_and!; try done.
      destruct (nearLimitLoop_ok cacheKeys limits hitsAddends current 0
                  ltac:(lia) ltac:(lia) ltac:(lia)) as (flags & -> & Hlen).
      done.
  - cbn [fst snd]. split_and!; try done. apply length_replicate.
Qed.

Lemma tryHot_ok (det : option HotKeyDetector) (bat : option HotKeyBatcher) (now : Z)
    (key : string) :
  (forall d, det = Some d -> consistent d) ->
  exists det' hot,
    tryHot Sum64 scale det bat now key = Ok (det', hot) /\
    (forall d, det' = Some d -> consistent d) /\
    (hot = true -> is_Some bat).
Proof.
  intros Hc. unfold tryHot.
  destruct det as [d |]; [| by exists None, false].
  destruct bat as [b |]; [| by exists (Some d), false].
  destruct (RecordAccessWithDelta_consistent Sum64 scale d now key 1 (Hc d eq_refl))
    as (d' & hot & Hrun & Hc' & _).
  unfold RecordAccess. rewrite Hrun. cbn.
  exists (Some d'), hot. split_and!; try done.
  intros d0 [= <-]. done.
Qed.

Lemma Submit_keeps_chans (b : HotKeyBatcher) (key : string) (hits ttl : Z) (ch : nat) :
  ch ∈ pendingChans b \/ ch = (Submit b key hits ttl).2 ->
  ch ∈ pendingChans (Submit b key hits ttl).1.
Proof.
  intros Hch. rewrite (Submit_pendingChans b key hits ttl).
  apply elem_of_app. destruct Hch as [? | ->]; [by left | right; left].
Qed.

Lemma incrementStep_ok (this : fixedRateLimitCacheImpl) (clock : nat -> Z)
    (limits : list (option RateLimit)) (hitsAddends : list Z)
    (overlimitIndexes nearlimitIndexes : list bool) (isOver isNear : bool)
    (st : IncrState) (i : nat) (ck : CacheKey) :
  answerable (bool_decide (is_Some (perSecondClient this))) st ->
  (isEmptyKey ck = false -> exists lim, limits !! i = Some (Some lim)) ->
  is_Some (overlimitIndexes !! i) ->
  is_Some (hitsAddends !! i) ->
  is_Some (nearlimitIndexes !! i) ->
  exists st',
    incrementStep UnitToDivider ExpirationJitterMaxSeconds Int63n Sum64 scale
      this clock limits hitsAddends overlimitIndexes nearlimitIndexes isOver isNear
      st i ck = Ok st' /\
    answerable (bool_decide (is_Some (perSecondClient this))) st'.
Proof.
  intros [Hdet Hch] Hlim [over Hover] [hits Hhits] [near Hnear].
  unfold incrementStep.
  destruct (isEmptyKey ck) eqn:Hempty; cbn -[Submit getHitsAddend]; [by exists st |].
  rewrite Hover. cbn -[Submit getHitsAddend]. destruct over; [by exists st |].
  destruct (Hlim eq_refl) as [lim Hl]. rewrite Hl, Hhits, Hnear. cbn -[Submit getHitsAddend].
  destruct (usesPerSecond this ck) as [psc |] eqn:Huse.
  - apply usesPerSecond_Some in Huse.
    destruct (tryHot_ok (detector st) (psBatcher st) (clock i) (Key ck) Hdet)
      as (det' & hot & -> & Hdet' & Hbat).
    cbn -[Submit getHitsAddend]. destruct hot.
    + destruct (Hbat eq_refl) as [b Hb]. rewrite Hb.
      match goal with |- context [Submit b ?k ?h ?e] =>
        pose proof (Submit_keeps_chans b k h e) as Hkeep;
        destruct (Submit b k h e) as [b' ch] end.
      cbn [fst snd] in Hkeep.
      eexists. split; [reflexivity |]. split; [done |].
      cbn [hotKeyResultChans psBatcher batcher]. intros j ps ch' Hj.
      destruct (decide (j = i)) as [-> | Hne].
      * rewrite lookup_insert_eq in Hj. injection Hj as <- <-.
        split; [apply bool_decide_eq_true; by rewrite Huse |].
        exists b'. split; [done |]. apply Hkeep. by right.
      * rewrite lookup_insert_ne in Hj by done.
        specialize (Hch j ps ch' Hj). destruct ps; [| done].
        destruct Hch as (Hps & b0 & Hb0 & Hin). split; [done |].
        rewrite Hb in Hb0. injection Hb0 as <-.
        exists b'. split; [done |]. apply Hkeep. by left.
    + eexists. split; [reflexivity |]. split; [done |]. exact Hch.
  - destruct (tryHot_ok (detector st) (batcher st) (clock i) (Key ck) Hdet)
      as (det' & hot & -> & Hdet' & Hbat).
    cbn -[Submit getHitsAddend]. destruct hot.
    + destruct (Hbat eq_refl) as [b Hb]. rewrite Hb.
      match goal with |- context [Submit b ?k ?h ?e] =>
        pose proof (Submit_keeps_chans b k h e) as Hkeep;
        destruct (Submit b k h e) as [b' ch] end.
      cbn [fst snd] in Hkeep.
      eexists. split; [reflexivity |]. split; [done |].
      cbn [hotKeyResultChans psBatcher batcher]. intros j ps ch' Hj.
      destruct (decide (j = i)) as [-> | Hne].
      * rewrite lookup_insert_eq in Hj. injection Hj as <- <-.
        exists b'. split; [done |]. apply Hkeep. by right.
      * rewrite lookup_insert_ne in Hj by done.
        specialize (Hch j ps ch' Hj). destruct ps; [done |].
        destruct Hch as (b0 & Hb0 & Hin).
        rewrite Hb in Hb0. injection Hb0 as <-.
        exists b'. split; [done |]. apply Hkeep. by left.
    + eexists. split; [reflexivity |]. split; [done |]. exact Hch.
Qed.

Lemma incrementLoop_ok (this : fixedRateLimitCacheImpl) (clock : nat -> Z)
    (limits : list (option RateLimit)) (hitsAddends : list Z)
    (overlimitIndexes nearlimitIndexes : list bool) (isOver isNear : bool)
    (cacheKeys : list CacheKey) :
  forall (i : nat) (st : IncrState),
  answerable (bool_decide (is_Some (perSecondClient this))) st ->
  (forall k ck, cacheKeys !! k = Some ck -> isEmptyKey ck = false ->
     exists lim, limits !! (i + k)%nat = Some (Some lim)) ->
  (i + length cacheKeys <= length overlimitIndexes)%nat ->
  (i + length cacheKeys <= length hitsAddends)%nat ->
  (i + length cacheKeys <= length nearlimitIndexes)%nat ->
  exists st',
    incrementLoop UnitToDivider ExpirationJitterMaxSeconds Int63n Sum64 scale
      this clock limits hitsAddends overlimitIndexes nearlimitIndexes isOver isNear
      i cacheKeys st = Ok st' /\
    answerable (bool_decide (is_Some (perSecondClient this))) st'.
Proof.
  induction cacheKeys as [| ck rest IH]; intros i st Hans Hlim Ho Hh Hn;
    [by exists st |].
  cbn [length] in Ho, Hh, Hn. cbn [incrementLoop].
  destruct (incrementStep_ok this clock limits hitsAddends overlimitIndexes
              nearlimitIndexes isOver isNear st i ck Hans) as (st1 & -> & Hans1).
  - intros He. destruct (Hlim 0%nat ck eq_refl He) as [lim Hl].
    exists lim. by rewrite Nat.add_0_r in Hl.
  - apply lookup_lt_is_Some_2. lia.
  - apply lookup_lt_is_Some_2. lia.
  - apply lookup_lt_is_Some_2. lia.
  - cbn [mbind result_bind].
    apply (IH (S i) st1 Hans1); try lia.
    intros k ck' Hk He. destruct (Hlim (S k) ck' Hk He) as [lim Hl].
    exists lim. by replace (S i + k)%nat with (i + S k)%nat by lia.
Qed.

Lemma doAll_length (ps : list (Pipeline nat)) :
  forall (c : C) (arr : list Z) (pipelineErr : option error),
  length (doAll c ps arr pipelineErr).1.2 = length arr.
Proof.
  induction ps as [| p ps IH]; intros c arr pipelineErr; cbn [doAll]; [done |].
  destruct (bool_decide (length p = 0%nat)); [apply IH |].
  destruct (PipeDo c p) as [c' [err | writes]]; [apply IH |].
  rewrite IH. apply applyWrites_length.
Qed.

Lemma receive_Some (ds : list Delivery) (ch : nat) :
  ch ∈ ds.*1 -> is_Some (receive ds ch).
Proof.
  induction ds as [| [ch' r] ds IH]; intros Hin; [by apply elem_of_nil in Hin |].
  cbn [receive]. destruct (bool_decide (ch' = ch)) eqn:E; [done |].
  apply bool_decide_eq_false in E.
  cbn in Hin. apply elem_of_cons in Hin as [-> | Hin]; [done | by apply IH].
Qed.

Lemma awaitLoop_ok (ds psDs : list Delivery) (chans : list (nat * (bool * nat))) :
  forall results : list Z,
  (forall i ps ch, (i, (ps, ch)) ∈ chans -> ch ∈ (if (ps : bool) then psDs else ds).*1) ->
  match awaitLoop chans ds psDs results with
  | Ok results' => length results' = length results
  | RedisError _ => True
  | Panic => False
  end.
Proof.
  induction chans as [| [i [ps ch]] chans IH]; intros results Hin; [done |].
  cbn [awaitLoop].
  destruct (receive_Some (if ps then psDs else ds) ch (Hin i ps ch ltac:(left)))
    as [r ->].
  cbn [fromOption mbind result_bind]. destruct (Err r); [done |].
  specialize (IH (<[i := Value r]> results)
                 ltac:(intros i' ps' ch' Hc; apply (Hin i'); by right)).
  destruct (awaitLoop chans ds psDs (<[i := Value r]> results)); try done.
  by rewrite length_insert in IH.
Qed.

Lemma verdictLoop_ok (cacheKeys : list CacheKey) (limits : list (option RateLimit))
    (hitsAddends results : list Z) (flags : list bool) :
  forall i : nat,
  (i + length cacheKeys <= length results)%nat ->
  (i + length cacheKeys <= length hitsAddends)%nat ->
  (i + length cacheKeys <= length limits)%nat ->
  (i + length cacheKeys <= length flags)%nat ->
  exists args,
    verdictLoop i cacheKeys limits hitsAddends results flags = Ok args /\
    length args = length cacheKeys.
Proof.
  induction cacheKeys as [| ck rest IH]; intros i Hr Hh Hl Hf; [by exists [] |].
  cbn [length] in Hr, Hh, Hl, Hf.
  destruct (IH (S i) ltac:(lia) ltac:(lia) ltac:(lia) ltac:(lia)) as (args & Hrun & Hlen).
  cbn [verdictLoop].
  destruct (lookup_lt_is_Some_2 results i ltac:(lia)) as [v ->].
  destruct (lookup_lt_is_Some_2 hitsAddends i ltac:(lia)) as [h ->].
  destruct (lookup_lt_is_Some_2 limits i ltac:(lia)) as [lim ->].
  destruct (lookup_lt_is_Some_2 flags i ltac:(lia)) as [over ->].
  cbn. rewrite Hrun. eexists. split; [reflexivity |]. simpl. by rewrite Hlen.
Qed.

Lemma flushTick_chans (this : fixedRateLimitCacheImpl) :
  hotKeyDetector (flushTick this).1.1 = hotKeyDetector this /\
  (forall b, hotKeyBatcher this = Some b -> (flushTick this).1.2.*1 = pendingChans b) /\
  (forall psb, perSecondBatcher this = Some psb -> is_Some (perSecondClient this) ->
     (flushTick this).2.*1 = pendingChans psb).
Proof.
  unfold flushTick.
  destruct (hotKeyBatcher this) as [b |].
  - pose proof (flush_chans b (client this)) as (Hb & _).
    destruct (flush b (client this)) as [[b' c'] ds]. cbn [fst snd] in Hb.
    destruct (perSecondBatcher this) as [psb |].
    + destruct (perSecondClient this) as [psc |].
      * pose proof (flush_chans psb psc) as (Hpsb & _).
        destruct (flush psb psc) as [[psb' psc'] psDs]. cbn [fst snd] in *.
        split_and!; [done | by intros ? [= <-] | by intros ? [= <-] _].
      * cbn [fst snd]. split_and!; [done | by intros ? [= <-] |].
        intros ? _ [? ?]. done.
    + cbn [fst snd]. split_and!; [done | by intros ? [= <-] | done].
  - destruct (perSecondBatcher this) as [psb |].
    + destruct (perSecondClient this) as [psc |].
      * pose proof (flush_chans psb psc) as (Hpsb & _).
        destruct (flush psb psc) as [[psb' psc'] psDs]. cbn [fst snd] in *.
        split_and!; [done | done | by intros ? [= <-] _].
      * cbn [fst snd]. split_and!; [done | done |].
        intros ? _ [? ?]. done.
    + cbn [fst snd]. split_and!; done.
Qed.

Lemma doLimitArgs_ok (this : fixedRateLimitCacheImpl) (clock : nat -> Z)
    (cacheKeys : list CacheKey) (limits : list (option RateLimit))
    (hitsAddends : list Z) :
  length hitsAddends = length cacheKeys ->
  length limits = length cacheKeys ->
  (forall i ck, cacheKeys !! i = Some ck -> Key ck <> "" ->
     exists lim, limits !! i = Some (Some lim)) ->
  (forall d, hotKeyDetector this = Some d -> consistent d) ->
  let r := doLimitArgs IsOverLimitWithLocalCache IsOverLimitThresholdReached
             UnitToDivider ExpirationJitterMaxSeconds Int63n Sum64 scale
             this clock cacheKeys limits hitsAddends in
  (forall d, hotKeyDetector r.1 = Some d -> consistent d) /\
  match r.2 with
  | Ok args => length args = length cacheKeys
  | RedisError _ => True
  | Panic => False
  end.
Proof.
  intros Hh Hl Hlim Hdet. unfold doLimitArgs.
  set (flags := overLimitFlags IsOverLimitWithLocalCache cacheKeys).
  assert (length flags = length cacheKeys) as Hf by (unfold flags, overLimitFlags; apply length_map).
  pose proof (preRead_ok this cacheKeys limits hitsAddends (anyTrue flags) Hh Hl)
    as (Hd1 & Hb1 & Hpsb1 & _ & Hpsc1 & Hnear).
  destruct (preRead IsOverLimitThresholdReached this cacheKeys limits hitsAddends
              (anyTrue flags)) as [this1 [near | e |]]; cbn [fst snd] in *;
    [| by rewrite Hd1 | done].
  set (st0 := mkIncr (hotKeyDetector this1) (hotKeyBatcher this1)
                     (perSecondBatcher this1) ∅ ∅ ∅).
  assert (answerable (bool_decide (is_Some (perSecondClient this1))) st0) as Hans0.
  { split; [cbn [detector st0]; by rewrite Hd1 |].
    intros i ps ch Hi. cbn in Hi. by rewrite lookup_empty in Hi. }
  destruct (incrementLoop_ok this1 clock limits hitsAddends flags near
              (anyTrue flags) (anyTrue near) cacheKeys 0 st0 Hans0)
    as (st & -> & [Hdet' Hch]); try lia.
  { intros k ck Hk He. apply (Hlim k ck Hk).
    unfold isEmptyKey in He. by apply bool_decide_eq_false in He. }
  pose proof (doAll_length (pipelinesOf (pipelines st)) (client this1)
                (replicate (length cacheKeys) 0) None) as Hlen1.
  destruct (doAll (client this1) (pipelinesOf (pipelines st))
              (replicate (length cacheKeys) 0) None) as [[c results1] err1].
  cbn [fst snd] in Hlen1. rewrite length_replicate in Hlen1.
  assert (exists psc results err,
            (match perSecondClient this1 with
             | Some psc =>
                 let '(psc, results, pipelineErr) :=
                   doAll psc (pipelinesOf (perSecondPipelines st)) results1 err1 in
                 (Some psc, results, pipelineErr)
             | None => (None, results1, err1)
             end) = (psc, results, err) /\
            length results = length cacheKeys /\
            (is_Some psc <-> is_Some (perSecondClient this1)))
    as (psc & results & err & -> & Hlen2 & Hpsc2).
  { destruct (perSecondClient this1) as [psc |].
    - pose proof (doAll_length (pipelinesOf (perSecondPipelines st)) psc results1 err1)
        as Hlen2.
      destruct (doAll psc (pipelinesOf (perSecondPipelines st)) results1 err1)
        as [[psc' results] err]. cbn [fst snd] in Hlen2.
      exists (Some psc'), results, err. split_and!; [done | lia | done].
    - exists None, results1, err1. done. }
  destruct err as [e |]; [cbn [fst snd hotKeyDetector]; done |].
  set (this2 := mkImpl c psc (stopCacheKeyIncrementWhenOverlimit this1)
                       (detector st) (batcher st) (psBatcher st)).
  pose proof (flushTick_chans this2) as (Hd3 & Hds & Hpsds).
  destruct (flushTick this2) as [[this3 ds] psDs]. cbn [fst snd] in *.
  split; [by rewrite Hd3 |].
  assert (forall i ps ch, (i, (ps, ch)) ∈ map_to_list (hotKeyResultChans st) ->
            ch ∈ (if (ps : bool) then psDs else ds).*1) as Hdeliver.
  { intros i ps ch Hin. apply elem_of_map_to_list in Hin.
    specialize (Hch i ps ch Hin). destruct ps.
    - destruct Hch as (Hps & b & Hb & Hc). apply bool_decide_eq_true in Hps.
      rewrite (Hpsds b Hb); [done |]. by apply Hpsc2.
    - destruct Hch as (b & Hb & Hc). by rewrite (Hds b Hb). }
  pose proof (awaitLoop_ok ds psDs (map_to_list (hotKeyResultChans st)) results Hdeliver)
    as Hawait.
  destruct (awaitLoop (map_to_list (hotKeyResultChans st)) ds psDs results)
    as [results' | e |]; [| done | done].
  cbn [mbind result_bind].
  destruct (verdictLoop_ok cacheKeys limits hitsAddends results' flags 0
              ltac:(lia) ltac:(lia) ltac:(lia) ltac:(lia)) as (args & -> & Hargs).
  done.
Qed.

(** A well-formed request never panics and never hangs. When the request
    gives one hits addend and one limit per descriptor, a limit for every
    descriptor with a cache key, and the detector (if any) is consistent,
    [DoLimit] comes back: either with the store's error, or with exactly
    one status per descriptor. No index is out of range, no nil limit is
    dereferenced, the detector does not panic, and every batcher channel
    the request waits on is answered by the next flush. The detector is
    consistent again afterwards. *)
Theorem DoLimit_wellformed_request_completes (this : fixedRateLimitCacheImpl)
    (clock : nat -> Z) (cacheKeys : list CacheKey) (limits : list (option RateLimit))
    (hitsAddends : list Z) :
  length hitsAddends = length cacheKeys ->
  length limits = length cacheKeys ->
  (forall i ck, cacheKeys !! i = Some ck -> Key ck <> "" ->
     exists lim, limits !! i = Some (Some lim)) ->
  (forall d, hotKeyDetector this = Some d -> consistent d) ->
  exists this' r,
    DoLimit IsOverLimitWithLocalCache IsOverLimitThresholdReached UnitToDivider
      ExpirationJitterMaxSeconds Int63n Status GetResponseDescriptorStatus Sum64 scale
      this clock cacheKeys limits hitsAddends = (this', r) /\
    ((exists statuses, r = Ok statuses /\ length statuses = length cacheKeys) \/
     (exists e, r = RedisError e)) /\
    (forall d, hotKeyDetector this' = Some d -> consistent d).
Proof.
  intros Hh Hl Hlim Hdet.
  pose proof (doLimitArgs_ok this clock cacheKeys limits hitsAddends Hh Hl Hlim Hdet)
    as [Hd Hr].
  unfold DoLimit.
  destruct (doLimitArgs _ _ _ _ _ _ _ this clock cacheKeys limits hitsAddends)
    as [this' [args | e |]]; cbn [fst snd] in *; [| | done].
  - eexists _, _. split; [reflexivity |]. split; [| done].
    left. eexists. split; [reflexivity |]. by rewrite length_map.
  - eexists _, _. split; [reflexivity |]. split; [| done].
    right. by exists e.
Qed.

Lemma doLimits_ok (requests : list Request) :
  forall this : fixedRateLimitCacheImpl,
  Forall wellFormed requests ->
  (forall d, hotKeyDetector this = Some d -> consistent d) ->
  Forall2 (fun (request : Request) res =>
             (exists statuses, res = Ok statuses /\
                               length statuses = length request.1.1.2) \/
             (exists e, res = RedisError e))
          requests
          (doLimits IsOverLimitWithLocalCache IsOverLimitThresholdReached UnitToDivider
             ExpirationJitterMaxSeconds Int63n Status GetResponseDescriptorStatus
             Sum64 scale this requests).2.
Proof.
  induction requests as [| [[[clock cacheKeys] limits] hitsAddends] rest IH];
    intros this Hwf Hdet; [by apply Forall2_nil |].
  apply Forall_cons in Hwf as [(Hh & Hl & Hlim) Hwf].
  cbn [doLimits].
  pose proof (doLimitArgs_ok this clock cacheKeys limits hitsAddends Hh Hl Hlim Hdet)
    as [Hdet' Hr].
  unfold DoLimit.
  destruct (doLimitArgs _ _ _ _ _ _ _ this clock cacheKeys limits hitsAddends)
    as [this' r]. cbn [fst snd] in Hdet', Hr.
  specialize (IH this' Hwf Hdet').
  destruct (doLimits _ _ _ _ _ _ _ _ _ this' rest) as [this2 rs].
  cbn [snd] in *. apply Forall2_cons. split; [| done].
  destruct r as [args | e |]; cbn [mbind result_bind]; [| | done].
  - left. eexists. split; [reflexivity |]. by rewrite length_map.
  - right. by exists e.
Qed.

(** An engine built by the constructor, with hot-key detection or
    without it, with a per-second client or without, answers every
    well-formed request of any sequence: each one comes back with the
    store's error or with one status per descriptor, never with a panic
    and never waiting for a batched result that is not delivered. *)
Theorem constructed_engine_completes_every_request (c : C) (psc : option C)
    (stop : bool) (hotKeyConfig : option HotKey.Config) (now : Z)
    (requests : list Request) :
  Forall wellFormed requests ->
  Forall2 (fun (request : Request) res =>
             (exists statuses, res = Ok statuses /\
                               length statuses = length request.1.1.2) \/
             (exists e, res = RedisError e))
          requests
          (doLimits IsOverLimitWithLocalCache IsOverLimitThresholdReached UnitToDivider
             ExpirationJitterMaxSeconds Int63n Status GetResponseDescriptorStatus
             Sum64 scale
             (NewFixedRateLimitCacheImpl c psc stop hotKeyConfig now) requests).2.
Proof.
  intros Hwf. apply doLimits_ok; [done |].
  unfold NewFixedRateLimitCacheImpl.
  destruct hotKeyConfig as [cfg |]; [| done].
  destruct (HotKey.Enabled cfg); [| done].
  cbn [hotKeyDetector]. intros d [= <-]. apply NewHotKeyDetector_consistent.
Qed.

End EngineMore.

(** ** Concrete runs of the further properties *)

Lemma Increment_adds_to_estimate_witness :
  CMS.shaped (CMS.NewCountMinSketch 1024 2) /\
  CMS.bounded (CMS.NewCountMinSketch 1024 2) /\
  isUint32 5 /\
  CMS.Estimate XXH.Sum64 (CMS.NewCountMinSketch 1024 2) "k" = Some 0 /\
  exists cms',
    CMS.Increment XXH.Sum64 (CMS.NewCountMinSketch 1024 2) "k" 5
    = Some (cms', Z.min (0 + 5) MaxUint32) /\
    CMS.Estimate XXH.Sum64 cms' "k" = Some (Z.min (0 + 5) MaxUint32).
Proof.
  assert (isUint32 5) as H5 by (unfold isUint32, MaxUint32; lia).
  assert (CMS.Estimate XXH.Sum64 (CMS.NewCountMinSketch 1024 2) "k" = Some 0) as He
    by (vm_compute; reflexivity).
  split; [apply NewCountMinSketch_shaped |].
  split; [apply NewCountMinSketch_bounded |].
  split; [exact H5 |]. split; [exact He |].
  exact (Increment_adds_to_estimate XXH.Sum64 (CMS.NewCountMinSketch 1024 2) "k" 5 0
           (NewCountMinSketch_shaped 1024 2) (NewCountMinSketch_bounded 1024 2) H5 He).
Defined.

Lemma Increment_bounds_other_estimates_witness :
  CMS.Estimate XXH.Sum64 (CMS.NewCountMinSketch 1024 2) "b" = Some 0 /\
  exists cms' est e',
    CMS.Increment XXH.Sum64 (CMS.NewCountMinSketch 1024 2) "a" 5 = Some (cms', est) /\
    CMS.Estimate XXH.Sum64 cms' "b" = Some e' /\
    0 <= e' <= Z.min (0 + 5) MaxUint32.
Proof.
  assert (isUint32 5) as H5 by (unfold isUint32, MaxUint32; lia).
  assert (CMS.Estimate XXH.Sum64 (CMS.NewCountMinSketch 1024 2) "b" = Some 0) as He
    by (vm_compute; reflexivity).
  split; [exact He |].
  exact (Increment_bounds_other_estimates XXH.Sum64 (CMS.NewCountMinSketch 1024 2)
           "a" "b" 5 0
           (NewCountMinSketch_shaped 1024 2) (NewCountMinSketch_bounded 1024 2) H5 He).
Defined.

(** Halving, the decay of the default configuration. *)
Lemma Decay_scales_estimates_witness :
  exists cms' est,
    CMS.Increment XXH.Sum64 (CMS.NewCountMinSketch 1024 2) "k" 7 = Some (cms', est) /\
    CMS.Estimate XXH.Sum64 (CMS.Decay (fun c => c / 2) cms') "k" = Some (est / 2).
Proof.
  assert (isUint32 7) as H7 by (unfold isUint32, MaxUint32; lia).
  destruct (Increment_spec XXH.Sum64 (CMS.NewCountMinSketch 1024 2) "k" 7
              (NewCountMinSketch_shaped 1024 2))
    as (cms' & est & Hinc & _ & _ & _ & Hsh & _).
  pose proof (Increment_bounded XXH.Sum64 _ _ _ _ _ (NewCountMinSketch_shaped 1024 2)
                (NewCountMinSketch_bounded 1024 2) Hinc) as Hb.
  pose proof (Increment_returns_estimate XXH.Sum64 _ _ _ _ _
                (NewCountMinSketch_shaped 1024 2) Hinc) as He.
  exists cms', est. split; [exact Hinc |].
  refine (proj2 (proj2 (Decay_scales_estimates XXH.Sum64 (fun c => c / 2) cms' "k" est
                          Hsh Hb _ _ He))).
  - intros x y Hxy _. apply Z.div_le_mono; lia.
  - intros x [Hx0 Hx1]. split.
    + apply Z.div_pos; lia.
    + apply Z.div_le_upper_bound; unfold MaxUint32 in *; lia.
Defined.

Lemma MemoryUsage_within_budget_witness :
  1024 * CMS.clampDepth 2 <= 8203 /\
  Z.quot 8203 (CMS.clampDepth 2 * 4) <= MaxUint32 /\
  CMS.MemoryUsage (CMS.NewCountMinSketch 8203 2)
  = 4 * CMS.Width (CMS.NewCountMinSketch 8203 2) * CMS.Depth (CMS.NewCountMinSketch 8203 2) /\
  8203 - 4 * CMS.Depth (CMS.NewCountMinSketch 8203 2)
  < CMS.MemoryUsage (CMS.NewCountMinSketch 8203 2) <= 8203.
Proof.
  assert (1024 * CMS.clampDepth 2 <= 8203) as H1 by (vm_compute; congruence).
  assert (Z.quot 8203 (CMS.clampDepth 2 * 4) <= MaxUint32) as H2
    by (vm_compute; congruence).
  split; [exact H1 |]. split; [exact H2 |].
  exact (MemoryUsage_within_budget 8203 2 H1 H2).
Defined.

(** Capacity 2 and threshold 1: "a" is hot at its first access and
    stays hot when "b" is promoted next. *)
Lemma recent_hot_key_survives_next_access_witness :
  let config := Detector.mkDetectorConfig 0 2 1 2 10000000000 in
  2 <= Detector.maxHotKeys (Detector.NewHotKeyDetector config 0) /\
  exists d d' hot,
    Detector.serveAll XXH.Sum64 (fun c => c / 2) (Detector.NewHotKeyDetector config 0) []
    = Some d /\
    Detector.RecordAccessWithDelta XXH.Sum64 (fun c => c / 2) d 0 "a" 1 = Some (d', hot) /\
    (hot = true ->
     1 - Detector.lastDecayTime d' < Detector.decayInterval d' ->
     exists d'' hot2,
       Detector.RecordAccessWithDelta XXH.Sum64 (fun c => c / 2) d' 1 "b" 1
       = Some (d'', hot2) /\
       Detector.IsHot d'' "a" = true).
Proof.
  intros config.
  assert (2 <= Detector.maxHotKeys (Detector.NewHotKeyDetector config 0)) as Hcap
    by (vm_compute; congruence).
  split; [exact Hcap |].
  exact (recent_hot_key_survives_next_access XXH.Sum64 (fun c => c / 2) config 0 []
           0 "a" 1 1 "b" 1 Hcap).
Defined.

(** Threshold 3: the third hit of "a" is answered hot, with an access
    to "b" in between. *)
Lemma heavy_hitter_is_reported_hot_witness :
  let config := Detector.mkDetectorConfig 0 2 3 10 10000000000 in
  let accesses := [(1, "a", 1); (2, "b", 1); (3, "a", 1)] in
  exists d d',
    Detector.recordAll XXH.Sum64 (fun c => c / 2) (Detector.NewHotKeyDetector config 0)
      accesses = Some d /\
    Detector.RecordAccessWithDelta XXH.Sum64 (fun c => c / 2) d 4 "a" 1 = Some (d', true) /\
    Detector.IsHot d' "a" = true.
Proof.
  intros config accesses.
  assert (isUint32 1) as H1 by (unfold isUint32, MaxUint32; lia).
  assert (Forall (fun a : Z * string * Z =>
                    a.1.1 - 0 < Detector.DecayInterval config /\ isUint32 a.2) accesses)
    as Hall
    by (repeat (apply Forall_cons_2; [split; [simpl; lia | exact H1] |]);
        apply Forall_nil_2).
  assert (4 - 0 < Detector.DecayInterval config) as Hdue by (simpl; lia).
  assert (Detector.hotThreshold (Detector.NewHotKeyDetector config 0) <=
          Z.min (CMS.trueCount "a" (map (fun a : Z * string * Z => (a.1.2, a.2)) accesses) + 1)
                MaxUint32) as Hheavy by (vm_compute; congruence).
  exact (heavy_hitter_is_reported_hot XXH.Sum64 (fun c => c / 2) config 0 accesses
           4 "a" 1 Hall Hdue H1 Hheavy).
Defined.

(** Three submits on two keys, flushed to a store. *)
Lemma flush_answers_every_waiter_once_witness :
  let b := Batcher.NewHotKeyBatcher 0 in
  let c := MemStore.mkStore {["K" := 50]} ∅ false None in
  let calls := [("K", 2, 60); ("J", 3, 60); ("K", 1, 60)] in
  Batcher.pending b = ∅ /\
  (Batcher.flush (Batcher.submitAll b calls).1 c).2.*1 ≡ₚ [0; 1; 2]%nat /\
  length (Batcher.flush (Batcher.submitAll b calls).1 c).2 = 3%nat.
Proof.
  intros b c calls.
  destruct (flush_answers_every_waiter_once b c calls eq_refl) as (Hperm & _ & Hlen & _).
  split; [reflexivity |]. split; [exact Hperm | exact Hlen].
Defined.

Lemma pending_counts_after_submits_witness :
  let b := Batcher.NewHotKeyBatcher 0 in
  let calls := [("K", 2, 60); ("J", 3, 60); ("K", 1, 60)] in
  Batcher.pending b = ∅ /\
  Batcher.PendingWaiterCount (Batcher.submitAll b calls).1 = 3%nat /\
  (Batcher.PendingCount (Batcher.submitAll b calls).1 <= 3)%nat.
Proof.
  intros b calls.
  destruct (pending_counts_after_submits b calls eq_refl) as (Hw & _ & Hle & _).
  split; [reflexivity |]. split; [exact Hw |].
  rewrite Hw in Hle. exact Hle.
Defined.

Lemma flush_with_nothing_pending_is_silent_witness :
  let b := Batcher.NewHotKeyBatcher 0 in
  let c := MemStore.empty true in
  Batcher.PendingCount b = 0%nat /\ Batcher.flush b c = (b, c, []).
Proof.
  intros b c.
  assert (Batcher.PendingCount b = 0%nat) as Hz by (vm_compute; reflexivity).
  split; [exact Hz |].
  exact (proj1 (flush_with_nothing_pending_is_silent b c) Hz).
Defined.

(** Three descriptors on a cluster store: "foo" and "x{foo}y" share a
    slot, "bar" has its own. *)
Lemma DoLimit_increments_come_with_expiry_witness :
  let this := Engine.mkImpl (MemStore.empty true) None true None None None in
  let cacheKeys := [Engine.mkCacheKey "foo" false; Engine.mkCacheKey "bar" false;
                    Engine.mkCacheKey "x{foo}y" false] in
  let lim := Some (Engine.mkRateLimit 2 10 false) in
  Engine.readsOnly (Engine.getLoop this 0 cacheKeys (∅, ∅)).1 /\
  exists st,
    Engine.incrementLoop (fun _ => 60) 0 (fun _ _ => 0) XXH.Sum64 (fun c => c / 2)
      this (fun _ => 0) [lim; lim; lim] [1; 2; 3] [false; false; false]
      [false; false; false] false false 0 cacheKeys
      (Engine.mkIncr None None None ∅ ∅ ∅) = Ok st /\
    Engine.paired (Engine.pipelines st) /\
    Engine.pipelines st !! 12182 =
    Some (Engine.incrPairs [("foo", 1, 0%nat, 60); ("x{foo}y", 3, 2%nat, 60)]).
Proof.
  intros this cacheKeys lim.
  pose proof (DoLimit_increments_come_with_expiry (fun _ => 60) 0 (fun _ _ => 0)
                XXH.Sum64 (fun c => c / 2) this (fun _ => 0) cacheKeys [lim; lim; lim]
                [1; 2; 3] [false; false; false] [false; false; false] false false)
    as (Hget & _ & Hincr).
  split; [exact Hget |].
  destruct (Engine.incrementLoop (fun _ => 60) 0 (fun _ _ => 0) XXH.Sum64 (fun c => c / 2)
              this (fun _ => 0) [lim; lim; lim] [1; 2; 3] [false; false; false]
              [false; false; false] false false 0 cacheKeys
              (Engine.mkIncr None None None ∅ ∅ ∅)) as [st | e |] eqn:Hloop;
    [| vm_compute in Hloop; discriminate Hloop | vm_compute in Hloop; discriminate Hloop].
  exists st. split; [reflexivity |].
  split; [exact (proj1 (Hincr st Hloop)) |].
  vm_compute in Hloop. injection Hloop as <-. vm_compute. reflexivity.
Defined.

(** Four descriptors: an unmatched one, one flagged by the local cache
    and two that are counted. *)
Lemma DoLimit_serves_each_counted_descriptor_once_witness :
  let this := Engine.mkImpl (MemStore.empty true) None false None None None in
  let cacheKeys := [Engine.mkCacheKey "" false; Engine.mkCacheKey "foo" false;
                    Engine.mkCacheKey "blocked" false; Engine.mkCacheKey "bar" false] in
  let lim := Some (Engine.mkRateLimit 2 10 false) in
  exists st,
    Engine.incrementLoop (fun _ => 60) 0 (fun _ _ => 0) XXH.Sum64 (fun c => c / 2)
      this (fun _ => 0) [None; lim; lim; lim] [1; 1; 1; 1] [false; false; true; false]
      [false; false; false; false] true false 0 cacheKeys
      (Engine.mkIncr None None None ∅ ∅ ∅) = Ok st /\
    Engine.served st ≡ₚ [1; 3]%nat /\
    NoDup (Engine.served st).
Proof.
  intros this cacheKeys lim.
  destruct (Engine.incrementLoop (fun _ => 60) 0 (fun _ _ => 0) XXH.Sum64 (fun c => c / 2)
              this (fun _ => 0) [None; lim; lim; lim] [1; 1; 1; 1]
              [false; false; true; false] [false; false; false; false] true false
              0 cacheKeys (Engine.mkIncr None None None ∅ ∅ ∅)) as [st | e |] eqn:Hloop;
    [| vm_compute in Hloop; discriminate Hloop | vm_compute in Hloop; discriminate Hloop].
  destruct (DoLimit_serves_each_counted_descriptor_once _ _ _ _ _ _ _ _ _ _ _ _ _ _ _
              Hloop) as (Hperm & Hnd & _).
  exists st. split; [reflexivity |]. split; [exact Hperm | exact Hnd].
Defined.

(** The stop-increment policy with a key flagged by the local cache:
    the INCRBY of the other descriptor adds 0. *)
Lemma DoLimit_increments_by_policy_addend_witness :
  let this := Engine.mkImpl (MemStore.empty true) None true None None None in
  let cacheKeys := [Engine.mkCacheKey "foo" false; Engine.mkCacheKey "blocked" false] in
  let lim := Some (Engine.mkRateLimit 2 10 false) in
  exists st,
    Engine.incrementLoop (fun _ => 60) 0 (fun _ _ => 0) XXH.Sum64 (fun c => c / 2)
      this (fun _ => 0) [lim; lim] [5; 1] [false; true] [false; false] true false
      0 cacheKeys (Engine.mkIncr None None None ∅ ∅ ∅) = Ok st /\
    Engine.byPolicy this cacheKeys [5; 1] [false; false] true false (Engine.pipelines st) /\
    Engine.pipelines st !! 12182 =
    Some [mkAction (Some 0%nat) "INCRBY" "foo" [0]; mkAction None "EXPIRE" "foo" [60]].
Proof.
  intros this cacheKeys lim.
  destruct (Engine.incrementLoop (fun _ => 60) 0 (fun _ _ => 0) XXH.Sum64 (fun c => c / 2)
              this (fun _ => 0) [lim; lim] [5; 1] [false; true] [false; false] true false
              0 cacheKeys (Engine.mkIncr None None None ∅ ∅ ∅)) as [st | e |] eqn:Hloop;
    [| vm_compute in Hloop; discriminate Hloop | vm_compute in Hloop; discriminate Hloop].
  destruct (DoLimit_increments_by_policy_addend _ _ _ _ _ _ _ _ _ _ _ _ _ _ _ Hloop)
    as (Hby & _ & _).
  exists st. split; [reflexivity |]. split; [exact Hby |].
  vm_compute in Hloop. injection Hloop as <-. vm_compute. reflexivity.
Defined.

(** A request on a hot key with the detector and the batcher in place. *)
Lemma DoLimit_wellformed_request_completes_witness :
  let det := Detector.NewHotKeyDetector (Detector.mkDetectorConfig 0 2 1 10 10000000000) 0 in
  let this := Engine.mkImpl (MemStore.empty true) None false (Some det)
                (Some (Batcher.NewHotKeyBatcher 0)) None in
  let cacheKeys := [Engine.mkCacheKey "dom_k_v_0" false; Engine.mkCacheKey "" false] in
  let limits := [Some (Engine.mkRateLimit 2 10 false); None] in
  exists this' r,
    Engine.DoLimit (fun _ => false) (fun _ => false) (fun _ => 60) 0 (fun _ _ => 0)
      unit (fun _ _ _ _ => tt) XXH.Sum64 (fun c => c / 2)
      this (fun _ => 0) cacheKeys limits [2; 1] = (this', r) /\
    ((exists statuses, r = Ok statuses /\ length statuses = 2%nat) \/
     (exists e, r = RedisError e)).
Proof.
  intros det this cacheKeys limits.
  assert (forall i ck, cacheKeys !! i = Some ck -> Engine.Key ck <> "" ->
            exists lim, limits !! i = Some (Some lim)) as Hlim.
  { intros [| [| i]] ck Hck Hne; simpl in Hck.
    - by eexists.
    - injection Hck as <-. done.
    - done. }
  assert (forall d, Engine.hotKeyDetector this = Some d -> Detector.consistent d) as Hdet.
  { intros d [= <-]. apply NewHotKeyDetector_consistent. }
  destruct (DoLimit_wellformed_request_completes (fun _ => 60) 0 (fun _ _ => 0)
              XXH.Sum64 (fun c => c / 2) (fun _ => false) (fun _ => false)
              unit (fun _ _ _ _ => tt) this (fun _ => 0) cacheKeys limits [2; 1]
              eq_refl eq_refl Hlim Hdet) as (this' & r & Hdo & Hr & _).
  exists this', r. split; [exact Hdo | exact Hr].
Defined.

(** Two requests on an engine built with hot-key detection. *)
Lemma constructed_engine_completes_every_request_witness :
  let cfg := Engine.HotKey.mkConfig true 0 2 1 10 0 10000000000 in
  let lim := Some (Engine.mkRateLimit 2 10 false) in
  let requests : list Engine.Request :=
    [(fun _ => 0, [Engine.mkCacheKey "a" false], [lim], [1]);
     (fun _ => 1, [Engine.mkCacheKey "a" false; Engine.mkCacheKey "" false],
      [lim; None], [2; 1])] in
  Forall Engine.wellFormed requests /\
  length (Engine.doLimits (fun _ => false) (fun _ => false) (fun _ => 60) 0
            (fun _ _ => 0) unit (fun _ _ _ _ => tt) XXH.Sum64 (fun c => c / 2)
            (Engine.NewFixedRateLimitCacheImpl (MemStore.empty true) None false
               (Some cfg) 0) requests).2 = 2%nat.
Proof.
  intros cfg lim requests.
  assert (Forall Engine.wellFormed requests) as Hwf.
  { apply Forall_cons_2; [| apply Forall_cons_2; [| apply Forall_nil_2]].
    - split; [reflexivity |]. split; [reflexivity |].
      intros [| i] ck Hck Hne; simpl in Hck; [by eexists | done].
    - split; [reflexivity |]. split; [reflexivity |].
      intros [| [| i]] ck Hck Hne; simpl in Hck.
      + by eexists.
      + injection Hck as <-. done.
      + done. }
  split; [exact Hwf |].
  pose proof (constructed_engine_completes_every_request (fun _ => 60) 0 (fun _ _ => 0)
                XXH.Sum64 (fun c => c / 2) (fun _ => false) (fun _ => false)
                unit (fun _ _ _ _ => tt) (MemStore.empty true) None false (Some cfg) 0
                requests Hwf) as Hall.
  symmetry. exact (Forall2_length _ _ _ Hall).
Defined.

(** ** Fixed-window engine: a store that is down *)

Section EngineDown.
Import Detector Batcher Engine.

Context {C : Type} `{Client C}.

Variable IsOverLimitWithLocalCache : string -> bool.
Variable IsOverLimitThresholdReached : LimitInfo -> bool.
Variable UnitToDivider : Z -> Z.
Variable ExpirationJitterMaxSeconds : Z.
Variable Int63n : nat -> Z -> Z.
Variable Status : Type.
Variable GetResponseDescriptorStatus : string -> LimitInfo -> bool -> Z -> Status.
Variable Sum64 : list Z -> Z.
Variable scale : Z -> Z.

(** The store answers every pipeline with [err], and goes on doing so. *)
Variable err : error.
Variable down : C -> Prop.
Hypothesis Hdown : forall (c : C) (cmds : list Command),
  down c -> (Exec c cmds).2 = inl err /\ down (Exec c cmds).1.

Lemma PipeDo_down {R : Type} (c : C) (p : Pipeline R) :
  down c -> (PipeDo c p).2 = inl err /\ down (PipeDo c p).1.
Proof.
  intros Hc. unfold PipeDo. destruct (Hdown c (map wire p) Hc) as [He Hd].
  destruct (Exec c (map wire p)) as [c' r]. cbn [fst snd] in *. by subst r.
Qed.

Lemma doEach_down (ps : list (Pipeline nat)) (c : C) (arr : list Z) :
  down c -> (forall p, p ∈ ps -> p <> []) ->
  doEach c ps arr = (c, Ok arr) /\ ps = [] \/
  (doEach c ps arr).2 = RedisError err /\ ps <> [].
Proof.
  intros Hc Hne. destruct ps as [| p ps]; [by left |]. right. split; [| done].
  cbn [doEach]. rewrite bool_decide_eq_false_2.
  - destruct (PipeDo_down c p Hc) as [He _].
    destruct (PipeDo c p) as [c' r]. cbn [snd] in He. by subst r.
  - intros Hlen. apply (Hne p); [left |]. by apply length_zero_iff_nil.
Qed.

Lemma doAll_down (ps : list (Pipeline nat)) :
  forall (c : C) (arr : list Z) (e0 : option error),
  down c -> (forall p, p ∈ ps -> p <> []) -> e0 = None \/ e0 = Some err ->
  (doAll c ps arr e0).2 = (match ps with [] => e0 | _ => Some err end) /\
  (doAll c ps arr e0).1.2 = arr /\
  down (doAll c ps arr e0).1.1.
Proof.
  induction ps as [| p ps IH]; intros c arr e0 Hc Hne He0; [done |].
  cbn [doAll]. rewrite bool_decide_eq_false_2.
  - destruct (PipeDo_down c p Hc) as [He Hc'].
    destruct (PipeDo c p) as [c' r]. cbn [fst snd] in He, Hc'. subst r.
    assert ((match e0 with Some e => e | None => err end) = err) as ->
      by (destruct He0 as [-> | ->]; done).
    destruct (IH c' arr (Some err) Hc' ltac:(intros q Hq; apply Hne; by right)
                ltac:(by right)) as (H1 & H2 & H3).
    split_and!; try done. rewrite H1. by destruct ps.
  - intros Hlen. apply (Hne p); [left |]. by apply length_zero_iff_nil.
Qed.

Lemma flush_down (b : HotKeyBatcher) (c : C) :
  down c -> forall d, d ∈ (flush b c).2 -> Err d.2 = Some err.
Proof.
  intros Hc d. unfold flush.
  destruct (bool_decide (size (pending b) = 0%nat)); [intros Hd; by apply elem_of_nil in Hd |].
  destruct (PipeDo_down c (buildPipeline (map_to_list (pending b))) Hc) as [He _].
  destruct (PipeDo c (buildPipeline (map_to_list (pending b)))) as [c' r].
  cbn [snd] in *. subst r. unfold distribute. intros Hd.
  apply elem_of_flat_map in Hd as ([key agg] & _ & Hd).
  change (map ?f ?l) with (f <$> l) in Hd.
  apply list_elem_of_fmap in Hd as (w & -> & _). done.
Qed.

Lemma receive_elem (ds : list Delivery) (ch : nat) (r : HotKeyBatcherResult) :
  receive ds ch = Some r -> (ch, r) ∈ ds.
Proof.
  induction ds as [| [ch' r'] ds IH]; [done |].
  cbn [receive]. destruct (bool_decide (ch' = ch)) eqn:E.
  - apply bool_decide_eq_true in E as ->. intros [= ->]. left.
  - intros Hr. right. by apply IH.
Qed.

Lemma pipelinesOf_nonempty (m : gmap Z (Pipeline nat)) :
  m <> ∅ -> pipelinesOf m <> [].
Proof.
  intros Hm Hnil. apply Hm. apply map_to_list_empty_iff.
  unfold pipelinesOf in Hnil. by apply fmap_nil_inv in Hnil.
Qed.

Lemma paired_nonempty (m : gmap Z (Pipeline nat)) :
  paired m -> forall p, p ∈ pipelinesOf m -> p <> [].
Proof.
  intros Hm p Hp. apply pipelinesOf_lookup in Hp as [slot Hp].
  destruct (Hm slot p Hp) as ([| [[[k h] i] e] entries] & Hne & ->); done.
Qed.

Lemma readsOnly_nonempty (m : gmap Z (Pipeline nat)) :
  readsOnly m -> forall p, p ∈ pipelinesOf m -> p <> [].
Proof.
  intros Hm p Hp. apply pipelinesOf_lookup in Hp as [slot Hp].
  by destruct (Hm slot p Hp).
Qed.

Lemma paired_receivers (m : gmap Z (Pipeline nat)) :
  paired m -> receivers m = [] -> m = ∅.
Proof.
  intros Hm Hr. unfold receivers in Hr.
  destruct (map_to_list m) as [| [slot p] l] eqn:Hl;
    [by apply map_to_list_empty_iff |].
  assert (m !! slot = Some p) as Hp.
  { assert ((slot, p) ∈ (slot, p) :: l) as Hin by left.
    rewrite <- Hl in Hin. apply elem_of_map_to_list. exact Hin. }
  destruct (Hm slot p Hp) as ([| [[[k h] i] e] entries] & Hne & ->); done.
Qed.

Lemma appendGet_keeps (this : fixedRateLimitCacheImpl) (maps : GetMaps) (i : nat)
    (ck : CacheKey) :
  (maps.1 <> ∅ \/ maps.2 <> ∅ /\ is_Some (perSecondClient this)) \/
  isEmptyKey ck = false ->
  (appendGet this maps i ck).1 <> ∅ \/
  (appendGet this maps i ck).2 <> ∅ /\ is_Some (perSecondClient this).
Proof.
  destruct maps as [g psg]. unfold appendGet. cbn [fst snd].
  intros HQ. destruct (isEmptyKey ck) eqn:He.
  - destruct HQ as [HQ | ?]; done.
  - destruct (usesPerSecond this ck) as [psc |] eqn:Huse; cbn [fst snd].
    + right. split; [apply insert_non_empty |].
      apply usesPerSecond_Some in Huse. by rewrite Huse.
    + left. apply insert_non_empty.
Qed.

Lemma getLoop_keeps (this : fixedRateLimitCacheImpl) (cacheKeys : list CacheKey) :
  forall (i : nat) (maps : GetMaps),
  (maps.1 <> ∅ \/ maps.2 <> ∅ /\ is_Some (perSecondClient this)) \/
  Exists (fun ck => isEmptyKey ck = false) cacheKeys ->
  (getLoop this i cacheKeys maps).1 <> ∅ \/
  (getLoop this i cacheKeys maps).2 <> ∅ /\ is_Some (perSecondClient this).
Proof.
  induction cacheKeys as [| ck rest IH]; intros i maps HQ.
  - destruct HQ as [HQ | HQ]; [done | by apply Exists_nil in HQ].
  - cbn [getLoop]. apply IH.
    destruct HQ as [HQ | HQ].
    + left. apply appendGet_keeps. by left.
    + apply Exists_cons in HQ as [HQ | HQ]; [| by right].
      left. apply appendGet_keeps. by right.
Qed.

Lemma getLoop_no_keys (this : fixedRateLimitCacheImpl) (cacheKeys : list CacheKey) :
  forall (i : nat) (maps : GetMaps),
  Forall (fun ck => isEmptyKey ck = true) cacheKeys ->
  getLoop this i cacheKeys maps = maps.
Proof.
  induction cacheKeys as [| ck rest IH]; intros i maps Hall; [done |].
  apply Forall_cons in Hall as [He Hall]. cbn [getLoop].
  rewrite IH by done. destruct maps as [g psg]. unfold appendGet. by rewrite He.
Qed.

Lemma preRead_down (this : fixedRateLimitCacheImpl) (cacheKeys : list CacheKey)
    (limits : list (option RateLimit)) (hitsAddends : list Z) (isOver : bool) :
  down (client this) ->
  (forall psc, perSecondClient this = Some psc -> down psc) ->
  length hitsAddends = length cacheKeys ->
  length limits = length cacheKeys ->
  let r := preRead IsOverLimitThresholdReached this cacheKeys limits hitsAddends isOver in
  (stopCacheKeyIncrementWhenOverlimit this && negb isOver = true /\
   Exists (fun ck => isEmptyKey ck = false) cacheKeys /\
   r.2 = RedisError err) \/
  ((stopCacheKeyIncrementWhenOverlimit this && negb isOver = false \/
    Forall (fun ck => isEmptyKey ck = true) cacheKeys) /\
   (exists near, r.2 = Ok near /\ length near = length cacheKeys) /\
   client r.1 = client this /\ perSecondClient r.1 = perSecondClient this /\
   hotKeyDetector r.1 = hotKeyDetector this /\
   hotKeyBatcher r.1 = hotKeyBatcher this /\
   perSecondBatcher r.1 = perSecondBatcher this).
Proof.
  intros Hc Hpsc Hh Hl. unfold preRead.
  destruct (stopCacheKeyIncrementWhenOverlimit this && negb isOver) eqn:Hstop.
  - destruct (decide (Exists (fun ck => isEmptyKey ck = false) cacheKeys)) as [Hex | Hno].
    + left. split; [done |]. split; [done |].
      pose proof (getLoop_keeps this cacheKeys 0 (∅, ∅) (or_intror Hex)) as HQ.
      destruct (getLoop_readsOnly this cacheKeys 0 (∅, ∅) readsOnly_empty readsOnly_empty)
        as [Hr1 Hr2].
      destruct (getLoop this 0 cacheKeys (∅, ∅)) as [g psg]. cbn [fst snd] in *.
      destruct (doEach_down (pipelinesOf g) (client this)
                  (replicate (length cacheKeys) 0) Hc (readsOnly_nonempty g Hr1))
        as [[-> Hnil] | [He _]].
      * destruct HQ as [Hg | [Hpsg [psc Hp]]];
          [exfalso; by apply (pipelinesOf_nonempty g) |].
        cbn [perSecondClient]. rewrite Hp.
        destruct (doEach_down (pipelinesOf psg) psc (replicate (length cacheKeys) 0)
                    (Hpsc psc Hp) (readsOnly_nonempty psg Hr2))
          as [[_ Hnil'] | [He _]].
        -- exfalso. by apply (pipelinesOf_nonempty psg).
        -- destruct (doEach psc (pipelinesOf psg) (replicate (length cacheKeys) 0))
             as [psc' r]. cbn [snd] in *. by subst r.
      * destruct (doEach (client this) (pipelinesOf g) (replicate (length cacheKeys) 0))
          as [c r]. cbn [snd] in *. by subst r.
    + right.
      assert (Forall (fun ck => isEmptyKey ck = true) cacheKeys) as Hall.
      { apply Forall_forall. intros ck Hck.
        destruct (isEmptyKey ck) eqn:He; [done |].
        exfalso. apply Hno. apply Exists_exists. by exists ck. }
      split; [by right |].
      rewrite getLoop_no_keys by done.
      change (pipelinesOf ∅) with (@nil (Pipeline nat)). cbn [doEach perSecondClient].
      destruct (nearLimitLoop_ok IsOverLimitThresholdReached cacheKeys limits hitsAddends
                  (replicate (length cacheKeys) 0) 0
                  ltac:(rewrite length_replicate; lia) ltac:(lia) ltac:(lia))
        as (near & Hnear & Hlen).
      destruct (perSecondClient this) as [psc |] eqn:Hp; cbn [fst snd mbind result_bind];
        rewrite Hnear; split_and!; try done; by exists near.
  - right. split; [by left |]. cbn [fst snd]. split_and!; try done.
    exists (replicate (length cacheKeys) false). split; [done |]. apply length_replicate.
Qed.

Lemma flushTick_down (this : fixedRateLimitCacheImpl) :
  down (client this) ->
  (forall psc, perSecondClient this = Some psc -> down psc) ->
  (forall d, d ∈ (flushTick this).1.2 -> Err d.2 = Some err) /\
  (forall d, d ∈ (flushTick this).2 -> Err d.2 = Some err).
Proof.
  intros Hc Hpsc. unfold flushTick.
  assert (forall d : Delivery, d ∈ [] -> Err d.2 = Some err) as Hnil
    by (intros d Hd; by apply elem_of_nil in Hd).
  destruct (hotKeyBatcher this) as [b |].
  - pose proof (flush_down b (client this) Hc) as Hb.
    destruct (flush b (client this)) as [[b' c'] ds]. cbn [fst snd] in Hb.
    destruct (perSecondBatcher this) as [psb |]; [| done].
    destruct (perSecondClient this) as [psc |]; [| done].
    pose proof (flush_down psb psc (Hpsc psc eq_refl)) as Hps.
    destruct (flush psb psc) as [[psb' psc'] psDs]. done.
  - destruct (perSecondBatcher this) as [psb |]; [| done].
    destruct (perSecondClient this) as [psc |]; [| done].
    pose proof (flush_down psb psc (Hpsc psc eq_refl)) as Hps.
    destruct (flush psb psc) as [[psb' psc'] psDs]. done.
Qed.

Lemma doLimitArgs_down (this : fixedRateLimitCacheImpl) (clock : nat -> Z)
    (cacheKeys : list CacheKey) (limits : list (option RateLimit))
    (hitsAddends : list Z) :
  down (client this) ->
  (forall psc, perSecondClient this = Some psc -> down psc) ->
  length hitsAddends = length cacheKeys ->
  length limits = length cacheKeys ->
  (forall i ck, cacheKeys !! i = Some ck -> Key ck <> "" ->
     exists lim, limits !! i = Some (Some lim)) ->
  (forall d, hotKeyDetector this = Some d -> consistent d) ->
  let r := doLimitArgs IsOverLimitWithLocalCache IsOverLimitThresholdReached
             UnitToDivider ExpirationJitterMaxSeconds Int63n Sum64 scale
             this clock cacheKeys limits hitsAddends in
  match countedFrom 0 cacheKeys (overLimitFlags IsOverLimitWithLocalCache cacheKeys) with
  | [] => exists args, r.2 = Ok args /\ length args = length cacheKeys
  | _ :: _ => r.2 = RedisError err
  end.
Proof.
  intros Hc Hpsc Hh Hl Hlim Hdet. unfold doLimitArgs.
  set (flags := overLimitFlags IsOverLimitWithLocalCache cacheKeys).
  assert (length flags = length cacheKeys) as Hf
    by (unfold flags, overLimitFlags; apply length_map).
  pose proof (preRead_down this cacheKeys limits hitsAddends (anyTrue flags) Hc Hpsc Hh Hl)
    as Hpre.
  destruct (preRead IsOverLimitThresholdReached this cacheKeys limits hitsAddends
              (anyTrue flags)) as [this1 near0]. cbn [fst snd] in Hpre.
  destruct Hpre as [(Hstop & Hex & ->) | (Hcase & (near & -> & Hnear) & Hc1 & Hpsc1 &
                                           Hd1 & Hb1 & Hpsb1)].
  { (* the pre-read fails, and a key to read is a descriptor to count *)
    cbn [snd].
    apply andb_true_iff in Hstop as [_ Hover]. apply negb_true_iff in Hover.
    apply Exists_exists in Hex as (ck & Hck & He).
    apply list_elem_of_lookup in Hck as [i Hi].
    assert (i ∈ countedFrom 0 cacheKeys flags) as Hin.
    { apply elem_of_countedFrom. split; [lia |]. exists ck. rewrite Nat.sub_0_r.
      split_and!; try done. intros Ht.
      assert (anyTrue flags = true); [| congruence].
      unfold anyTrue. apply existsb_exists. exists true. split; [| done].
      apply list_elem_of_In. by apply (list_elem_of_lookup_2 _ i). }
    destruct (countedFrom 0 cacheKeys flags); [by apply elem_of_nil in Hin | done]. }
  set (st0 := mkIncr (hotKeyDetector this1) (hotKeyBatcher this1)
                     (perSecondBatcher this1) ∅ ∅ ∅).
  assert (answerable (bool_decide (is_Some (perSecondClient this1))) st0) as Hans0.
  { split; [cbn [detector st0]; by rewrite Hd1 |].
    intros i ps ch Hi. cbn in Hi. by rewrite lookup_empty in Hi. }
  destruct (incrementLoop_ok UnitToDivider ExpirationJitterMaxSeconds Int63n Sum64 scale
              this1 clock limits hitsAddends flags near
              (anyTrue flags) (anyTrue near) cacheKeys 0 st0 Hans0)
    as (st & Hloop & [Hdet' Hch]); try lia.
  { intros k ck Hk He. apply (Hlim k ck Hk).
    unfold isEmptyKey in He. by apply bool_decide_eq_false in He. }
  rewrite Hloop.
  (* what the loop has built *)
  pose proof (incrementLoop_served _ _ _ _ _ _ _ _ _ _ _ _ _ _ _ _ _ Hloop) as Hserved.
  specialize (Hserved ltac:(intros k Hk; cbn in Hk; rewrite lookup_empty in Hk;
                            by destruct Hk)).
  assert (served st0 = []) as Hnil0.
  { unfold served, receivers, st0.
    cbn [pipelines perSecondPipelines hotKeyResultChans].
    by rewrite !map_to_list_empty. }
  rewrite Hnil0 in Hserved. cbn [app] in Hserved.
  destruct (incrementLoop_paired _ _ _ _ _ _ _ _ _ _ _ _ _ _ _ _ _ Hloop
              paired_empty paired_empty) as [Hpair Hpspair].
  destruct (incrementLoop_grouped _ _ _ _ _ _ _ _ _ _ _ _ _ _ _ _ _ Hloop
              (singleSlot_empty _)
              ltac:(cbn [perSecondPipelines st0];
                    destruct (perSecondClient this1); [apply singleSlot_empty | done]))
    as [_ Hgrouped].
  assert (down (client this1)) as Hc1' by (by rewrite Hc1).
  assert (forall psc, perSecondClient this1 = Some psc -> down psc) as Hpsc1'
    by (intros psc Hp; apply Hpsc; by rewrite <- Hpsc1).
  (* the pipelines of the two clients *)
  destruct (doAll_down (pipelinesOf (pipelines st)) (client this1)
              (replicate (length cacheKeys) 0) None Hc1'
              (paired_nonempty _ Hpair) ltac:(by left)) as (He1 & Hr1 & Hdc).
  destruct (doAll (client this1) (pipelinesOf (pipelines st))
              (replicate (length cacheKeys) 0) None) as [[c results1] err1].
  cbn [fst snd] in He1, Hr1, Hdc. subst results1.
  assert (exists psc results pipelineErr,
            (match perSecondClient this1 with
             | Some psc =>
                 let '(psc, results, pipelineErr) :=
                   doAll psc (pipelinesOf (perSecondPipelines st))
                         (replicate (length cacheKeys) 0) err1 in
                 (Some psc, results, pipelineErr)
             | None => (None, replicate (length cacheKeys) 0, err1)
             end) = (psc, results, pipelineErr) /\
            length results = length cacheKeys /\
            (is_Some psc <-> is_Some (perSecondClient this1)) /\
            (forall psc', psc = Some psc' -> down psc') /\
            (pipelineErr = Some err /\
             (pipelines st <> ∅ \/ perSecondPipelines st <> ∅) \/
             pipelineErr = None /\ pipelines st = ∅ /\ perSecondPipelines st = ∅))
    as (psc & results & pipelineErr & -> & Hlen & Hsome & Hdpsc & Herr).
  { assert (err1 = None /\ pipelines st = ∅ \/ err1 = Some err /\ pipelines st <> ∅)
      as Herr1.
    { destruct (pipelinesOf (pipelines st)) eqn:Hps.
      - left. split; [done |].
        destruct (decide (pipelines st = ∅)) as [? | Hne]; [done |].
        by apply pipelinesOf_nonempty in Hne.
      - right. split; [done |]. intros Hm. by rewrite Hm in Hps. }
    destruct (perSecondClient this1) as [psc |] eqn:Hp.
    - destruct (doAll_down (pipelinesOf (perSecondPipelines st)) psc
                  (replicate (length cacheKeys) 0) err1 (Hpsc1' psc eq_refl)
                  (paired_nonempty _ Hpspair)
                  ltac:(destruct Herr1 as [[-> _] | [-> _]]; [by left | by right]))
        as (He2 & Hr2 & Hdpsc).
      destruct (doAll psc (pipelinesOf (perSecondPipelines st))
                  (replicate (length cacheKeys) 0) err1) as [[psc' results] err2].
      cbn [fst snd] in He2, Hr2, Hdpsc. subst results.
      exists (Some psc'), (replicate (length cacheKeys) 0), err2.
      split_and!; try done; [apply length_replicate | by intros ? [= <-] |].
      destruct (pipelinesOf (perSecondPipelines st)) eqn:Hps.
      + assert (perSecondPipelines st = ∅) as Hm.
        { destruct (decide (perSecondPipelines st = ∅)) as [? | Hne]; [done |].
          by apply pipelinesOf_nonempty in Hne. }
        subst err2. destruct Herr1 as [[-> ?] | [-> ?]]; [by right | left].
        split; [done | by left].
      + left. split; [done |]. right. intros Hm. by rewrite Hm in Hps.
    - exists None, (replicate (length cacheKeys) 0), err1.
      split_and!; try done; [apply length_replicate |].
      destruct Herr1 as [[-> ?] | [-> ?]]; [by right | left; split; [done | by left]]. }
  destruct Herr as [[-> Hsome'] | (-> & Hm & Hpsm)].
  { (* a pipeline failed, and it was built for a counted descriptor *)
    cbn [snd].
    assert (served st <> []) as Hne.
    { unfold served. intros Hs.
      apply app_eq_nil in Hs as [Hs1 Hs2]. apply app_eq_nil in Hs2 as [Hs2 _].
      destruct Hsome' as [Hx | Hx]; apply Hx; by apply paired_receivers. }
    destruct (countedFrom 0 cacheKeys flags); [| done].
    by apply Permutation_nil_r in Hserved. }
  (* no pipeline: the request waits for the batchers, which the flush answers *)
  set (this2 := mkImpl c psc (stopCacheKeyIncrementWhenOverlimit this1)
                       (detector st) (batcher st) (psBatcher st)).
  pose proof (flushTick_chans this2) as (_ & Hds & Hpsds).
  destruct (flushTick_down this2 Hdc Hdpsc) as [Hdsdown Hpsdsdown].
  destruct (flushTick this2) as [[this3 ds] psDs]. cbn [fst snd] in *.
  assert (forall i ps ch, (i, (ps, ch)) ∈ map_to_list (hotKeyResultChans st) ->
            ch ∈ (if (ps : bool) then psDs else ds).*1) as Hdeliver.
  { intros i ps ch Hin. apply elem_of_map_to_list in Hin.
    specialize (Hch i ps ch Hin). destruct ps.
    - destruct Hch as (Hps & b & Hb & Hcin). apply bool_decide_eq_true in Hps.
      rewrite (Hpsds b Hb); [done |]. by apply Hsome.
    - destruct Hch as (b & Hb & Hcin). by rewrite (Hds b Hb). }
  assert ((map_to_list (hotKeyResultChans st)).*1 ≡ₚ countedFrom 0 cacheKeys flags)
    as Hchans.
  { rewrite <- Hserved. unfold served, receivers. rewrite Hm, Hpsm.
    by rewrite !map_to_list_empty. }
  destruct (countedFrom 0 cacheKeys flags) as [| x counted].
  - apply Permutation_nil_r in Hchans. apply fmap_nil_inv in Hchans.
    rewrite Hchans. cbn [awaitLoop mbind result_bind].
    destruct (verdictLoop_ok cacheKeys limits hitsAddends results flags 0
                ltac:(lia) ltac:(lia) ltac:(lia) ltac:(lia)) as (args & -> & Hargs).
    by exists args.
  - destruct (map_to_list (hotKeyResultChans st)) as [| [i [ps ch]] chans] eqn:Hlist.
    { symmetry in Hchans. by apply Permutation_nil_r in Hchans. }
    cbn [awaitLoop].
    destruct (receive_Some (if ps then psDs else ds) ch
                (Hdeliver i ps ch ltac:(left))) as [r Hr].
    rewrite Hr. cbn [fromOption mbind result_bind].
    apply receive_elem in Hr.
    assert (Err r = Some err) as ->; [| done].
    destruct ps; [apply (Hpsdsdown (ch, r) Hr) | apply (Hdsdown (ch, r) Hr)].
Qed.

(** A store that is down. While the store answers every pipeline with
    an error, a well-formed request that has a descriptor to count (a
    cache key that the local cache does not flag) fails with that error,
    whichever way the descriptor is served: by the pre-read, by a slot
    pipeline, or by a batcher, whose flush hands the error to the request.
    No descriptor is answered as if it were under its limit. A request
    with nothing to count is answered in full without the store. *)
Theorem DoLimit_fails_when_store_is_down (this : fixedRateLimitCacheImpl)
    (clock : nat -> Z) (cacheKeys : list CacheKey) (limits : list (option RateLimit))
    (hitsAddends : list Z) :
  down (client this) ->
  (forall psc, perSecondClient this = Some psc -> down psc) ->
  length hitsAddends = length cacheKeys ->
  length limits = length cacheKeys ->
  (forall i ck, cacheKeys !! i = Some ck -> Key ck <> "" ->
     exists lim, limits !! i = Some (Some lim)) ->
  (forall d, hotKeyDetector this = Some d -> consistent d) ->
  let r := DoLimit IsOverLimitWithLocalCache IsOverLimitThresholdReached UnitToDivider
             ExpirationJitterMaxSeconds Int63n Status GetResponseDescriptorStatus
             Sum64 scale this clock cacheKeys limits hitsAddends in
  ((exists i ck, cacheKeys !! i = Some ck /\ Key ck <> "" /\
                 IsOverLimitWithLocalCache (Key ck) = false) ->
   r.2 = RedisError err) /\
  ((forall ck, ck ∈ cacheKeys -> Key ck = "" \/ IsOverLimitWithLocalCache (Key ck) = true) ->
   exists statuses, r.2 = Ok statuses /\ length statuses = length cacheKeys).
Proof.
  intros Hc Hpsc Hh Hl Hlim Hdet.
  pose proof (doLimitArgs_down this clock cacheKeys limits hitsAddends
                Hc Hpsc Hh Hl Hlim Hdet) as Hargs.
  cbv zeta in Hargs. unfold DoLimit.
  destruct (doLimitArgs _ _ _ _ _ _ _ this clock cacheKeys limits hitsAddends)
    as [this' r]. cbn [fst snd] in *.
  split.
  - intros (i & ck & Hck & Hkey & Hflag).
    assert (i ∈ countedFrom 0 cacheKeys
                  (overLimitFlags IsOverLimitWithLocalCache cacheKeys)) as Hin.
    { apply elem_of_countedFrom. split; [lia |]. exists ck. rewrite Nat.sub_0_r.
      assert (isEmptyKey ck = false) as He
        by (unfold isEmptyKey; by apply bool_decide_eq_false).
      split_and!; try done.
      rewrite (overLimitFlags_lookup _ _ _ _ Hck), He, Hflag. done. }
    destruct (countedFrom 0 cacheKeys _); [by apply elem_of_nil in Hin |].
    by rewrite Hargs.
  - intros Hskip.
    destruct (countedFrom 0 cacheKeys
                (overLimitFlags IsOverLimitWithLocalCache cacheKeys)) as [| i l] eqn:Hcounted.
    + destruct Hargs as (args & -> & Hlen). cbn [mbind result_bind].
      eexists. split; [reflexivity |]. by rewrite length_map.
    + exfalso.
      assert (i ∈ countedFrom 0 cacheKeys
                    (overLimitFlags IsOverLimitWithLocalCache cacheKeys)) as Hin
        by (rewrite Hcounted; left).
      apply elem_of_countedFrom in Hin as (_ & ck & Hck & He & Hflag).
      rewrite Nat.sub_0_r in Hck.
      rewrite (overLimitFlags_lookup _ _ _ _ Hck), He in Hflag.
      unfold isEmptyKey in He. apply bool_decide_eq_false in He.
      destruct (Hskip ck (list_elem_of_lookup_2 _ _ _ Hck)) as [? | Ht]; [done |].
      by rewrite Ht in Hflag.
Qed.

End EngineDown.

(** A store that refuses every pipeline, and a request on a key that the
    detector reports hot at once: the error comes back through the batcher. *)
Lemma DoLimit_fails_when_store_is_down_witness :
  let store := MemStore.mkStore ∅ ∅ true (Some "down") in
  let det := Detector.NewHotKeyDetector (Detector.mkDetectorConfig 0 2 1 10 10000000000) 0 in
  let this := Engine.mkImpl store None false (Some det)
                (Some (Batcher.NewHotKeyBatcher 0)) None in
  let cacheKeys := [Engine.mkCacheKey "dom_k_v_0" false; Engine.mkCacheKey "" false] in
  let limits := [Some (Engine.mkRateLimit 2 10 false); None] in
  (Engine.DoLimit (fun _ => false) (fun _ => false) (fun _ => 60) 0 (fun _ _ => 0)
     unit (fun _ _ _ _ => tt) XXH.Sum64 (fun c => c / 2)
     this (fun _ => 0) cacheKeys limits [2; 1]).2 = RedisError "down".
Proof.
  intros store det this cacheKeys limits.
  assert (forall (c : MemStore.Store) (cmds : list Command),
            MemStore.failure c = Some "down" ->
            (Exec c cmds).2 = inl "down" /\ MemStore.failure (Exec c cmds).1 = Some "down")
    as Hdown.
  { intros c cmds Hc. cbn [Exec MemStore.storeClient]. unfold MemStore.exec.
    rewrite Hc. done. }
  assert (forall i ck, cacheKeys !! i = Some ck -> Engine.Key ck <> "" ->
            exists lim, limits !! i = Some (Some lim)) as Hlim.
  { intros [| [| i]] ck Hck Hne; simpl in Hck.
    - by eexists.
    - injection Hck as <-. done.
    - done. }
  assert (forall d, Engine.hotKeyDetector this = Some d -> Detector.consistent d) as Hdet.
  { intros d [= <-]. apply NewHotKeyDetector_consistent. }
  refine (proj1 (DoLimit_fails_when_store_is_down (fun _ => false) (fun _ => false)
                   (fun _ => 60) 0 (fun _ _ => 0) unit (fun _ _ _ _ => tt)
                   XXH.Sum64 (fun c => c / 2) "down"
                   (fun c => MemStore.failure c = Some "down") Hdown
                   this (fun _ => 0) cacheKeys limits [2; 1]
                   eq_refl _ eq_refl eq_refl Hlim Hdet) _).
  - intros psc Hpsc. discriminate Hpsc.
  - exists 0%nat, (Engine.mkCacheKey "dom_k_v_0" false). split_and!; done.
Defined.

(** An engine without hot-key detection: both descriptors go through
    the pipelines. *)
Lemma DoLimit_without_detector_batches_nothing_witness :
  let this := Engine.mkImpl (MemStore.empty true) None false None None None in
  let cacheKeys := [Engine.mkCacheKey "foo" false; Engine.mkCacheKey "bar" false] in
  let lim := Some (Engine.mkRateLimit 2 10 false) in
  exists st,
    Engine.incrementLoop (fun _ => 60) 0 (fun _ _ => 0) XXH.Sum64 (fun c => c / 2)
      this (fun _ => 0) [lim; lim] [1; 1] [false; false] [false; false] false false
      0 cacheKeys (Engine.mkIncr None None None ∅ ∅ ∅) = Ok st /\
    Engine.hotKeyResultChans st = ∅ /\
    Engine.receivers (Engine.pipelines st) ++ Engine.receivers (Engine.perSecondPipelines st)
      ≡ₚ [0; 1]%nat.
Proof.
  intros this cacheKeys lim.
  destruct (Engine.incrementLoop (fun _ => 60) 0 (fun _ _ => 0) XXH.Sum64 (fun c => c / 2)
              this (fun _ => 0) [lim; lim] [1; 1] [false; false] [false; false]
              false false 0 cacheKeys (Engine.mkIncr None None None ∅ ∅ ∅))
    as [st | e |] eqn:Hloop;
    [| vm_compute in Hloop; discriminate Hloop | vm_compute in Hloop; discriminate Hloop].
  destruct (DoLimit_without_detector_batches_nothing _ _ _ _ _ this _ _ _ _ _ _ _ _ _
              (or_introl eq_refl) Hloop) as (Hch & _ & _ & _ & Hperm).
  exists st. split; [reflexivity |]. split; [exact Hch | exact Hperm].
Defined.

(** ** Fixed-window engine: the pipelines a request executes *)

Section EngineTrace.
Import Detector Batcher Engine.

Context {C : Type} `{Client C}.

Variable IsOverLimitWithLocalCache : string -> bool.
Variable IsOverLimitThresholdReached : LimitInfo -> bool.
Variable UnitToDivider : Z -> Z.
Variable ExpirationJitterMaxSeconds : Z.
Variable Int63n : nat -> Z -> Z.
Variable Status : Type.
Variable GetResponseDescriptorStatus : string -> LimitInfo -> bool -> Z -> Status.
Variable Sum64 : list Z -> Z.
Variable scale : Z -> Z.

Lemma PipeDo_traced {R : Type} (t : Traced C) (p : Pipeline R) :
  executed (PipeDo t p).1 = executed t ++ [map wire p].
Proof.
  unfold PipeDo. cbn [Exec tracedClient].
  by destruct (Exec (inner t) (map wire p)) as [c r].
Qed.

Lemma doEach_traced (ps : list (Pipeline nat)) :
  forall (t : Traced C) (arr : list Z),
  exists sent,
    executed (doEach t ps arr).1 = executed t ++ map (map wire) sent /\
    forall p, p ∈ sent -> p <> [] /\ p ∈ ps.
Proof.
  induction ps as [| p ps IH]; intros t arr; cbn [doEach].
  - exists []. cbn [map]. rewrite app_nil_r. split; [done |].
    intros p Hp. by apply elem_of_nil in Hp.
  - destruct (bool_decide (length p = 0%nat)) eqn:Hlen.
    + destruct (IH t arr) as (sent & Hlog & Hsent).
      exists sent. split; [done |].
      intros q Hq. destruct (Hsent q Hq). split; [done | by right].
    + apply bool_decide_eq_false in Hlen.
      assert (p <> []) as Hne by (intros ->; done).
      pose proof (PipeDo_traced t p) as Hdo.
      destruct (PipeDo t p) as [t' [err | writes]]; cbn [fst] in Hdo.
      * exists [p]. cbn [fst map]. split; [done |].
        intros q Hq. apply list_elem_of_singleton in Hq as ->. split; [done | left].
      * destruct (IH t' (applyWrites arr writes)) as (sent & Hlog & Hsent).
        exists (p :: sent). rewrite Hlog, Hdo. cbn [map].
        rewrite <- app_assoc. split; [done |].
        intros q Hq. apply elem_of_cons in Hq as [-> | Hq]; [split; [done | left] |].
        destruct (Hsent q Hq). split; [done | by right].
Qed.

Lemma doAll_traced (ps : list (Pipeline nat)) :
  forall (t : Traced C) (arr : list Z) (pipelineErr : option error),
  exists sent,
    executed (doAll t ps arr pipelineErr).1.1 = executed t ++ map (map wire) sent /\
    forall p, p ∈ sent -> p <> [] /\ p ∈ ps.
Proof.
  induction ps as [| p ps IH]; intros t arr pipelineErr; cbn [doAll].
  - exists []. cbn [map]. rewrite app_nil_r. split; [done |].
    intros p Hp. by apply elem_of_nil in Hp.
  - destruct (bool_decide (length p = 0%nat)) eqn:Hlen.
    + destruct (IH t arr pipelineErr) as (sent & Hlog & Hsent).
      exists sent. split; [done |].
      intros q Hq. destruct (Hsent q Hq). split; [done | by right].
    + apply bool_decide_eq_false in Hlen.
      assert (p <> []) as Hne by (intros ->; done).
      pose proof (PipeDo_traced t p) as Hdo.
      destruct (PipeDo t p) as [t' [err | writes]]; cbn [fst] in Hdo.
      * destruct (IH t' arr (Some (match pipelineErr with Some e => e | None => err end)))
          as (sent & Hlog & Hsent).
        exists (p :: sent). rewrite Hlog, Hdo. cbn [map].
        rewrite <- app_assoc. split; [done |].
        intros q Hq. apply elem_of_cons in Hq as [-> | Hq]; [split; [done | left] |].
        destruct (Hsent q Hq). split; [done | by right].
      * destruct (IH t' (applyWrites arr writes) pipelineErr) as (sent & Hlog & Hsent).
        exists (p :: sent). rewrite Hlog, Hdo. cbn [map].
        rewrite <- app_assoc. split; [done |].
        intros q Hq. apply elem_of_cons in Hq as [-> | Hq]; [split; [done | left] |].
        destruct (Hsent q Hq). split; [done | by right].
Qed.

(** A flush executes one pipeline, the one built of the whole batch,
    unless nothing is pending. *)
Lemma flush_traced (b : HotKeyBatcher) (t : Traced C) :
  executed (flush b t).1.2 =
  executed t ++
  (if bool_decide (size (pending b) = 0%nat) then []
   else [map wire (buildPipeline (map_to_list (pending b)))]).
Proof.
  unfold flush. destruct (bool_decide (size (pending b) = 0%nat)).
  - cbn [fst snd]. by rewrite app_nil_r.
  - pose proof (PipeDo_traced t (buildPipeline (map_to_list (pending b)))) as Hdo.
    by destruct (PipeDo t (buildPipeline (map_to_list (pending b)))) as [t' r].
Qed.

(** The pipelines sent out of a grouped slot map are one-slot command
    sequences. *)
Lemma sent_oneSlot (c : Traced C) (m : gmap Z (Pipeline nat)) (names : list string)
    (sent : list (Pipeline nat)) :
  singleSlot c m ->
  (forall slot p a, m !! slot = Some p -> a ∈ p -> cmd a ∈ names) ->
  (forall p, p ∈ sent -> p <> [] /\ p ∈ pipelinesOf m) ->
  Forall (fun cmds => oneSlot c cmds /\ named names cmds) (map (map wire) sent).
Proof.
  intros Hm Hnames Hsent.
  change (map (map wire) sent) with ((map (@wire nat)) <$> sent).
  apply Forall_fmap, Forall_forall. intros p Hp.
  destruct (Hsent p Hp) as [Hne Hin].
  apply pipelinesOf_lookup in Hin as [slot Hslot].
  cbn. split; [split |].
  - intros Hnil. apply Hne. by destruct p.
  - exists slot. intros cmd Hcmd.
    change (map wire p) with (wire <$> p) in Hcmd.
    apply list_elem_of_fmap in Hcmd as (a & -> & Ha).
    exact (Hm slot p Hslot a Ha).
  - intros cmd Hcmd.
    change (map wire p) with (wire <$> p) in Hcmd.
    apply list_elem_of_fmap in Hcmd as (a & -> & Ha).
    exact (Hnames slot p a Hslot Ha).
Qed.

Lemma readsOnly_named (m : gmap Z (Pipeline nat)) :
  readsOnly m -> forall slot p a, m !! slot = Some p -> a ∈ p -> cmd a ∈ ["GET"].
Proof.
  intros Hm slot p a Hp Ha. destruct (Hm slot p Hp) as [_ Hall].
  destruct (Hall a Ha) as (-> & _). left.
Qed.

Lemma paired_named (m : gmap Z (Pipeline nat)) :
  paired m ->
  forall slot p a, m !! slot = Some p -> a ∈ p -> cmd a ∈ ["INCRBY"; "EXPIRE"].
Proof.
  intros Hm slot p a Hp Ha. destruct (Hm slot p Hp) as (entries & _ & ->).
  unfold incrPairs in Ha. apply elem_of_flat_map in Ha as ([[[k hits] i] e] & _ & Ha).
  apply elem_of_cons in Ha as [-> | Ha]; [left |].
  apply list_elem_of_singleton in Ha as ->. right. left.
Qed.

Lemma flush_flushedBatch (b : HotKeyBatcher) (t : Traced C) :
  exists flushed,
    executed (flush b t).1.2 = executed t ++ flushed /\ flushedBatch flushed.
Proof.
  rewrite flush_traced.
  destruct (bool_decide (size (pending b) = 0%nat)) eqn:Hsize.
  - exists []. split; [done | by left].
  - apply bool_decide_eq_false in Hsize.
    eexists. split; [reflexivity |]. right. by exists b.
Qed.

Lemma flushTick_traced (this : @fixedRateLimitCacheImpl (Traced C)) :
  (exists flushed,
     executed (client (flushTick this).1.1) = executed (client this) ++ flushed /\
     flushedBatch flushed) /\
  match perSecondClient this with
  | Some psc =>
      exists psc' flushed,
        perSecondClient (flushTick this).1.1 = Some psc' /\
        executed psc' = executed psc ++ flushed /\
        flushedBatch flushed
  | None => perSecondClient (flushTick this).1.1 = None
  end.
Proof.
  unfold flushTick.
  assert (exists b c ds,
            (match hotKeyBatcher this with
             | Some b => let '(b, c, ds) := flush b (client this) in (Some b, c, ds)
             | None => (None, client this, [])
             end) = (b, c, ds) /\
            exists flushed,
              executed c = executed (client this) ++ flushed /\ flushedBatch flushed)
    as (b & c & ds & -> & Hmain).
  { destruct (hotKeyBatcher this) as [b |].
    - pose proof (flush_flushedBatch b (client this)) as Hf.
      destruct (flush b (client this)) as [[b' c'] ds]. cbn [fst snd] in Hf.
      by exists (Some b'), c', ds.
    - exists None, (client this), []. split; [done |].
      exists []. rewrite app_nil_r. split; [done | by left]. }
  destruct (perSecondBatcher this) as [psb |]; destruct (perSecondClient this) as [psc |].
  - pose proof (flush_flushedBatch psb psc) as (flushed & Hlog & Hf).
    destruct (flush psb psc) as [[psb' psc'] psDs]. cbn [fst snd client perSecondClient] in *.
    split; [done |]. by exists psc', flushed.
  - cbn [fst snd client perSecondClient]. done.
  - cbn [fst snd client perSecondClient]. split; [done |].
    exists psc, []. rewrite app_nil_r. split; [done |]. split; [done | by left].
  - cbn [fst snd client perSecondClient]. done.
Qed.

(** The pre-read executes GET pipelines only, each of one slot of the
    client it is sent to. *)
Lemma preRead_traced (this : @fixedRateLimitCacheImpl (Traced C))
    (cacheKeys : list CacheKey)
    (limits : list (option RateLimit)) (hitsAddends : list Z) (isOver : bool) :
  (exists gets,
     executed (client (preRead IsOverLimitThresholdReached this cacheKeys limits
                         hitsAddends isOver).1)
     = executed (client this) ++ gets /\
     Forall (fun cmds => oneSlot (client this) cmds /\ named ["GET"] cmds) gets) /\
  match perSecondClient this with
  | Some psc =>
      exists psc' gets,
        perSecondClient (preRead IsOverLimitThresholdReached this cacheKeys limits
                           hitsAddends isOver).1 = Some psc' /\
        executed psc' = executed psc ++ gets /\
        Forall (fun cmds => oneSlot psc cmds /\ named ["GET"] cmds) gets
  | None =>
      perSecondClient (preRead IsOverLimitThresholdReached this cacheKeys limits
                         hitsAddends isOver).1 = None
  end.
Proof.
  assert (forall t : Traced C, executed t = executed t ++ [] /\
            Forall (fun cmds => oneSlot t cmds /\ named ["GET"] cmds) []) as Hnone.
  { intros t. rewrite app_nil_r. split; [done | apply Forall_nil_2]. }
  unfold preRead.
  destruct (stopCacheKeyIncrementWhenOverlimit this && negb isOver).
  - assert (match perSecondClient this with
            | Some psc => singleSlot psc ∅
            | None => (∅ : gmap Z (Pipeline nat)) = ∅
            end) as Hempty.
    { destruct (perSecondClient this); [apply singleSlot_empty | done]. }
    pose proof (getLoop_grouped this cacheKeys 0 (∅, ∅) (singleSlot_empty _) Hempty)
      as [Hg Hpsg].
    pose proof (getLoop_readsOnly this cacheKeys 0 (∅, ∅) readsOnly_empty readsOnly_empty)
      as [Hr Hpsr].
    destruct (getLoop this 0 cacheKeys (∅, ∅)) as [g psg]. cbn [fst snd] in *.
    destruct (doEach_traced (pipelinesOf g) (client this)
                (replicate (length cacheKeys) 0)) as (sent & Hlog & Hsent).
    destruct (doEach (client this) (pipelinesOf g) (replicate (length cacheKeys) 0))
      as [c r]. cbn [fst] in Hlog.
    assert (Forall (fun cmds => oneSlot (client this) cmds /\ named ["GET"] cmds)
                   (map (map wire) sent)) as Hgets
      by (apply (sent_oneSlot _ g); [done | by apply readsOnly_named | done]).
    destruct r as [currentCount | e |]; cbn [perSecondClient].
    + destruct (perSecondClient this) as [psc |] eqn:Hpsc.
      * destruct (doEach_traced (pipelinesOf psg) psc currentCount)
          as (psSent & HpsLog & HpsSent).
        destruct (doEach psc (pipelinesOf psg) currentCount) as [psc' r'].
        cbn [fst snd client perSecondClient] in *.
        split; [by exists (map (map wire) sent) |].
        exists psc', (map (map wire) psSent). split; [done |]. split; [done |].
        apply (sent_oneSlot _ psg); [done | by apply readsOnly_named | done].
      * cbn [fst snd client perSecondClient].
        split; [by exists (map (map wire) sent) | done].
    + cbn [fst snd client perSecondClient].
      split; [by exists (map (map wire) sent) |].
      destruct (perSecondClient this) as [psc |]; [| done].
      exists psc, []. split; [done |]. apply Hnone.
    + cbn [fst snd client perSecondClient].
      split; [by exists (map (map wire) sent) |].
      destruct (perSecondClient this) as [psc |]; [| done].
      exists psc, []. split; [done |]. apply Hnone.
  - cbn [fst]. split; [exists []; apply Hnone |].
    destruct (perSecondClient this) as [psc |]; [| done].
    exists psc, []. split; [done |]. apply Hnone.
Qed.

(** Recording changes nothing: a call on recording clients does to the
    clients they wrap, and returns, what the call on those clients does. *)
Lemma PipeDo_inner {R : Type} (t : Traced C) (p : Pipeline R) :
  inner (PipeDo t p).1 = (PipeDo (inner t) p).1 /\
  (PipeDo t p).2 = (PipeDo (inner t) p).2.
Proof.
  unfold PipeDo. cbn [Exec tracedClient].
  by destruct (Exec (inner t) (map wire p)) as [c r].
Qed.

Lemma doEach_inner (ps : list (Pipeline nat)) :
  forall (t : Traced C) (arr : list Z),
  inner (doEach t ps arr).1 = (doEach (inner t) ps arr).1 /\
  (doEach t ps arr).2 = (doEach (inner t) ps arr).2.
Proof.
  induction ps as [| p ps IH]; intros t arr; cbn [doEach]; [done |].
  destruct (bool_decide (length p = 0%nat)); [apply IH |].
  pose proof (PipeDo_inner t p) as [Hc Hr].
  destruct (PipeDo t p) as [t' r]. destruct (PipeDo (inner t) p) as [c' r'].
  cbn [fst snd] in Hc, Hr. subst c' r'.
  destruct r as [err | writes]; [done | apply IH].
Qed.

Lemma doAll_inner (ps : list (Pipeline nat)) :
  forall (t : Traced C) (arr : list Z) (pipelineErr : option error),
  inner (doAll t ps arr pipelineErr).1.1 = (doAll (inner t) ps arr pipelineErr).1.1 /\
  (doAll t ps arr pipelineErr).1.2 = (doAll (inner t) ps arr pipelineErr).1.2 /\
  (doAll t ps arr pipelineErr).2 = (doAll (inner t) ps arr pipelineErr).2.
Proof.
  induction ps as [| p ps IH]; intros t arr pipelineErr; cbn [doAll]; [done |].
  destruct (bool_decide (length p = 0%nat)); [apply IH |].
  pose proof (PipeDo_inner t p) as [Hc Hr].
  destruct (PipeDo t p) as [t' r]. destruct (PipeDo (inner t) p) as [c' r'].
  cbn [fst snd] in Hc, Hr. subst c' r'.
  destruct r as [err | writes]; apply IH.
Qed.

Lemma flush_inner (b : HotKeyBatcher) (t : Traced C) :
  (flush b t).1.1 = (flush b (inner t)).1.1 /\
  inner (flush b t).1.2 = (flush b (inner t)).1.2 /\
  (flush b t).2 = (flush b (inner t)).2.
Proof.
  unfold flush. destruct (bool_decide (size (pending b) = 0%nat)); [done |].
  pose proof (PipeDo_inner t (buildPipeline (map_to_list (pending b)))) as [Hc Hr].
  destruct (PipeDo t (buildPipeline (map_to_list (pending b)))) as [t' r].
  destruct (PipeDo (inner t) (buildPipeline (map_to_list (pending b)))) as [c' r'].
  cbn [fst snd] in *. by subst c' r'.
Qed.

Lemma usesPerSecond_untraced (this : @fixedRateLimitCacheImpl (Traced C)) (ck : CacheKey) :
  usesPerSecond (untraced this) ck = inner <$> usesPerSecond this ck.
Proof.
  unfold usesPerSecond, untraced. cbn [perSecondClient].
  destruct (perSecondClient this); [| done]. by destruct (PerSecond ck).
Qed.

Lemma getLoop_untraced (this : @fixedRateLimitCacheImpl (Traced C))
    (cacheKeys : list CacheKey) :
  forall (i : nat) (maps : GetMaps),
  getLoop (untraced this) i cacheKeys maps = getLoop this i cacheKeys maps.
Proof.
  induction cacheKeys as [| ck rest IH]; intros i maps; cbn [getLoop]; [done |].
  rewrite IH. f_equal. unfold appendGet. destruct maps as [g psg].
  destruct (isEmptyKey ck); [done |].
  rewrite usesPerSecond_untraced. by destruct (usesPerSecond this ck).
Qed.

Lemma preRead_untraced (this : @fixedRateLimitCacheImpl (Traced C))
    (cacheKeys : list CacheKey) (limits : list (option RateLimit))
    (hitsAddends : list Z) (isOver : bool) :
  untraced (preRead IsOverLimitThresholdReached this cacheKeys limits hitsAddends isOver).1
  = (preRead IsOverLimitThresholdReached (untraced this) cacheKeys limits hitsAddends
       isOver).1 /\
  (preRead IsOverLimitThresholdReached this cacheKeys limits hitsAddends isOver).2
  = (preRead IsOverLimitThresholdReached (untraced this) cacheKeys limits hitsAddends
       isOver).2.
Proof.
  unfold preRead. rewrite getLoop_untraced.
  cbn [untraced client perSecondClient stopCacheKeyIncrementWhenOverlimit hotKeyDetector
       hotKeyBatcher perSecondBatcher].
  destruct (stopCacheKeyIncrementWhenOverlimit this && negb isOver); [| done].
  destruct (getLoop this 0 cacheKeys (∅, ∅)) as [g psg].
  pose proof (doEach_inner (pipelinesOf g) (client this) (replicate (length cacheKeys) 0))
    as [Hc Hr].
  destruct (doEach (client this) (pipelinesOf g) (replicate (length cacheKeys) 0))
    as [t r].
  destruct (doEach (inner (client this)) (pipelinesOf g) (replicate (length cacheKeys) 0))
    as [c r'].
  cbn [fst snd] in Hc, Hr. subst c r'.
  destruct r as [currentCount | e |]; cbn [perSecondClient]; [| done | done].
  destruct (perSecondClient this) as [psc |]; [| done].
  cbn [fmap option_fmap option_map].
  pose proof (doEach_inner (pipelinesOf psg) psc currentCount) as [Hc Hr].
  destruct (doEach psc (pipelinesOf psg) currentCount) as [t' r].
  destruct (doEach (inner psc) (pipelinesOf psg) currentCount) as [c' r'].
  cbn [fst snd] in Hc, Hr. subst c' r'. done.
Qed.

Lemma incrementLoop_untraced (this : @fixedRateLimitCacheImpl (Traced C))
    (clock : nat -> Z) (limits : list (option RateLimit)) (hitsAddends : list Z)
    (overlimitIndexes nearlimitIndexes : list bool) (isOver isNear : bool)
    (cacheKeys : list CacheKey) :
  forall (i : nat) (st : IncrState),
  incrementLoop UnitToDivider ExpirationJitterMaxSeconds Int63n Sum64 scale
    (untraced this) clock limits hitsAddends overlimitIndexes nearlimitIndexes
    isOver isNear i cacheKeys st
  = incrementLoop UnitToDivider ExpirationJitterMaxSeconds Int63n Sum64 scale
      this clock limits hitsAddends overlimitIndexes nearlimitIndexes
      isOver isNear i cacheKeys st.
Proof.
  induction cacheKeys as [| ck rest IH]; intros i st; cbn [incrementLoop]; [done |].
  assert (incrementStep UnitToDivider ExpirationJitterMaxSeconds Int63n Sum64 scale
            (untraced this) clock limits hitsAddends overlimitIndexes nearlimitIndexes
            isOver isNear st i ck
          = incrementStep UnitToDivider ExpirationJitterMaxSeconds Int63n Sum64 scale
              this clock limits hitsAddends overlimitIndexes nearlimitIndexes
              isOver isNear st i ck) as ->.
  { unfold incrementStep. rewrite usesPerSecond_untraced.
    destruct (usesPerSecond this ck); reflexivity. }
  destruct (incrementStep _ _ _ _ _ this clock limits hitsAddends overlimitIndexes
              nearlimitIndexes isOver isNear st i ck) as [st1 | e |]; cbn; [apply IH | done | done].
Qed.

Lemma flushTick_untraced (this : @fixedRateLimitCacheImpl (Traced C)) :
  untraced (flushTick this).1.1 = (flushTick (untraced this)).1.1 /\
  (flushTick this).1.2 = (flushTick (untraced this)).1.2 /\
  (flushTick this).2 = (flushTick (untraced this)).2.
Proof.
  unfold flushTick.
  cbn [untraced client perSecondClient stopCacheKeyIncrementWhenOverlimit hotKeyDetector
       hotKeyBatcher perSecondBatcher].
  assert (exists b t ds,
            (match hotKeyBatcher this with
             | Some b => let '(b, c, ds) := flush b (client this) in (Some b, c, ds)
             | None => (None, client this, [])
             end) = (b, t, ds) /\
            (match hotKeyBatcher this with
             | Some b => let '(b, c, ds) := flush b (inner (client this)) in (Some b, c, ds)
             | None => (None, inner (client this), [])
             end) = (b, inner t, ds)) as (b & t & ds & -> & ->).
  { destruct (hotKeyBatcher this) as [b |].
    - pose proof (flush_inner b (client this)) as (Hb & Hc & Hds).
      destruct (flush b (client this)) as [[b1 t1] ds1].
      destruct (flush b (inner (client this))) as [[b2 c2] ds2].
      cbn [fst snd] in *. subst. by exists (Some b2), t1, ds2.
    - by exists None, (client this), []. }
  destruct (perSecondBatcher this) as [psb |]; destruct (perSecondClient this) as [psc |];
    cbn [fmap option_fmap option_map]; try done.
  pose proof (flush_inner psb psc) as (Hb & Hc & Hds).
  destruct (flush psb psc) as [[b1 t1] ds1].
  destruct (flush psb (inner psc)) as [[b2 c2] ds2].
  cbn [fst snd] in *. by subst.
Qed.

Lemma doLimitArgs_untraced (this : @fixedRateLimitCacheImpl (Traced C)) (clock : nat -> Z)
    (cacheKeys : list CacheKey) (limits : list (option RateLimit)) (hitsAddends : list Z) :
  untraced (doLimitArgs IsOverLimitWithLocalCache IsOverLimitThresholdReached
              UnitToDivider ExpirationJitterMaxSeconds Int63n Sum64 scale
              this clock cacheKeys limits hitsAddends).1
  = (doLimitArgs IsOverLimitWithLocalCache IsOverLimitThresholdReached
       UnitToDivider ExpirationJitterMaxSeconds Int63n Sum64 scale
       (untraced this) clock cacheKeys limits hitsAddends).1 /\
  (doLimitArgs IsOverLimitWithLocalCache IsOverLimitThresholdReached
     UnitToDivider ExpirationJitterMaxSeconds Int63n Sum64 scale
     this clock cacheKeys limits hitsAddends).2
  = (doLimitArgs IsOverLimitWithLocalCache IsOverLimitThresholdReached
       UnitToDivider ExpirationJitterMaxSeconds Int63n Sum64 scale
       (untraced this) clock cacheKeys limits hitsAddends).2.
Proof.
  unfold doLimitArgs.
  set (flags := overLimitFlags IsOverLimitWithLocalCache cacheKeys).
  pose proof (preRead_untraced this cacheKeys limits hitsAddends (anyTrue flags))
    as [Hthis Hnear].
  destruct (preRead IsOverLimitThresholdReached this cacheKeys limits hitsAddends
              (anyTrue flags)) as [this1 near].
  destruct (preRead IsOverLimitThresholdReached (untraced this) cacheKeys limits
              hitsAddends (anyTrue flags)) as [u1 near'].
  cbn [fst snd] in Hthis, Hnear. subst u1 near'.
  destruct near as [near | e |]; [| done | done].
  rewrite incrementLoop_untraced.
  cbn [untraced client perSecondClient stopCacheKeyIncrementWhenOverlimit hotKeyDetector
       hotKeyBatcher perSecondBatcher].
  destruct (incrementLoop UnitToDivider ExpirationJitterMaxSeconds Int63n Sum64 scale
              this1 clock limits hitsAddends flags near (anyTrue flags) (anyTrue near)
              0 cacheKeys
              (mkIncr (hotKeyDetector this1) (hotKeyBatcher this1)
                      (perSecondBatcher this1) ∅ ∅ ∅)) as [st | e |]; [| done | done].
  pose proof (doAll_inner (pipelinesOf (pipelines st)) (client this1)
                (replicate (length cacheKeys) 0) None) as (Hc & Hres & Herr).
  destruct (doAll (client this1) (pipelinesOf (pipelines st))
              (replicate (length cacheKeys) 0) None) as [[t results1] err1].
  destruct (doAll (inner (client this1)) (pipelinesOf (pipelines st))
              (replicate (length cacheKeys) 0) None) as [[c results1'] err1'].
  cbn [fst snd] in Hc, Hres, Herr. subst c results1' err1'.
  assert (exists psc results err,
            (match perSecondClient this1 with
             | Some psc =>
                 let '(psc, results, pipelineErr) :=
                   doAll psc (pipelinesOf (perSecondPipelines st)) results1 err1 in
                 (Some psc, results, pipelineErr)
             | None => (None, results1, err1)
             end) = (psc, results, err) /\
            (match inner <$> perSecondClient this1 with
             | Some psc =>
                 let '(psc, results, pipelineErr) :=
                   doAll psc (pipelinesOf (perSecondPipelines st)) results1 err1 in
                 (Some psc, results, pipelineErr)
             | None => (None, results1, err1)
             end) = (inner <$> psc, results, err)) as (psc & results & err & -> & ->).
  { destruct (perSecondClient this1) as [psc1 |]; cbn [fmap option_fmap option_map].
    - pose proof (doAll_inner (pipelinesOf (perSecondPipelines st)) psc1 results1 err1)
        as (Hc & Hres & Herr).
      destruct (doAll psc1 (pipelinesOf (perSecondPipelines st)) results1 err1)
        as [[t2 results2] err2].
      destruct (doAll (inner psc1) (pipelinesOf (perSecondPipelines st)) results1 err1)
        as [[c2 results2'] err2'].
      cbn [fst snd] in Hc, Hres, Herr. subst. by exists (Some t2), results2', err2'.
    - by exists None, results1, err1. }
  destruct err as [e |]; [done |].
  pose proof (flushTick_untraced
                (mkImpl t psc (stopCacheKeyIncrementWhenOverlimit this1)
                        (detector st) (batcher st) (psBatcher st))) as (Hthis & Hds & HpsDs).
  unfold untraced at 2 in Hthis. unfold untraced at 1 in Hds. unfold untraced at 1 in HpsDs.
  cbn [client perSecondClient stopCacheKeyIncrementWhenOverlimit hotKeyDetector
       hotKeyBatcher perSecondBatcher] in Hthis, Hds, HpsDs.
  destruct (flushTick (mkImpl t psc (stopCacheKeyIncrementWhenOverlimit this1)
                         (detector st) (batcher st) (psBatcher st)))
    as [[this3 ds] psDs].
  destruct (flushTick (mkImpl (inner t) (inner <$> psc)
                         (stopCacheKeyIncrementWhenOverlimit this1)
                         (detector st) (batcher st) (psBatcher st)))
    as [[u3 ds'] psDs'].
  cbn [fst snd] in *. by subst.
Qed.


End EngineTrace.

(** ** Fixed-window engine: executed pipelines of concrete requests *)


